(** * Omega tree pool: reference-counted tree handles over a flat arena

    This development embeds [TreeReference<T>] (src/tree_reference.h) and
    checks the properties its specification states about it.

    The handle class is translated method by method.  [TreePool] and
    [TreeNode] are declared in headers that are not part of the sources at
    hand (tree_pool.h is only included); every definition that stands for
    one of their members is marked as modelled from the specification. *)

From stdpp Require Import base numbers option list.

(** ** Results of fallible operations *)

(** The ways an operation can stop: dereferencing a null [TreeNode *], a
    failed [assert], the arena being full, an index outside
    [0, numberOfChildren), and a release that would make a retain count
    negative. *)
Inductive Failure :=
  | NullDereference
  | AssertionFailed
  | CapacityExhausted
  | IndexOutOfRange
  | RetainUnderflow
  | NotInBuffer.

Inductive Result (A : Type) :=
  | Ok (a : A)
  | Err (e : Failure).
Arguments Ok {A} a.
Arguments Err {A} e.

Definition mapResult {A B} (f : A → B) (r : Result A) : Result B :=
  match r with
  | Ok a => Ok (f a)
  | Err e => Err e
  end.

(** ** Node records *)

Module TreeNode.

(** Modelled from the spec: the record header of [TreeNode] (§3): an
    identifier, a retain count, a child count and a byte size, to which
    the node type adds its tag, whether it is a failure sentinel, and the
    identifier of its type's canonical failure sentinel. *)
Record t := mk {
  identifier : Z;
  retainCount : Z;
  numberOfChildren : Z;
  size : Z;
  typeTag : Z;
  isAllocationFailure : bool;
  allocationFailureNodeIdentifier : Z
}.

(** Modelled from the spec: the header updates behind
    [TreeNode::setReferenceCounter], [retain], [rename] and the child
    count setters; each one rewrites a single field. *)
Definition setReferenceCounter (c : Z) (n : t) : t :=
  mk (identifier n) c (numberOfChildren n) (size n) (typeTag n)
     (isAllocationFailure n) (allocationFailureNodeIdentifier n).

Definition retain (n : t) : t := setReferenceCounter (retainCount n + 1) n.

Definition rename (id : Z) (n : t) : t :=
  mk id (retainCount n) (numberOfChildren n) (size n) (typeTag n)
     (isAllocationFailure n) (allocationFailureNodeIdentifier n).

Definition setNumberOfChildren (c : Z) (n : t) : t :=
  mk (identifier n) (retainCount n) c (size n) (typeTag n)
     (isAllocationFailure n) (allocationFailureNodeIdentifier n).

Definition incrementNumberOfChildren (n : t) : t :=
  setNumberOfChildren (numberOfChildren n + 1) n.

Definition decrementNumberOfChildren (n : t) : t :=
  setNumberOfChildren (numberOfChildren n - 1) n.

(** What [clone] must keep: everything in a record but its identity and
    its owners. *)
Definition shape (n : t) : Z * Z * Z * bool :=
  (typeTag n, numberOfChildren n, size n, isAllocationFailure n).

End TreeNode.

Abbreviation TreeNode := TreeNode.t.

(** Modelled from the spec: a [TreeNode *] is an offset in the arena
    buffer, counted in records, or the address of a canonical failure
    sentinel, which is process-wide (§4.3 step 4): it lives outside the
    buffer and never moves.  [nullptr] is [None] of [option NodePtr]. *)
Inductive NodePtr :=
  | Pooled (pos : nat)
  | Static (k : nat).

#[global] Instance NodePtr_eq_dec : EqDecision NodePtr.
Proof. solve_decision. Defined.

(** Modelled from the spec: what a concrete node type supplies (§6), its
    record size, its tag and its canonical failure sentinel. *)
Record NodeType := {
  typeSize : Z;
  typeTagOf : Z;
  typeIsAllocationFailure : bool;
  typeFailureIdentifier : Z
}.


(** ** The arena *)

Module TreePool.

(** Modelled from the spec: the state of [TreePool] (§3, §4.1).  [buffer]
    is the used region, its records in depth-first order; [staticNodes]
    holds the canonical failure sentinels; [capacity] is the fixed byte
    size of the buffer. *)
Record t := mk {
  buffer : list TreeNode;
  staticNodes : list TreeNode;
  capacity : Z
}.

Definition withBuffer (l : list TreeNode) (pool : t) : t :=
  mk l (staticNodes pool) (capacity pool).

Definition withStaticNodes (l : list TreeNode) (pool : t) : t :=
  mk (buffer pool) l (capacity pool).

(** Modelled from the spec: the search behind [TreePool::node(int)], the
    offset of the first record that carries [id]. *)
Fixpoint indexOfIdentifier (id : Z) (l : list TreeNode) : option nat :=
  match l with
  | [] => None
  | n :: l' =>
      if (TreeNode.identifier n =? id)%Z then Some 0
      else S <$> indexOfIdentifier id l'
  end.

(** Modelled from the spec: [TreePool::node(int)], the identifier-to-record
    lookup [recordAt]; null when no record carries the identifier. *)
Definition node (id : Z) (pool : t) : option NodePtr :=
  match indexOfIdentifier id (buffer pool) with
  | Some pos => Some (Pooled pos)
  | None => Static <$> indexOfIdentifier id (staticNodes pool)
  end.

(** Modelled from the spec: reading and writing the record a pointer
    designates; a pointer past the used region designates nothing. *)
Definition deref (p : NodePtr) (pool : t) : option TreeNode :=
  match p with
  | Pooled pos => buffer pool !! pos
  | Static k => staticNodes pool !! k
  end.

Definition update (p : NodePtr) (f : TreeNode → TreeNode) (pool : t) : t :=
  match p with
  | Pooled pos => withBuffer (alter f pos (buffer pool)) pool
  | Static k => withStaticNodes (alter f k (staticNodes pool)) pool
  end.

(** Modelled from the spec: [TreePool::last()], the end of the used
    region ([trashEnd]). *)
Definition last (pool : t) : NodePtr := Pooled (length (buffer pool)).

(** Modelled from the spec: the extent of subtrees in the depth-first
    layout (§3).  [skipTrees k l] is the number of records at the head of
    [l] that make up the next [k] subtrees: each record read stands for
    one subtree and announces [numberOfChildren] more.  The walk stops at
    the end of the used region. *)
Fixpoint skipTrees (remaining : Z) (l : list TreeNode) : nat :=
  match l with
  | [] => 0
  | n :: l' =>
      if (remaining <=? 0)%Z then 0
      else S (skipTrees (remaining - 1 + TreeNode.numberOfChildren n) l')
  end.

(** Modelled from the spec: depth-first contiguity (§3), whether the next
    [k] subtrees at the head of [l] end inside [l]. *)
Fixpoint complete (remaining : Z) (l : list TreeNode) : bool :=
  match l with
  | [] => (remaining <=? 0)%Z
  | n :: l' =>
      (remaining <=? 0)%Z
      || complete (remaining - 1 + TreeNode.numberOfChildren n) l'
  end.

(** Modelled from the spec: the number of records of the subtree whose
    root is at [pos], and where its next sibling begins (§3). *)
Definition deepLength (pos : nat) (l : list TreeNode) : nat :=
  skipTrees 1 (drop pos l).

Definition nextSiblingPos (pos : nat) (l : list TreeNode) : nat :=
  pos + deepLength pos l.

(** Modelled from the spec: the walk of [TreeNode::childTreeAtIndex],
    from the first-child position of the node at [pos] over [k] sibling
    boundaries. *)
Definition childPos (pos : nat) (k : nat) (l : list TreeNode) : nat :=
  Nat.iter k (λ q, nextSiblingPos q l) (S pos).

(** Modelled from the spec: the relocation done by [TreePool::move]
    (§4.1).  The [len] records at [s] are taken out and put back
    immediately before the record that was at [d]; their order and
    content are kept.  A destination inside the moved span has no
    meaning in the spec: nothing is relocated then. *)
Definition relocate (s len d : nat) (l : list TreeNode) : list TreeNode :=
  if d <=? s then
    take d l ++ take len (drop s l) ++ drop d (take s l) ++ drop (s + len) l
  else if s + len <=? d then
    take s l ++ drop (s + len) (take d l) ++ take len (drop s l) ++ drop d l
  else l.

(** Modelled from the spec: release and destruction (§3 lifecycle, §4.3
    step 3, §5).  The walk releases the next [rel] subtrees of [l]: a
    record whose retain count drops to zero is destroyed and its children
    are released in turn; a record that survives keeps its subtree, which
    is stepped over with [keep].  Releasing a record that has no owner is
    the fatal underflow of §5. *)
Fixpoint releaseTrees (keep rel : Z) (l : list TreeNode)
    : Result (list TreeNode) :=
  match l with
  | [] => Ok []
  | n :: l' =>
      if (0 <? keep)%Z then
        mapResult (cons n)
          (releaseTrees (keep - 1 + TreeNode.numberOfChildren n) rel l')
      else if (0 <? rel)%Z then
        if (TreeNode.retainCount n <=? 0)%Z then Err RetainUnderflow
        else if (TreeNode.retainCount n =? 1)%Z then
          releaseTrees 0 (rel - 1 + TreeNode.numberOfChildren n) l'
        else
          mapResult
            (cons (TreeNode.setReferenceCounter (TreeNode.retainCount n - 1) n))
            (releaseTrees (TreeNode.numberOfChildren n) (rel - 1) l')
      else Ok l
  end.

(** Modelled from the spec: the bytes in use, the sum of the record
    sizes, which [allocate] and [deepCopy] compare with the capacity
    (§4.1). *)
Definition usedBytes (l : list TreeNode) : Z :=
  foldr (λ n acc, (TreeNode.size n + acc)%Z) 0%Z l.

Definition maxIdentifier (l : list TreeNode) : Z :=
  foldr (λ n acc, Z.max (TreeNode.identifier n) acc) (-1)%Z l.

(** Modelled from the spec: identifier generation.  §3 asks for a
    non-negative identifier unique among the live nodes; the model takes
    the one after the largest in use. *)
Definition freshIdentifier (pool : t) : Z :=
  (Z.max (maxIdentifier (buffer pool)) (maxIdentifier (staticNodes pool)) + 1)%Z.

(** Modelled from the spec: the records [TreePool::deepCopy] writes
    (§4.1): fresh consecutive identifiers from [base] on; the root has no
    owner yet and each descendant one, its parent edge. *)
Fixpoint copyRecords (base : Z) (root : bool) (l : list TreeNode)
    : list TreeNode :=
  match l with
  | [] => []
  | n :: l' =>
      TreeNode.rename base
        (TreeNode.setReferenceCounter (if root then 0 else 1)%Z n)
      :: copyRecords (base + 1) false l'
  end.

(** Modelled from the spec: the parent back-reference (§9), found by
    walking the layout backwards to the nearest record whose subtree
    holds [pos]. *)
Fixpoint enclosing (l : list TreeNode) (pos q : nat) : option nat :=
  match q with
  | 0 => None
  | S q' =>
      if pos <? nextSiblingPos q' l then Some q' else enclosing l pos q'
  end.

Definition parentPos (pos : nat) (l : list TreeNode) : option nat :=
  enclosing l pos pos.

(** Modelled from the spec: the walk of [TreeNode::indexInParent], the
    index of the child that starts at [target], looking at [remaining]
    children from [cur] on; -1 when there is none. *)
Fixpoint childIndexFrom (l : list TreeNode) (target cur remaining : nat)
    (k : Z) : Z :=
  match remaining with
  | 0 => (-1)%Z
  | S r =>
      if cur =? target then k
      else childIndexFrom l target (nextSiblingPos cur l) r (k + 1)%Z
  end.

Definition indexInParentPos (pos : nat) (l : list TreeNode) : Z :=
  match parentPos pos l with
  | None => (-1)%Z
  | Some q =>
      match l !! q with
      | Some n =>
          childIndexFrom l pos (S q)
            (Z.to_nat (TreeNode.numberOfChildren n)) 0%Z
      | None => (-1)%Z
      end
  end.

(** Modelled from the spec: the walk of
    [TreeNode::indexOfChildByIdentifier], the index of the first of
    [remaining] children from [cur] on whose record carries [id]; -1 when
    there is none. *)
Fixpoint childIndexByIdentifier (l : list TreeNode) (id : Z)
    (cur remaining : nat) (k : Z) : Z :=
  match remaining with
  | 0 => (-1)%Z
  | S r =>
      match l !! cur with
      | Some n =>
          if (TreeNode.identifier n =? id)%Z then k
          else childIndexByIdentifier l id (nextSiblingPos cur l) r (k + 1)%Z
      | None => (-1)%Z
      end
  end.

(** Modelled from the spec: the records [TreePool::deepCopy] duplicates,
    the whole subtree of a pooled node, the one record of a canonical
    sentinel. *)
Definition subtreeRecords (p : NodePtr) (pool : t) : list TreeNode :=
  match p with
  | Pooled pos => take (deepLength pos (buffer pool)) (drop pos (buffer pool))
  | Static k => take 1 (drop k (staticNodes pool))
  end.

End TreePool.

Abbreviation TreePool := TreePool.t.

(** ** Operations on the shared pool

    [TreePool::sharedPool()] is one mutable object; an operation is a
    function of the pool that fails or yields a value and the new pool. *)

Definition Op (A : Type) : Type := TreePool → Result (A * TreePool).

Definition ret {A} (a : A) : Op A := λ pool, Ok (a, pool).

Definition bind {A B} (m : Op A) (k : A → Op B) : Op B :=
  λ pool,
    match m pool with
    | Ok (a, pool') => k a pool'
    | Err e => Err e
    end.

Definition fail {A} (e : Failure) : Op A := λ _, Err e.

Declare Scope op_scope.
Delimit Scope op_scope with op.
Bind Scope op_scope with Op.
Notation "x <- m ;; k" := (bind m (λ x, k))
  (at level 100, m at next level, right associativity) : op_scope.
Notation "m ;; k" := (bind m (λ _, k))
  (at level 100, right associativity) : op_scope.
Open Scope op_scope.

Definition assert (b : bool) : Op unit :=
  if b then ret tt else fail AssertionFailed.

Definition when (b : bool) (m : Op unit) : Op unit :=
  if b then m else ret tt.

(** [a && b] of C++: the right operand is evaluated only when the left
    one holds. *)
Definition andAlso (a : bool) (b : Op bool) : Op bool :=
  if a then b else ret false.

Definition gets {A} (f : TreePool → A) : Op A := λ pool, Ok (f pool, pool).

Definition modify (f : TreePool → TreePool) : Op unit :=
  λ pool, Ok (tt, f pool).

Definition fromOption {A} (e : Failure) (o : option A) : Op A :=
  match o with
  | Some a => ret a
  | None => fail e
  end.

Fixpoint repeatM {A} (k : nat) (f : A → Op A) (a : A) : Op A :=
  match k with
  | 0 => ret a
  | S k' => (a' <- f a ;; repeatM k' f a')
  end.

(** The pool an operation leaves, and the value it yields. *)
Definition exec {A} (m : Op A) (pool : TreePool) : Result TreePool :=
  mapResult snd (m pool).

Definition eval {A} (m : Op A) (pool : TreePool) : Result A :=
  mapResult fst (m pool).

(** ** Members of [TreeNode], called through a pointer *)

Module Node.

(** Modelled from the spec: [*p], for a pointer that must not dangle, and
    the getters of the record header (§3). *)
Definition deref (p : NodePtr) : Op TreeNode :=
  (o <- gets (TreePool.deref p) ;; fromOption NullDereference o).

Definition update (p : NodePtr) (f : TreeNode → TreeNode) : Op unit :=
  (deref p ;; modify (TreePool.update p f)).

Definition identifier (p : NodePtr) : Op Z :=
  (n <- deref p ;; ret (TreeNode.identifier n)).

Definition retainCount (p : NodePtr) : Op Z :=
  (n <- deref p ;; ret (TreeNode.retainCount n)).

Definition numberOfChildren (p : NodePtr) : Op Z :=
  (n <- deref p ;; ret (TreeNode.numberOfChildren n)).

Definition isAllocationFailure (p : NodePtr) : Op bool :=
  (n <- deref p ;; ret (TreeNode.isAllocationFailure n)).

Definition allocationFailureNodeIdentifier (p : NodePtr) : Op Z :=
  (n <- deref p ;; ret (TreeNode.allocationFailureNodeIdentifier n)).

(** Modelled from the spec: [TreeNode::retain], one more owner (§3). *)
Definition retain (p : NodePtr) : Op unit := update p TreeNode.retain.

(** Modelled from the spec: [TreeNode::incrementNumberOfChildren] and
    [decrementNumberOfChildren], the child count kept in the header. *)
Definition incrementNumberOfChildren (p : NodePtr) : Op unit :=
  update p TreeNode.incrementNumberOfChildren.

Definition decrementNumberOfChildren (p : NodePtr) : Op unit :=
  update p TreeNode.decrementNumberOfChildren.

(** Modelled from the spec: [TreeNode::rename], which gives the record
    another identifier (§4.3 step 4). *)
Definition rename (p : NodePtr) (id : Z) : Op unit :=
  update p (TreeNode.rename id).

(** Modelled from the spec: [TreeNode::setReferenceCounter] (§4.3
    step 5). *)
Definition setReferenceCounter (p : NodePtr) (c : Z) : Op unit :=
  update p (TreeNode.setReferenceCounter c).

(** Modelled from the spec: the offset of a pointer into the buffer; the
    layout walks and [move] have no meaning on a canonical sentinel. *)
Definition inBuffer (p : NodePtr) : Op nat :=
  match p with
  | Pooled pos => ret pos
  | Static _ => fail NotInBuffer
  end.

(** Modelled from the spec: [TreeNode::next], the position just after the
    header: the first child, or the next sibling of a childless node
    (glossary, depth-first layout). *)
Definition next (p : NodePtr) : Op NodePtr :=
  (deref p ;; pos <- inBuffer p ;; ret (Pooled (S pos))).

(** Modelled from the spec: [TreeNode::nextSibling], the position just
    after the whole subtree (§3). *)
Definition nextSibling (p : NodePtr) : Op NodePtr :=
  (pos <- inBuffer p ;;
   l <- gets TreePool.buffer ;;
   ret (Pooled (TreePool.nextSiblingPos pos l))).

(** Modelled from the spec: [TreeNode::parentTree], null for a root. *)
Definition parentTree (p : NodePtr) : Op (option NodePtr) :=
  (deref p ;;
   match p with
   | Pooled pos =>
       (l <- gets TreePool.buffer ;; ret (Pooled <$> TreePool.parentPos pos l))
   | Static _ => ret None
   end).

(** Modelled from the spec: [TreeNode::indexInParent], the index under
    the parent, negative for a root. *)
Definition indexInParent (p : NodePtr) : Op Z :=
  (deref p ;;
   match p with
   | Pooled pos =>
       (l <- gets TreePool.buffer ;; ret (TreePool.indexInParentPos pos l))
   | Static _ => ret (-1)%Z
   end).

(** Modelled from the spec: [TreeNode::childTreeAtIndex], [childAt] of
    §4.2, which fails outside [0, numberOfChildren). *)
Definition childTreeAtIndex (p : NodePtr) (i : Z) : Op NodePtr :=
  (n <- deref p ;;
   pos <- inBuffer p ;;
   if (0 <=? i)%Z && (i <? TreeNode.numberOfChildren n)%Z then
     (l <- gets TreePool.buffer ;;
      ret (Pooled (TreePool.childPos pos (Z.to_nat i) l)))
   else fail IndexOutOfRange).

(** Modelled from the spec: [TreeNode::indexOfChildByIdentifier], by which
    [replaceWith] locates a node under its parent (§4.2). *)
Definition indexOfChildByIdentifier (p : NodePtr) (id : Z) : Op Z :=
  (n <- deref p ;;
   pos <- inBuffer p ;;
   l <- gets TreePool.buffer ;;
   ret (TreePool.childIndexByIdentifier l id (S pos)
          (Z.to_nat (TreeNode.numberOfChildren n)) 0%Z)).

(** Modelled from the spec: [TreeNode::failedAllocationStaticNode], the
    canonical failure sentinel of the node's type (§4.3 step 4, §6). *)
Definition failedAllocationStaticNode (p : NodePtr) : Op (option NodePtr) :=
  (n <- deref p ;;
   statics <- gets TreePool.staticNodes ;;
   ret (Static <$> TreePool.indexOfIdentifier
                     (TreeNode.allocationFailureNodeIdentifier n) statics)).

(** Modelled from the spec: [TreeNode::release] (§3 lifecycle, §5).  One
    owner less; at zero the record is destroyed, its children released
    first.  A canonical sentinel is never reclaimed. *)
Definition release (p : NodePtr) : Op unit :=
  (n <- deref p ;;
   match p with
   | Pooled pos =>
       λ pool,
         let l := TreePool.buffer pool in
         match TreePool.releaseTrees 0 1 (drop pos l) with
         | Ok rest => Ok (tt, TreePool.withBuffer (take pos l ++ rest) pool)
         | Err e => Err e
         end
   | Static _ =>
       if (TreeNode.retainCount n <=? 0)%Z then fail RetainUnderflow
       else modify (TreePool.update p
              (TreeNode.setReferenceCounter (TreeNode.retainCount n - 1)))
   end).

(** Modelled from the spec: [TreeNode::releaseChildrenAndDestroy] (§4.3
    step 3): every child is released, then the record itself is destroyed
    whatever its retain count, and its space is given back. *)
Definition releaseChildrenAndDestroy (p : NodePtr) : Op unit :=
  (n <- deref p ;;
   pos <- inBuffer p ;;
   λ pool,
     let l := TreePool.buffer pool in
     match TreePool.releaseTrees 0 (TreeNode.numberOfChildren n)
             (drop (S pos) l) with
     | Ok rest => Ok (tt, TreePool.withBuffer (take pos l ++ rest) pool)
     | Err e => Err e
     end).

End Node.

(** ** Members of [TreePool] *)

Module Pool.

(** Modelled from the spec: [TreePool::node(int)] and [TreePool::last()]
    on the shared pool. *)
Definition node (id : Z) : Op (option NodePtr) := gets (TreePool.node id).

Definition last : Op NodePtr := gets TreePool.last.

(** Modelled from the spec: [TreePool::move] (§4.1): the whole subtree of
    [source] is relocated to immediately precede [destination]. *)
Definition move (source destination : NodePtr) : Op unit :=
  (s <- Node.inBuffer source ;;
   d <- Node.inBuffer destination ;;
   modify (λ pool,
     let l := TreePool.buffer pool in
     TreePool.withBuffer (TreePool.relocate s (TreePool.deepLength s l) d l) pool)).

(** Modelled from the spec: [TreePool::deepCopy] (§4.1): the subtree is
    duplicated at the end of the used region under fresh identifiers; it
    fails when the copy does not fit. *)
Definition deepCopy (p : NodePtr) : Op NodePtr :=
  (Node.deref p ;;
   λ pool,
     let l := TreePool.buffer pool in
     let src := TreePool.subtreeRecords p pool in
     if (TreePool.usedBytes l + TreePool.usedBytes src
           <=? TreePool.capacity pool)%Z then
       Ok (Pooled (length l),
           TreePool.withBuffer
             (l ++ TreePool.copyRecords (TreePool.freshIdentifier pool) true src)
             pool)
     else Err CapacityExhausted).

(** Modelled from the spec: [TreePool::createTreeNode<T>] ([allocate] of
    §4.1): a childless record of the type is born at the end of the used
    region, owned by the handle that asked for it; it fails when the
    record does not fit. *)
Definition createTreeNode (T : NodeType) : Op NodePtr :=
  λ pool,
    let l := TreePool.buffer pool in
    if (TreePool.usedBytes l + typeSize T <=? TreePool.capacity pool)%Z then
      Ok (Pooled (length l),
          TreePool.withBuffer
            (l ++ [TreeNode.mk (TreePool.freshIdentifier pool) 1 0
                     (typeSize T) (typeTagOf T)
                     (typeIsAllocationFailure T) (typeFailureIdentifier T)])
            pool)
    else Err CapacityExhausted.

End Pool.

(** ** The handle class, src/tree_reference.h *)

Module TreeReference.

(** [TreeReference<T>]: its only member is [m_identifier]. *)
Record t := mk { m_identifier : Z }.

Definition min (i j : Z) : Z := if (i <? j)%Z then i else j.
Definition max (i j : Z) : Z := if (i >? j)%Z then i else j.

Definition identifier (self : t) : Z := m_identifier self.

(** [node()], which may be null. *)
Definition node (self : t) : Op (option NodePtr) :=
  Pool.node (m_identifier self).

(** [node()->], the uses that dereference the result at once. *)
Definition nodeD (self : t) : Op NodePtr :=
  (p <- node self ;; fromOption NullDereference p).

Definition castedNode (self : t) : Op NodePtr := nodeD self.

Definition setIdentifierAndRetain (newId : Z) : Op t :=
  (let self := mk newId in
   n <- nodeD self ;;
   Node.retain n ;;
   ret self).

Definition setTo (tr : t) : Op t := setIdentifierAndRetain (identifier tr).

(** The four special members all call [setTo]; the value yielded is the
    handle constructed or assigned to.  An assignment takes the handle it
    overwrites and does nothing with it. *)
Definition copyConstructor (tr : t) : Op t := setTo tr.
Definition moveConstructor (tr : t) : Op t := setTo tr.
Definition copyAssignment (self tr : t) : Op t := setTo tr.
Definition moveAssignment (self tr : t) : Op t := setTo tr.

(** [TreeReference(TreeNode * node)]. *)
Definition fromNode (n : option NodePtr) : Op t :=
  match n with
  | None => ret (mk (-1))
  | Some p => (id <- Node.identifier p ;; setIdentifierAndRetain id)
  end.

(** [TreeReference()], for the node type [T]. *)
Definition create (T : NodeType) : Op t :=
  (n <- Pool.createTreeNode T ;;
   id <- Node.identifier n ;;
   ret (mk id)).

(** [~TreeReference()]. *)
Definition destructor (self : t) : Op unit :=
  if (m_identifier self >=? 0)%Z then
    (p <- node self ;;
     assert (bool_decide (is_Some p)) ;;
     n <- nodeD self ;;
     id <- Node.identifier n ;;
     assert (id =? m_identifier self)%Z ;;
     n <- nodeD self ;;
     Node.release n)
  else ret tt.

(** A [TreeReference] parameter is passed by value: the caller
    copy-constructs it and destroys it when the call is over. *)
Definition byValue {A} (arg : t) (call : t → Op A) : Op A :=
  (tmp <- copyConstructor arg ;;
   r <- call tmp ;;
   destructor tmp ;;
   ret r).

(** The body of [operator==].  Its operand is a [TreeReference<TreeNode>]
    passed by value: the caller copies its handle for the call, see
    [byValue], or converts a handle of another node type with
    [toTreeNodeReference], and destroys the operand afterwards. *)
Definition equal (self t : t) : bool :=
  (m_identifier self =? identifier t)%Z.

(** [operator TreeReference<TreeNode>()]. *)
Definition toTreeNodeReference (self : t) : Op t :=
  (n <- node self ;; fromNode n).

Definition clone (self : t) : Op t :=
  (myNode <- nodeD self ;;
   failure <- Node.isAllocationFailure myNode ;;
   if failure then
     (allocationFailureNodeId <- Node.allocationFailureNodeIdentifier myNode ;;
      canonical <- Pool.node allocationFailureNodeId ;;
      fromNode canonical)
   else
     (nodeCopy <- Pool.deepCopy myNode ;;
      fromNode (Some nodeCopy))).

Definition isDefined (self : t) : Op bool :=
  (p <- node self ;;
   ret ((m_identifier self >=? 0)%Z && bool_decide (is_Some p))).

Definition isAllocationFailure (self : t) : Op bool :=
  (n <- nodeD self ;; Node.isAllocationFailure n).

Definition nodeRetainCount (self : t) : Op Z :=
  (n <- nodeD self ;; Node.retainCount n).

Definition incrementNumberOfChildren (self : t) : Op unit :=
  (n <- nodeD self ;; Node.incrementNumberOfChildren n).

Definition decrementNumberOfChildren (self : t) : Op unit :=
  (n <- nodeD self ;; Node.decrementNumberOfChildren n).

Definition numberOfChildren (self : t) : Op Z :=
  (n <- nodeD self ;; Node.numberOfChildren n).

Definition parent (self : t) : Op t :=
  (n <- nodeD self ;;
   p <- Node.parentTree n ;;
   fromNode p).

Definition treeChildAtIndex (self : t) (i : Z) : Op t :=
  (n <- nodeD self ;;
   c <- Node.childTreeAtIndex n i ;;
   fromNode (Some c)).

Definition addChildAtIndex (self t : t) (index : Z) : Op unit :=
  (n <- nodeD self ;;
   failure <- Node.isAllocationFailure n ;;
   if failure then ret tt
   else
     (inRange <- andAlso (index >=? 0)%Z
                   (count <- numberOfChildren self ;; ret (index <=? count)%Z) ;;
      assert inRange ;;
      tn <- nodeD t ;;
      Node.retain tn ;;
      n <- nodeD self ;;
      first <- Node.next n ;;
      newChildPosition <- repeatM (Z.to_nat index) Node.nextSibling first ;;
      tn <- nodeD t ;;
      Pool.move tn newChildPosition ;;
      n <- nodeD self ;;
      Node.incrementNumberOfChildren n)).

Definition addChild (self t : t) : Op unit :=
  byValue t (λ t, addChildAtIndex self t 0).

Definition removeChild (self t : t) : Op unit :=
  (tn <- nodeD t ;;
   last <- Pool.last ;;
   Pool.move tn last ;;
   tn <- nodeD t ;;
   Node.release tn ;;
   n <- nodeD self ;;
   Node.decrementNumberOfChildren n).

Definition replaceWithAllocationFailure (self : t) : Op unit :=
  (p <- parent self ;;
   n <- nodeD self ;;
   indexInParentNode <- Node.indexInParent n ;;
   n <- nodeD self ;;
   currentRetainCount <- Node.retainCount n ;;
   n <- castedNode self ;;
   staticAllocFailNode <- Node.failedAllocationStaticNode n ;;
   n <- nodeD self ;;
   last <- Pool.last ;;
   Pool.move n last ;;
   defined <- isDefined p ;;
   when defined (decrementNumberOfChildren p) ;;
   n <- nodeD self ;;
   Node.releaseChildrenAndDestroy n ;;
   static <- fromOption NullDereference staticAllocFailNode ;;
   newAllocationFailureNode <- Pool.deepCopy static ;;
   Node.rename newAllocationFailureNode (m_identifier self) ;;
   defined <- isDefined p ;;
   (if defined then
      (assert (indexInParentNode >=? 0)%Z ;;
       Node.setReferenceCounter newAllocationFailureNode
         (currentRetainCount - 1) ;;
       arg <- fromNode (Some newAllocationFailureNode) ;;
       addChildAtIndex p arg indexInParentNode ;;
       destructor arg)
    else
      Node.setReferenceCounter newAllocationFailureNode currentRetainCount) ;;
   destructor p).

(** [replaceWithAllocationFailure] interrupted before the call of line
    171: lines 145-170 when there is a parent, the whole body but the
    end of [p]'s life when there is none.  It yields what the rest needs:
    [p], the new node and the index.  [reattachAllocationFailure] is the
    rest. *)
Definition substituteAllocationFailure (self : t)
    : Op (t * NodePtr * Z) :=
  (p <- parent self ;;
   n <- nodeD self ;;
   indexInParentNode <- Node.indexInParent n ;;
   n <- nodeD self ;;
   currentRetainCount <- Node.retainCount n ;;
   n <- castedNode self ;;
   staticAllocFailNode <- Node.failedAllocationStaticNode n ;;
   n <- nodeD self ;;
   last <- Pool.last ;;
   Pool.move n last ;;
   defined <- isDefined p ;;
   when defined (decrementNumberOfChildren p) ;;
   n <- nodeD self ;;
   Node.releaseChildrenAndDestroy n ;;
   static <- fromOption NullDereference staticAllocFailNode ;;
   newAllocationFailureNode <- Pool.deepCopy static ;;
   Node.rename newAllocationFailureNode (m_identifier self) ;;
   defined <- isDefined p ;;
   (if defined then
      (assert (indexInParentNode >=? 0)%Z ;;
       Node.setReferenceCounter newAllocationFailureNode
         (currentRetainCount - 1))
    else
      Node.setReferenceCounter newAllocationFailureNode currentRetainCount) ;;
   ret (p, newAllocationFailureNode, indexInParentNode)).

Definition reattachAllocationFailure (substituted : t * NodePtr * Z)
    : Op unit :=
  (let '(p, newAllocationFailureNode, indexInParentNode) := substituted in
   defined <- isDefined p ;;
   when defined
     (arg <- fromNode (Some newAllocationFailureNode) ;;
      addChildAtIndex p arg indexInParentNode ;;
      destructor arg) ;;
   destructor p).

Definition replaceChildAtIndex (self : t) (oldChildIndex : Z) (newChild : t)
    : Op unit :=
  (failure <- isAllocationFailure newChild ;;
   if failure then replaceWithAllocationFailure self
   else
     (p <- parent newChild ;;
      defined <- isDefined p ;;
      when defined (decrementNumberOfChildren p) ;;
      inRange <- andAlso (oldChildIndex >=? 0)%Z
                   (count <- numberOfChildren self ;;
                    ret (oldChildIndex <? count)%Z) ;;
      assert inRange ;;
      oldChild <- treeChildAtIndex self oldChildIndex ;;
      nn <- nodeD newChild ;;
      on <- nodeD oldChild ;;
      destination <- Node.next on ;;
      Pool.move nn destination ;;
      nn <- nodeD newChild ;;
      Node.retain nn ;;
      on <- nodeD oldChild ;;
      last <- Pool.last ;;
      Pool.move on last ;;
      on <- nodeD oldChild ;;
      Node.release on ;;
      destructor oldChild ;;
      destructor p)).

Definition replaceWith (self t : t) : Op unit :=
  (p <- parent self ;;
   defined <- isDefined p ;;
   when defined
     (pn <- nodeD p ;;
      index <- Node.indexOfChildByIdentifier pn (identifier self) ;;
      byValue t (replaceChildAtIndex p index)) ;;
   destructor p).

Definition swapChildren (self : t) (i j : Z) : Op unit :=
  (inRange <- andAlso (i >=? 0)%Z
                (count <- numberOfChildren self ;; ret (i <? count)%Z) ;;
   assert inRange ;;
   inRange <- andAlso (j >=? 0)%Z
                (count <- numberOfChildren self ;; ret (j <? count)%Z) ;;
   assert inRange ;;
   if (i =? j)%Z then ret tt
   else
     (let firstChildIndex := min i j in
      let secondChildIndex := max i j in
      firstChild <- treeChildAtIndex self firstChildIndex ;;
      secondChild <- treeChildAtIndex self secondChildIndex ;;
      firstChildNode <- nodeD firstChild ;;
      sn <- nodeD secondChild ;;
      destination <- Node.next sn ;;
      Pool.move firstChildNode destination ;;
      sn <- nodeD secondChild ;;
      Pool.move sn firstChildNode ;;
      destructor secondChild ;;
      destructor firstChild)).

End TreeReference.

Abbreviation TreeReference := TreeReference.t.

(** ** Well-formed pools

    The invariants of §3 and §5 that the properties below rely on, as a
    check that can be run on a concrete pool. *)

(** A live record: a non-negative identifier, at least one owner, a child
    count and a byte size that are not negative; a failure sentinel has no
    children. *)
Definition liveRecord (n : TreeNode) : bool :=
  (0 <=? TreeNode.identifier n)%Z
  && (1 <=? TreeNode.retainCount n)%Z
  && (0 <=? TreeNode.numberOfChildren n)%Z
  && (0 <=? TreeNode.size n)%Z
  && (negb (TreeNode.isAllocationFailure n)
      || (TreeNode.numberOfChildren n =? 0)%Z).

(** A canonical failure sentinel: a childless failure record. *)
Definition canonicalRecord (s : TreeNode) : bool :=
  TreeNode.isAllocationFailure s
  && (TreeNode.numberOfChildren s =? 0)%Z
  && (0 <=? TreeNode.size s)%Z.

(** The sentinel of a record's type is registered and is no larger than
    the record (§4.3 step 6, §6). *)
Definition hasSentinel (statics : list TreeNode) (n : TreeNode) : bool :=
  match TreePool.indexOfIdentifier
          (TreeNode.allocationFailureNodeIdentifier n) statics with
  | Some k =>
      match statics !! k with
      | Some s => (TreeNode.size s <=? TreeNode.size n)%Z
      | None => false
      end
  | None => false
  end.

(** Depth-first contiguity: every subtree ends inside the used region. *)
Definition contiguous (l : list TreeNode) : bool :=
  forallb (λ pos, TreePool.complete 1 (drop pos l)) (seq 0 (length l)).

Definition wellFormed (pool : TreePool) : bool :=
  let l := TreePool.buffer pool in
  let statics := TreePool.staticNodes pool in
  forallb liveRecord l
  && forallb (hasSentinel statics) l
  && forallb canonicalRecord statics
  && bool_decide (NoDup (TreeNode.identifier <$> l ++ statics))
  && contiguous l
  && (TreePool.usedBytes l <=? TreePool.capacity pool)%Z.

(** ** Small pools to run the operations on *)

Module Sample.

Definition leaf (id rc : Z) : TreeNode := TreeNode.mk id rc 0 8 1 false 100.
Definition inner (id rc nc : Z) : TreeNode :=
  TreeNode.mk id rc nc 8 2 false 100.
Definition sentinel (id rc : Z) : TreeNode :=
  TreeNode.mk id rc 0 4 0 true 100.

Definition leafType : NodeType := Build_NodeType 8 1 false 100.

Definition handle (id : Z) : TreeReference := TreeReference.mk id.

(** A lone node with one owner. *)
Definition single : TreePool :=
  TreePool.mk [leaf 1 1] [sentinel 100 1] 64.

(** Two roots, each with one owner. *)
Definition pair : TreePool :=
  TreePool.mk [leaf 1 1; leaf 2 1] [sentinel 100 1] 64.

(** [P(A, B(C))]: identifiers 0, 1, 2 and 3. *)
Definition nested : TreePool :=
  TreePool.mk [inner 0 1 2; leaf 1 1; inner 2 1 1; leaf 3 1]
    [sentinel 100 1] 64.

(** [P(A(C), B)]: identifiers 0, 1, 2 and 3. *)
Definition nestedFirst : TreePool :=
  TreePool.mk [inner 0 1 2; inner 1 1 1; leaf 2 1; leaf 3 1]
    [sentinel 100 1] 64.

(** [P(A, S)] followed by the root [R]: [S], identifier 2, is a failure
    sentinel that a handle owns besides its parent. *)
Definition withSentinel : TreePool :=
  TreePool.mk [inner 0 1 2; leaf 1 1; sentinel 2 2; leaf 3 1]
    [sentinel 100 1] 64.

(** [P(A, B)], two leaves: identifiers 0, 1 and 2. *)
Definition flat : TreePool :=
  TreePool.mk [inner 0 1 2; leaf 1 1; leaf 2 1] [sentinel 100 1] 64.

(** A failure sentinel and a leaf, both roots; two handles own the
    leaf. *)
Definition sentinelAndLeaf : TreePool :=
  TreePool.mk [sentinel 5 1; leaf 6 2] [sentinel 100 1] 64.

(** What to look at in a pool: identifier, retain count, child count and
    failure flag of each record of the buffer. *)
Definition summary (pool : TreePool) : list (Z * Z * Z * bool) :=
  (λ n, (TreeNode.identifier n, TreeNode.retainCount n,
         TreeNode.numberOfChildren n, TreeNode.isAllocationFailure n))
    <$> TreePool.buffer pool.

End Sample.

(** ** Observations used to state the properties *)

Definition identifiersOf (l : list TreeNode) : list Z := TreeNode.identifier <$> l.

(** No record announces a negative number of children. *)
Definition childCountsOk (l : list TreeNode) : Prop :=
  Forall (λ n, (0 ≤ TreeNode.numberOfChildren n)%Z) l.

(** The record a handle resolves to, if any. *)
Definition recordOf (self : TreeReference) (pool : TreePool) : option TreeNode :=
  TreePool.node (TreeReference.m_identifier self) pool
    ≫= λ p, TreePool.deref p pool.

(** The records of the subtree a handle resolves to. *)
Definition subtreeOf (self : TreeReference) (pool : TreePool) : list TreeNode :=
  match TreePool.node (TreeReference.m_identifier self) pool with
  | Some p => TreePool.subtreeRecords p pool
  | None => []
  end.

(** ** Running operations *)

Lemma bind_Ok {A B} (m : Op A) (k : A → Op B) pool a pool' :
  m pool = Ok (a, pool') → bind m k pool = k a pool'.
Proof. unfold bind. by intros ->. Qed.

Lemma bind_Err {A B} (m : Op A) (k : A → Op B) pool e :
  m pool = Err e → bind m k pool = Err e.
Proof. unfold bind. by intros ->. Qed.

Lemma bind_assoc {A B C} (m : Op A) (k : A → Op B) (h : B → Op C) pool :
  bind (bind m k) h pool = bind m (λ a, bind (k a) h) pool.
Proof. unfold bind. destruct (m pool) as [[a pool']|e]; done. Qed.

Lemma andAlso_run {A} (a : bool) (m : Op A) (f : A → bool) pool v :
  m pool = Ok (v, pool) →
  andAlso a (x <- m ;; ret (f x)) pool = Ok (a && f v, pool).
Proof.
  intros Hm. destruct a; simpl; [|done]. by rewrite (bind_Ok _ _ _ _ _ Hm).
Qed.

(** One call of a sequence at a time: [step_with H] runs the first call by
    the equation [H], [step_by lem] by the lemma [lem]. *)
Ltac step_with H := rewrite (bind_Ok _ _ _ _ _ H); cbv beta.
Ltac step_by lem := (erewrite bind_Ok; [|apply lem]); cbv beta.
(** ** Looking identifiers up *)

Section lookup.

Implicit Types (l : list TreeNode) (n : TreeNode) (id : Z) (pos : nat).

Lemma indexOfIdentifier_app id l1 l2 :
  TreePool.indexOfIdentifier id (l1 ++ l2) =
    match TreePool.indexOfIdentifier id l1 with
    | Some pos => Some pos
    | None => (λ pos, length l1 + pos) <$> TreePool.indexOfIdentifier id l2
    end.
Proof.
  induction l1 as [|n l1 IH]; simpl.
  - by destruct (TreePool.indexOfIdentifier id l2).
  - destruct (TreeNode.identifier n =? id)%Z; [done|].
    rewrite IH. destruct (TreePool.indexOfIdentifier id l1); [done|].
    by destruct (TreePool.indexOfIdentifier id l2).
Qed.

Lemma indexOfIdentifier_None id l :
  TreePool.indexOfIdentifier id l = None ↔ id ∉ TreeNode.identifier <$> l.
Proof.
  induction l as [|n l IH]; simpl.
  - split; [intros _; apply not_elem_of_nil | done].
  - rewrite not_elem_of_cons. destruct (Z.eqb_spec (TreeNode.identifier n) id).
    + split; [done | intros [? _]; congruence].
    + rewrite <- IH. destruct (TreePool.indexOfIdentifier id l); simpl.
      * split; [done | by intros [_ ?]].
      * split; [intros _; split; [congruence | done] | done].
Qed.

Lemma indexOfIdentifier_Some id l pos :
  TreePool.indexOfIdentifier id l = Some pos →
  ∃ n, l !! pos = Some n ∧ TreeNode.identifier n = id.
Proof.
  revert pos. induction l as [|n l IH]; intros pos; simpl; [done|].
  destruct (Z.eqb_spec (TreeNode.identifier n) id).
  - intros [= <-]. by exists n.
  - destruct (TreePool.indexOfIdentifier id l) as [q|]; [|done].
    intros [= <-]. by apply IH.
Qed.

Lemma indexOfIdentifier_ext id l l' :
  TreeNode.identifier <$> l = TreeNode.identifier <$> l' →
  TreePool.indexOfIdentifier id l = TreePool.indexOfIdentifier id l'.
Proof.
  revert l'. induction l as [|n l IH]; intros [|n' l']; simpl; try done.
  intros [= -> Hl]. by rewrite (IH _ Hl).
Qed.

Lemma indexOfIdentifier_unique l pos n :
  NoDup (TreeNode.identifier <$> l) → l !! pos = Some n →
  TreePool.indexOfIdentifier (TreeNode.identifier n) l = Some pos.
Proof.
  revert pos. induction l as [|m l IH]; intros pos; [done|].
  csimpl. intros [Hm Hl]%NoDup_cons. destruct pos as [|pos]; simpl.
  - intros [= ->]. by rewrite Z.eqb_refl.
  - intros Hn. destruct (Z.eqb_spec (TreeNode.identifier m) (TreeNode.identifier n)) as [E|_].
    + destruct Hm. rewrite E. apply list_elem_of_fmap. exists n.
      split; [done|]. by eapply list_elem_of_lookup_2.
    + by rewrite (IH pos Hl Hn).
Qed.

Lemma identifier_alter (f : TreeNode → TreeNode) pos l :
  (∀ n, TreeNode.identifier (f n) = TreeNode.identifier n) →
  TreeNode.identifier <$> alter f pos l = TreeNode.identifier <$> l.
Proof.
  intros Hf. apply list_eq. intros i. rewrite !list_lookup_fmap, list_lookup_alter.
  destruct (decide (pos = i)) as [->|]; [|done].
  destruct (l !! i); simpl; [|done]. by rewrite Hf.
Qed.

End lookup.

(** ** Reading and updating records through pointers *)

Section pointers.

Implicit Types (pool : TreePool) (p q : NodePtr) (n : TreeNode) (id : Z).

Lemma node_deref id pool p :
  TreePool.node id pool = Some p →
  ∃ n, TreePool.deref p pool = Some n ∧ TreeNode.identifier n = id.
Proof.
  unfold TreePool.node.
  destruct (TreePool.indexOfIdentifier id (TreePool.buffer pool)) as [pos|] eqn:E.
  - intros [= <-]. by apply indexOfIdentifier_Some.
  - destruct (TreePool.indexOfIdentifier id (TreePool.staticNodes pool))
      as [k|] eqn:E'; [|done].
    intros [= <-]. by apply indexOfIdentifier_Some.
Qed.

Lemma node_update id pool p f :
  (∀ n, TreeNode.identifier (f n) = TreeNode.identifier n) →
  TreePool.node id (TreePool.update p f pool) = TreePool.node id pool.
Proof.
  intros Hf. destruct pool as [l st cap], p as [pos|k]; unfold TreePool.node; simpl.
  - by rewrite (indexOfIdentifier_ext id _ l (identifier_alter f pos l Hf)).
  - by rewrite (indexOfIdentifier_ext id _ st (identifier_alter f k st Hf)).
Qed.

Lemma deref_update_eq pool p f :
  TreePool.deref p (TreePool.update p f pool) = f <$> TreePool.deref p pool.
Proof. destruct p; simpl; apply list_lookup_alter_eq. Qed.

Lemma deref_update_ne pool p q f :
  p ≠ q → TreePool.deref q (TreePool.update p f pool) = TreePool.deref q pool.
Proof.
  intros Hne. destruct p as [i|i], q as [j|j]; simpl; try done;
    apply list_lookup_alter_ne; congruence.
Qed.

Lemma nodeD_run self pool p :
  TreePool.node (TreeReference.m_identifier self) pool = Some p →
  TreeReference.nodeD self pool = Ok (p, pool).
Proof.
  intros H. unfold TreeReference.nodeD, TreeReference.node, Pool.node, gets, bind.
  by rewrite H.
Qed.

Lemma nodeD_null self pool :
  TreePool.node (TreeReference.m_identifier self) pool = None →
  TreeReference.nodeD self pool = Err NullDereference.
Proof.
  intros H. unfold TreeReference.nodeD, TreeReference.node, Pool.node, gets, bind.
  by rewrite H.
Qed.

Lemma deref_run p pool n :
  TreePool.deref p pool = Some n → Node.deref p pool = Ok (n, pool).
Proof. intros H. unfold Node.deref, gets, bind. by rewrite H. Qed.

Lemma update_run p f pool n :
  TreePool.deref p pool = Some n →
  Node.update p f pool = Ok (tt, TreePool.update p f pool).
Proof.
  intros H. unfold Node.update. by rewrite (bind_Ok _ _ _ _ _ (deref_run _ _ _ H)).
Qed.

Lemma setIdentifierAndRetain_run id pool p n :
  TreePool.node id pool = Some p → TreePool.deref p pool = Some n →
  TreeReference.setIdentifierAndRetain id pool
  = Ok (TreeReference.mk id, TreePool.update p TreeNode.retain pool).
Proof.
  intros Hp Hn. unfold TreeReference.setIdentifierAndRetain.
  rewrite (bind_Ok _ _ _ _ _ (nodeD_run (TreeReference.mk id) _ _ Hp)).
  unfold Node.retain. by rewrite (bind_Ok _ _ _ _ _ (update_run _ _ _ _ Hn)).
Qed.

Lemma nodeRetainCount_run self pool p n :
  TreePool.node (TreeReference.m_identifier self) pool = Some p →
  TreePool.deref p pool = Some n →
  TreeReference.nodeRetainCount self pool = Ok (TreeNode.retainCount n, pool).
Proof.
  intros Hp Hn. unfold TreeReference.nodeRetainCount, Node.retainCount.
  rewrite (bind_Ok _ _ _ _ _ (nodeD_run _ _ _ Hp)).
  by rewrite (bind_Ok _ _ _ _ _ (deref_run _ _ _ Hn)).
Qed.

Lemma alter_middle (f : TreeNode → TreeNode) (l : list TreeNode) pos n :
  l !! pos = Some n → alter f pos l = take pos l ++ f n :: drop (S pos) l.
Proof.
  revert pos. induction l as [|m l IH]; intros [|pos]; simpl; try done.
  - by intros [= ->].
  - intros H. by rewrite <- (IH _ H).
Qed.

(** Releasing no subtree leaves the records as they are. *)
Lemma releaseTrees_none keep l : TreePool.releaseTrees keep 0 l = Ok l.
Proof.
  revert keep. induction l as [|n l IH]; intros keep; simpl; [done|].
  destruct (0 <? keep)%Z; [|done]. by rewrite IH.
Qed.

(** A release that leaves an owner only lowers the count. *)
Lemma release_run p pool n :
  TreePool.deref p pool = Some n → (1 < TreeNode.retainCount n)%Z →
  Node.release p pool
  = Ok (tt, TreePool.update p
              (TreeNode.setReferenceCounter (TreeNode.retainCount n - 1)) pool).
Proof.
  intros Hn Hrc. unfold Node.release.
  rewrite (bind_Ok _ _ _ _ _ (deref_run _ _ _ Hn)).
  destruct p as [pos|k]; simpl in *.
  - destruct pool as [l st cap]; simpl in *.
    rewrite (drop_S _ _ _ Hn). simpl.
    destruct (Z.leb_spec (TreeNode.retainCount n) 0); [lia|].
    destruct (Z.eqb_spec (TreeNode.retainCount n) 1); [lia|].
    rewrite releaseTrees_none. simpl. unfold TreePool.withBuffer. simpl.
    by rewrite (alter_middle _ _ _ _ Hn).
  - destruct (Z.leb_spec (TreeNode.retainCount n) 0); [lia|]. done.
Qed.

Lemma destructor_run self pool p n :
  (0 ≤ TreeReference.m_identifier self)%Z →
  TreePool.node (TreeReference.m_identifier self) pool = Some p →
  TreeReference.destructor self pool = Node.release p pool.
Proof.
  intros Hid Hp. unfold TreeReference.destructor.
  destruct (Z.geb_spec (TreeReference.m_identifier self) 0); [|lia].
  destruct (node_deref _ _ _ Hp) as (m & Hm & Hmid).
  unfold TreeReference.node at 1, Pool.node at 1, gets at 1.
  unfold bind at 1. rewrite Hp. rewrite bool_decide_eq_true_2 by eauto.
  simpl. unfold bind at 1, ret at 1.
  rewrite (bind_Ok _ _ _ _ _ (nodeD_run _ _ _ Hp)).
  unfold Node.identifier. rewrite bind_assoc.
  rewrite (bind_Ok _ _ _ _ _ (deref_run _ _ _ Hm)).
  unfold ret at 1, bind at 1. rewrite Hmid, Z.eqb_refl. simpl.
  unfold bind at 1, ret at 1.
  by rewrite (bind_Ok _ _ _ _ _ (nodeD_run _ _ _ Hp)).
Qed.

End pointers.

(** ** The depth-first layout *)

Section layout.

Implicit Types (l : list TreeNode) (n : TreeNode) (k : Z) (pos : nat).

Lemma skipTrees_le k l : TreePool.skipTrees k l ≤ length l.
Proof.
  revert k. induction l as [|n l IH]; intros k; simpl; [done|].
  destruct (k <=? 0)%Z; [lia|]. specialize (IH (k - 1 + TreeNode.numberOfChildren n)%Z). lia.
Qed.

Lemma skipTrees_nonpos k l : (k ≤ 0)%Z → TreePool.skipTrees k l = 0.
Proof.
  intros Hk. destruct l; simpl; [done|].
  by destruct (Z.leb_spec k 0); [|lia].
Qed.

Lemma skipTrees_cons k n l :
  (0 < k)%Z →
  TreePool.skipTrees k (n :: l)
  = S (TreePool.skipTrees (k - 1 + TreeNode.numberOfChildren n) l).
Proof. intros Hk. simpl. by destruct (Z.leb_spec k 0); [lia|]. Qed.

(** The walk only reads child counts. *)
Lemma skipTrees_ext k l l' :
  TreeNode.numberOfChildren <$> l = TreeNode.numberOfChildren <$> l' →
  TreePool.skipTrees k l = TreePool.skipTrees k l'.
Proof.
  revert k l'. induction l as [|n l IH]; intros k [|n' l']; simpl; try done.
  intros [= -> Hl]. by rewrite (IH _ _ Hl).
Qed.

(** Walking [a + b] subtrees is walking [a], then [b]. *)
Lemma skipTrees_add a b l :
  childCountsOk l → (0 ≤ a)%Z → (0 ≤ b)%Z →
  TreePool.skipTrees (a + b) l
  = TreePool.skipTrees a l + TreePool.skipTrees b (drop (TreePool.skipTrees a l) l).
Proof.
  revert a. induction l as [|n l IH]; intros a Hl Ha Hb; [done|].
  apply Forall_cons in Hl as [Hn Hl].
  destruct (decide (a = 0%Z)) as [->|Hne].
  - by rewrite (skipTrees_nonpos 0%Z), Z.add_0_l by lia.
  - rewrite !skipTrees_cons by lia. simpl.
    replace (a + b - 1 + TreeNode.numberOfChildren n)%Z
      with ((a - 1 + TreeNode.numberOfChildren n) + b)%Z by lia.
    rewrite IH by (done || lia). done.
Qed.

Lemma skipTrees_mono a b l :
  childCountsOk l → (a ≤ b)%Z →
  TreePool.skipTrees a l ≤ TreePool.skipTrees b l.
Proof.
  intros Hl Hab. destruct (decide (a ≤ 0)%Z) as [Ha|Ha].
  - rewrite (skipTrees_nonpos a) by done. lia.
  - replace b with (a + (b - a))%Z by lia. rewrite skipTrees_add by (done || lia). lia.
Qed.

Lemma complete_nonpos k l : (k ≤ 0)%Z → TreePool.complete k l = true.
Proof.
  intros Hk. destruct l; simpl; destruct (Z.leb_spec k 0); done || lia.
Qed.

(** A walk that ends inside [l] does not look past its end. *)
Lemma skipTrees_app k l1 l2 :
  TreePool.complete k l1 = true →
  TreePool.skipTrees k (l1 ++ l2) = TreePool.skipTrees k l1.
Proof.
  revert k. induction l1 as [|n l1 IH]; intros k; simpl.
  - intros Hk%Z.leb_le. by apply skipTrees_nonpos.
  - destruct (k <=? 0)%Z; [done|]. simpl. intros Hk. by rewrite IH.
Qed.

Lemma complete_take k l :
  TreePool.complete k l = true →
  TreePool.complete k (take (TreePool.skipTrees k l) l) = true.
Proof.
  revert k. induction l as [|n l IH]; intros k; simpl; [done|].
  destruct (Z.leb_spec k 0); simpl.
  - intros _. by apply Z.leb_le.
  - intros Hk. destruct (Z.leb_spec k 0); [lia|]. simpl. by apply IH.
Qed.

Lemma complete_mono a b l :
  childCountsOk l → (a ≤ b)%Z →
  TreePool.complete b l = true → TreePool.complete a l = true.
Proof.
  revert a b. induction l as [|n l IH]; intros a b Hl Hab; simpl.
  - intros Hb%Z.leb_le. apply Z.leb_le. lia.
  - apply Forall_cons in Hl as [Hn Hl].
    destruct (Z.leb_spec b 0), (Z.leb_spec a 0); simpl; try done; try lia.
    apply IH; [done | lia].
Qed.

(** Where the [k]-th child of the node at [pos] starts. *)
Lemma childPos_skipTrees pos (k : nat) l :
  childCountsOk l →
  TreePool.childPos pos k l
  = S pos + TreePool.skipTrees (Z.of_nat k) (drop (S pos) l).
Proof.
  intros Hl. unfold TreePool.childPos. induction k as [|k IH].
  - simpl. rewrite skipTrees_nonpos by done. lia.
  - rewrite Nat.iter_succ, IH. unfold TreePool.nextSiblingPos, TreePool.deepLength.
    replace (Z.of_nat (S k)) with (Z.of_nat k + 1)%Z by lia.
    rewrite skipTrees_add by (try lia; by apply Forall_drop).
    rewrite drop_drop. lia.
Qed.

End layout.

(** ** Moving a span *)

Section relocate.

Implicit Types (l X Y W T : list TreeNode).

Lemma take_app3 X Y W : take (length X + length Y) (X ++ Y ++ W) = X ++ Y.
Proof. rewrite (assoc_L (++)). apply take_app_length'. by rewrite length_app. Qed.

Lemma drop_app3 X Y W : drop (length X + length Y) (X ++ Y ++ W) = W.
Proof. rewrite (assoc_L (++)). apply drop_app_length'. by rewrite length_app. Qed.

(** Towards the end of the buffer: the span [T] goes behind [Y]. *)
Lemma relocate_right X T Y W :
  TreePool.relocate (length X) (length T) (length X + length T + length Y)
    (X ++ T ++ Y ++ W)
  = X ++ Y ++ T ++ W.
Proof.
  unfold TreePool.relocate.
  assert (take (length X + length T + length Y) (X ++ T ++ Y ++ W) = X ++ T ++ Y) as E1.
  { rewrite <- Nat.add_assoc, <- (length_app T Y).
    rewrite (assoc_L (++) T Y W). by rewrite take_app3, (assoc_L (++)). }
  assert (drop (length X + length T + length Y) (X ++ T ++ Y ++ W) = W) as E2.
  { rewrite <- Nat.add_assoc, <- (length_app T Y).
    rewrite (assoc_L (++) T Y W). by rewrite drop_app3. }
  destruct (Nat.leb_spec (length X + length T + length Y) (length X)) as [H|H].
  - assert (length T = 0 ∧ length Y = 0) as [HS HY] by lia.
    apply nil_length_inv in HS, HY. subst. simpl in *.
    rewrite !Nat.add_0_r in *. rewrite E1, E2. rewrite !app_nil_r.
    by rewrite drop_all.
  - destruct (Nat.leb_spec (length X + length T) (length X + length T + length Y)); [|lia].
    rewrite E1, E2. rewrite take_app_length, drop_app_length.
    rewrite drop_app3. by rewrite take_app_length.
Qed.

(** Towards the start of the buffer: the span [T] goes before [Y]. *)
Lemma relocate_left X Y T W :
  TreePool.relocate (length X + length Y) (length T) (length X)
    (X ++ Y ++ T ++ W)
  = X ++ T ++ Y ++ W.
Proof.
  unfold TreePool.relocate.
  destruct (Nat.leb_spec (length X) (length X + length Y)); [|lia].
  rewrite take_app_length, take_app3, drop_app3, drop_app_length.
  rewrite take_app_length.
  rewrite <- Nat.add_assoc, <- (length_app Y T).
  rewrite (assoc_L (++) Y T W), drop_app3. done.
Qed.

Lemma relocate_Permutation s len d l : TreePool.relocate s len d l ≡ₚ l.
Proof.
  unfold TreePool.relocate. destruct (d <=? s) eqn:E1.
  - apply Nat.leb_le in E1.
    assert (l = take d l ++ drop d (take s l)
                ++ take len (drop s l) ++ drop (s + len) l) as E.
    { rewrite <- (take_drop s l) at 1.
      rewrite <- (take_drop d (take s l)) at 1.
      rewrite take_take, Nat.min_l by done.
      rewrite <- (take_drop len (drop s l)) at 1.
      rewrite drop_drop. by rewrite <- !(assoc_L (++)). }
    rewrite E at 5. f_equiv.
    rewrite !(assoc_L (++)). f_equiv. apply Permutation_app_comm.
  - destruct (s + len <=? d) eqn:E2; [|done].
    apply Nat.leb_le in E2.
    assert (l = take s l ++ take len (drop s l)
                ++ drop (s + len) (take d l) ++ drop d l) as E.
    { rewrite <- (take_drop d l) at 1.
      rewrite <- (take_drop (s + len) (take d l)) at 1.
      rewrite take_take, Nat.min_l by done.
      rewrite <- take_take_drop. by rewrite <- !(assoc_L (++)). }
    rewrite E at 5. f_equiv.
    rewrite !(assoc_L (++)). f_equiv. apply Permutation_app_comm.
Qed.

End relocate.

(** ** Releasing subtrees *)

Section release.

Implicit Types (l : list TreeNode) (n : TreeNode).

Lemma usedBytes_app l1 l2 :
  TreePool.usedBytes (l1 ++ l2)
  = (TreePool.usedBytes l1 + TreePool.usedBytes l2)%Z.
Proof. induction l1 as [|n l1 IH]; simpl; [done|]. rewrite IH. lia. Qed.

Lemma usedBytes_nonneg l :
  Forall (λ n, (0 ≤ TreeNode.size n)%Z) l → (0 ≤ TreePool.usedBytes l)%Z.
Proof. induction 1; simpl; lia. Qed.

Lemma usedBytes_ext l l' :
  TreeNode.size <$> l = TreeNode.size <$> l' →
  TreePool.usedBytes l = TreePool.usedBytes l'.
Proof.
  revert l'. induction l as [|n l IH]; intros [|n' l']; simpl; try done.
  intros [= -> Hl]. by rewrite (IH _ Hl).
Qed.

(** Releasing succeeds when every record has an owner; what is left is
    part of what was there, in the same order. *)
Lemma releaseTrees_spec keep rel l :
  Forall (λ n, (1 ≤ TreeNode.retainCount n)%Z) l →
  Forall (λ n, (0 ≤ TreeNode.size n)%Z) l →
  ∃ l', TreePool.releaseTrees keep rel l = Ok l'
        ∧ (TreeNode.identifier <$> l') `sublist_of` (TreeNode.identifier <$> l)
        ∧ (TreePool.usedBytes l' ≤ TreePool.usedBytes l)%Z.
Proof.
  intros Hrc Hsz. revert keep rel.
  induction l as [|n l IH]; intros keep rel; simpl.
  { exists []. by repeat split. }
  apply Forall_cons in Hrc as [Hn Hrc]. apply Forall_cons in Hsz as [Hs Hsz].
  specialize (IH Hrc Hsz).
  destruct (0 <? keep)%Z.
  { destruct (IH (keep - 1 + TreeNode.numberOfChildren n)%Z rel)
      as (l' & -> & Hsub & Hbytes).
    exists (n :: l'). simpl. repeat split; [by constructor | lia]. }
  destruct (0 <? rel)%Z; [|exists (n :: l); by repeat split].
  destruct (Z.leb_spec (TreeNode.retainCount n) 0); [lia|].
  destruct (TreeNode.retainCount n =? 1)%Z.
  - destruct (IH 0%Z (rel - 1 + TreeNode.numberOfChildren n)%Z)
      as (l' & -> & Hsub & Hbytes).
    exists l'. repeat split; [by constructor | lia].
  - destruct (IH (TreeNode.numberOfChildren n) (rel - 1)%Z)
      as (l' & -> & Hsub & Hbytes).
    eexists. simpl. repeat split; [by constructor | simpl; lia].
Qed.

End release.

(** ** Parents and child indices *)

Section parents.

Implicit Types (l : list TreeNode) (n : TreeNode) (pos q : nat).

Lemma enclosing_Some l pos q0 q :
  TreePool.enclosing l pos q0 = Some q →
  q < q0 ∧ pos < TreePool.nextSiblingPos q l
  ∧ ∀ q', q < q' < q0 → TreePool.nextSiblingPos q' l ≤ pos.
Proof.
  induction q0 as [|q0 IH]; simpl; [done|].
  destruct (Nat.ltb_spec pos (TreePool.nextSiblingPos q0 l)) as [Hlt|Hge].
  - intros [= <-]. repeat split; [lia | done | intros; lia].
  - intros (? & ? & Hnear)%IH. repeat split; [lia | done |].
    intros q' Hq'. destruct (decide (q' = q0)) as [->|]; [done|]. apply Hnear. lia.
Qed.

(** A parent has children. *)
Lemma parent_has_children l pos q nq :
  q < pos → pos < TreePool.nextSiblingPos q l → l !! q = Some nq →
  (0 < TreeNode.numberOfChildren nq)%Z.
Proof.
  unfold TreePool.nextSiblingPos, TreePool.deepLength. intros Hq Hpos Hnq.
  rewrite (drop_S _ _ _ Hnq) in Hpos.
  destruct (decide (0 < TreeNode.numberOfChildren nq)%Z) as [|Hn]; [done|].
  rewrite skipTrees_cons in Hpos by lia.
  rewrite skipTrees_nonpos in Hpos by lia. lia.
Qed.

(** The node at [target], whose nearest enclosing node lies before [cur],
    is one of the [remaining] subtrees that start at [cur]. *)
Lemma childIndexFrom_bounds l target cur (remaining : nat) (k : Z) :
  childCountsOk l →
  cur ≤ target →
  target < cur + TreePool.skipTrees (Z.of_nat remaining) (drop cur l) →
  (∀ q', cur ≤ q' < target → TreePool.nextSiblingPos q' l ≤ target) →
  (k ≤ TreePool.childIndexFrom l target cur remaining k
     < k + Z.of_nat remaining)%Z.
Proof.
  intros Hl. revert cur k. induction remaining as [|r IH]; intros cur k Hcur Hin Hnear.
  { rewrite skipTrees_nonpos in Hin by done. lia. }
  simpl. destruct (Nat.eqb_spec cur target) as [->|Hne]; [lia|].
  assert (TreePool.nextSiblingPos cur l ≤ target) as Hnext by (apply Hnear; lia).
  assert (k + 1 ≤ TreePool.childIndexFrom l target (TreePool.nextSiblingPos cur l)
                     r (k + 1) < k + 1 + Z.of_nat r)%Z; [|lia].
  apply IH; [done | | intros q' Hq'; apply Hnear; unfold TreePool.nextSiblingPos in *; lia].
  replace (Z.of_nat (S r)) with (1 + Z.of_nat r)%Z in Hin by lia.
  rewrite skipTrees_add in Hin by (try lia; by apply Forall_drop).
  rewrite drop_drop in Hin.
  unfold TreePool.nextSiblingPos, TreePool.deepLength in *. lia.
Qed.

Lemma indexInParentPos_bounds l pos q nq :
  childCountsOk l →
  TreePool.parentPos pos l = Some q → l !! q = Some nq →
  (0 ≤ TreePool.indexInParentPos pos l < TreeNode.numberOfChildren nq)%Z.
Proof.
  intros Hl Hq Hnq. unfold TreePool.indexInParentPos. rewrite Hq, Hnq.
  apply enclosing_Some in Hq as (Hlt & Hin & Hnear).
  pose proof (parent_has_children _ _ _ _ Hlt Hin Hnq) as Hpos.
  assert (0 ≤ TreePool.childIndexFrom l pos (S q)
                (Z.to_nat (TreeNode.numberOfChildren nq)) 0
            < 0 + Z.of_nat (Z.to_nat (TreeNode.numberOfChildren nq)))%Z; [|lia].
  apply childIndexFrom_bounds; [done | lia | | intros q' Hq'; apply Hnear; lia].
  unfold TreePool.nextSiblingPos, TreePool.deepLength in Hin.
  rewrite (drop_S _ _ _ Hnq), skipTrees_cons in Hin by lia.
  rewrite Z2Nat.id by lia.
  replace (1 - 1 + TreeNode.numberOfChildren nq)%Z
    with (TreeNode.numberOfChildren nq) in Hin by lia. lia.
Qed.

End parents.

(** ** Members of [TreeNode] and [TreePool] on a pool spelled out *)

Section members.

Implicit Types (l st : list TreeNode) (cap : Z) (n : TreeNode) (pos : nat).

Lemma node_pooled l st cap pos n :
  NoDup (identifiersOf l) → l !! pos = Some n →
  TreePool.node (TreeNode.identifier n) (TreePool.mk l st cap) = Some (Pooled pos).
Proof.
  intros HN Hn. unfold TreePool.node. simpl.
  by rewrite (indexOfIdentifier_unique _ _ _ HN Hn).
Qed.

Lemma nodeD_pooled self l st cap pos n :
  NoDup (identifiersOf l) → l !! pos = Some n →
  TreeNode.identifier n = TreeReference.m_identifier self →
  TreeReference.nodeD self (TreePool.mk l st cap)
  = Ok (Pooled pos, TreePool.mk l st cap).
Proof.
  intros HN Hn Hid. apply nodeD_run. rewrite <- Hid. by apply node_pooled.
Qed.

Lemma identifier_run p pool n :
  TreePool.deref p pool = Some n →
  Node.identifier p pool = Ok (TreeNode.identifier n, pool).
Proof.
  intros H. unfold Node.identifier. by rewrite (bind_Ok _ _ _ _ _ (deref_run _ _ _ H)).
Qed.

Lemma retainCount_run p pool n :
  TreePool.deref p pool = Some n →
  Node.retainCount p pool = Ok (TreeNode.retainCount n, pool).
Proof.
  intros H. unfold Node.retainCount. by rewrite (bind_Ok _ _ _ _ _ (deref_run _ _ _ H)).
Qed.

Lemma numberOfChildren_run p pool n :
  TreePool.deref p pool = Some n →
  Node.numberOfChildren p pool = Ok (TreeNode.numberOfChildren n, pool).
Proof.
  intros H. unfold Node.numberOfChildren.
  by rewrite (bind_Ok _ _ _ _ _ (deref_run _ _ _ H)).
Qed.

Lemma isAllocationFailure_run p pool n :
  TreePool.deref p pool = Some n →
  Node.isAllocationFailure p pool = Ok (TreeNode.isAllocationFailure n, pool).
Proof.
  intros H. unfold Node.isAllocationFailure.
  by rewrite (bind_Ok _ _ _ _ _ (deref_run _ _ _ H)).
Qed.

Lemma parentTree_run l st cap pos n :
  l !! pos = Some n →
  Node.parentTree (Pooled pos) (TreePool.mk l st cap)
  = Ok (Pooled <$> TreePool.parentPos pos l, TreePool.mk l st cap).
Proof.
  intros H. unfold Node.parentTree.
  by rewrite (bind_Ok _ _ _ _ _ (deref_run (Pooled pos) (TreePool.mk l st cap) n H)).
Qed.

Lemma indexInParent_run l st cap pos n :
  l !! pos = Some n →
  Node.indexInParent (Pooled pos) (TreePool.mk l st cap)
  = Ok (TreePool.indexInParentPos pos l, TreePool.mk l st cap).
Proof.
  intros H. unfold Node.indexInParent.
  by rewrite (bind_Ok _ _ _ _ _ (deref_run (Pooled pos) (TreePool.mk l st cap) n H)).
Qed.

Lemma failedAllocationStaticNode_run l st cap pos n :
  l !! pos = Some n →
  Node.failedAllocationStaticNode (Pooled pos) (TreePool.mk l st cap)
  = Ok (Static <$> TreePool.indexOfIdentifier
                     (TreeNode.allocationFailureNodeIdentifier n) st,
        TreePool.mk l st cap).
Proof.
  intros H. unfold Node.failedAllocationStaticNode.
  by rewrite (bind_Ok _ _ _ _ _ (deref_run (Pooled pos) (TreePool.mk l st cap) n H)).
Qed.

Lemma update_pooled f l st cap pos n :
  l !! pos = Some n →
  Node.update (Pooled pos) f (TreePool.mk l st cap)
  = Ok (tt, TreePool.mk (alter f pos l) st cap).
Proof. intros H. by rewrite (update_run (Pooled pos) f _ n). Qed.

Lemma fromNode_pooled l st cap pos n :
  NoDup (identifiersOf l) → l !! pos = Some n →
  TreeReference.fromNode (Some (Pooled pos)) (TreePool.mk l st cap)
  = Ok (TreeReference.mk (TreeNode.identifier n),
        TreePool.mk (alter TreeNode.retain pos l) st cap).
Proof.
  intros HN Hn. unfold TreeReference.fromNode.
  rewrite (bind_Ok _ _ _ _ _ (identifier_run (Pooled pos) (TreePool.mk l st cap) n Hn)).
  by rewrite (setIdentifierAndRetain_run _ (TreePool.mk l st cap) (Pooled pos) n
                (node_pooled _ _ _ _ _ HN Hn) Hn).
Qed.

Lemma move_run s d l st cap :
  Pool.move (Pooled s) (Pooled d) (TreePool.mk l st cap)
  = Ok (tt, TreePool.mk (TreePool.relocate s (TreePool.deepLength s l) d l) st cap).
Proof. done. Qed.

Lemma last_run l st cap :
  Pool.last (TreePool.mk l st cap) = Ok (Pooled (length l), TreePool.mk l st cap).
Proof. done. Qed.

Lemma isDefined_run self pool :
  TreeReference.isDefined self pool
  = Ok ((TreeReference.m_identifier self >=? 0)%Z
        && bool_decide (is_Some (TreePool.node (TreeReference.m_identifier self) pool)),
        pool).
Proof. done. Qed.

Lemma releaseChildrenAndDestroy_run l st cap pos n rest :
  l !! pos = Some n →
  TreePool.releaseTrees 0 (TreeNode.numberOfChildren n) (drop (S pos) l) = Ok rest →
  Node.releaseChildrenAndDestroy (Pooled pos) (TreePool.mk l st cap)
  = Ok (tt, TreePool.mk (take pos l ++ rest) st cap).
Proof.
  intros Hn Hrest. unfold Node.releaseChildrenAndDestroy.
  rewrite (bind_Ok _ _ _ _ _ (deref_run (Pooled pos) (TreePool.mk l st cap) n Hn)).
  unfold Node.inBuffer, bind, ret. simpl. by rewrite Hrest.
Qed.

Lemma deepCopy_static l st cap k s :
  st !! k = Some s →
  (TreePool.usedBytes l + TreeNode.size s ≤ cap)%Z →
  Pool.deepCopy (Static k) (TreePool.mk l st cap)
  = Ok (Pooled (length l),
        TreePool.mk
          (l ++ [TreeNode.rename (TreePool.freshIdentifier (TreePool.mk l st cap))
                   (TreeNode.setReferenceCounter 0 s)])
          st cap).
Proof.
  intros Hs Hcap. unfold Pool.deepCopy.
  rewrite (bind_Ok _ _ _ _ _ (deref_run (Static k) (TreePool.mk l st cap) s Hs)).
  simpl. rewrite (drop_S _ _ _ Hs). simpl.
  destruct (Z.leb_spec (TreePool.usedBytes l + (TreeNode.size s + 0)) cap); [done|lia].
Qed.

End members.

(** ** The allocation-failure protocol, step by step *)

Section protocol.

Implicit Types (l st A B C R : list TreeNode) (cap : Z) (n s : TreeNode).

Lemma identifiersOf_app l1 l2 :
  identifiersOf (l1 ++ l2) = identifiersOf l1 ++ identifiersOf l2.
Proof. apply fmap_app. Qed.

Lemma identifiersOf_alter (f : TreeNode → TreeNode) pos l :
  (∀ n, TreeNode.identifier (f n) = TreeNode.identifier n) →
  identifiersOf (alter f pos l) = identifiersOf l.
Proof. apply identifier_alter. Qed.

Lemma alter_end (f : TreeNode → TreeNode) l n :
  alter f (length l) (l ++ [n]) = l ++ [f n].
Proof.
  rewrite <- (Nat.add_0_r (length l)). by rewrite alter_app_r.
Qed.

Lemma drop_S_middle l1 n l2 : drop (S (length l1)) (l1 ++ n :: l2) = l2.
Proof. by rewrite <- Nat.add_1_r, <- drop_drop, drop_app_length. Qed.

Lemma lookup_end l n : (l ++ [n]) !! length l = Some n.
Proof. by rewrite list_lookup_middle. Qed.

(** What [substituteAllocationFailure] does once [parent()] has yielded
    [p]: the span [n :: B] goes to the end, its children are released,
    [n] is destroyed and the renamed sentinel is appended. *)
Lemma substitute_from self p pool0 A n B C st cap k s R
    (parentCase : option (nat * TreeNode)) :
  let l1 := A ++ n :: B ++ C in
  let A' := match parentCase with
            | None => A
            | Some (q, _) => alter TreeNode.decrementNumberOfChildren q A
            end in
  let c' := match parentCase with
            | None => TreeNode.retainCount n
            | Some _ => (TreeNode.retainCount n - 1)%Z
            end in
  TreeReference.parent self pool0 = Ok (p, TreePool.mk l1 st cap) →
  NoDup (identifiersOf l1) →
  TreeNode.identifier n = TreeReference.m_identifier self →
  TreePool.skipTrees 1 (n :: B ++ C) = S (length B) →
  TreePool.indexOfIdentifier (TreeNode.allocationFailureNodeIdentifier n) st
    = Some k →
  st !! k = Some s →
  TreePool.releaseTrees 0 (TreeNode.numberOfChildren n) B = Ok R →
  identifiersOf R `sublist_of` identifiersOf B →
  (TreePool.usedBytes (A' ++ C ++ R) + TreeNode.size s ≤ cap)%Z →
  match parentCase with
  | None => (TreeReference.m_identifier p < 0)%Z
  | Some (q, nq) =>
      (0 ≤ TreeReference.m_identifier p)%Z
      ∧ A !! q = Some nq
      ∧ TreeNode.identifier nq = TreeReference.m_identifier p
      ∧ (0 ≤ TreePool.indexInParentPos (length A) l1)%Z
  end →
  TreeReference.substituteAllocationFailure self pool0
  = Ok ((p, Pooled (length (A' ++ C ++ R)),
         TreePool.indexInParentPos (length A) l1),
        TreePool.mk
          (A' ++ C ++ R
           ++ [TreeNode.setReferenceCounter c'
                 (TreeNode.rename (TreeReference.m_identifier self) s)])
          st cap).
Proof.
  intros l1 A' c' Hparent HN1 Hid Hspan Hk Hs HR Hsub Hcap Hcase.
  unfold TreeReference.substituteAllocationFailure.
  step_with Hparent.
  assert (l1 !! length A = Some n) as Hn1 by apply list_lookup_middle, eq_refl.
  pose proof (nodeD_pooled self l1 st cap _ _ HN1 Hn1 Hid) as Hself1.
  step_with Hself1. step_with (indexInParent_run l1 st cap _ _ Hn1).
  step_with Hself1.
  step_with (retainCount_run (Pooled (length A)) (TreePool.mk l1 st cap) n Hn1).
  unfold TreeReference.castedNode.
  step_with Hself1. step_with (failedAllocationStaticNode_run l1 st cap _ _ Hn1).
  rewrite Hk. simpl fmap.
  step_with Hself1. step_with (last_run l1 st cap). step_with (move_run (length A) (length l1) l1 st cap).
  (* the move *)
  assert (TreePool.deepLength (length A) l1 = length (n :: B)) as Hlen.
  { unfold TreePool.deepLength, l1. by rewrite drop_app_length. }
  assert (TreePool.relocate (length A) (TreePool.deepLength (length A) l1)
            (length l1) l1 = A ++ C ++ n :: B) as Hmove.
  { rewrite Hlen.
    replace l1 with (A ++ (n :: B) ++ C ++ []) by (by rewrite app_nil_r).
    replace (length (A ++ (n :: B) ++ C ++ []))
      with (length A + length (n :: B) + length C)
      by (rewrite !length_app; simpl; lia).
    rewrite relocate_right. by rewrite app_nil_r. }
  rewrite Hmove. clear Hmove Hlen.
  assert (NoDup (identifiersOf (A ++ C ++ n :: B))) as HN2.
  { revert HN1. unfold l1. rewrite !identifiersOf_app.
    change (identifiersOf (n :: B ++ C)) with (identifiersOf ((n :: B) ++ C)).
    rewrite !identifiersOf_app. intros HN1.
    by rewrite (Permutation_app_comm (identifiersOf C)). }
  (* the parent loses a child *)
  assert (NoDup (identifiersOf (A' ++ C ++ n :: B))) as HN3.
  { unfold A'. destruct parentCase as [[q nq]|]; [|done].
    revert HN2. rewrite !(identifiersOf_app _ (C ++ n :: B)).
    by rewrite identifiersOf_alter. }
  assert (length A' = length A) as HlenA.
  { unfold A'. destruct parentCase as [[q nq]|]; [|done]. by rewrite length_alter. }
  assert (∀ pool X,
    TreePool.buffer pool = A' ++ X → NoDup (identifiersOf (A' ++ X)) →
    (TreeReference.m_identifier p >=? 0)%Z
    && bool_decide (is_Some (TreePool.node (TreeReference.m_identifier p) pool))
    = bool_decide (is_Some parentCase)) as Hdefined.
  { intros [l' st' cap'] X Hbuf HNX. simpl in Hbuf. subst l'.
    unfold A' in *. destruct parentCase as [[q nq]|].
    - destruct Hcase as (Hp & Hq & Hnq & _).
      destruct (Z.geb_spec (TreeReference.m_identifier p) 0); [|lia].
      rewrite <- Hnq.
      rewrite (node_pooled _ st' cap' q (TreeNode.decrementNumberOfChildren nq));
        [done | done |].
      rewrite lookup_app_l by (rewrite length_alter; by eapply lookup_lt_Some).
      by rewrite list_lookup_alter_eq, Hq.
    - by destruct (Z.geb_spec (TreeReference.m_identifier p) 0); [lia|]. }
  assert (TreeReference.isDefined p (TreePool.mk (A ++ C ++ n :: B) st cap)
          = Ok (bool_decide (is_Some parentCase), TreePool.mk (A ++ C ++ n :: B) st cap)
          ∧ when (bool_decide (is_Some parentCase))
              (TreeReference.decrementNumberOfChildren p)
              (TreePool.mk (A ++ C ++ n :: B) st cap)
            = Ok (tt, TreePool.mk (A' ++ C ++ n :: B) st cap)) as [Hdef2 Hdec].
  { unfold A' in *. destruct parentCase as [[q nq]|].
    - destruct Hcase as (Hp & Hq & Hnq & _). split.
      + rewrite isDefined_run.
        destruct (Z.geb_spec (TreeReference.m_identifier p) 0); [|lia]. simpl.
        rewrite <- Hnq.
        rewrite (node_pooled _ st cap q nq HN2)
          by (rewrite lookup_app_l by (by eapply lookup_lt_Some); done).
        done.
      + change (bool_decide (is_Some (Some (q, nq)))) with true. simpl.
        unfold TreeReference.decrementNumberOfChildren.
        assert ((A ++ C ++ n :: B) !! q = Some nq) as Hq2
          by (rewrite lookup_app_l by (by eapply lookup_lt_Some); done).
        step_with (nodeD_pooled p _ st cap q nq HN2 Hq2 Hnq).
        unfold Node.decrementNumberOfChildren.
        rewrite (update_pooled _ _ st cap q nq Hq2).
        by rewrite alter_app_l by (by eapply lookup_lt_Some).
    - split; [|done]. rewrite isDefined_run.
      destruct (Z.geb_spec (TreeReference.m_identifier p) 0); [lia|]. done. }
  step_with Hdef2. step_with Hdec. clear Hdef2 Hdec.
  (* the node is destroyed *)
  assert ((A' ++ C ++ n :: B) !! (length (A' ++ C)) = Some n) as Hn3.
  { rewrite (assoc_L (++)). by apply list_lookup_middle. }
  step_with (nodeD_pooled self _ st cap _ _ HN3 Hn3 Hid).
  assert (Node.releaseChildrenAndDestroy (Pooled (length (A' ++ C)))
            (TreePool.mk (A' ++ C ++ n :: B) st cap)
          = Ok (tt, TreePool.mk ((A' ++ C) ++ R) st cap)) as Hdestroy.
  { rewrite (releaseChildrenAndDestroy_run _ st cap _ n R Hn3).
    - by rewrite (assoc_L (++) A' C), take_app_length.
    - by rewrite (assoc_L (++) A' C), drop_S_middle. }
  step_with Hdestroy. clear Hdestroy.
  (* the sentinel takes its place *)
  simpl fromOption. unfold ret at 1, bind at 1. cbv beta iota.
  assert (NoDup (identifiersOf ((A' ++ C) ++ R))
          ∧ TreeReference.m_identifier self ∉ identifiersOf ((A' ++ C) ++ R))
    as [HN4 Hfresh].
  { revert HN3. rewrite (assoc_L (++) A' C).
    rewrite !(identifiersOf_app (A' ++ C)).
    change (identifiersOf (n :: B)) with (TreeNode.identifier n :: identifiersOf B).
    rewrite Hid. intros HN3.
    apply NoDup_app in HN3 as (HAC & Hdisj & HnB).
    apply NoDup_cons in HnB as [HnB HB]. split.
    - apply NoDup_app. repeat split; [done | | by eapply sublist_NoDup].
      intros x Hx HxR. apply (Hdisj x Hx). right. by eapply elem_of_sublist.
    - intros [Hin|Hin]%elem_of_app.
      + apply (Hdisj _ Hin). by left.
      + apply HnB. by eapply elem_of_sublist. }
  assert (TreePool.usedBytes ((A' ++ C) ++ R) + TreeNode.size s ≤ cap)%Z as Hcap'
    by (by rewrite <- (assoc_L (++))).
  step_with (deepCopy_static _ st cap k s Hs Hcap').
  set (fresh := TreePool.freshIdentifier _).
  unfold Node.rename.
  step_with (update_pooled (TreeNode.rename (TreeReference.m_identifier self))
               _ st cap _ _ (lookup_end ((A' ++ C) ++ R)
                 (TreeNode.rename fresh (TreeNode.setReferenceCounter 0 s)))).
  rewrite alter_end.
  assert (NoDup (identifiersOf (((A' ++ C) ++ R)
            ++ [TreeNode.rename (TreeReference.m_identifier self)
                  (TreeNode.rename fresh (TreeNode.setReferenceCounter 0 s))])))
    as HN6.
  { rewrite identifiersOf_app. apply NoDup_app. repeat split; [done | | apply NoDup_singleton].
    intros x Hx ->%list_elem_of_singleton. done. }
  step_by isDefined_run.
  rewrite (Hdefined _ (C ++ R ++ [TreeNode.rename (TreeReference.m_identifier self)
                  (TreeNode.rename fresh (TreeNode.setReferenceCounter 0 s))]));
    [| simpl; by rewrite <- !(assoc_L (++)) | by rewrite !(assoc_L (++)) ].
  unfold Node.setReferenceCounter.
  assert (∀ c, Node.update (Pooled (length ((A' ++ C) ++ R)))
                 (TreeNode.setReferenceCounter c)
                 (TreePool.mk (((A' ++ C) ++ R)
                    ++ [TreeNode.rename (TreeReference.m_identifier self)
                          (TreeNode.rename fresh (TreeNode.setReferenceCounter 0 s))])
                    st cap)
               = Ok (tt, TreePool.mk (A' ++ C ++ R
                    ++ [TreeNode.setReferenceCounter c
                          (TreeNode.rename (TreeReference.m_identifier self) s)])
                    st cap)) as Hset.
  { intros c. rewrite (update_pooled _ _ st cap _ _ (lookup_end _ _)).
    rewrite alter_end. by rewrite <- !(assoc_L (++)). }
  unfold c'. destruct parentCase as [[q nq]|].
  - destruct Hcase as (_ & _ & _ & Hidx).
    change (bool_decide (is_Some (Some (q, nq)))) with true. cbv iota.
    destruct (Z.geb_spec (TreePool.indexInParentPos (length A) l1) 0); [|lia].
    simpl assert. unfold ret at 1, bind at 1, bind at 1. cbv beta iota.
    rewrite Hset. unfold bind, ret. by rewrite <- !(assoc_L (++)).
  - change (bool_decide (is_Some None)) with false. cbv iota.
    unfold bind at 1. rewrite Hset. unfold ret. by rewrite <- !(assoc_L (++)).
Qed.

End protocol.

(** ** Handle operations on a pool spelled out *)

Section handles.

Implicit Types (l st : list TreeNode) (cap : Z) (n : TreeNode) (pos : nat).

Lemma parent_root self l st cap pos n :
  NoDup (identifiersOf l) → l !! pos = Some n →
  TreeNode.identifier n = TreeReference.m_identifier self →
  TreePool.parentPos pos l = None →
  TreeReference.parent self (TreePool.mk l st cap)
  = Ok (TreeReference.mk (-1), TreePool.mk l st cap).
Proof.
  intros HN Hn Hid Hnone. unfold TreeReference.parent.
  step_with (nodeD_pooled self l st cap pos n HN Hn Hid).
  step_with (parentTree_run l st cap pos n Hn). by rewrite Hnone.
Qed.

Lemma parent_child self l st cap pos n q nq :
  NoDup (identifiersOf l) → l !! pos = Some n →
  TreeNode.identifier n = TreeReference.m_identifier self →
  TreePool.parentPos pos l = Some q → l !! q = Some nq →
  TreeReference.parent self (TreePool.mk l st cap)
  = Ok (TreeReference.mk (TreeNode.identifier nq),
        TreePool.mk (alter TreeNode.retain q l) st cap).
Proof.
  intros HN Hn Hid Hq Hnq. unfold TreeReference.parent.
  step_with (nodeD_pooled self l st cap pos n HN Hn Hid).
  step_with (parentTree_run l st cap pos n Hn). rewrite Hq. simpl fmap.
  by apply fromNode_pooled.
Qed.

Lemma repeatM_nextSibling (k : nat) pos l st cap :
  repeatM k Node.nextSibling (Pooled pos) (TreePool.mk l st cap)
  = Ok (Pooled (Nat.iter k (λ q, TreePool.nextSiblingPos q l) pos),
        TreePool.mk l st cap).
Proof.
  revert pos. induction k as [|k IH]; intros pos; [done|].
  simpl repeatM. unfold Node.nextSibling at 1, Node.inBuffer, gets.
  unfold bind at 1 2 3, ret at 1 2. cbv beta iota. simpl TreePool.buffer.
  rewrite IH. by rewrite Nat.iter_succ_r.
Qed.

Lemma next_run l st cap pos n :
  l !! pos = Some n →
  Node.next (Pooled pos) (TreePool.mk l st cap)
  = Ok (Pooled (S pos), TreePool.mk l st cap).
Proof.
  intros Hn. unfold Node.next.
  by step_with (deref_run (Pooled pos) (TreePool.mk l st cap) n Hn).
Qed.

Lemma lookup_Permutation l l' pos n :
  l ≡ₚ l' → l !! pos = Some n → ∃ pos', l' !! pos' = Some n.
Proof.
  intros Hperm Hn. apply list_elem_of_lookup. rewrite <- Hperm.
  by eapply list_elem_of_lookup_2.
Qed.

Lemma NoDup_identifiersOf_Permutation l l' :
  l ≡ₚ l' → NoDup (identifiersOf l) → NoDup (identifiersOf l').
Proof. intros Hperm. unfold identifiersOf. by rewrite Hperm. Qed.

(** [addChildAtIndex] on a parent that is not a sentinel: a retain, one
    move to the position found by walking [index] siblings from the first
    child, and one more child for the parent. *)
Lemma addChildAtIndex_run self t index l st cap q np pt nt :
  NoDup (identifiersOf l) →
  l !! q = Some np → TreeNode.identifier np = TreeReference.m_identifier self →
  l !! pt = Some nt → TreeNode.identifier nt = TreeReference.m_identifier t →
  q ≠ pt →
  TreeNode.isAllocationFailure np = false →
  (0 ≤ index ≤ TreeNode.numberOfChildren np)%Z →
  let l1 := alter TreeNode.retain pt l in
  let d := TreePool.childPos q (Z.to_nat index) l1 in
  let l2 := TreePool.relocate pt (TreePool.deepLength pt l1) d l1 in
  ∃ q', l2 !! q' = Some np
        ∧ TreeReference.addChildAtIndex self t index (TreePool.mk l st cap)
          = Ok (tt, TreePool.mk
                      (alter TreeNode.incrementNumberOfChildren q' l2) st cap).
Proof.
  intros HN Hnp Hidp Hnt Hidt Hne Hfail Hindex l1 d l2.
  assert (l1 !! q = Some np) as Hnp1
    by (unfold l1; by rewrite list_lookup_alter_ne).
  assert (l1 !! pt = Some (TreeNode.retain nt)) as Hnt1
    by (unfold l1; by rewrite list_lookup_alter_eq, Hnt).
  assert (NoDup (identifiersOf l1)) as HN1
    by (unfold l1; by rewrite identifiersOf_alter).
  assert (NoDup (identifiersOf l2)) as HN2.
  { eapply NoDup_identifiersOf_Permutation; [|exact HN1].
    symmetry. apply relocate_Permutation. }
  destruct (lookup_Permutation l1 l2 q np) as [q' Hq'];
    [symmetry; apply relocate_Permutation | done |].
  exists q'. split; [done|].
  unfold TreeReference.addChildAtIndex.
  step_with (nodeD_pooled self l st cap q np HN Hnp Hidp).
  step_with (isAllocationFailure_run (Pooled q) (TreePool.mk l st cap) np Hnp).
  rewrite Hfail.
  assert (TreeReference.numberOfChildren self (TreePool.mk l st cap)
          = Ok (TreeNode.numberOfChildren np, TreePool.mk l st cap)) as Hcount.
  { unfold TreeReference.numberOfChildren.
    step_with (nodeD_pooled self l st cap q np HN Hnp Hidp).
    apply (numberOfChildren_run (Pooled q) (TreePool.mk l st cap) np Hnp). }
  step_with (andAlso_run (index >=? 0)%Z _ (λ count, (index <=? count)%Z) _ _
               Hcount).
  destruct (Z.geb_spec index 0); [|lia].
  destruct (Z.leb_spec index (TreeNode.numberOfChildren np)); [|lia].
  simpl assert. unfold ret at 1, bind at 1. cbv beta iota.
  step_with (nodeD_pooled t l st cap pt nt HN Hnt Hidt).
  unfold Node.retain. step_with (update_pooled TreeNode.retain l st cap pt nt Hnt).
  fold l1.
  step_with (nodeD_pooled self l1 st cap q np HN1 Hnp1 Hidp).
  step_with (next_run l1 st cap q np Hnp1).
  step_with (repeatM_nextSibling (Z.to_nat index) (S q) l1 st cap).
  step_with (nodeD_pooled t l1 st cap pt (TreeNode.retain nt) HN1 Hnt1 Hidt).
  step_with (move_run pt (Nat.iter (Z.to_nat index)
               (λ q0, TreePool.nextSiblingPos q0 l1) (S q)) l1 st cap).
  fold (TreePool.childPos q (Z.to_nat index) l1). fold d. fold l2.
  step_with (nodeD_pooled self l2 st cap q' np HN2 Hq' Hidp).
  unfold Node.incrementNumberOfChildren.
  by rewrite (update_pooled _ l2 st cap q' np Hq').
Qed.

End handles.

(** ** Consequences of well-formedness *)

Section wellformed.

Implicit Types (l st : list TreeNode) (cap : Z) (n : TreeNode) (pos : nat).

Lemma wellFormed_inv l st cap :
  wellFormed (TreePool.mk l st cap) = true →
  Forall (λ n, liveRecord n = true) l
  ∧ Forall (λ n, hasSentinel st n = true) l
  ∧ Forall (λ s, canonicalRecord s = true) st
  ∧ NoDup (identifiersOf (l ++ st))
  ∧ contiguous l = true
  ∧ (TreePool.usedBytes l ≤ cap)%Z.
Proof.
  unfold wellFormed. simpl.
  rewrite !andb_true_iff, !forallb_forall, !Forall_forall.
  intros (((((Hlive & Hsent) & Hcanon) & HN) & Hcont) & Hcap).
  repeat split.
  - intros n Hn. apply Hlive. by apply list_elem_of_In.
  - intros n Hn. apply Hsent. by apply list_elem_of_In.
  - intros n Hn. apply Hcanon. by apply list_elem_of_In.
  - by apply bool_decide_eq_true in HN.
  - done.
  - by apply Z.leb_le.
Qed.

Lemma liveRecord_inv n :
  liveRecord n = true →
  (0 ≤ TreeNode.identifier n)%Z ∧ (1 ≤ TreeNode.retainCount n)%Z
  ∧ (0 ≤ TreeNode.numberOfChildren n)%Z ∧ (0 ≤ TreeNode.size n)%Z
  ∧ (TreeNode.isAllocationFailure n = true → TreeNode.numberOfChildren n = 0%Z).
Proof.
  unfold liveRecord. rewrite !andb_true_iff, orb_true_iff, negb_true_iff.
  rewrite !Z.leb_le, Z.eqb_eq. intros ((((? & ?) & ?) & ?) & Hf).
  repeat split; try done. intros Hfail. destruct Hf; [congruence | done].
Qed.

Lemma hasSentinel_inv st n :
  hasSentinel st n = true →
  ∃ k s, TreePool.indexOfIdentifier
           (TreeNode.allocationFailureNodeIdentifier n) st = Some k
         ∧ st !! k = Some s
         ∧ (TreeNode.size s ≤ TreeNode.size n)%Z.
Proof.
  unfold hasSentinel.
  destruct (TreePool.indexOfIdentifier _ st) as [k|]; [|done].
  destruct (st !! k) as [s|] eqn:Hs; [|done].
  intros H%Z.leb_le. by exists k, s.
Qed.

Lemma canonicalRecord_inv s :
  canonicalRecord s = true →
  TreeNode.isAllocationFailure s = true
  ∧ TreeNode.numberOfChildren s = 0%Z ∧ (0 ≤ TreeNode.size s)%Z.
Proof.
  unfold canonicalRecord. rewrite !andb_true_iff, Z.eqb_eq, Z.leb_le. tauto.
Qed.

Lemma contiguous_inv l pos :
  contiguous l = true → pos < length l →
  TreePool.complete 1 (drop pos l) = true.
Proof.
  unfold contiguous. rewrite forallb_forall. intros H Hpos.
  apply H, in_seq. lia.
Qed.

Lemma identifiers_differ l i j a b :
  NoDup (identifiersOf l) → l !! i = Some a → l !! j = Some b → i ≠ j →
  TreeNode.identifier a ≠ TreeNode.identifier b.
Proof.
  intros HN Ha Hb Hne Heq. apply Hne.
  eapply (NoDup_lookup _ i j (TreeNode.identifier a) HN);
    unfold identifiersOf; rewrite list_lookup_fmap.
  - by rewrite Ha.
  - by rewrite Hb, Heq.
Qed.

Lemma tracked l st cap n :
  NoDup (identifiersOf l) → n ∈ l →
  ∃ pos, l !! pos = Some n
         ∧ TreePool.node (TreeNode.identifier n) (TreePool.mk l st cap)
           = Some (Pooled pos).
Proof.
  intros HN [pos Hpos]%list_elem_of_lookup. exists pos. split; [done|].
  by apply node_pooled.
Qed.

Lemma elem_of_alter_eq (f : TreeNode → TreeNode) l pos n :
  l !! pos = Some n → f n ∈ alter f pos l.
Proof.
  intros Hn. apply list_elem_of_lookup. exists pos.
  by rewrite list_lookup_alter_eq, Hn.
Qed.

Lemma elem_of_alter_ne (f : TreeNode → TreeNode) l pos n m :
  l !! pos = Some n → m ∈ l → TreeNode.identifier m ≠ TreeNode.identifier n →
  m ∈ alter f pos l.
Proof.
  intros Hn [i Hi]%list_elem_of_lookup Hne. apply list_elem_of_lookup. exists i.
  rewrite list_lookup_alter_ne; [done|]. intros ->. congruence.
Qed.

Lemma recordOf_tracked self l st cap n :
  NoDup (identifiersOf l) → n ∈ l →
  TreeNode.identifier n = TreeReference.m_identifier self →
  recordOf self (TreePool.mk l st cap) = Some n.
Proof.
  intros HN Hn Hid. destruct (tracked l st cap n HN Hn) as (pos & Hpos & Hnode).
  unfold recordOf. rewrite <- Hid, Hnode. done.
Qed.

(** Queries on the layout only read child counts. *)
Lemma nextSiblingPos_ext l l' pos :
  TreeNode.numberOfChildren <$> l = TreeNode.numberOfChildren <$> l' →
  TreePool.nextSiblingPos pos l = TreePool.nextSiblingPos pos l'.
Proof.
  intros H. unfold TreePool.nextSiblingPos, TreePool.deepLength. f_equal.
  apply skipTrees_ext. by rewrite !fmap_drop, H.
Qed.

Lemma parentPos_ext l l' pos :
  TreeNode.numberOfChildren <$> l = TreeNode.numberOfChildren <$> l' →
  TreePool.parentPos pos l = TreePool.parentPos pos l'.
Proof.
  intros H. unfold TreePool.parentPos. generalize pos at 2 4.
  intros q. induction q as [|q IH]; simpl; [done|].
  by rewrite (nextSiblingPos_ext l l' q H), IH.
Qed.

Lemma childIndexFrom_ext l l' target cur remaining k :
  TreeNode.numberOfChildren <$> l = TreeNode.numberOfChildren <$> l' →
  TreePool.childIndexFrom l target cur remaining k
  = TreePool.childIndexFrom l' target cur remaining k.
Proof.
  intros H. revert cur k. induction remaining as [|r IH]; intros cur k; simpl; [done|].
  by rewrite (nextSiblingPos_ext l l' cur H), IH.
Qed.

Lemma indexInParentPos_ext l l' pos :
  TreeNode.numberOfChildren <$> l = TreeNode.numberOfChildren <$> l' →
  TreePool.indexInParentPos pos l = TreePool.indexInParentPos pos l'.
Proof.
  intros H. unfold TreePool.indexInParentPos. rewrite (parentPos_ext l l' pos H).
  destruct (TreePool.parentPos pos l') as [q|]; [|done].
  assert (TreeNode.numberOfChildren <$> l !! q
          = TreeNode.numberOfChildren <$> l' !! q) as Hq
    by (by rewrite <- !list_lookup_fmap, H).
  destruct (l !! q) as [a|], (l' !! q) as [b|]; simpl in Hq; try done.
  injection Hq as ->. by apply childIndexFrom_ext.
Qed.

Lemma numberOfChildren_alter (f : TreeNode → TreeNode) pos l :
  (∀ n, TreeNode.numberOfChildren (f n) = TreeNode.numberOfChildren n) →
  TreeNode.numberOfChildren <$> alter f pos l = TreeNode.numberOfChildren <$> l.
Proof.
  intros Hf. apply list_eq. intros i. rewrite !list_lookup_fmap, list_lookup_alter.
  destruct (decide (pos = i)) as [->|]; [|done].
  destruct (l !! i); simpl; [|done]. by rewrite Hf.
Qed.

Lemma size_alter (f : TreeNode → TreeNode) pos l :
  (∀ n, TreeNode.size (f n) = TreeNode.size n) →
  TreeNode.size <$> alter f pos l = TreeNode.size <$> l.
Proof.
  intros Hf. apply list_eq. intros i. rewrite !list_lookup_fmap, list_lookup_alter.
  destruct (decide (pos = i)) as [->|]; [|done].
  destruct (l !! i); simpl; [|done]. by rewrite Hf.
Qed.

(** The release of the last owner destroys the record: its identifier
    no longer resolves. *)
Lemma release_last_owner l st cap pos n :
  wellFormed (TreePool.mk l st cap) = true →
  l !! pos = Some n →
  TreeNode.retainCount n = 1%Z →
  ∃ l', Node.release (Pooled pos) (TreePool.mk l st cap)
        = Ok (tt, TreePool.mk l' st cap)
        ∧ TreePool.node (TreeNode.identifier n) (TreePool.mk l' st cap) = None.
Proof.
  intros Hwf Hn Hrc.
  destruct (wellFormed_inv _ _ _ Hwf) as (Hlive & _ & _ & HN & _).
  assert (Forall (λ m, (1 ≤ TreeNode.retainCount m)%Z) (drop (S pos) l)) as Howned.
  { apply Forall_drop. eapply Forall_impl; [exact Hlive|].
    by intros m (_ & ? & _)%liveRecord_inv. }
  assert (Forall (λ m, (0 ≤ TreeNode.size m)%Z) (drop (S pos) l)) as Hsized.
  { apply Forall_drop. eapply Forall_impl; [exact Hlive|].
    by intros m (_ & _ & _ & ? & _)%liveRecord_inv. }
  destruct (releaseTrees_spec 0 (1 - 1 + TreeNode.numberOfChildren n)
              (drop (S pos) l) Howned Hsized) as (rest & Hrel & Hsub & _).
  exists (take pos l ++ rest). split.
  - unfold Node.release. step_with (deref_run (Pooled pos) (TreePool.mk l st cap) n Hn).
    simpl. rewrite (drop_S _ _ _ Hn). simpl. rewrite Hrc. simpl.
    by rewrite Hrel.
  - rewrite <- (take_drop_middle l pos n Hn) in HN.
    unfold identifiersOf in HN.
    rewrite <- (assoc_L (++)), !fmap_app, fmap_cons in HN.
    apply NoDup_app in HN as (_ & Hahead & HN).
    apply NoDup_cons in HN as (Hbehind & _).
    apply not_elem_of_app in Hbehind as [Hbehind Hstatic].
    unfold TreePool.node. simpl.
    assert (TreeNode.identifier n ∉ TreeNode.identifier <$> take pos l ++ rest)
      as Hgone.
    { rewrite fmap_app. intros [Hin|Hin]%elem_of_app.
      - by apply (Hahead _ Hin), elem_of_cons; left.
      - apply Hbehind. by eapply elem_of_sublist. }
    apply indexOfIdentifier_None in Hgone as ->.
    by apply indexOfIdentifier_None in Hstatic as ->.
Qed.

End wellformed.

(** ** [replaceWithAllocationFailure] on a well-formed pool *)

Section replace.

Lemma bind_ext {A B} (m : Op A) (k k' : A → Op B) pool :
  (∀ a pool', m pool = Ok (a, pool') → k a pool' = k' a pool') →
  bind m k pool = bind m k' pool.
Proof.
  intros Hk. unfold bind. destruct (m pool) as [[a pool']|e]; [|done].
  by apply Hk.
Qed.

Lemma assert_inv b pool u pool' :
  assert b pool = Ok (u, pool') → pool' = pool.
Proof. destruct b; simpl; [by intros [= _ <-] | done]. Qed.

Lemma setReferenceCounter_node q c pool u pool' id :
  Node.setReferenceCounter q c pool = Ok (u, pool') →
  TreePool.node id pool' = TreePool.node id pool.
Proof.
  unfold Node.setReferenceCounter, Node.update, Node.deref, bind, gets,
    modify, fromOption.
  destruct (TreePool.deref q pool); simpl; [|done].
  intros [= _ <-]. by apply node_update.
Qed.

(** The body of [replaceWithAllocationFailure] is the substitution
    followed by the reattachment: whether [p] is defined is the same
    before and after the retain count is set. *)
Lemma replaceWithAllocationFailure_split self pool :
  TreeReference.replaceWithAllocationFailure self pool
  = (substituted <- TreeReference.substituteAllocationFailure self ;;
     TreeReference.reattachAllocationFailure substituted) pool.
Proof.
  unfold TreeReference.replaceWithAllocationFailure,
    TreeReference.substituteAllocationFailure.
  do 17 (rewrite bind_assoc; apply bind_ext; intros ? ? _).
  rewrite bind_assoc. apply bind_ext. intros defined pool1 Hdef.
  rewrite isDefined_run in Hdef. injection Hdef as Hdef <-.
  destruct defined.
  - rewrite !bind_assoc. apply bind_ext. intros u1 pool2 Hassert.
    apply assert_inv in Hassert as ->.
    rewrite bind_assoc. apply bind_ext. intros u2 pool3 Hset.
    unfold TreeReference.reattachAllocationFailure.
    rewrite (bind_Ok (ret _) _ _ _ _ eq_refl). cbv beta iota.
    erewrite (bind_Ok (TreeReference.isDefined _)); [|apply isDefined_run].
    rewrite (setReferenceCounter_node _ _ _ _ _ _ Hset), Hdef. done.
  - rewrite bind_assoc. apply bind_ext. intros u2 pool3 Hset.
    unfold TreeReference.reattachAllocationFailure.
    rewrite (bind_Ok (ret _) _ _ _ _ eq_refl). cbv beta iota.
    erewrite (bind_Ok (TreeReference.isDefined _)); [|apply isDefined_run].
    rewrite (setReferenceCounter_node _ _ _ _ _ _ Hset), Hdef. done.
Qed.

Implicit Types (l st A B C R : list TreeNode) (cap : Z) (n s : TreeNode).

Lemma substituted_NoDup A A' n B C R sent :
  NoDup (identifiersOf (A ++ n :: B ++ C)) →
  identifiersOf A' = identifiersOf A →
  identifiersOf R `sublist_of` identifiersOf B →
  TreeNode.identifier sent = TreeNode.identifier n →
  NoDup (identifiersOf (A' ++ C ++ R ++ [sent])).
Proof.
  intros HN HA HR Hid.
  rewrite !identifiersOf_app, HA. unfold identifiersOf at 4. simpl. rewrite Hid.
  apply (sublist_NoDup _
           (identifiersOf A ++ identifiersOf C ++ identifiersOf B
            ++ [TreeNode.identifier n])).
  - revert HN. rewrite identifiersOf_app.
    change (identifiersOf (n :: B ++ C))
      with (TreeNode.identifier n :: identifiersOf (B ++ C)).
    rewrite identifiersOf_app. intros HN.
    enough (identifiersOf A ++ identifiersOf C ++ identifiersOf B
              ++ [TreeNode.identifier n]
            ≡ₚ identifiersOf A ++ TreeNode.identifier n
                 :: identifiersOf B ++ identifiersOf C) as Hperm
      by (by rewrite Hperm).
    f_equiv. rewrite (Permutation_app_comm (identifiersOf C)).
    rewrite <- (assoc_L (++)). simpl. symmetry. apply Permutation_middle.
  - by repeat (apply sublist_app; [done|]).
Qed.

Lemma take_skip_decompose l pos n :
  l !! pos = Some n → childCountsOk l →
  let b := TreePool.skipTrees (TreeNode.numberOfChildren n) (drop (S pos) l) in
  let A := take pos l in
  let B := take b (drop (S pos) l) in
  let C := drop b (drop (S pos) l) in
  l = A ++ n :: B ++ C ∧ length A = pos
  ∧ TreePool.skipTrees 1 (n :: B ++ C) = S (length B).
Proof.
  intros Hn Hl b A B C. unfold A, B, C.
  rewrite take_drop. split; [by rewrite take_drop_middle|].
  split; [rewrite length_take; apply lookup_lt_Some in Hn; lia|].
  rewrite skipTrees_cons by lia.
  replace (1 - 1 + TreeNode.numberOfChildren n)%Z
    with (TreeNode.numberOfChildren n) by lia.
  fold b. rewrite length_take. pose proof (skipTrees_le (TreeNode.numberOfChildren n) (drop (S pos) l)).
  fold b in H. lia.
Qed.

Lemma wellFormed_buffer l st cap :
  wellFormed (TreePool.mk l st cap) = true →
  NoDup (identifiersOf l) ∧ childCountsOk l
  ∧ Forall (λ n, (1 ≤ TreeNode.retainCount n)%Z) l
  ∧ Forall (λ n, (0 ≤ TreeNode.size n)%Z) l.
Proof.
  intros (Hlive & _ & _ & HN & _)%wellFormed_inv.
  rewrite identifiersOf_app in HN. apply NoDup_app in HN as (HN & _).
  split; [done|].
  repeat split; eapply Forall_impl; try exact Hlive;
    intros n Hn%liveRecord_inv; simpl in *; tauto.
Qed.

(** The protocol on a node of a well-formed pool: it runs to the end, the
    sentinel of the node's type stands under the node's identifier, and
    its retain count is the node's, less the parent's share until the
    sentinel is attached again. *)
Lemma replaceWithAllocationFailure_run self l st cap pos n :
  wellFormed (TreePool.mk l st cap) = true →
  l !! pos = Some n →
  TreeNode.identifier n = TreeReference.m_identifier self →
  ∃ k s p newNode idx lmid lfinal,
    TreePool.indexOfIdentifier (TreeNode.allocationFailureNodeIdentifier n) st
      = Some k
    ∧ st !! k = Some s
    ∧ TreeReference.substituteAllocationFailure self (TreePool.mk l st cap)
      = Ok ((p, newNode, idx), TreePool.mk lmid st cap)
    ∧ recordOf self (TreePool.mk lmid st cap)
      = Some (TreeNode.setReferenceCounter
                (match TreePool.parentPos pos l with
                 | Some _ => TreeNode.retainCount n - 1
                 | None => TreeNode.retainCount n
                 end)%Z
                (TreeNode.rename (TreeReference.m_identifier self) s))
    ∧ TreeReference.replaceWithAllocationFailure self (TreePool.mk l st cap)
      = Ok (tt, TreePool.mk lfinal st cap)
    ∧ recordOf self (TreePool.mk lfinal st cap)
      = Some (TreeNode.setReferenceCounter (TreeNode.retainCount n)
                (TreeNode.rename (TreeReference.m_identifier self) s)).
Proof.
  intros Hwf Hn Hid.
  destruct (wellFormed_buffer _ _ _ Hwf) as (HN & Hcc & Hrc & Hsz).
  destruct (wellFormed_inv _ _ _ Hwf) as (Hlive & Hsent & Hcanon & _ & _ & Hcap).
  assert (n ∈ l) as Hnl by (by eapply list_elem_of_lookup_2).
  destruct (hasSentinel_inv st n) as (k & s & Hk & Hs & Hsize).
  { by eapply Forall_forall in Hsent. }
  destruct (take_skip_decompose l pos n Hn Hcc) as (Hl & HlenA & Hspan).
  set (A := take pos l) in *.
  set (B := take _ (drop (S pos) l)) in *.
  set (C := drop _ (drop (S pos) l)) in *.
  assert (Forall (λ n, (1 ≤ TreeNode.retainCount n)%Z) B) as HrcB
    by (by apply Forall_take, Forall_drop).
  assert (Forall (λ n, (0 ≤ TreeNode.size n)%Z) B) as HszB
    by (by apply Forall_take, Forall_drop).
  destruct (releaseTrees_spec 0 (TreeNode.numberOfChildren n) B HrcB HszB)
    as (R & HR & Hsub & Hbytes).
  assert (TreePool.usedBytes l
          = (TreePool.usedBytes A + (TreeNode.size n
             + (TreePool.usedBytes B + TreePool.usedBytes C)))%Z) as Hused.
  { rewrite Hl at 1. rewrite usedBytes_app. simpl. by rewrite usedBytes_app. }
  exists k, s.
  destruct (TreePool.parentPos pos l) as [q|] eqn:Hq.
  - apply enclosing_Some in Hq as Hq'. destruct Hq' as (Hlt & Hin & _).
    assert (pos < length l) as Hpos by (by eapply lookup_lt_Some).
    destruct (lookup_lt_is_Some_2 l q) as [nq Hnq]; [lia|].
    pose proof (parent_has_children l pos q nq Hlt Hin Hnq) as Hchildren.
    pose proof (indexInParentPos_bounds l pos q nq Hcc Hq Hnq) as Hidx.
    assert (liveRecord nq = true) as Hliveq.
    { eapply Forall_forall in Hlive; [exact Hlive|]. by eapply list_elem_of_lookup_2. }
    apply liveRecord_inv in Hliveq as (Hidq & Hrcq & _ & _ & Hfailq).
    assert (TreeNode.isAllocationFailure nq = false) as Hnotfail.
    { destruct (TreeNode.isAllocationFailure nq); [|done]. specialize (Hfailq eq_refl). lia. }
    assert (liveRecord n = true) as Hliven by (by eapply Forall_forall in Hlive).
    apply liveRecord_inv in Hliven as (Hidn & Hrcn & _ & _ & _).
    assert (A !! q = Some nq) as HAq.
    { rewrite Hl in Hnq. by rewrite lookup_app_l in Hnq by lia. }
    set (A1 := alter TreeNode.retain q A).
    set (A3 := alter TreeNode.decrementNumberOfChildren q A1).
    set (nq3 := TreeNode.decrementNumberOfChildren (TreeNode.retain nq)).
    set (sent := TreeNode.setReferenceCounter (TreeNode.retainCount n - 1)
                   (TreeNode.rename (TreeReference.m_identifier self) s)).
    set (p := TreeReference.mk (TreeNode.identifier nq)).
    assert (alter TreeNode.retain q l = A1 ++ n :: B ++ C) as Hl1.
    { rewrite Hl at 1. by rewrite alter_app_l by lia. }
    assert (TreeReference.parent self (TreePool.mk l st cap)
            = Ok (p, TreePool.mk (A1 ++ n :: B ++ C) st cap)) as Hparent.
    { rewrite <- Hl1. exact (parent_child self l st cap pos n q nq HN Hn Hid Hq Hnq). }
    assert (length A1 = pos) as HlenA1 by (unfold A1; by rewrite length_alter).
    assert (TreePool.indexInParentPos (length A1) (A1 ++ n :: B ++ C)
            = TreePool.indexInParentPos pos l) as Hidx1.
    { rewrite HlenA1, <- Hl1. apply indexInParentPos_ext.
      by apply numberOfChildren_alter. }
    assert (NoDup (identifiersOf (A1 ++ n :: B ++ C))) as HN1
      by (rewrite <- Hl1; by rewrite identifiersOf_alter).
    assert (A1 !! q = Some (TreeNode.retain nq)) as HA1q
      by (unfold A1; by rewrite list_lookup_alter_eq, HAq).
    assert (A3 !! q = Some nq3) as HA3q
      by (unfold A3; by rewrite list_lookup_alter_eq, HA1q).
    assert (TreePool.usedBytes A3 = TreePool.usedBytes A) as HusedA3.
    { apply usedBytes_ext. unfold A3, A1. by rewrite !size_alter. }
    assert (TreeReference.substituteAllocationFailure self (TreePool.mk l st cap)
            = Ok ((p, Pooled (length (A3 ++ C ++ R)),
                   TreePool.indexInParentPos (length A1) (A1 ++ n :: B ++ C)),
                  TreePool.mk (A3 ++ C ++ R ++ [sent]) st cap)) as Hsubst.
    { apply (substitute_from self _ _ A1 n B C st cap k s R
               (Some (q, TreeNode.retain nq))); try done.
      - fold A3. rewrite !usedBytes_app, HusedA3. lia.
      - repeat split; try done. rewrite Hidx1. lia. }
    rewrite Hidx1 in Hsubst.
    assert (NoDup (identifiersOf (A3 ++ C ++ R ++ [sent]))) as HNmid.
    { apply (substituted_NoDup A A3 n B C R); [by rewrite <- Hl | | done | by rewrite Hid].
      unfold A3, A1. by rewrite !identifiersOf_alter. }
    assert (sent ∈ A3 ++ C ++ R ++ [sent]) as Hsentmid.
    { rewrite !elem_of_app, list_elem_of_singleton. auto. }
    (* the sentinel is attached where the node was *)
    set (lmid := A3 ++ C ++ R ++ [sent]) in *.
    set (pt := length (A3 ++ C ++ R)) in *.
    assert (q < length A3) as HqA3 by (by eapply lookup_lt_Some).
    assert (lmid !! q = Some nq3) as Hmidq
      by (unfold lmid; by rewrite lookup_app_l).
    assert (lmid !! pt = Some sent) as Hmidpt.
    { unfold lmid, pt. rewrite !(assoc_L (++)). apply lookup_end. }
    assert (q ≠ pt) as Hqpt by (unfold pt; rewrite length_app; lia).
    assert (TreeNode.identifier nq3 = TreeReference.m_identifier p) as Hidp by done.
    assert (TreeNode.identifier nq ≠ TreeReference.m_identifier self) as Hdiff.
    { rewrite <- Hid. apply (identifiers_differ l q pos); try done. lia. }
    set (la := alter TreeNode.retain pt lmid).
    assert (NoDup (identifiersOf la)) as HNa
      by (unfold la; by rewrite identifiersOf_alter).
    assert (la !! q = Some nq3) as Haq
      by (unfold la; by rewrite list_lookup_alter_ne).
    assert (la !! pt = Some (TreeNode.retain sent)) as Hapt
      by (unfold la; by rewrite list_lookup_alter_eq, Hmidpt).
    destruct (addChildAtIndex_run p self (TreePool.indexInParentPos pos l)
                la st cap q nq3 pt (TreeNode.retain sent))
      as (q' & Hq2 & Hadd); try done.
    { simpl. lia. }
    set (la1 := alter TreeNode.retain pt la) in *.
    set (l2 := TreePool.relocate _ _ _ la1) in *.
    set (lb := alter TreeNode.incrementNumberOfChildren q' l2) in *.
    set (sent2 := TreeNode.retain (TreeNode.retain sent)).
    set (nq4 := TreeNode.incrementNumberOfChildren nq3).
    assert (l2 ≡ₚ la1) as Hperm by apply relocate_Permutation.
    assert (NoDup (identifiersOf lb)) as HNb.
    { unfold lb. rewrite identifiersOf_alter by done.
      eapply NoDup_identifiersOf_Permutation; [symmetry; exact Hperm|].
      unfold la1. by rewrite identifiersOf_alter. }
    assert (sent2 ∈ lb) as Hsent2.
    { unfold lb. eapply elem_of_alter_ne; [exact Hq2 | | simpl; congruence].
      rewrite Hperm. unfold la1. eapply elem_of_alter_eq. exact Hapt. }
    assert (nq4 ∈ lb) as Hnq4 by (by eapply elem_of_alter_eq).
    (* the temporary handle goes *)
    destruct (tracked lb st cap sent2 HNb Hsent2) as (x & Hx & Hnodex).
    set (sentF := TreeNode.setReferenceCounter (TreeNode.retainCount sent2 - 1) sent2).
    set (lc := alter (TreeNode.setReferenceCounter (TreeNode.retainCount sent2 - 1)) x lb).
    assert (TreeReference.destructor self (TreePool.mk lb st cap)
            = Ok (tt, TreePool.mk lc st cap)) as Hdtor1.
    { rewrite (destructor_run self _ (Pooled x) sent2); [| lia | done].
      rewrite (release_run (Pooled x) _ sent2); [done | done | simpl; lia]. }
    assert (NoDup (identifiersOf lc)) as HNc
      by (unfold lc; by rewrite identifiersOf_alter).
    assert (sentF ∈ lc) as HsentF by (by eapply elem_of_alter_eq).
    assert (nq4 ∈ lc) as Hnq4c.
    { eapply elem_of_alter_ne; [exact Hx | done | simpl; congruence]. }
    (* and [p] *)
    destruct (tracked lc st cap nq4 HNc Hnq4c) as (y & Hy & Hnodey).
    set (ld := alter (TreeNode.setReferenceCounter (TreeNode.retainCount nq4 - 1)) y lc).
    assert (TreeReference.destructor p (TreePool.mk lc st cap)
            = Ok (tt, TreePool.mk ld st cap)) as Hdtor2.
    { rewrite (destructor_run p _ (Pooled y) nq4); [| done | done].
      rewrite (release_run (Pooled y) _ nq4); [done | done | simpl; lia]. }
    assert (NoDup (identifiersOf ld)) as HNd
      by (unfold ld; by rewrite identifiersOf_alter).
    assert (sentF ∈ ld) as HsentFd.
    { eapply elem_of_alter_ne; [exact Hy | done | simpl; congruence]. }
    exists p, (Pooled pt), (TreePool.indexInParentPos pos l), lmid, ld.
    split; [done|]. split; [done|]. split; [exact Hsubst|].
    split; [by apply recordOf_tracked|].
    split.
    + rewrite replaceWithAllocationFailure_split.
      step_with Hsubst. unfold TreeReference.reattachAllocationFailure.
      cbv iota.
      assert (TreeReference.isDefined p (TreePool.mk lmid st cap)
              = Ok (true, TreePool.mk lmid st cap)) as Hdefp.
      { rewrite isDefined_run.
        change (TreeReference.m_identifier p) with (TreeNode.identifier nq3).
        rewrite (node_pooled lmid st cap q nq3 HNmid Hmidq).
        change (TreeNode.identifier nq3) with (TreeNode.identifier nq).
        by destruct (Z.geb_spec (TreeNode.identifier nq) 0); [|lia]. }
      step_with Hdefp. unfold when. rewrite bind_assoc.
      step_with (fromNode_pooled lmid st cap pt sent HNmid Hmidpt).
      fold la. rewrite bind_assoc.
      replace (TreeReference.mk (TreeNode.identifier sent)) with self
        by (by destruct self).
      step_with Hadd. step_with Hdtor1. exact Hdtor2.
    + rewrite (recordOf_tracked self ld st cap sentF HNd HsentFd); [|done].
      f_equal. unfold sentF, sent2, sent. unfold TreeNode.setReferenceCounter,
        TreeNode.retain, TreeNode.rename. simpl. f_equal. lia.
  - set (sent := TreeNode.setReferenceCounter (TreeNode.retainCount n)
                   (TreeNode.rename (TreeReference.m_identifier self) s)).
    assert (TreeReference.parent self (TreePool.mk l st cap)
            = Ok (TreeReference.mk (-1), TreePool.mk (A ++ n :: B ++ C) st cap))
      as Hparent by (rewrite <- Hl; by eapply parent_root).
    assert (TreeReference.substituteAllocationFailure self (TreePool.mk l st cap)
            = Ok ((TreeReference.mk (-1), Pooled (length (A ++ C ++ R)),
                   TreePool.indexInParentPos (length A) (A ++ n :: B ++ C)),
                  TreePool.mk (A ++ C ++ R ++ [sent]) st cap)) as Hsubst.
    { apply (substitute_from self _ _ A n B C st cap k s R None); try done.
      - by rewrite <- Hl.
      - rewrite !usedBytes_app. lia. }
    assert (NoDup (identifiersOf (A ++ C ++ R ++ [sent]))) as HNmid.
    { apply (substituted_NoDup A A n B C R);
        [by rewrite <- Hl | done | done | by rewrite Hid]. }
    assert (recordOf self (TreePool.mk (A ++ C ++ R ++ [sent]) st cap) = Some sent)
      as Hrec.
    { apply recordOf_tracked; [done | | done].
      rewrite !elem_of_app, list_elem_of_singleton. auto. }
    do 5 eexists. split; [done|]. split; [done|]. split; [exact Hsubst|].
    split; [exact Hrec|]. split; [|exact Hrec].
    rewrite replaceWithAllocationFailure_split.
    step_with Hsubst. unfold TreeReference.reattachAllocationFailure.
    cbv iota. step_by isDefined_run. done.
Qed.

(** Whether [parent()] yields a defined handle: exactly when the layout
    has a node around this one. *)
Lemma parent_isDefined self l st cap pos n :
  wellFormed (TreePool.mk l st cap) = true →
  l !! pos = Some n →
  TreeNode.identifier n = TreeReference.m_identifier self →
  eval (p <- TreeReference.parent self ;; TreeReference.isDefined p)
    (TreePool.mk l st cap)
  = Ok (bool_decide (is_Some (TreePool.parentPos pos l))).
Proof.
  intros Hwf Hn Hid.
  destruct (wellFormed_buffer _ _ _ Hwf) as (HN & _).
  destruct (wellFormed_inv _ _ _ Hwf) as (Hlive & _).
  unfold eval. destruct (TreePool.parentPos pos l) as [q|] eqn:Hq.
  - apply enclosing_Some in Hq as Hq'. destruct Hq' as (Hlt & _).
    assert (pos < length l) as Hpos by (by eapply lookup_lt_Some).
    destruct (lookup_lt_is_Some_2 l q) as [nq Hnq]; [lia|].
    assert (liveRecord nq = true) as Hliveq.
    { eapply Forall_forall in Hlive; [exact Hlive|]. by eapply list_elem_of_lookup_2. }
    apply liveRecord_inv in Hliveq as (Hidq & _).
    step_with (parent_child self l st cap pos n q nq HN Hn Hid Hq Hnq).
    rewrite isDefined_run. simpl TreeReference.m_identifier.
    rewrite (node_pooled (alter TreeNode.retain q l) st cap q (TreeNode.retain nq)).
    + by destruct (Z.geb_spec (TreeNode.identifier nq) 0); [|lia].
    + by rewrite identifiersOf_alter.
    + by rewrite list_lookup_alter_eq, Hnq.
  - by step_with (parent_root self l st cap pos n HN Hn Hid Hq).
Qed.

End replace.

(** ** What a handle reads from the record it resolves to *)

Section observations.

Implicit Types (pool : TreePool) (self : TreeReference) (r : TreeNode).

Lemma recordOf_inv self pool r :
  recordOf self pool = Some r →
  ∃ p, TreePool.node (TreeReference.m_identifier self) pool = Some p
       ∧ TreePool.deref p pool = Some r.
Proof.
  unfold recordOf.
  destruct (TreePool.node (TreeReference.m_identifier self) pool) as [p|];
    [|done].
  simpl. intros Hr. by exists p.
Qed.

Lemma recordOf_identifier self pool r :
  recordOf self pool = Some r →
  TreeNode.identifier r = TreeReference.m_identifier self.
Proof.
  intros (p & Hp & Hr)%recordOf_inv.
  destruct (node_deref _ _ _ Hp) as (r' & Hr' & Hid). congruence.
Qed.

Lemma isAllocationFailure_recordOf self pool r :
  recordOf self pool = Some r →
  TreeReference.isAllocationFailure self pool
  = Ok (TreeNode.isAllocationFailure r, pool).
Proof.
  intros (p & Hp & Hr)%recordOf_inv. unfold TreeReference.isAllocationFailure.
  step_with (nodeD_run self pool p Hp). by apply isAllocationFailure_run.
Qed.

Lemma nodeRetainCount_recordOf self pool r :
  recordOf self pool = Some r →
  TreeReference.nodeRetainCount self pool = Ok (TreeNode.retainCount r, pool).
Proof.
  intros (p & Hp & Hr)%recordOf_inv. by eapply nodeRetainCount_run.
Qed.

Lemma numberOfChildren_recordOf self pool r :
  recordOf self pool = Some r →
  TreeReference.numberOfChildren self pool
  = Ok (TreeNode.numberOfChildren r, pool).
Proof.
  intros (p & Hp & Hr)%recordOf_inv. unfold TreeReference.numberOfChildren.
  step_with (nodeD_run self pool p Hp). by apply numberOfChildren_run.
Qed.

Lemma isDefined_recordOf self pool r :
  recordOf self pool = Some r →
  TreeReference.isDefined self pool
  = Ok ((TreeReference.m_identifier self >=? 0)%Z, pool).
Proof.
  intros (p & Hp & Hr)%recordOf_inv. rewrite isDefined_run, Hp.
  by rewrite andb_true_r.
Qed.

Lemma recordOf_pooled self l st cap pos n :
  NoDup (identifiersOf l) → l !! pos = Some n →
  TreeNode.identifier n = TreeReference.m_identifier self →
  recordOf self (TreePool.mk l st cap) = Some n.
Proof.
  intros HN Hn Hid. apply recordOf_tracked; [done | | done].
  by eapply list_elem_of_lookup_2.
Qed.

End observations.

(** ** Fresh identifiers, allocation and copies *)

Section fresh.

Implicit Types (l st : list TreeNode) (cap : Z) (n : TreeNode) (pool : TreePool).

Lemma maxIdentifier_bound l :
  (-1 ≤ TreePool.maxIdentifier l)%Z
  ∧ ∀ id, id ∈ identifiersOf l → (id ≤ TreePool.maxIdentifier l)%Z.
Proof.
  induction l as [|n l [IH1 IH2]]; simpl.
  - split; [done|]. intros id Hid. by apply elem_of_nil in Hid.
  - split; [lia|]. intros id [->|Hid]%elem_of_cons; [lia|].
    specialize (IH2 id Hid). lia.
Qed.

Lemma freshIdentifier_nonneg pool : (0 ≤ TreePool.freshIdentifier pool)%Z.
Proof.
  unfold TreePool.freshIdentifier.
  pose proof (maxIdentifier_bound (TreePool.buffer pool)) as [? _]. lia.
Qed.

(** Every identifier in use lies below the fresh one. *)
Lemma freshIdentifier_above pool id :
  id ∈ identifiersOf (TreePool.buffer pool) →
  (id < TreePool.freshIdentifier pool)%Z.
Proof.
  intros Hid. unfold TreePool.freshIdentifier.
  pose proof (maxIdentifier_bound (TreePool.buffer pool)) as [_ H].
  specialize (H id Hid). lia.
Qed.

Lemma indexOfIdentifier_fresh l l' id :
  (∀ x, x ∈ identifiersOf l → (x < id)%Z) →
  TreePool.indexOfIdentifier id (l ++ l')
  = (λ pos, length l + pos) <$> TreePool.indexOfIdentifier id l'.
Proof.
  intros Hfresh. rewrite indexOfIdentifier_app.
  destruct (TreePool.indexOfIdentifier id l) as [pos|] eqn:E; [|done].
  apply indexOfIdentifier_Some in E as (n & Hn & Hid).
  assert (id < id)%Z; [|lia]. apply Hfresh. rewrite <- Hid.
  apply list_elem_of_fmap. exists n. split; [done|]. by eapply list_elem_of_lookup_2.
Qed.

Lemma create_run T l st cap :
  (TreePool.usedBytes l + typeSize T ≤ cap)%Z →
  let id := TreePool.freshIdentifier (TreePool.mk l st cap) in
  TreeReference.create T (TreePool.mk l st cap)
  = Ok (TreeReference.mk id,
        TreePool.mk
          (l ++ [TreeNode.mk id 1 0 (typeSize T) (typeTagOf T)
                   (typeIsAllocationFailure T) (typeFailureIdentifier T)])
          st cap).
Proof.
  intros Hcap id. unfold TreeReference.create, Pool.createTreeNode.
  unfold bind at 1. simpl TreePool.buffer. simpl TreePool.capacity.
  destruct (Z.leb_spec (TreePool.usedBytes l + typeSize T) cap); [|lia].
  unfold TreePool.withBuffer. simpl.
  erewrite bind_Ok;
    [|apply (identifier_run (Pooled (length l))); simpl; apply lookup_end].
  done.
Qed.


(** The copies made by [deepCopy]. *)
Lemma copyRecords_length base root l :
  length (TreePool.copyRecords base root l) = length l.
Proof.
  revert base root. induction l as [|n l IH]; intros base root; simpl; [done|].
  by rewrite IH.
Qed.

Lemma copyRecords_shape base root l :
  TreeNode.shape <$> TreePool.copyRecords base root l = TreeNode.shape <$> l.
Proof.
  revert base root. induction l as [|n l IH]; intros base root; csimpl; [done|].
  by rewrite (IH (base + 1)%Z false).
Qed.

Lemma copyRecords_identifiers base root l id :
  id ∈ identifiersOf (TreePool.copyRecords base root l) → (base ≤ id)%Z.
Proof.
  revert base root. induction l as [|n l IH]; intros base root; simpl.
  - by intros ?%elem_of_nil.
  - intros [->|Hid]%elem_of_cons; [done|]. apply IH in Hid. lia.
Qed.

Lemma shape_numberOfChildren l l' :
  TreeNode.shape <$> l = TreeNode.shape <$> l' →
  TreeNode.numberOfChildren <$> l = TreeNode.numberOfChildren <$> l'.
Proof.
  intros H.
  assert (∀ k : list TreeNode, TreeNode.numberOfChildren <$> k
            = (λ s : Z * Z * Z * bool, s.1.1.2) <$> (TreeNode.shape <$> k)) as E.
  { intros k. rewrite <- list_fmap_compose. done. }
  by rewrite !E, H.
Qed.

End fresh.

(** ** Cloning *)

Section cloning.

Implicit Types (l st : list TreeNode) (cap : Z) (n : TreeNode) (pos : nat).

(** The subtree read at [pos] does not depend on what follows it. *)
Lemma skipTrees_take k l :
  TreePool.complete k l = true →
  TreePool.skipTrees k (take (TreePool.skipTrees k l) l) = TreePool.skipTrees k l.
Proof.
  intros Hk. rewrite <- (take_drop (TreePool.skipTrees k l) l) at 3.
  symmetry. apply skipTrees_app. by apply complete_take.
Qed.

Lemma subtreeRecords_app l l' st cap pos :
  pos < length l → contiguous l = true →
  TreePool.subtreeRecords (Pooled pos) (TreePool.mk (l ++ l') st cap)
  = TreePool.subtreeRecords (Pooled pos) (TreePool.mk l st cap).
Proof.
  intros Hpos Hcont. simpl. unfold TreePool.deepLength.
  pose proof (contiguous_inv l pos Hcont Hpos) as Hcomplete.
  rewrite drop_app_le by lia. rewrite skipTrees_app by done.
  apply take_app_le. apply skipTrees_le.
Qed.

Lemma subtreeRecords_whole l l' st cap :
  TreePool.skipTrees 1 l' = length l' →
  TreePool.subtreeRecords (Pooled (length l)) (TreePool.mk (l ++ l') st cap) = l'.
Proof.
  intros Hlen. simpl. unfold TreePool.deepLength.
  rewrite drop_app_length, Hlen. by rewrite take_ge.
Qed.

Lemma subtreeRecords_length l st cap pos :
  pos < length l → contiguous l = true →
  let src := TreePool.subtreeRecords (Pooled pos) (TreePool.mk l st cap) in
  TreePool.skipTrees 1 src = length src.
Proof.
  intros Hpos Hcont. simpl. unfold TreePool.deepLength.
  rewrite skipTrees_take by (by apply contiguous_inv).
  rewrite length_take. pose proof (skipTrees_le 1 (drop pos l)). lia.
Qed.

Lemma subtreeRecords_head l st cap pos n :
  l !! pos = Some n →
  ∃ rest, TreePool.subtreeRecords (Pooled pos) (TreePool.mk l st cap) = n :: rest.
Proof.
  intros Hn. simpl. unfold TreePool.deepLength.
  rewrite (drop_S _ _ _ Hn). rewrite skipTrees_cons by lia. simpl. eauto.
Qed.

Lemma subtreeRecords_sublist l st cap pos :
  identifiersOf (TreePool.subtreeRecords (Pooled pos) (TreePool.mk l st cap))
    `sublist_of` identifiersOf l.
Proof.
  simpl. unfold identifiersOf. apply fmap_sublist.
  etrans; [apply sublist_take | apply sublist_drop].
Qed.

End cloning.

(** ** Adding a child *)

Section adding.

Implicit Types (l st P Q K W : list TreeNode) (cap : Z) (n : TreeNode) (pos : nat).

Lemma alter_at_length (f : TreeNode → TreeNode) P n Q :
  alter f (length P) (P ++ n :: Q) = P ++ f n :: Q.
Proof. rewrite <- (Nat.add_0_r (length P)). by rewrite alter_app_r. Qed.

Lemma deepLength_ext l l' pos :
  TreeNode.numberOfChildren <$> l = TreeNode.numberOfChildren <$> l' →
  TreePool.deepLength pos l = TreePool.deepLength pos l'.
Proof.
  intros H. unfold TreePool.deepLength. apply skipTrees_ext.
  by rewrite !fmap_drop, H.
Qed.

Lemma childPos_ext l l' pos k :
  TreeNode.numberOfChildren <$> l = TreeNode.numberOfChildren <$> l' →
  TreePool.childPos pos k l = TreePool.childPos pos k l'.
Proof.
  intros H. unfold TreePool.childPos. induction k as [|k IH]; [done|].
  rewrite !Nat.iter_succ, IH. by apply nextSiblingPos_ext.
Qed.

Lemma identifiersOf_relocate s len d l l' :
  identifiersOf l = identifiersOf l' →
  identifiersOf (TreePool.relocate s len d l)
  = identifiersOf (TreePool.relocate s len d l').
Proof.
  intros H. unfold TreePool.relocate, identifiersOf in *.
  destruct (d <=? s); [|destruct (s + len <=? d)]; [| |done];
    rewrite !fmap_app, ?fmap_take, ?fmap_drop, ?fmap_take, ?fmap_drop; by rewrite H.
Qed.

(** The first [i] children of the node at [pos]: they end inside the
    buffer, and [childPos] is where they end. *)
Lemma children_decompose l pos n (i : Z) :
  childCountsOk l → TreePool.complete 1 (drop pos l) = true →
  l !! pos = Some n →
  (0 ≤ i ≤ TreeNode.numberOfChildren n)%Z →
  ∃ K W,
    l = take pos l ++ n :: K ++ W
    ∧ TreePool.complete i K = true
    ∧ TreePool.skipTrees i K = length K
    ∧ S pos + length K ≤ TreePool.nextSiblingPos pos l.
Proof.
  intros Hcc Hc Hn Hi.
  assert (pos < length l) as Hpos by (by eapply lookup_lt_Some).
  unfold TreePool.nextSiblingPos, TreePool.deepLength.
  rewrite (drop_S _ _ _ Hn) in Hc |- *. simpl in Hc.
  rewrite skipTrees_cons by lia.
  replace (1 - 1 + TreeNode.numberOfChildren n)%Z
    with (TreeNode.numberOfChildren n) in Hc |- * by lia.
  assert (childCountsOk (drop (S pos) l)) as Hcc' by (by apply Forall_drop).
  assert (TreePool.complete i (drop (S pos) l) = true) as Hci
    by (by eapply (complete_mono i (TreeNode.numberOfChildren n)); [| lia |]).
  pose proof (skipTrees_mono i (TreeNode.numberOfChildren n) _ Hcc' (proj2 Hi))
    as Hmono.
  pose proof (skipTrees_take i _ Hci) as Ht.
  set (m := TreePool.skipTrees i (drop (S pos) l)) in *.
  exists (take m (drop (S pos) l)), (drop m (drop (S pos) l)).
  assert (m ≤ length (drop (S pos) l)) as Hm by apply skipTrees_le.
  repeat split.
  - by rewrite take_drop, take_drop_middle.
  - by apply complete_take.
  - rewrite Ht, length_take. lia.
  - rewrite length_take. lia.
Qed.

Lemma childTreeAtIndex_run l st cap pos n (i : Z) :
  l !! pos = Some n → (0 ≤ i < TreeNode.numberOfChildren n)%Z →
  Node.childTreeAtIndex (Pooled pos) i (TreePool.mk l st cap)
  = Ok (Pooled (TreePool.childPos pos (Z.to_nat i) l), TreePool.mk l st cap).
Proof.
  intros Hn Hi. unfold Node.childTreeAtIndex.
  step_with (deref_run (Pooled pos) (TreePool.mk l st cap) n Hn).
  destruct (Z.leb_spec 0 i); [|lia].
  by destruct (Z.ltb_spec i (TreeNode.numberOfChildren n)); [|lia].
Qed.

(** After the insertion: the parent, its first [i] children, then the
    child that was added. *)
Lemma childAt_inserted self (i : Z) P n K c Q st cap :
  NoDup (identifiersOf (P ++ n :: K ++ c :: Q)) →
  childCountsOk (P ++ n :: K ++ c :: Q) →
  TreeNode.identifier n = TreeReference.m_identifier self →
  (0 ≤ i < TreeNode.numberOfChildren n)%Z →
  TreePool.complete i K = true → TreePool.skipTrees i K = length K →
  eval (child <- TreeReference.treeChildAtIndex self i ;;
        ret (TreeReference.identifier child))
    (TreePool.mk (P ++ n :: K ++ c :: Q) st cap)
  = Ok (TreeNode.identifier c).
Proof.
  intros HN Hcc Hid Hi HcK HsK.
  set (l := P ++ n :: K ++ c :: Q) in *.
  assert (l !! length P = Some n) as Hn by (by apply list_lookup_middle).
  assert (l !! (S (length P) + length K) = Some c) as Hc.
  { unfold l. rewrite lookup_app_r by lia.
    replace (S (length P) + length K - length P) with (S (length K)) by lia.
    simpl. by apply list_lookup_middle. }
  assert (TreePool.childPos (length P) (Z.to_nat i) l = S (length P) + length K)
    as Hpos.
  { rewrite childPos_skipTrees by done. rewrite Z2Nat.id by lia.
    unfold l. rewrite drop_S_middle. rewrite skipTrees_app by done. lia. }
  unfold eval. unfold TreeReference.treeChildAtIndex. rewrite !bind_assoc.
  step_with (nodeD_pooled self l st cap _ n HN Hn Hid).
  rewrite bind_assoc.
  step_with (childTreeAtIndex_run l st cap _ n i Hn Hi). rewrite Hpos.
  step_with (fromNode_pooled l st cap _ c HN Hc). done.
Qed.

End adding.

Section adding_run.

Implicit Types (l st X Y W K T : list TreeNode) (cap : Z) (n : TreeNode).

Lemma same_position l i j n :
  NoDup (identifiersOf l) → l !! i = Some n → l !! j = Some n → i = j.
Proof.
  intros HN Hi Hj. destruct (decide (i = j)) as [|Hne]; [done|].
  by destruct (identifiers_differ l i j n n HN Hi Hj Hne).
Qed.

Lemma release_retained n :
  TreeNode.setReferenceCounter
    (TreeNode.retainCount (TreeNode.retain (TreeNode.retain n)) - 1)
    (TreeNode.retain (TreeNode.retain n))
  = TreeNode.retain n.
Proof.
  unfold TreeNode.retain, TreeNode.setReferenceCounter. simpl. f_equal. lia.
Qed.

(** The call [p.addChildAtIndex(c, i)] when [c] lies after the first [i]
    children of [p]. *)
Lemma addChild_from_behind p c (i : Z) X np K Y nc T W st cap :
  let l := X ++ np :: K ++ Y ++ nc :: T ++ W in
  NoDup (identifiersOf l) → childCountsOk l →
  TreeNode.identifier np = TreeReference.m_identifier p →
  TreeNode.identifier nc = TreeReference.m_identifier c →
  TreeNode.isAllocationFailure np = false →
  (0 ≤ i ≤ TreeNode.numberOfChildren np)%Z →
  TreePool.complete i K = true → TreePool.skipTrees i K = length K →
  TreePool.skipTrees 1 (nc :: T ++ W) = S (length T) →
  (0 ≤ TreeNode.retainCount nc)%Z → (0 ≤ TreeNode.identifier nc)%Z →
  TreeReference.byValue c (λ t, TreeReference.addChildAtIndex p t i)
    (TreePool.mk l st cap)
  = Ok (tt, TreePool.mk
              (X ++ TreeNode.incrementNumberOfChildren np :: K
               ++ TreeNode.retain nc :: T ++ Y ++ W) st cap).
Proof.
  intros l HN Hcc Hidp Hidc Hfail Hi HcK HsK Hspan Hrc Hidnc.
  set (pp := length X). set (pc := length (X ++ np :: K ++ Y)).
  assert (l = (X ++ np :: K ++ Y) ++ nc :: T ++ W) as Hl
    by (unfold l; by simplify_list_eq).
  assert (l !! pp = Some np) as Hnp by (by apply list_lookup_middle).
  assert (l !! pc = Some nc) as Hnc by (rewrite Hl; by apply list_lookup_middle).
  assert (pp ≠ pc) as Hne by (unfold pp, pc; rewrite length_app; simpl; lia).
  destruct c as [idc]. simpl in Hidc.
  unfold TreeReference.byValue, TreeReference.copyConstructor, TreeReference.setTo.
  simpl TreeReference.identifier.
  assert (TreePool.node idc (TreePool.mk l st cap) = Some (Pooled pc)) as Hnodec
    by (rewrite <- Hidc; by apply node_pooled).
  step_with (setIdentifierAndRetain_run idc (TreePool.mk l st cap) (Pooled pc) nc
               Hnodec Hnc).
  simpl TreePool.update. unfold TreePool.withBuffer. simpl.
  set (la := alter TreeNode.retain pc l).
  assert (NoDup (identifiersOf la)) as HNa
    by (unfold la; by rewrite identifiersOf_alter).
  assert (la !! pp = Some np) as Hanp
    by (unfold la; by rewrite list_lookup_alter_ne).
  assert (la !! pc = Some (TreeNode.retain nc)) as Hanc
    by (unfold la; by rewrite list_lookup_alter_eq, Hnc).
  destruct (addChildAtIndex_run p (TreeReference.mk idc) i la st cap
              pp np pc (TreeNode.retain nc)) as (q' & Hq' & Hadd); try done.
  step_with Hadd. clear Hadd.
  set (nc2 := TreeNode.retain (TreeNode.retain nc)) in *.
  assert (NoDup (identifiersOf
            (TreePool.relocate pc
               (TreePool.deepLength pc (alter TreeNode.retain pc la))
               (TreePool.childPos pp (Z.to_nat i) (alter TreeNode.retain pc la))
               (alter TreeNode.retain pc la)))) as HN2.
  { eapply NoDup_identifiersOf_Permutation;
      [symmetry; apply relocate_Permutation|].
    by rewrite identifiersOf_alter. }
  assert (alter TreeNode.retain pc la = (X ++ np :: K) ++ Y ++ (nc2 :: T) ++ W) as Hl1.
  { unfold la. rewrite Hl. unfold pc. rewrite !alter_at_length. by simplify_list_eq. }
  assert (TreeNode.numberOfChildren <$> alter TreeNode.retain pc la
          = TreeNode.numberOfChildren <$> l) as Hncs.
  { unfold la. by rewrite !numberOfChildren_alter. }
  rewrite (childPos_ext _ l pp _ Hncs) in Hq', HN2 |- *.
  rewrite (deepLength_ext _ l pc Hncs) in Hq', HN2 |- *.
  assert (TreePool.childPos pp (Z.to_nat i) l = length (X ++ np :: K)) as Hd.
  { rewrite childPos_skipTrees by done. rewrite Z2Nat.id by lia.
    unfold l, pp. rewrite drop_S_middle, skipTrees_app by done.
    rewrite length_app. simpl. lia. }
  assert (TreePool.deepLength pc l = length (nc2 :: T)) as Hlen.
  { unfold TreePool.deepLength. rewrite Hl. unfold pc.
    rewrite drop_app_length. by rewrite Hspan. }
  rewrite Hd, Hlen, Hl1 in Hq', HN2 |- *.
  replace pc with (length (X ++ np :: K) + length Y) in Hq', HN2 |- *
    by (unfold pc; rewrite !length_app; simpl; rewrite length_app; lia).
  rewrite relocate_left in Hq', HN2 |- *.
  assert (((X ++ np :: K) ++ (nc2 :: T) ++ Y ++ W) !! pp = Some np) as Hnp2.
  { rewrite <- (assoc_L (++)). by apply list_lookup_middle. }
  assert (q' = pp) as -> by (by eapply same_position).
  assert (alter TreeNode.incrementNumberOfChildren pp
            ((X ++ np :: K) ++ (nc2 :: T) ++ Y ++ W)
          = (X ++ TreeNode.incrementNumberOfChildren np :: K)
            ++ nc2 :: T ++ Y ++ W) as Hlb.
  { rewrite <- (assoc_L (++) X). simpl. unfold pp. rewrite alter_at_length.
    by simplify_list_eq. }
  assert (NoDup (identifiersOf
            ((X ++ TreeNode.incrementNumberOfChildren np :: K)
             ++ nc2 :: T ++ Y ++ W))) as HNb.
  { rewrite <- Hlb. by rewrite identifiersOf_alter. }
  rewrite Hlb.
  set (P := X ++ TreeNode.incrementNumberOfChildren np :: K) in *.
  assert ((P ++ nc2 :: T ++ Y ++ W) !! length P = Some nc2) as Hnc2
    by (by apply list_lookup_middle).
  assert (TreePool.node idc (TreePool.mk (P ++ nc2 :: T ++ Y ++ W) st cap)
          = Some (Pooled (length P))) as Hnodec2.
  { rewrite <- Hidc. change (TreeNode.identifier nc) with (TreeNode.identifier nc2).
    by apply node_pooled. }
  rewrite (bind_Ok _ _ _ tt (TreePool.mk (P ++ TreeNode.retain nc :: T ++ Y ++ W) st cap)).
  - unfold ret, P. by simplify_list_eq.
  - rewrite (destructor_run (TreeReference.mk idc) _ (Pooled (length P)) nc2);
      [| simpl; lia | done].
    rewrite (release_run (Pooled (length P)) _ nc2); [| done | simpl; lia].
    simpl. unfold TreePool.withBuffer. simpl.
    rewrite alter_at_length. unfold nc2.
    pose proof (release_retained nc) as E. simpl in E. by rewrite E.
Qed.

(** The same call when [c] lies before [p]. *)
Lemma addChild_from_ahead p c (i : Z) X nc T Y np K W st cap :
  let l := X ++ nc :: T ++ Y ++ np :: K ++ W in
  NoDup (identifiersOf l) → childCountsOk l →
  TreeNode.identifier np = TreeReference.m_identifier p →
  TreeNode.identifier nc = TreeReference.m_identifier c →
  TreeNode.isAllocationFailure np = false →
  (0 ≤ i ≤ TreeNode.numberOfChildren np)%Z →
  TreePool.complete i K = true → TreePool.skipTrees i K = length K →
  TreePool.skipTrees 1 (nc :: T ++ Y ++ np :: K ++ W) = S (length T) →
  (0 ≤ TreeNode.retainCount nc)%Z → (0 ≤ TreeNode.identifier nc)%Z →
  TreeReference.byValue c (λ t, TreeReference.addChildAtIndex p t i)
    (TreePool.mk l st cap)
  = Ok (tt, TreePool.mk
              (X ++ Y ++ TreeNode.incrementNumberOfChildren np :: K
               ++ TreeNode.retain nc :: T ++ W) st cap).
Proof.
  intros l HN Hcc Hidp Hidc Hfail Hi HcK HsK Hspan Hrc Hidnc.
  set (pc := length X). set (pp := length (X ++ nc :: T ++ Y)).
  assert (l = (X ++ nc :: T ++ Y) ++ np :: K ++ W) as Hl
    by (unfold l; by simplify_list_eq).
  assert (l !! pc = Some nc) as Hnc by (by apply list_lookup_middle).
  assert (l !! pp = Some np) as Hnp by (rewrite Hl; by apply list_lookup_middle).
  assert (pp ≠ pc) as Hne by (unfold pp, pc; rewrite length_app; simpl; lia).
  destruct c as [idc]. simpl in Hidc.
  unfold TreeReference.byValue, TreeReference.copyConstructor, TreeReference.setTo.
  simpl TreeReference.identifier.
  assert (TreePool.node idc (TreePool.mk l st cap) = Some (Pooled pc)) as Hnodec
    by (rewrite <- Hidc; by apply node_pooled).
  step_with (setIdentifierAndRetain_run idc (TreePool.mk l st cap) (Pooled pc) nc
               Hnodec Hnc).
  simpl TreePool.update. unfold TreePool.withBuffer. simpl.
  set (la := alter TreeNode.retain pc l).
  assert (NoDup (identifiersOf la)) as HNa
    by (unfold la; by rewrite identifiersOf_alter).
  assert (la !! pp = Some np) as Hanp
    by (unfold la; by rewrite list_lookup_alter_ne).
  assert (la !! pc = Some (TreeNode.retain nc)) as Hanc
    by (unfold la; by rewrite list_lookup_alter_eq, Hnc).
  destruct (addChildAtIndex_run p (TreeReference.mk idc) i la st cap
              pp np pc (TreeNode.retain nc)) as (q' & Hq' & Hadd); try done.
  step_with Hadd. clear Hadd.
  set (nc2 := TreeNode.retain (TreeNode.retain nc)) in *.
  assert (NoDup (identifiersOf
            (TreePool.relocate pc
               (TreePool.deepLength pc (alter TreeNode.retain pc la))
               (TreePool.childPos pp (Z.to_nat i) (alter TreeNode.retain pc la))
               (alter TreeNode.retain pc la)))) as HN2.
  { eapply NoDup_identifiersOf_Permutation;
      [symmetry; apply relocate_Permutation|].
    by rewrite identifiersOf_alter. }
  assert (alter TreeNode.retain pc la
          = X ++ (nc2 :: T) ++ (Y ++ np :: K) ++ W) as Hl1.
  { unfold la, l, pc. rewrite !alter_at_length. by simplify_list_eq. }
  assert (TreeNode.numberOfChildren <$> alter TreeNode.retain pc la
          = TreeNode.numberOfChildren <$> l) as Hncs.
  { unfold la. by rewrite !numberOfChildren_alter. }
  rewrite (childPos_ext _ l pp _ Hncs) in Hq', HN2 |- *.
  rewrite (deepLength_ext _ l pc Hncs) in Hq', HN2 |- *.
  assert (TreePool.childPos pp (Z.to_nat i) l
          = length X + length (nc2 :: T) + length (Y ++ np :: K)) as Hd.
  { rewrite childPos_skipTrees by done. rewrite Z2Nat.id by lia.
    rewrite Hl. unfold pp. rewrite drop_S_middle, skipTrees_app by done.
    rewrite !length_app. simpl. rewrite !length_app. simpl. lia. }
  assert (TreePool.deepLength pc l = length (nc2 :: T)) as Hlen.
  { unfold TreePool.deepLength, l, pc. rewrite drop_app_length. by rewrite Hspan. }
  rewrite Hd, Hlen, Hl1 in Hq', HN2 |- *. unfold pc in Hq', HN2 |- *.
  rewrite relocate_right in Hq', HN2 |- *.
  assert ((X ++ (Y ++ np :: K) ++ (nc2 :: T) ++ W) !! length (X ++ Y) = Some np)
    as Hnp2.
  { rewrite !(assoc_L (++) X). rewrite <- (assoc_L (++) (X ++ Y)).
    simpl. by apply list_lookup_middle. }
  assert (q' = length (X ++ Y)) as -> by (by eapply same_position).
  assert (alter TreeNode.incrementNumberOfChildren (length (X ++ Y))
            (X ++ (Y ++ np :: K) ++ (nc2 :: T) ++ W)
          = (X ++ Y ++ TreeNode.incrementNumberOfChildren np :: K)
            ++ nc2 :: T ++ W) as Hlb.
  { rewrite !(assoc_L (++) X). rewrite <- (assoc_L (++) (X ++ Y)).
    simpl. rewrite alter_at_length. by simplify_list_eq. }
  assert (NoDup (identifiersOf
            ((X ++ Y ++ TreeNode.incrementNumberOfChildren np :: K)
             ++ nc2 :: T ++ W))) as HNb.
  { rewrite <- Hlb. by rewrite identifiersOf_alter. }
  rewrite Hlb.
  set (P := X ++ Y ++ TreeNode.incrementNumberOfChildren np :: K) in *.
  assert ((P ++ nc2 :: T ++ W) !! length P = Some nc2) as Hnc2
    by (by apply list_lookup_middle).
  assert (TreePool.node idc (TreePool.mk (P ++ nc2 :: T ++ W) st cap)
          = Some (Pooled (length P))) as Hnodec2.
  { rewrite <- Hidc. change (TreeNode.identifier nc) with (TreeNode.identifier nc2).
    by apply node_pooled. }
  rewrite (bind_Ok _ _ _ tt (TreePool.mk (P ++ TreeNode.retain nc :: T ++ W) st cap)).
  - unfold ret, P. by simplify_list_eq.
  - rewrite (destructor_run (TreeReference.mk idc) _ (Pooled (length P)) nc2);
      [| simpl; lia | done].
    rewrite (release_run (Pooled (length P)) _ nc2); [| done | simpl; lia].
    simpl. unfold TreePool.withBuffer. simpl.
    rewrite alter_at_length. unfold nc2.
    pose proof (release_retained nc) as E. simpl in E. by rewrite E.
Qed.

End adding_run.

(** ** Where parent and child lie in a well-formed buffer *)

Section layouts.

Implicit Types (l st P Q X Y W K T : list TreeNode) (cap : Z) (n : TreeNode).

Lemma lookup_behind P Q pos n :
  (P ++ Q) !! pos = Some n → length P ≤ pos → Q !! (pos - length P) = Some n.
Proof. intros H Hle. by rewrite lookup_app_r in H. Qed.

Lemma drop_behind P Q pos :
  length P ≤ pos → drop pos (P ++ Q) = drop (pos - length P) Q.
Proof.
  intros Hle. replace pos with (length P + (pos - length P)) at 1 by lia.
  by rewrite <- drop_drop, drop_app_length.
Qed.

(** The child lies behind the parent's subtree. *)
Lemma layout_behind l pp np pc nc (i : Z) :
  childCountsOk l → contiguous l = true →
  l !! pp = Some np → l !! pc = Some nc →
  (0 ≤ i ≤ TreeNode.numberOfChildren np)%Z →
  TreePool.nextSiblingPos pp l ≤ pc →
  ∃ X K Y T W,
    l = X ++ np :: K ++ Y ++ nc :: T ++ W
    ∧ length X = pp ∧ length (X ++ np :: K ++ Y) = pc
    ∧ TreePool.complete i K = true ∧ TreePool.skipTrees i K = length K
    ∧ TreePool.skipTrees 1 (nc :: T ++ W) = S (length T).
Proof.
  intros Hcc Hcont Hnp Hnc Hi Hdisj.
  assert (pp < length l) as Hpp by (by eapply lookup_lt_Some).
  destruct (children_decompose l pp np i Hcc (contiguous_inv l pp Hcont Hpp) Hnp Hi)
    as (K & W0 & Hl & HcK & HsK & Hle).
  assert (length (take pp l) = pp) as HlenX by (rewrite length_take; lia).
  set (X := take pp l) in *.
  assert (l = (X ++ np :: K) ++ W0) as Hl' by (rewrite Hl at 1; by simplify_list_eq).
  assert (length (X ++ np :: K) = S pp + length K) as HlenXK
    by (rewrite length_app; simpl; lia).
  assert (W0 !! (pc - length (X ++ np :: K)) = Some nc) as HncW.
  { apply lookup_behind; [by rewrite <- Hl' | lia]. }
  assert (childCountsOk W0) as HccW.
  { rewrite Hl' in Hcc. by apply Forall_app in Hcc as [_ ?]. }
  destruct (take_skip_decompose W0 _ nc HncW HccW) as (HW0 & HlenY & Hspan).
  exists X, K, (take (pc - length (X ++ np :: K)) W0).
  eexists _, _. split; [|split; [done|split; [|split; [done|split; [done|exact Hspan]]]]].
  - rewrite Hl' at 1. rewrite HW0 at 1. by simplify_list_eq.
  - replace (X ++ np :: K ++ take (pc - length (X ++ np :: K)) W0)
      with ((X ++ np :: K) ++ take (pc - length (X ++ np :: K)) W0)
      by (by simplify_list_eq).
    rewrite length_app, HlenY. lia.
Qed.

(** The child lies ahead of the parent. *)
Lemma layout_ahead l pp np pc nc (i : Z) :
  childCountsOk l → contiguous l = true →
  l !! pp = Some np → l !! pc = Some nc →
  (0 ≤ i ≤ TreeNode.numberOfChildren np)%Z →
  TreePool.nextSiblingPos pc l ≤ pp →
  ∃ X T Y K W,
    l = X ++ nc :: T ++ Y ++ np :: K ++ W
    ∧ length X = pc ∧ length (X ++ nc :: T ++ Y) = pp
    ∧ TreePool.complete i K = true ∧ TreePool.skipTrees i K = length K
    ∧ TreePool.skipTrees 1 (nc :: T ++ Y ++ np :: K ++ W) = S (length T).
Proof.
  intros Hcc Hcont Hnp Hnc Hi Hdisj.
  assert (pp < length l) as Hpp by (by eapply lookup_lt_Some).
  destruct (take_skip_decompose l pc nc Hnc Hcc) as (Hl & HlenX & Hspan).
  set (X := take pc l) in *.
  set (T := take _ (drop (S pc) l)) in *.
  set (C := drop _ (drop (S pc) l)) in *.
  assert (TreePool.nextSiblingPos pc l = length (X ++ nc :: T)) as Hnext.
  { unfold TreePool.nextSiblingPos, TreePool.deepLength.
    rewrite Hl at 1. rewrite <- HlenX at 2. rewrite drop_app_length, Hspan.
    rewrite length_app. simpl. lia. }
  assert (l = (X ++ nc :: T) ++ C) as Hl' by (rewrite Hl at 1; by simplify_list_eq).
  assert (C !! (pp - length (X ++ nc :: T)) = Some np) as HnpC.
  { apply lookup_behind; [by rewrite <- Hl' | lia]. }
  assert (childCountsOk C) as HccC.
  { rewrite Hl' in Hcc. by apply Forall_app in Hcc as [_ ?]. }
  assert (TreePool.complete 1 (drop (pp - length (X ++ nc :: T)) C) = true) as Hcomp.
  { rewrite <- drop_behind by lia. rewrite <- Hl'. by apply contiguous_inv. }
  destruct (children_decompose C _ np i HccC Hcomp HnpC Hi)
    as (K & W & HC & HcK & HsK & _).
  assert (length (take (pp - length (X ++ nc :: T)) C) = pp - length (X ++ nc :: T))
    as HlenY.
  { rewrite length_take. apply lookup_lt_Some in HnpC. lia. }
  set (Y := take (pp - length (X ++ nc :: T)) C) in *.
  exists X, T, Y, K, W.
  assert (C = Y ++ np :: K ++ W) as HC' by done.
  split; [|split; [done|split; [|split; [done|split; [done|]]]]].
  - rewrite Hl at 1. by rewrite HC' at 1.
  - replace (X ++ nc :: T ++ Y) with ((X ++ nc :: T) ++ Y) by (by simplify_list_eq).
    rewrite length_app, HlenY. lia.
  - by rewrite <- HC'.
Qed.

(** The relocation that [addChildAtIndex] asks for, in both layouts. *)
Lemma relocation_from_behind (i : Z) X np K Y nc T W :
  let l := X ++ np :: K ++ Y ++ nc :: T ++ W in
  childCountsOk l → (0 ≤ i)%Z →
  TreePool.complete i K = true → TreePool.skipTrees i K = length K →
  TreePool.skipTrees 1 (nc :: T ++ W) = S (length T) →
  TreePool.relocate (length (X ++ np :: K ++ Y))
    (TreePool.deepLength (length (X ++ np :: K ++ Y)) l)
    (TreePool.childPos (length X) (Z.to_nat i) l) l
  = X ++ np :: K ++ nc :: T ++ Y ++ W.
Proof.
  intros l Hcc Hi HcK HsK Hspan.
  assert (l = (X ++ np :: K ++ Y) ++ nc :: T ++ W) as Hl
    by (unfold l; by simplify_list_eq).
  assert (TreePool.childPos (length X) (Z.to_nat i) l = length (X ++ np :: K)) as ->.
  { rewrite childPos_skipTrees by done. rewrite Z2Nat.id by lia.
    unfold l. rewrite drop_S_middle, skipTrees_app by done.
    rewrite length_app. simpl. lia. }
  assert (TreePool.deepLength (length (X ++ np :: K ++ Y)) l = length (nc :: T)) as ->.
  { unfold TreePool.deepLength. rewrite Hl.
    rewrite drop_app_length. by rewrite Hspan. }
  replace (length (X ++ np :: K ++ Y)) with (length (X ++ np :: K) + length Y)
    by (rewrite !length_app; simpl; rewrite length_app; lia).
  replace l with ((X ++ np :: K) ++ Y ++ (nc :: T) ++ W)
    by (unfold l; by simplify_list_eq).
  rewrite relocate_left. by simplify_list_eq.
Qed.

Lemma relocation_from_ahead (i : Z) X nc T Y np K W :
  let l := X ++ nc :: T ++ Y ++ np :: K ++ W in
  childCountsOk l → (0 ≤ i)%Z →
  TreePool.complete i K = true → TreePool.skipTrees i K = length K →
  TreePool.skipTrees 1 (nc :: T ++ Y ++ np :: K ++ W) = S (length T) →
  TreePool.relocate (length X) (TreePool.deepLength (length X) l)
    (TreePool.childPos (length (X ++ nc :: T ++ Y)) (Z.to_nat i) l) l
  = X ++ Y ++ np :: K ++ nc :: T ++ W.
Proof.
  intros l Hcc Hi HcK HsK Hspan.
  assert (l = (X ++ nc :: T ++ Y) ++ np :: K ++ W) as Hl
    by (unfold l; by simplify_list_eq).
  assert (TreePool.childPos (length (X ++ nc :: T ++ Y)) (Z.to_nat i) l
          = length X + length (nc :: T) + length (Y ++ np :: K)) as ->.
  { rewrite childPos_skipTrees by done. rewrite Z2Nat.id by lia.
    rewrite Hl. rewrite drop_S_middle, skipTrees_app by done.
    rewrite !length_app. simpl. rewrite !length_app. simpl. lia. }
  assert (TreePool.deepLength (length X) l = length (nc :: T)) as ->.
  { unfold TreePool.deepLength, l. rewrite drop_app_length. by rewrite Hspan. }
  replace l with (X ++ (nc :: T) ++ (Y ++ np :: K) ++ W)
    by (unfold l; by simplify_list_eq).
  rewrite relocate_right. by simplify_list_eq.
Qed.

End layouts.

Section added.

Implicit Types (l st P Q X Y W K T : list TreeNode) (cap : Z) (n : TreeNode).

Lemma childCountsOk_increment l pos :
  childCountsOk l →
  childCountsOk (alter TreeNode.incrementNumberOfChildren pos l).
Proof.
  intros Hcc. apply Forall_alter; [done|]. intros n Hn. simpl. lia.
Qed.

(** What the call leaves, in either layout: the parent with one more
    child, its first [i] children, then the child with one more owner. *)
Lemma addChild_observed p c (i : Z) P np K nc Q st cap :
  NoDup (identifiersOf (P ++ np :: K ++ nc :: Q)) →
  childCountsOk (P ++ np :: K ++ nc :: Q) →
  TreeNode.identifier np = TreeReference.m_identifier p →
  TreeNode.identifier nc = TreeReference.m_identifier c →
  (0 ≤ i ≤ TreeNode.numberOfChildren np)%Z →
  TreePool.complete i K = true → TreePool.skipTrees i K = length K →
  let pool' := TreePool.mk
                 (P ++ TreeNode.incrementNumberOfChildren np :: K
                  ++ TreeNode.retain nc :: Q) st cap in
  eval (child <- TreeReference.treeChildAtIndex p i ;;
        ret (TreeReference.identifier child)) pool'
  = Ok (TreeReference.identifier c)
  ∧ eval (TreeReference.numberOfChildren p) pool'
    = Ok (TreeNode.numberOfChildren np + 1)%Z
  ∧ eval (TreeReference.nodeRetainCount c) pool'
    = Ok (TreeNode.retainCount nc + 1)%Z.
Proof.
  intros HN Hcc Hidp Hidc Hi HcK HsK pool'.
  set (lf := P ++ TreeNode.incrementNumberOfChildren np :: K
             ++ TreeNode.retain nc :: Q).
  assert (identifiersOf lf = identifiersOf (P ++ np :: K ++ nc :: Q)) as Hids.
  { unfold lf, identifiersOf. rewrite !fmap_app. csimpl. by rewrite !fmap_app. }
  assert (NoDup (identifiersOf lf)) as HNf by (by rewrite Hids).
  assert (childCountsOk lf) as Hccf.
  { unfold lf. revert Hcc. unfold childCountsOk.
    rewrite !Forall_app, !Forall_cons, !Forall_app, !Forall_cons. simpl.
    intros (? & ? & ? & ? & ?). repeat split; try done. lia. }
  split; [|split].
  - unfold TreeReference.identifier at 2. rewrite <- Hidc.
    apply (childAt_inserted p i P _ K (TreeNode.retain nc) Q);
      try done. simpl. lia.
  - unfold eval.
    rewrite (numberOfChildren_recordOf p pool' (TreeNode.incrementNumberOfChildren np));
      [done|].
    apply recordOf_tracked; [done | | done].
    unfold lf. rewrite elem_of_app, elem_of_cons. auto.
  - unfold eval.
    rewrite (nodeRetainCount_recordOf c pool' (TreeNode.retain nc)); [done|].
    apply recordOf_tracked; [done | | done].
    unfold lf. rewrite elem_of_app, elem_of_cons, elem_of_app, elem_of_cons. auto.
Qed.

End added.

(** * The properties of the specification *)

(** ** Identifier stability under the allocation-failure protocol *)

(** C1.  When [replaceWithAllocationFailure] is invoked on a node of a
    well-formed pool, it runs to the end, and the record that then stands
    for the node carries the node's identifier and is a failure sentinel:
    every handle that holds the identifier still resolves, under the
    identifier it had, and reports [isAllocationFailure() == true]. *)
Theorem replaceWithAllocationFailure_preserves_identifier
    (pool : TreePool) (self : TreeReference) (pos : nat) (n : TreeNode) :
  wellFormed pool = true →
  TreePool.buffer pool !! pos = Some n →
  TreeNode.identifier n = TreeReference.identifier self →
  ∃ pool' sentinel,
    TreeReference.replaceWithAllocationFailure self pool = Ok (tt, pool')
    ∧ recordOf self pool' = Some sentinel
    ∧ TreeNode.identifier sentinel = TreeReference.identifier self
    ∧ TreeNode.isAllocationFailure sentinel = true
    ∧ ∀ h : TreeReference,
        TreeReference.identifier h = TreeReference.identifier self →
        eval (TreeReference.isDefined h) pool' = Ok true
        ∧ eval (TreeReference.isAllocationFailure h) pool' = Ok true.
Proof.
  destruct pool as [l st cap]. simpl. intros Hwf Hn Hid.
  destruct (replaceWithAllocationFailure_run self l st cap pos n Hwf Hn Hid)
    as (k & s & p & newNode & idx & lmid & lfinal
        & Hk & Hs & _ & _ & Hrun & Hrec).
  destruct (wellFormed_inv _ _ _ Hwf) as (Hlive & _ & Hcanon & _).
  assert (canonicalRecord s = true) as Hs'.
  { eapply Forall_forall in Hcanon; [exact Hcanon|]. by eapply list_elem_of_lookup_2. }
  apply canonicalRecord_inv in Hs' as (Hfail & _).
  assert (liveRecord n = true) as Hn'.
  { eapply Forall_forall in Hlive; [exact Hlive|]. by eapply list_elem_of_lookup_2. }
  apply liveRecord_inv in Hn' as (Hidn & _).
  eexists _, _. split; [exact Hrun|]. split; [exact Hrec|].
  split; [done|]. split; [done|].
  intros [id] Heq. simpl in Heq. destruct self as [id']. simpl in *. subst id' id.
  unfold eval. rewrite (isDefined_recordOf _ _ _ Hrec), (isAllocationFailure_recordOf _ _ _ Hrec).
  simpl. split; [|by rewrite Hfail].
  by destruct (Z.geb_spec (TreeNode.identifier n) 0); [|lia].
Qed.

Lemma replaceWithAllocationFailure_preserves_identifier_witness :
  ∃ pool' sentinel,
    TreeReference.replaceWithAllocationFailure (Sample.handle 1) Sample.nestedFirst
    = Ok (tt, pool')
    ∧ recordOf (Sample.handle 1) pool' = Some sentinel
    ∧ TreeNode.identifier sentinel = 1%Z
    ∧ TreeNode.isAllocationFailure sentinel = true
    ∧ ∀ h : TreeReference,
        TreeReference.identifier h = 1%Z →
        eval (TreeReference.isDefined h) pool' = Ok true
        ∧ eval (TreeReference.isAllocationFailure h) pool' = Ok true.
Proof.
  apply (replaceWithAllocationFailure_preserves_identifier Sample.nestedFirst
           (Sample.handle 1) 1 (Sample.inner 1 1 1)); reflexivity.
Defined.

(** ** Copy, move and destruction *)

(** C2, as the code has it.  For a handle [h] whose identifier resolves to
    a record, each of the copy constructor, the move constructor, the copy
    assignment and the move assignment yields a handle with [h]'s
    identifier and adds one to the record's retain count; nothing else in
    the pool changes.  The destructor of a handle with a non-negative
    identifier is one release of the record: the retain count goes down by
    one when another owner remains, and the record of a well-formed pool
    is destroyed when the handle was its last owner. *)
Theorem special_members_retain_and_release
    (pool : TreePool) (h : TreeReference) (p : NodePtr) (n : TreeNode) :
  TreePool.node (TreeReference.identifier h) pool = Some p →
  TreePool.deref p pool = Some n →
  let retained := TreePool.update p TreeNode.retain pool in
  (TreeReference.copyConstructor h pool = Ok (h, retained)
   ∧ TreeReference.moveConstructor h pool = Ok (h, retained)
   ∧ (∀ a, TreeReference.copyAssignment a h pool = Ok (h, retained))
   ∧ (∀ a, TreeReference.moveAssignment a h pool = Ok (h, retained)))
  ∧ eval (TreeReference.nodeRetainCount h) pool = Ok (TreeNode.retainCount n)
  ∧ eval (TreeReference.nodeRetainCount h) retained
    = Ok (TreeNode.retainCount n + 1)%Z
  ∧ ((0 ≤ TreeReference.identifier h)%Z →
     TreeReference.destructor h pool = Node.release p pool
     ∧ ((1 < TreeNode.retainCount n)%Z →
        ∃ pool',
          TreeReference.destructor h pool = Ok (tt, pool')
          ∧ eval (TreeReference.nodeRetainCount h) pool'
            = Ok (TreeNode.retainCount n - 1)%Z)
     ∧ (TreeNode.retainCount n = 1%Z →
        wellFormed pool = true →
        ∀ pos, p = Pooled pos →
        ∃ pool',
          TreeReference.destructor h pool = Ok (tt, pool')
          ∧ eval (TreeReference.isDefined h) pool' = Ok false)).
Proof.
  intros Hp Hn retained. destruct h as [id]. simpl in *.
  pose proof (setIdentifierAndRetain_run id pool p n Hp Hn) as Hset.
  split; [by repeat split|]. split; [|split].
  - unfold eval.
    by rewrite (nodeRetainCount_run (TreeReference.mk id) pool p n).
  - unfold eval.
    rewrite (nodeRetainCount_run (TreeReference.mk id) retained p (TreeNode.retain n)).
    + done.
    + simpl. unfold retained. by rewrite node_update.
    + unfold retained. by rewrite deref_update_eq, Hn.
  - intros Hid. pose proof (destructor_run (TreeReference.mk id) pool p n Hid Hp) as Hd.
    split; [done|]. split.
    + intros Hrc. eexists. split.
      * rewrite Hd. by apply release_run.
      * unfold eval.
        rewrite (nodeRetainCount_run (TreeReference.mk id) _ p
                   (TreeNode.setReferenceCounter (TreeNode.retainCount n - 1) n)).
        -- done.
        -- simpl. by rewrite node_update.
        -- by rewrite deref_update_eq, Hn.
    + intros Hrc Hwf pos ->. destruct pool as [l st cap]. simpl in Hn.
      destruct (node_deref _ _ _ Hp) as (m & Hm & Hmid). simpl in Hm.
      assert (m = n) as -> by congruence.
      destruct (release_last_owner l st cap pos n Hwf Hn Hrc) as (l' & Hrel & Hgone).
      exists (TreePool.mk l' st cap). split; [by rewrite Hd|].
      unfold eval. rewrite isDefined_run. simpl TreeReference.m_identifier.
      rewrite <- Hmid, Hgone. simpl. by rewrite andb_false_r.
Qed.

Lemma special_members_retain_and_release_witness :
  TreeReference.moveConstructor (Sample.handle 6) Sample.sentinelAndLeaf
  = Ok (Sample.handle 6,
        TreePool.update (Pooled 1) TreeNode.retain Sample.sentinelAndLeaf)
  ∧ (∃ pool',
       TreeReference.destructor (Sample.handle 6) Sample.sentinelAndLeaf
       = Ok (tt, pool')
       ∧ eval (TreeReference.nodeRetainCount (Sample.handle 6)) pool' = Ok 1%Z)
  ∧ (∃ pool',
       TreeReference.destructor (Sample.handle 1) Sample.single = Ok (tt, pool')
       ∧ eval (TreeReference.isDefined (Sample.handle 1)) pool' = Ok false).
Proof.
  destruct (special_members_retain_and_release Sample.sentinelAndLeaf
              (Sample.handle 6) (Pooled 1) (Sample.leaf 6 2))
    as ((_ & Hmove & _) & _ & _ & Hshared); [reflexivity | reflexivity |].
  destruct Hshared as (_ & Hlower & _); [simpl; lia|].
  destruct (special_members_retain_and_release Sample.single
              (Sample.handle 1) (Pooled 0) (Sample.leaf 1 1))
    as (_ & _ & _ & Hlast); [reflexivity | reflexivity |].
  destruct Hlast as (_ & _ & Hdestroy); [simpl; lia|].
  split; [exact Hmove|]. split; [apply Hlower; simpl; lia|].
  exact (Hdestroy eq_refl eq_refl 0 eq_refl).
Defined.

(** C2 as stated fails: move-constructing from the only handle of a node
    takes the node's retain count from 1 to 2. *)
Lemma move_constructor_changes_retain_count :
  eval (TreeReference.nodeRetainCount (Sample.handle 1)) Sample.single = Ok 1%Z
  ∧ eval (h <- TreeReference.moveConstructor (Sample.handle 1) ;;
          TreeReference.nodeRetainCount h) Sample.single = Ok 2%Z
  ∧ eval (h <- TreeReference.moveAssignment (Sample.handle 2) (Sample.handle 1) ;;
          TreeReference.nodeRetainCount h) Sample.pair = Ok 2%Z.
Proof. repeat split. Qed.

(** ** The guard against failure sentinels *)

(** [addChildAtIndex] returns at once on a sentinel: the pool is left as it
    was. *)
Lemma addChildAtIndex_on_sentinel
    (pool : TreePool) (self t : TreeReference) (index : Z) (r : TreeNode) :
  recordOf self pool = Some r →
  TreeNode.isAllocationFailure r = true →
  TreeReference.addChildAtIndex self t index pool = Ok (tt, pool).
Proof.
  intros (p & Hp & Hr)%recordOf_inv Hfail. unfold TreeReference.addChildAtIndex.
  step_with (nodeD_run self pool p Hp).
  step_with (isAllocationFailure_run p pool r Hr). by rewrite Hfail.
Qed.

(** C3, at an input where the code departs from it.  [removeChild] has no
    guard: called on the failure sentinel 5 with the leaf 6, it releases
    the leaf and lowers the child count of the sentinel below zero. *)
Theorem removeChild_on_sentinel_is_not_a_noop :
  let self := Sample.handle 5 in
  let call := TreeReference.byValue (Sample.handle 6)
                (TreeReference.removeChild self) in
  eval (TreeReference.isAllocationFailure self) Sample.sentinelAndLeaf = Ok true
  ∧ mapResult Sample.summary (exec call Sample.sentinelAndLeaf)
    = Ok [(5, 1, -1, true); (6, 1, 0, false)]%Z
  ∧ exec call Sample.sentinelAndLeaf ≠ Ok Sample.sentinelAndLeaf.
Proof. repeat split. discriminate. Qed.

(** ** Swapping children *)

(** With equal indices [swapChildren] checks them and returns. *)
Lemma swapChildren_same_index
    (pool : TreePool) (self : TreeReference) (i : Z) (r : TreeNode) :
  recordOf self pool = Some r →
  (0 ≤ i < TreeNode.numberOfChildren r)%Z →
  TreeReference.swapChildren self i i pool = Ok (tt, pool).
Proof.
  intros Hr Hi. unfold TreeReference.swapChildren.
  pose proof (andAlso_run (i >=? 0)%Z _ (λ count, (i <? count)%Z) _ _
                (numberOfChildren_recordOf self pool r Hr)) as Hin.
  cbv beta in Hin.
  assert ((i >=? 0)%Z = true) as Hge by (apply Z.geb_le; lia).
  assert ((i <? TreeNode.numberOfChildren r)%Z = true) as Hlt
    by (apply Z.ltb_lt; lia).
  rewrite Hge, Hlt in Hin. rewrite Hge.
  step_with Hin. simpl assert. unfold ret at 1, bind at 1.
  step_with Hin. simpl assert. unfold ret at 1, bind at 1.
  by rewrite Z.eqb_refl.
Qed.

(** Two childless children are swapped, and swapped back by a second call. *)
Lemma swapChildren_leaves :
  let swap := TreeReference.swapChildren (Sample.handle 0) 0 1 in
  mapResult Sample.summary (exec swap Sample.flat)
  = Ok [(0, 1, 2, false); (2, 1, 0, false); (1, 1, 0, false)]%Z
  ∧ exec (swap ;; swap) Sample.flat = Ok Sample.flat.
Proof. split; reflexivity. Qed.

(** On [P(A(C), B)], where only the earlier child has children, the swap
    gives [P(B, A(C))]; the second swap then meets a later child with
    children and gives [P(A(B), C)]. *)
Lemma swapChildren_childless_second :
  let swap := TreeReference.swapChildren (Sample.handle 0) 0 1 in
  mapResult Sample.summary (exec swap Sample.nestedFirst)
  = Ok [(0, 1, 2, false); (3, 1, 0, false); (1, 1, 1, false); (2, 1, 0, false)]%Z
  ∧ mapResult Sample.summary (exec (swap ;; swap) Sample.nestedFirst)
    = Ok [(0, 1, 2, false); (1, 1, 1, false); (3, 1, 0, false); (2, 1, 0, false)]%Z.
Proof. split; reflexivity. Qed.

(** C4, at an input where the code departs from it.  On [P(A, B(C))] the
    first move puts [A] just after the header of [B], ahead of [C], not
    after the end of [B]'s subtree: the swap gives [P(B(A), C)], and a
    second swap gives [P(C, B(A))], not the pool it started from. *)
Theorem swapChildren_nested_second_is_not_involutive :
  let swap := TreeReference.swapChildren (Sample.handle 0) 0 1 in
  mapResult Sample.summary (exec swap Sample.nested)
  = Ok [(0, 1, 2, false); (2, 1, 1, false); (1, 1, 0, false); (3, 1, 0, false)]%Z
  ∧ mapResult Sample.summary (exec (swap ;; swap) Sample.nested)
    = Ok [(0, 1, 2, false); (3, 1, 0, false); (2, 1, 1, false); (1, 1, 0, false)]%Z
  ∧ exec (swap ;; swap) Sample.nested ≠ Ok Sample.nested.
Proof. repeat split. discriminate. Qed.

(** ** A failed new child *)

(** C5.  When [newChild] is a failure sentinel, [replaceChildAtIndex] is
    [replaceWithAllocationFailure] on [self] and nothing else; on a node of
    a well-formed pool the call runs to the end and it is [self] that
    reports [isAllocationFailure() == true] afterwards. *)
Theorem replaceChildAtIndex_failure_propagates
    (pool : TreePool) (self newChild : TreeReference) (oldChildIndex : Z)
    (pos : nat) (n r : TreeNode) :
  recordOf newChild pool = Some r →
  TreeNode.isAllocationFailure r = true →
  TreeReference.replaceChildAtIndex self oldChildIndex newChild pool
  = TreeReference.replaceWithAllocationFailure self pool
  ∧ (wellFormed pool = true →
     TreePool.buffer pool !! pos = Some n →
     TreeNode.identifier n = TreeReference.identifier self →
     ∃ pool',
       TreeReference.replaceChildAtIndex self oldChildIndex newChild pool
       = Ok (tt, pool')
       ∧ eval (TreeReference.isAllocationFailure self) pool' = Ok true).
Proof.
  intros Hr Hfail.
  assert (TreeReference.replaceChildAtIndex self oldChildIndex newChild pool
          = TreeReference.replaceWithAllocationFailure self pool) as Heq.
  { unfold TreeReference.replaceChildAtIndex.
    step_with (isAllocationFailure_recordOf _ _ _ Hr). by rewrite Hfail. }
  split; [done|]. intros Hwf Hn Hid. rewrite Heq.
  destruct pool as [l st cap]. simpl in *.
  destruct (replaceWithAllocationFailure_run self l st cap pos n Hwf Hn Hid)
    as (k & s & p & newNode & idx & lmid & lfinal
        & Hk & Hs & _ & _ & Hrun & Hrec).
  destruct (wellFormed_inv _ _ _ Hwf) as (_ & _ & Hcanon & _).
  assert (canonicalRecord s = true) as Hs'.
  { eapply Forall_forall in Hcanon; [exact Hcanon|]. by eapply list_elem_of_lookup_2. }
  apply canonicalRecord_inv in Hs' as (Hfails & _).
  eexists. split; [exact Hrun|].
  unfold eval. rewrite (isAllocationFailure_recordOf _ _ _ Hrec). simpl.
  by rewrite Hfails.
Qed.

Lemma replaceChildAtIndex_failure_propagates_witness :
  ∃ pool',
    TreeReference.replaceChildAtIndex (Sample.handle 0) 0 (Sample.handle 2)
      Sample.withSentinel = Ok (tt, pool')
    ∧ eval (TreeReference.isAllocationFailure (Sample.handle 0)) pool' = Ok true.
Proof.
  destruct (replaceChildAtIndex_failure_propagates Sample.withSentinel
              (Sample.handle 0) (Sample.handle 2) 0 0
              (Sample.inner 0 1 2) (Sample.sentinel 2 2))
    as [_ Hrun]; [reflexivity | reflexivity |].
  apply Hrun; reflexivity.
Defined.

(** ** The retain count across the protocol *)

(** C6.  On a node of a well-formed pool whose retain count is [c],
    [replaceWithAllocationFailure] is lines 145-170 followed by the
    reattachment of lines 171-175, and it runs to the end.  In the pool
    that stands between the two, the identifier of the node resolves to
    the substituted sentinel, whose retain count has been set to [c - 1]
    when the node has a parent, that is when [parent()] yields a defined
    handle, and to [c] when it has none.  The reattachment run from that
    pool gives the pool the whole call leaves, and there the identifier
    resolves to the sentinel with retain count [c] in both cases. *)
Theorem allocation_failure_restores_retain_count
    (pool : TreePool) (self : TreeReference) (pos : nat) (n : TreeNode) :
  wellFormed pool = true →
  TreePool.buffer pool !! pos = Some n →
  TreeNode.identifier n = TreeReference.identifier self →
  (∀ pool0,
     TreeReference.replaceWithAllocationFailure self pool0
     = (substituted <- TreeReference.substituteAllocationFailure self ;;
        TreeReference.reattachAllocationFailure substituted) pool0)
  ∧ ∃ (hasParent : bool) p newNode index substituted pool',
      eval (p <- TreeReference.parent self ;; TreeReference.isDefined p) pool
      = Ok hasParent
      ∧ TreeReference.substituteAllocationFailure self pool
        = Ok ((p, newNode, index), substituted)
      ∧ eval (TreeReference.isAllocationFailure self) substituted = Ok true
      ∧ eval (TreeReference.nodeRetainCount self) substituted
        = Ok (if hasParent then TreeNode.retainCount n - 1
              else TreeNode.retainCount n)%Z
      ∧ TreeReference.reattachAllocationFailure (p, newNode, index) substituted
        = Ok (tt, pool')
      ∧ TreeReference.replaceWithAllocationFailure self pool = Ok (tt, pool')
      ∧ eval (TreeReference.isAllocationFailure self) pool' = Ok true
      ∧ eval (TreeReference.nodeRetainCount self) pool'
        = Ok (TreeNode.retainCount n).
Proof.
  destruct pool as [l st cap]. simpl. intros Hwf Hn Hid.
  split; [intros pool0; apply replaceWithAllocationFailure_split|].
  destruct (replaceWithAllocationFailure_run self l st cap pos n Hwf Hn Hid)
    as (k & s & p & newNode & idx & lmid & lfinal
        & Hk & Hs & Hsubst & Hmid & Hrun & Hrec).
  destruct (wellFormed_inv _ _ _ Hwf) as (_ & _ & Hcanon & _).
  assert (canonicalRecord s = true) as Hs'.
  { eapply Forall_forall in Hcanon; [exact Hcanon|].
    by eapply list_elem_of_lookup_2. }
  apply canonicalRecord_inv in Hs' as (Hfails & _).
  exists (bool_decide (is_Some (TreePool.parentPos pos l))), p, newNode, idx,
    (TreePool.mk lmid st cap), (TreePool.mk lfinal st cap).
  split; [by apply (parent_isDefined self l st cap pos n)|].
  split; [exact Hsubst|]. unfold eval.
  rewrite (isAllocationFailure_recordOf _ _ _ Hmid),
    (isAllocationFailure_recordOf _ _ _ Hrec),
    (nodeRetainCount_recordOf _ _ _ Hmid), (nodeRetainCount_recordOf _ _ _ Hrec).
  simpl. rewrite Hfails.
  split; [done|]. split; [by destruct (TreePool.parentPos pos l)|].
  split; [|done].
  (* the rest of the call, run from the pool in between *)
  rewrite <- Hrun, replaceWithAllocationFailure_split.
  by rewrite (bind_Ok _ _ _ _ _ Hsubst).
Qed.

Lemma allocation_failure_restores_retain_count_witness :
  ∃ p newNode index substituted pool',
    TreeReference.substituteAllocationFailure (Sample.handle 1) Sample.nestedFirst
    = Ok ((p, newNode, index), substituted)
    ∧ eval (TreeReference.isAllocationFailure (Sample.handle 1)) substituted
      = Ok true
    ∧ eval (TreeReference.nodeRetainCount (Sample.handle 1)) substituted
      = Ok (1 - 1)%Z
    ∧ TreeReference.reattachAllocationFailure (p, newNode, index) substituted
      = Ok (tt, pool')
    ∧ TreeReference.replaceWithAllocationFailure (Sample.handle 1)
        Sample.nestedFirst = Ok (tt, pool')
    ∧ eval (TreeReference.isAllocationFailure (Sample.handle 1)) pool' = Ok true
    ∧ eval (TreeReference.nodeRetainCount (Sample.handle 1)) pool' = Ok 1%Z.
Proof.
  destruct (allocation_failure_restores_retain_count Sample.nestedFirst
              (Sample.handle 1) 1 (Sample.inner 1 1 1))
    as [_ (hasParent & p & newNode & index & substituted & pool'
           & Hparent & Hsubst & Hfail & Hcount & Hrest)];
    [reflexivity | reflexivity | reflexivity |].
  injection Hparent as <-.
  by exists p, newNode, index, substituted, pool'.
Defined.

(** ** Adding a child *)

(** C7, as the code has it.  In a well-formed pool, for a parent handle [p]
    that is not a sentinel, a child [c] whose subtree and [p]'s do not
    overlap, and an index [0 <= i <= p.numberOfChildren()]: the call
    [p.addChildAtIndex(c, i)] runs to the end; afterwards [childAt(i)] of
    [p] yields a handle with [c]'s identifier, [p] has exactly one more
    child, [c] has one more owner, and the records stand in the order that
    one move of [c]'s subtree gives, to the offset found by walking [i]
    sibling boundaries from [p]'s first child. *)
Theorem addChildAtIndex_then_childAt
    (pool : TreePool) (p c : TreeReference) (pp pc : nat) (np nc : TreeNode)
    (i : Z) :
  wellFormed pool = true →
  TreePool.buffer pool !! pp = Some np →
  TreeNode.identifier np = TreeReference.identifier p →
  TreePool.buffer pool !! pc = Some nc →
  TreeNode.identifier nc = TreeReference.identifier c →
  TreeNode.isAllocationFailure np = false →
  (0 ≤ i ≤ TreeNode.numberOfChildren np)%Z →
  (TreePool.nextSiblingPos pc (TreePool.buffer pool) ≤ pp
   ∨ TreePool.nextSiblingPos pp (TreePool.buffer pool) ≤ pc) →
  ∃ pool',
    TreeReference.byValue c (λ t, TreeReference.addChildAtIndex p t i) pool
    = Ok (tt, pool')
    ∧ eval (child <- TreeReference.treeChildAtIndex p i ;;
            ret (TreeReference.identifier child)) pool'
      = Ok (TreeReference.identifier c)
    ∧ eval (TreeReference.numberOfChildren p) pool'
      = Ok (TreeNode.numberOfChildren np + 1)%Z
    ∧ eval (TreeReference.nodeRetainCount c) pool'
      = Ok (TreeNode.retainCount nc + 1)%Z
    ∧ identifiersOf (TreePool.buffer pool')
      = identifiersOf
          (TreePool.relocate pc
             (TreePool.deepLength pc (TreePool.buffer pool))
             (TreePool.childPos pp (Z.to_nat i) (TreePool.buffer pool))
             (TreePool.buffer pool)).
Proof.
  destruct pool as [l st cap]. simpl.
  intros Hwf Hnp Hidp Hnc Hidc Hfail Hi Hdisj.
  destruct (wellFormed_buffer _ _ _ Hwf) as (HN & Hcc & Hrc & Hsz).
  destruct (wellFormed_inv _ _ _ Hwf) as (Hlive & _ & _ & _ & Hcont & _).
  assert (liveRecord nc = true) as Hlivec.
  { eapply Forall_forall in Hlive; [exact Hlive|]. by eapply list_elem_of_lookup_2. }
  apply liveRecord_inv in Hlivec as (Hidnc & Hrcnc & _).
  destruct Hdisj as [Hahead|Hbehind].
  - destruct (layout_ahead l pp np pc nc i Hcc Hcont Hnp Hnc Hi Hahead)
      as (X & T & Y & K & W & -> & <- & <- & HcK & HsK & Hspan).
    eexists. split.
    { apply addChild_from_ahead; try done. lia. }
    simpl TreePool.buffer.
    rewrite (relocation_from_ahead i X nc T Y np K W Hcc (proj1 Hi) HcK HsK Hspan).
    assert (X ++ Y ++ np :: K ++ nc :: T ++ W = (X ++ Y) ++ np :: K ++ nc :: T ++ W)
      as Hre by (by simplify_list_eq).
    assert (X ++ Y ++ TreeNode.incrementNumberOfChildren np :: K
              ++ TreeNode.retain nc :: T ++ W
            = (X ++ Y) ++ TreeNode.incrementNumberOfChildren np :: K
              ++ TreeNode.retain nc :: T ++ W) as -> by (by simplify_list_eq).
    assert (identifiersOf (X ++ nc :: T ++ Y ++ np :: K ++ W)
            ≡ₚ identifiersOf ((X ++ Y) ++ np :: K ++ nc :: T ++ W)) as Hperm.
    { unfold identifiersOf. rewrite <- Hre. f_equiv. f_equiv.
      transitivity ((nc :: T) ++ (Y ++ np :: K) ++ W); [by simplify_list_eq|].
      rewrite Permutation_app_swap_app. by simplify_list_eq. }
    rewrite Hre.
    destruct (addChild_observed p c i (X ++ Y) np K nc (T ++ W) st cap)
      as (Hchild & Hcount & Hretain); try done.
    { by rewrite <- Hperm. }
    { revert Hcc. unfold childCountsOk.
      rewrite !Forall_app, !Forall_cons, !Forall_app, !Forall_cons, !Forall_app.
      tauto. }
    repeat split; try done.
    unfold identifiersOf. rewrite !fmap_app. csimpl. by rewrite !fmap_app.
  - destruct (layout_behind l pp np pc nc i Hcc Hcont Hnp Hnc Hi Hbehind)
      as (X & K & Y & T & W & -> & <- & <- & HcK & HsK & Hspan).
    eexists. split.
    { apply addChild_from_behind; try done. lia. }
    simpl TreePool.buffer.
    rewrite (relocation_from_behind i X np K Y nc T W Hcc (proj1 Hi) HcK HsK Hspan).
    assert (identifiersOf (X ++ np :: K ++ Y ++ nc :: T ++ W)
            ≡ₚ identifiersOf (X ++ np :: K ++ nc :: (T ++ Y ++ W))) as Hperm.
    { unfold identifiersOf. do 4 f_equiv.
      transitivity ((nc :: T) ++ Y ++ W); [|by simplify_list_eq].
      by rewrite Permutation_app_swap_app. }
    destruct (addChild_observed p c i X np K nc (T ++ Y ++ W) st cap)
      as (Hchild & Hcount & Hretain); try done.
    { by rewrite <- Hperm. }
    { revert Hcc. unfold childCountsOk.
      rewrite !Forall_app, !Forall_cons, !Forall_app, !Forall_cons, !Forall_app.
      tauto. }
    repeat split; try done.
    unfold identifiersOf. rewrite !fmap_app. csimpl. by rewrite !fmap_app.
Qed.

Lemma addChildAtIndex_then_childAt_witness :
  ∃ pool',
    TreeReference.byValue (Sample.handle 3)
      (λ t, TreeReference.addChildAtIndex (Sample.handle 0) t 2)
      Sample.withSentinel = Ok (tt, pool')
    ∧ eval (child <- TreeReference.treeChildAtIndex (Sample.handle 0) 2 ;;
            ret (TreeReference.identifier child)) pool' = Ok 3%Z
    ∧ eval (TreeReference.numberOfChildren (Sample.handle 0)) pool' = Ok 3%Z
    ∧ eval (TreeReference.nodeRetainCount (Sample.handle 3)) pool' = Ok 2%Z.
Proof.
  destruct (addChildAtIndex_then_childAt Sample.withSentinel
              (Sample.handle 0) (Sample.handle 3) 0 3
              (Sample.inner 0 1 2) (Sample.leaf 3 1) 2)
    as (pool' & Hrun & Hchild & Hcount & Hretain & _);
    [reflexivity | reflexivity | reflexivity | reflexivity | reflexivity
    | reflexivity | done | right; vm_compute; lia |].
  by exists pool'.
Defined.

(** C7 as stated fails for a child that already lies under the parent:
    adding the first child of [P(A, S)] again at index 2 moves it behind
    [S], and [childAt(2)] is then the root that follows [P]'s subtree, not
    the child that was added. *)
Lemma addChildAtIndex_of_own_child :
  eval (TreeReference.byValue (Sample.handle 1)
          (λ t, TreeReference.addChildAtIndex (Sample.handle 0) t 2) ;;
        child <- TreeReference.treeChildAtIndex (Sample.handle 0) 2 ;;
        ret (TreeReference.identifier child)) Sample.withSentinel
  = Ok 3%Z
  ∧ TreeReference.identifier (Sample.handle 1) ≠ 3%Z.
Proof. split; [reflexivity | discriminate]. Qed.

(** ** Cloning *)

(** C8.  On a handle bound to a node of a well-formed pool.  When the node
    is a failure sentinel, [clone()] copies nothing: it yields a handle on
    the canonical sentinel of the node's type, under the canonical
    identifier, and only retains that sentinel.  Otherwise, when the copy
    fits in the arena, [clone()] yields a handle on a subtree with the same
    type tags, child counts, sizes and order as the original, none of whose
    identifiers is one of the original's, and the original is untouched. *)
Theorem clone_shares_sentinel_or_copies
    (pool : TreePool) (h : TreeReference) (pos : nat) (n : TreeNode) :
  wellFormed pool = true →
  TreePool.buffer pool !! pos = Some n →
  TreeNode.identifier n = TreeReference.identifier h →
  (TreeNode.isAllocationFailure n = true →
   ∃ k canonical,
     TreePool.staticNodes pool !! k = Some canonical
     ∧ TreeNode.identifier canonical = TreeNode.allocationFailureNodeIdentifier n
     ∧ TreeReference.clone h pool
       = Ok (TreeReference.mk (TreeNode.identifier canonical),
             TreePool.update (Static k) TreeNode.retain pool))
  ∧ (TreeNode.isAllocationFailure n = false →
     (TreePool.usedBytes (TreePool.buffer pool)
        + TreePool.usedBytes (subtreeOf h pool) ≤ TreePool.capacity pool)%Z →
     ∃ h' pool',
       TreeReference.clone h pool = Ok (h', pool')
       ∧ TreeNode.shape <$> subtreeOf h' pool' = TreeNode.shape <$> subtreeOf h pool
       ∧ (∀ id, id ∈ identifiersOf (subtreeOf h' pool') →
                id ∉ identifiersOf (subtreeOf h pool))
       ∧ subtreeOf h pool' = subtreeOf h pool).
Proof.
  destruct pool as [l st cap], h as [id]. simpl. intros Hwf Hn Hid.
  destruct (wellFormed_buffer _ _ _ Hwf) as (HN & Hcc & Hrc & Hsz).
  destruct (wellFormed_inv _ _ _ Hwf) as (Hlive & Hsent & Hcanon & HNall & Hcont & Hcap).
  assert (pos < length l) as Hpos by (by eapply lookup_lt_Some).
  pose proof (nodeD_pooled (TreeReference.mk id) l st cap pos n HN Hn Hid) as Hself.
  pose proof (node_pooled l st cap pos n HN Hn) as Hnode. rewrite Hid in Hnode.
  split.
  - intros Hfail.
    destruct (hasSentinel_inv st n) as (k & s & Hk & Hs & _).
    { eapply Forall_forall in Hsent; [exact Hsent|]. by eapply list_elem_of_lookup_2. }
    pose proof (indexOfIdentifier_Some _ _ _ Hk) as (s' & Hs' & Hids).
    assert (s' = s) as -> by congruence.
    exists k, s. split; [done|]. split; [done|].
    assert (TreePool.node (TreeNode.allocationFailureNodeIdentifier n)
              (TreePool.mk l st cap) = Some (Static k)) as Hcanonical.
    { unfold TreePool.node. simpl.
      rewrite identifiersOf_app in HNall. apply NoDup_app in HNall as (_ & Hdisj & _).
      assert (TreePool.indexOfIdentifier
                (TreeNode.allocationFailureNodeIdentifier n) l = None) as ->.
      { apply indexOfIdentifier_None. intros Hin. apply (Hdisj _ Hin).
        rewrite <- Hids. apply list_elem_of_fmap. exists s. split; [done|].
        by eapply list_elem_of_lookup_2. }
      by rewrite Hk. }
    unfold TreeReference.clone. step_with Hself.
    step_with (isAllocationFailure_run (Pooled pos) (TreePool.mk l st cap) n Hn).
    rewrite Hfail. unfold Node.allocationFailureNodeIdentifier. rewrite bind_assoc.
    step_with (deref_run (Pooled pos) (TreePool.mk l st cap) n Hn).
    unfold ret at 1, bind at 1. unfold Pool.node, gets at 1, bind at 1.
    rewrite Hcanonical. unfold TreeReference.fromNode.
    step_with (identifier_run (Static k) (TreePool.mk l st cap) s Hs).
    rewrite Hids.
    by rewrite (setIdentifierAndRetain_run _ (TreePool.mk l st cap) (Static k) s Hcanonical Hs).
  - intros Hfail. unfold subtreeOf at 1. simpl TreeReference.m_identifier. rewrite Hnode.
    intros Hroom.
    set (src := TreePool.subtreeRecords (Pooled pos) (TreePool.mk l st cap)) in *.
    set (fresh := TreePool.freshIdentifier (TreePool.mk l st cap)).
    set (copies := TreePool.copyRecords fresh true src).
    destruct (subtreeRecords_head l st cap pos n Hn) as [rest Hsrc]. fold src in Hsrc.
    assert (∃ c0 copies', copies = c0 :: copies' ∧ TreeNode.identifier c0 = fresh)
      as (c0 & copies' & Hcopies & Hc0).
    { unfold copies. rewrite Hsrc. simpl. eauto. }
    assert (∀ x, x ∈ identifiersOf l → (x < fresh)%Z) as Hfresh
      by (intros x Hx; by apply (freshIdentifier_above (TreePool.mk l st cap))).
    assert (TreeReference.clone (TreeReference.mk id) (TreePool.mk l st cap)
            = Ok (TreeReference.mk fresh,
                  TreePool.mk (l ++ TreeNode.retain c0 :: copies') st cap)) as Hclone.
    { unfold TreeReference.clone. step_with Hself.
      step_with (isAllocationFailure_run (Pooled pos) (TreePool.mk l st cap) n Hn).
      rewrite Hfail. unfold Pool.deepCopy. rewrite bind_assoc.
      step_with (deref_run (Pooled pos) (TreePool.mk l st cap) n Hn).
      unfold bind at 1. simpl TreePool.buffer. simpl TreePool.capacity.
      fold src. destruct (Z.leb_spec (TreePool.usedBytes l + TreePool.usedBytes src) cap);
        [|lia].
      unfold TreePool.withBuffer. simpl TreePool.buffer. simpl TreePool.staticNodes.
      simpl TreePool.capacity. fold fresh. fold copies. rewrite Hcopies.
      unfold TreeReference.fromNode.
      assert ((l ++ c0 :: copies') !! length l = Some c0) as Hc
        by (by apply list_lookup_middle).
      step_with (identifier_run (Pooled (length l))
                   (TreePool.mk (l ++ c0 :: copies') st cap) c0 Hc).
      rewrite Hc0.
      rewrite (setIdentifierAndRetain_run fresh _ (Pooled (length l)) c0); [| |done].
      - simpl. unfold TreePool.withBuffer. simpl. do 3 f_equal.
        rewrite <- (Nat.add_0_r (length l)). by rewrite alter_app_r.
      - unfold TreePool.node. simpl. rewrite indexOfIdentifier_fresh by done.
        simpl. rewrite Hc0, Z.eqb_refl. simpl. by rewrite Nat.add_0_r. }
    eexists _, _. split; [exact Hclone|].
    assert (TreePool.node fresh (TreePool.mk (l ++ TreeNode.retain c0 :: copies') st cap)
            = Some (Pooled (length l))) as Hnode'.
    { unfold TreePool.node. simpl. rewrite indexOfIdentifier_fresh by done.
      simpl. rewrite Hc0, Z.eqb_refl. simpl. by rewrite Nat.add_0_r. }
    assert (TreeNode.shape <$> TreeNode.retain c0 :: copies' = TreeNode.shape <$> src)
      as Hshape.
    { rewrite <- (copyRecords_shape fresh true src). fold copies. by rewrite Hcopies. }
    assert (TreePool.subtreeRecords (Pooled (length l))
              (TreePool.mk (l ++ TreeNode.retain c0 :: copies') st cap)
            = TreeNode.retain c0 :: copies') as Hsub'.
    { apply subtreeRecords_whole.
      rewrite (skipTrees_ext 1 _ src) by (by apply shape_numberOfChildren).
      pose proof (subtreeRecords_length l st cap pos Hpos Hcont) as Hlen.
      cbv zeta in Hlen. fold src in Hlen. rewrite Hlen.
      rewrite <- (length_fmap TreeNode.shape src), <- Hshape.
      by rewrite length_fmap. }
    unfold subtreeOf. simpl TreeReference.m_identifier. rewrite Hnode', Hsub', Hnode.
    fold src. split; [done|]. split.
    + intros x Hx Hx'.
      assert (fresh ≤ x)%Z as Hge.
      { apply (copyRecords_identifiers fresh true src). fold copies.
        rewrite Hcopies. revert Hx. unfold identifiersOf. csimpl. done. }
      assert (x < fresh)%Z; [|lia]. apply Hfresh.
      eapply elem_of_sublist; [exact Hx' | apply subtreeRecords_sublist].
    + assert (TreePool.node id (TreePool.mk (l ++ TreeNode.retain c0 :: copies') st cap)
              = Some (Pooled pos)) as ->.
      { pose proof (indexOfIdentifier_unique l pos n HN Hn) as Hix.
        rewrite Hid in Hix. unfold TreePool.node. simpl.
        by rewrite indexOfIdentifier_app, Hix. }
      by apply subtreeRecords_app.
Qed.

Lemma clone_shares_sentinel_or_copies_witness :
  ∃ h' pool',
    TreeReference.clone (Sample.handle 1) Sample.nestedFirst = Ok (h', pool')
    ∧ TreeNode.shape <$> subtreeOf h' pool'
      = TreeNode.shape <$> subtreeOf (Sample.handle 1) Sample.nestedFirst
    ∧ (∀ id, id ∈ identifiersOf (subtreeOf h' pool') →
             id ∉ identifiersOf (subtreeOf (Sample.handle 1) Sample.nestedFirst))
    ∧ subtreeOf (Sample.handle 1) pool'
      = subtreeOf (Sample.handle 1) Sample.nestedFirst.
Proof.
  destruct (clone_shares_sentinel_or_copies Sample.nestedFirst
              (Sample.handle 1) 1 (Sample.inner 1 1 1))
    as [_ Hcopy]; [reflexivity | reflexivity | reflexivity |].
  apply Hcopy; [reflexivity | vm_compute; discriminate].
Defined.

(** ** Fresh handles *)





(** ** Assignment over a bound handle *)

(** C10, as the code has it.  For a handle [a] bound to a record and a
    handle [b] whose identifier resolves, the copy and the move assignment
    [a = b] yield [b]'s identifier and do one thing to the pool, a retain
    of [b]'s record: the record [a] was bound to gets no release.  Its
    retain count is unchanged when it is not [b]'s record, and one higher
    when it is. *)
Theorem assignment_never_releases
    (pool : TreePool) (a b : TreeReference) (pa pb : NodePtr) (na nb : TreeNode) :
  (0 ≤ TreeReference.identifier a)%Z →
  TreePool.node (TreeReference.identifier a) pool = Some pa →
  TreePool.deref pa pool = Some na →
  TreePool.node (TreeReference.identifier b) pool = Some pb →
  TreePool.deref pb pool = Some nb →
  let pool' := TreePool.update pb TreeNode.retain pool in
  TreeReference.copyAssignment a b pool = Ok (b, pool')
  ∧ TreeReference.moveAssignment a b pool = Ok (b, pool')
  ∧ TreePool.deref pb pool' = Some (TreeNode.retain nb)
  ∧ TreePool.deref pa pool'
    = Some (if decide (pa = pb) then TreeNode.retain na else na).
Proof.
  intros _ Hpa Hna Hpb Hnb pool'. destruct b as [id]. simpl in *.
  pose proof (setIdentifierAndRetain_run id pool pb nb Hpb Hnb) as Hset.
  repeat split; try done.
  - unfold pool'. by rewrite deref_update_eq, Hnb.
  - unfold pool'. destruct (decide (pa = pb)) as [->|Hne].
    + by rewrite deref_update_eq, Hna.
    + by rewrite deref_update_ne.
Qed.

Lemma assignment_never_releases_witness :
  TreePool.deref (Pooled 0)
    (TreePool.update (Pooled 1) TreeNode.retain Sample.pair)
  = Some (Sample.leaf 1 1).
Proof.
  destruct (assignment_never_releases Sample.pair
              (Sample.handle 1) (Sample.handle 2) (Pooled 0) (Pooled 1)
              (Sample.leaf 1 1) (Sample.leaf 2 1))
    as (_ & _ & _ & Hprev); [done | reflexivity | reflexivity | reflexivity | reflexivity |].
  exact Hprev.
Defined.

(** C10 as stated fails when [a] and [b] are bound to the same node: the
    retain count of the node [a] was bound to goes from 1 to 2. *)
Lemma self_assignment_changes_previous_count :
  eval (TreeReference.nodeRetainCount (Sample.handle 1)) Sample.single = Ok 1%Z
  ∧ eval (TreeReference.copyAssignment (Sample.handle 1) (Sample.handle 1) ;;
          TreeReference.nodeRetainCount (Sample.handle 1)) Sample.single
    = Ok 2%Z.
Proof. split; reflexivity. Qed.

(** * Further properties of the handle class *)

(** ** Handles that come and go *)

Section pairs.

Implicit Types (l st : list TreeNode) (cap : Z) (n : TreeNode) (pos : nat)
  (pool : TreePool) (p : NodePtr).

(** A retain undone by a release gives the record back. *)
Lemma release_after_retain n :
  TreeNode.setReferenceCounter (TreeNode.retainCount (TreeNode.retain n) - 1)
    (TreeNode.retain n) = n.
Proof.
  destruct n. unfold TreeNode.retain, TreeNode.setReferenceCounter. simpl.
  f_equal. lia.
Qed.

Lemma update_update_id p pool n (f g : TreeNode → TreeNode) :
  TreePool.deref p pool = Some n → g (f n) = n →
  TreePool.update p g (TreePool.update p f pool) = pool.
Proof.
  intros Hn Hfg. destruct pool as [l st cap], p as [pos|k]; simpl in *;
    unfold TreePool.withBuffer, TreePool.withStaticNodes; simpl; f_equal.
  - apply list_eq. intros i. destruct (decide (i = pos)) as [->|Hne].
    + rewrite !list_lookup_alter_eq, Hn. simpl. by rewrite Hfg.
    + by rewrite !list_lookup_alter_ne.
  - apply list_eq. intros i. destruct (decide (i = k)) as [->|Hne].
    + rewrite !list_lookup_alter_eq, Hn. simpl. by rewrite Hfg.
    + by rewrite !list_lookup_alter_ne.
Qed.

(** A handle made by retaining a live record and then destroyed leaves
    the pool as it was. *)
Lemma retain_then_destructor id pool p n :
  (0 ≤ id)%Z →
  TreePool.node id pool = Some p → TreePool.deref p pool = Some n →
  (1 ≤ TreeNode.retainCount n)%Z →
  TreeReference.destructor (TreeReference.mk id)
    (TreePool.update p TreeNode.retain pool)
  = Ok (tt, pool).
Proof.
  intros Hid Hp Hn Hrc.
  rewrite (destructor_run (TreeReference.mk id) _ p (TreeNode.retain n)); [|done|].
  - rewrite (release_run p _ (TreeNode.retain n)).
    + by rewrite (update_update_id p pool n _ _ Hn (release_after_retain n)).
    + by rewrite deref_update_eq, Hn.
    + simpl. lia.
  - simpl. by rewrite node_update.
Qed.

End pairs.

(** X1.  A handle copied or moved from a handle on a live record, or
    converted to a [TreeReference<TreeNode>], and then destroyed leaves
    the pool exactly as it was: the retain of the construction and the
    release of the destruction cancel. *)
Theorem temporary_handle_leaves_pool
    (pool : TreePool) (h : TreeReference) (p : NodePtr) (n : TreeNode) :
  (0 ≤ TreeReference.identifier h)%Z →
  TreePool.node (TreeReference.identifier h) pool = Some p →
  TreePool.deref p pool = Some n →
  (1 ≤ TreeNode.retainCount n)%Z →
  (c <- TreeReference.copyConstructor h ;; TreeReference.destructor c) pool
  = Ok (tt, pool)
  ∧ (c <- TreeReference.moveConstructor h ;; TreeReference.destructor c) pool
    = Ok (tt, pool)
  ∧ (c <- TreeReference.toTreeNodeReference h ;; TreeReference.destructor c) pool
    = Ok (tt, pool).
Proof.
  intros Hid Hp Hn Hrc. destruct h as [id]. simpl in *.
  pose proof (setIdentifierAndRetain_run id pool p n Hp Hn) as Hset.
  pose proof (retain_then_destructor id pool p n Hid Hp Hn Hrc) as Hdrop.
  destruct (node_deref _ _ _ Hp) as (m & Hm & Hmid).
  assert (m = n) as -> by congruence.
  split; [|split].
  - unfold TreeReference.copyConstructor, TreeReference.setTo. simpl.
    by step_with Hset.
  - unfold TreeReference.moveConstructor, TreeReference.setTo. simpl.
    by step_with Hset.
  - unfold TreeReference.toTreeNodeReference, TreeReference.node, Pool.node.
    rewrite bind_assoc. unfold gets at 1, bind at 1. simpl. rewrite Hp.
    unfold TreeReference.fromNode. rewrite bind_assoc.
    step_with (identifier_run p pool n Hn). rewrite Hmid. by step_with Hset.
Qed.

Lemma temporary_handle_leaves_pool_witness :
  (c <- TreeReference.copyConstructor (Sample.handle 2) ;;
   TreeReference.destructor c) Sample.nested = Ok (tt, Sample.nested).
Proof.
  apply (temporary_handle_leaves_pool Sample.nested (Sample.handle 2)
           (Pooled 2) (Sample.inner 2 1 1)); [done | reflexivity | reflexivity | done].
Defined.

(** [swapChildren] once the child count is known: both indices are
    checked, then equal indices return at once. *)
Lemma swapChildren_checked self (i j count : Z) pool :
  TreeReference.numberOfChildren self pool = Ok (count, pool) →
  TreeReference.swapChildren self i j pool
  = if ((i >=? 0)%Z && (i <? count)%Z) && ((j >=? 0)%Z && (j <? count)%Z) then
      if (i =? j)%Z then Ok (tt, pool)
      else
        (firstChild <- TreeReference.treeChildAtIndex self (TreeReference.min i j) ;;
         secondChild <- TreeReference.treeChildAtIndex self (TreeReference.max i j) ;;
         firstChildNode <- TreeReference.nodeD firstChild ;;
         sn <- TreeReference.nodeD secondChild ;;
         destination <- Node.next sn ;;
         Pool.move firstChildNode destination ;;
         sn <- TreeReference.nodeD secondChild ;;
         Pool.move sn firstChildNode ;;
         TreeReference.destructor secondChild ;;
         TreeReference.destructor firstChild) pool
    else Err AssertionFailed.
Proof.
  intros E. unfold TreeReference.swapChildren.
  step_with (andAlso_run (i >=? 0)%Z _ (λ count, (i <? count)%Z) _ _ E).
  destruct ((i >=? 0)%Z && (i <? count)%Z); simpl; [|done].
  unfold ret at 1, bind at 1.
  step_with (andAlso_run (j >=? 0)%Z _ (λ count, (j <? count)%Z) _ _ E).
  destruct ((j >=? 0)%Z && (j <? count)%Z); simpl; [|done].
  unfold ret at 1, bind at 1. by destruct (i =? j)%Z.
Qed.

Lemma min_max_swap (i j : Z) :
  TreeReference.min j i = TreeReference.min i j
  ∧ TreeReference.max j i = TreeReference.max i j.
Proof.
  unfold TreeReference.min, TreeReference.max. rewrite !Z.gtb_ltb.
  destruct (Z.ltb_spec j i), (Z.ltb_spec i j); (split; lia).
Qed.

Lemma swapChildren_comm self (i j : Z) pool r :
  recordOf self pool = Some r →
  TreeReference.swapChildren self i j pool
  = TreeReference.swapChildren self j i pool.
Proof.
  intros Hr. pose proof (numberOfChildren_recordOf self pool r Hr) as E.
  rewrite !(swapChildren_checked self _ _ _ pool E).
  rewrite (andb_comm ((j >=? 0)%Z && (j <? TreeNode.numberOfChildren r)%Z)),
    (Z.eqb_sym j i).
  destruct (min_max_swap i j) as [-> ->]. done.
Qed.

(** On a handle that does not resolve, the first assertion decides: a
    negative index fails it before the node is looked at, any other index
    has the child count read through a null pointer. *)
Lemma swapChildren_unresolved self (i j : Z) pool :
  TreePool.node (TreeReference.m_identifier self) pool = None →
  TreeReference.swapChildren self i j pool
  = Err (if (i <? 0)%Z then AssertionFailed else NullDereference).
Proof.
  intros Hnone. unfold TreeReference.swapChildren.
  destruct (Z.ltb_spec i 0), (Z.geb_spec i 0); try lia; [done|].
  apply bind_Err. simpl andAlso. apply bind_Err.
  unfold TreeReference.numberOfChildren. apply bind_Err.
  unfold TreeReference.nodeD, TreeReference.node, Pool.node.
  unfold bind, gets. by rewrite Hnone.
Qed.

Lemma swapChildren_resolves self (i j : Z) pool result :
  TreeReference.swapChildren self i j pool = Ok result →
  ∃ r, recordOf self pool = Some r.
Proof.
  intros Hrun. unfold recordOf.
  destruct (TreePool.node (TreeReference.m_identifier self) pool) as [p|] eqn:E.
  - destruct (node_deref _ _ _ E) as (r & Hr & _). by exists r.
  - by rewrite (swapChildren_unresolved self i j pool E) in Hrun.
Qed.

(** X2.  On a handle that resolves, [swapChildren(i, j)] and
    [swapChildren(j, i)] are the same operation: they fail alike or leave
    the same pool.  On a handle that does not resolve they need not be:
    the call stops at the first assertion when [i] is negative, and at
    the null pointer behind [numberOfChildren()] otherwise, whatever [j]
    is. *)
Theorem swapChildren_symmetric (self : TreeReference) (i j : Z) (pool : TreePool) :
  (∀ r, recordOf self pool = Some r →
        TreeReference.swapChildren self i j pool
        = TreeReference.swapChildren self j i pool)
  ∧ (TreePool.node (TreeReference.m_identifier self) pool = None →
     TreeReference.swapChildren self i j pool
     = Err (if (i <? 0)%Z then AssertionFailed else NullDereference)).
Proof.
  split; [|apply swapChildren_unresolved].
  intros r Hr. pose proof (numberOfChildren_recordOf self pool r Hr) as E.
  (* the child count is read without touching the pool *)
  rewrite (swapChildren_checked self i j _ pool E),
    (swapChildren_checked self j i _ pool E).
  (* both orders check the same two bounds and compare the same indices *)
  rewrite (andb_comm ((i >=? 0)%Z && (i <? TreeNode.numberOfChildren r)%Z)),
    (Z.eqb_sym i j).
  destruct (Z.eqb_spec j i) as [_|_]; [done|].
  (* and hand min and max of the same pair to the pool *)
  by destruct (min_max_swap i j) as [-> ->].
Qed.

Lemma swapChildren_symmetric_witness :
  TreeReference.swapChildren (Sample.handle 0) 0 1 Sample.flat
  = TreeReference.swapChildren (Sample.handle 0) 1 0 Sample.flat
  ∧ TreeReference.swapChildren (Sample.handle 7) (-1) 0 Sample.flat
    = Err AssertionFailed
  ∧ TreeReference.swapChildren (Sample.handle 7) 0 (-1) Sample.flat
    = Err NullDereference.
Proof.
  split; [|split].
  - by apply (proj1 (swapChildren_symmetric (Sample.handle 0) 0 1 Sample.flat)
                (Sample.inner 0 1 2)).
  - by apply (proj2 (swapChildren_symmetric (Sample.handle 7) (-1) 0 Sample.flat)).
  - by apply (proj2 (swapChildren_symmetric (Sample.handle 7) 0 (-1) Sample.flat)).
Defined.

(** X3.  [swapChildren] asserts both indices before anything else: with
    an index outside [0, numberOfChildren) the call stops at the
    assertion, also when the two indices are equal. *)
Theorem swapChildren_checks_indices
    (pool : TreePool) (self : TreeReference) (i j : Z) (r : TreeNode) :
  recordOf self pool = Some r →
  ¬ ((0 ≤ i < TreeNode.numberOfChildren r)%Z
     ∧ (0 ≤ j < TreeNode.numberOfChildren r)%Z) →
  TreeReference.swapChildren self i j pool = Err AssertionFailed.
Proof.
  intros Hr Hout.
  rewrite (swapChildren_checked self i j _ pool (numberOfChildren_recordOf _ _ _ Hr)).
  destruct (Z.geb_spec i 0), (Z.ltb_spec i (TreeNode.numberOfChildren r)),
    (Z.geb_spec j 0), (Z.ltb_spec j (TreeNode.numberOfChildren r));
    simpl; try done.
  destruct Hout. lia.
Qed.

Lemma swapChildren_checks_indices_witness :
  TreeReference.swapChildren (Sample.handle 0) 2 2 Sample.flat
  = Err AssertionFailed.
Proof.
  apply (swapChildren_checks_indices Sample.flat (Sample.handle 0) 2 2
           (Sample.inner 0 1 2)); [reflexivity | simpl; lia].
Defined.

(** X4.  [addChildAtIndex] looks at the index only after its guard: with
    an index outside [0, numberOfChildren] the call stops at the
    assertion, before the child is retained or moved, unless the node is
    a failure sentinel, on which the call returns without checking
    anything. *)
Theorem addChildAtIndex_checks_index
    (pool : TreePool) (self t : TreeReference) (index : Z) (r : TreeNode) :
  recordOf self pool = Some r →
  ¬ (0 ≤ index ≤ TreeNode.numberOfChildren r)%Z →
  TreeReference.addChildAtIndex self t index pool
  = if TreeNode.isAllocationFailure r then Ok (tt, pool)
    else Err AssertionFailed.
Proof.
  intros Hr Hout. pose proof Hr as (p & Hp & Hd)%recordOf_inv.
  unfold TreeReference.addChildAtIndex.
  step_with (nodeD_run self pool p Hp).
  step_with (isAllocationFailure_run p pool r Hd).
  destruct (TreeNode.isAllocationFailure r); [done|].
  step_with (andAlso_run (index >=? 0)%Z _ (λ count, (index <=? count)%Z) _ _
               (numberOfChildren_recordOf _ _ _ Hr)).
  destruct (Z.geb_spec index 0), (Z.leb_spec index (TreeNode.numberOfChildren r));
    simpl; try done.
  destruct Hout. lia.
Qed.

Lemma addChildAtIndex_checks_index_witness :
  TreeReference.addChildAtIndex (Sample.handle 0) (Sample.handle 3) 3
    Sample.withSentinel = Err AssertionFailed
  ∧ TreeReference.addChildAtIndex (Sample.handle 2) (Sample.handle 3) 1
      Sample.withSentinel = Ok (tt, Sample.withSentinel).
Proof.
  split.
  - apply (addChildAtIndex_checks_index Sample.withSentinel (Sample.handle 0)
             (Sample.handle 3) 3 (Sample.inner 0 1 2)); [reflexivity | simpl; lia].
  - apply (addChildAtIndex_checks_index Sample.withSentinel (Sample.handle 2)
             (Sample.handle 3) 1 (Sample.sentinel 2 2)); [reflexivity | simpl; lia].
Defined.

(** X5.  A default-constructed handle that is destroyed at once leaves
    the pool exactly as it was: the constructor takes the one owner the
    new record is born with, and the destructor releases it. *)
Theorem fresh_handle_dropped_leaves_pool (pool : TreePool) (T : NodeType) :
  (TreePool.usedBytes (TreePool.buffer pool) + typeSize T
     ≤ TreePool.capacity pool)%Z →
  (h <- TreeReference.create T ;; TreeReference.destructor h) pool
  = Ok (tt, pool).
Proof.
  destruct pool as [l st cap]. simpl. intros Hcap.
  step_with (create_run T l st cap Hcap). cbv zeta.
  set (fresh := TreePool.freshIdentifier (TreePool.mk l st cap)).
  set (new := TreeNode.mk fresh 1 0 (typeSize T) (typeTagOf T)
                (typeIsAllocationFailure T) (typeFailureIdentifier T)).
  assert (TreePool.node fresh (TreePool.mk (l ++ [new]) st cap)
          = Some (Pooled (length l))) as Hnode.
  { unfold TreePool.node. simpl.
    rewrite indexOfIdentifier_fresh
      by (intros x Hx; by apply (freshIdentifier_above (TreePool.mk l st cap))).
    simpl. rewrite Z.eqb_refl. simpl. by rewrite Nat.add_0_r. }
  rewrite (destructor_run (TreeReference.mk fresh) _ (Pooled (length l)) new);
    [| apply freshIdentifier_nonneg | done].
  unfold Node.release.
  step_with (deref_run (Pooled (length l)) (TreePool.mk (l ++ [new]) st cap) new
               (lookup_end l new)).
  simpl. rewrite drop_app_length. simpl.
  by rewrite take_app_length, app_nil_r.
Qed.

Lemma fresh_handle_dropped_leaves_pool_witness :
  (h <- TreeReference.create Sample.leafType ;; TreeReference.destructor h)
    Sample.pair = Ok (tt, Sample.pair).
Proof.
  apply (fresh_handle_dropped_leaves_pool Sample.pair Sample.leafType).
  vm_compute. discriminate.
Defined.

(** ** Clones *)

Section clones.

Implicit Types (l st : list TreeNode) (cap : Z) (n : TreeNode) (pos : nat).

(** Releasing trees whose every record has one owner leaves nothing. *)
Lemma releaseTrees_sole_owner k l :
  Forall (λ n, TreeNode.retainCount n = 1%Z) l →
  TreePool.skipTrees k l = length l →
  TreePool.releaseTrees 0 k l = Ok [].
Proof.
  revert k. induction l as [|n l IH]; intros k Hrc Hlen; [done|].
  apply Forall_cons in Hrc as [Hn Hrc].
  destruct (decide (0 < k)%Z) as [Hk|Hk].
  - rewrite skipTrees_cons in Hlen by done. simpl in Hlen |- *.
    destruct (Z.ltb_spec 0 k); [|lia]. rewrite Hn. simpl.
    apply IH; [done | lia].
  - rewrite skipTrees_nonpos in Hlen by lia. done.
Qed.

Lemma copyRecords_owners base l :
  Forall (λ n, TreeNode.retainCount n = 1%Z) (TreePool.copyRecords base false l).
Proof.
  revert base. induction l as [|n l IH]; intros base; simpl; [done|].
  constructor; [done | apply IH].
Qed.

(** [clone()] on a failure sentinel: a handle on the canonical sentinel,
    which is retained. *)
Lemma clone_sentinel_run h l st cap pos n :
  wellFormed (TreePool.mk l st cap) = true →
  l !! pos = Some n →
  TreeNode.identifier n = TreeReference.m_identifier h →
  TreeNode.isAllocationFailure n = true →
  ∃ k s,
    st !! k = Some s
    ∧ TreePool.node (TreeNode.identifier s) (TreePool.mk l st cap)
      = Some (Static k)
    ∧ TreeReference.clone h (TreePool.mk l st cap)
      = Ok (TreeReference.mk (TreeNode.identifier s),
            TreePool.update (Static k) TreeNode.retain (TreePool.mk l st cap)).
Proof.
  intros Hwf Hn Hid Hfail.
  destruct (wellFormed_buffer _ _ _ Hwf) as (HN & _).
  destruct (wellFormed_inv _ _ _ Hwf) as (_ & Hsent & _ & HNall & _).
  destruct (hasSentinel_inv st n) as (k & s & Hk & Hs & _).
  { eapply Forall_forall in Hsent; [exact Hsent|]. by eapply list_elem_of_lookup_2. }
  pose proof (indexOfIdentifier_Some _ _ _ Hk) as (s' & Hs' & Hids).
  assert (s' = s) as -> by congruence.
  assert (TreePool.node (TreeNode.allocationFailureNodeIdentifier n)
            (TreePool.mk l st cap) = Some (Static k)) as Hcanonical.
  { unfold TreePool.node. simpl.
    rewrite identifiersOf_app in HNall. apply NoDup_app in HNall as (_ & Hdisj & _).
    assert (TreePool.indexOfIdentifier
              (TreeNode.allocationFailureNodeIdentifier n) l = None) as ->.
    { apply indexOfIdentifier_None. intros Hin. apply (Hdisj _ Hin).
      rewrite <- Hids. apply list_elem_of_fmap. exists s. split; [done|].
      by eapply list_elem_of_lookup_2. }
    by rewrite Hk. }
  exists k, s. split; [done|]. split; [by rewrite Hids|].
  unfold TreeReference.clone.
  step_with (nodeD_pooled h l st cap pos n HN Hn Hid).
  step_with (isAllocationFailure_run (Pooled pos) (TreePool.mk l st cap) n Hn).
  rewrite Hfail. unfold Node.allocationFailureNodeIdentifier. rewrite bind_assoc.
  step_with (deref_run (Pooled pos) (TreePool.mk l st cap) n Hn).
  unfold ret at 1, bind at 1. unfold Pool.node, gets at 1, bind at 1.
  rewrite Hcanonical. unfold TreeReference.fromNode.
  step_with (identifier_run (Static k) (TreePool.mk l st cap) s Hs).
  rewrite Hids.
  by rewrite (setIdentifierAndRetain_run _ (TreePool.mk l st cap) (Static k) s
                Hcanonical Hs).
Qed.

(** [clone()] on any other node, when the copy fits: the records of the
    subtree are appended under fresh identifiers, the root owned by the
    handle and every other record by its parent. *)
Lemma clone_copy_run h l st cap pos n :
  wellFormed (TreePool.mk l st cap) = true →
  l !! pos = Some n →
  TreeNode.identifier n = TreeReference.m_identifier h →
  TreeNode.isAllocationFailure n = false →
  let src := TreePool.subtreeRecords (Pooled pos) (TreePool.mk l st cap) in
  let fresh := TreePool.freshIdentifier (TreePool.mk l st cap) in
  (TreePool.usedBytes l + TreePool.usedBytes src ≤ cap)%Z →
  ∃ c0 copies,
    TreePool.copyRecords fresh true src = c0 :: copies
    ∧ TreeNode.identifier c0 = fresh
    ∧ TreeNode.retainCount c0 = 0%Z
    ∧ Forall (λ m, TreeNode.retainCount m = 1%Z) copies
    ∧ TreePool.skipTrees 1 (TreeNode.retain c0 :: copies) = S (length copies)
    ∧ TreePool.node fresh (TreePool.mk (l ++ TreeNode.retain c0 :: copies) st cap)
      = Some (Pooled (length l))
    ∧ TreeReference.clone h (TreePool.mk l st cap)
      = Ok (TreeReference.mk fresh,
            TreePool.mk (l ++ TreeNode.retain c0 :: copies) st cap).
Proof.
  intros Hwf Hn Hid Hfail src fresh Hroom.
  destruct (wellFormed_buffer _ _ _ Hwf) as (HN & _).
  destruct (wellFormed_inv _ _ _ Hwf) as (_ & _ & _ & _ & Hcont & _).
  assert (pos < length l) as Hpos by (by eapply lookup_lt_Some).
  destruct (subtreeRecords_head l st cap pos n Hn) as [rest Hsrc]. fold src in Hsrc.
  set (c0 := TreeNode.rename fresh (TreeNode.setReferenceCounter 0 n)).
  set (copies := TreePool.copyRecords (fresh + 1) false rest).
  assert (TreePool.copyRecords fresh true src = c0 :: copies) as Hcopies
    by (by rewrite Hsrc).
  assert (∀ x, x ∈ identifiersOf l → (x < fresh)%Z) as Hfresh
    by (intros x Hx; by apply (freshIdentifier_above (TreePool.mk l st cap))).
  assert (TreePool.node fresh (TreePool.mk (l ++ TreeNode.retain c0 :: copies) st cap)
          = Some (Pooled (length l))) as Hnode'.
  { unfold TreePool.node. simpl. rewrite indexOfIdentifier_fresh by done.
    simpl. rewrite Z.eqb_refl. simpl. by rewrite Nat.add_0_r. }
  exists c0, copies. split; [done|]. split; [done|]. split; [done|].
  split; [apply copyRecords_owners|]. split; [|split; [done|]].
  - assert (TreeNode.shape <$> TreeNode.retain c0 :: copies = TreeNode.shape <$> src)
      as Hshape.
    { rewrite <- (copyRecords_shape fresh true src). by rewrite Hcopies. }
    rewrite (skipTrees_ext 1 _ src) by (by apply shape_numberOfChildren).
    pose proof (subtreeRecords_length l st cap pos Hpos Hcont) as Hlen.
    cbv zeta in Hlen. fold src in Hlen. rewrite Hlen.
    rewrite <- (length_fmap TreeNode.shape src), <- Hshape.
    by rewrite length_fmap.
  - unfold TreeReference.clone.
    step_with (nodeD_pooled h l st cap pos n HN Hn Hid).
    step_with (isAllocationFailure_run (Pooled pos) (TreePool.mk l st cap) n Hn).
    rewrite Hfail. unfold Pool.deepCopy. rewrite bind_assoc.
    step_with (deref_run (Pooled pos) (TreePool.mk l st cap) n Hn).
    unfold bind at 1. simpl TreePool.buffer. simpl TreePool.capacity.
    fold src. destruct (Z.leb_spec (TreePool.usedBytes l + TreePool.usedBytes src) cap);
      [|lia].
    unfold TreePool.withBuffer. simpl TreePool.buffer. simpl TreePool.staticNodes.
    simpl TreePool.capacity. fold fresh. rewrite Hcopies.
    unfold TreeReference.fromNode.
    assert ((l ++ c0 :: copies) !! length l = Some c0) as Hc
      by (by apply list_lookup_middle).
    step_with (identifier_run (Pooled (length l))
                 (TreePool.mk (l ++ c0 :: copies) st cap) c0 Hc).
    rewrite (setIdentifierAndRetain_run fresh _ (Pooled (length l)) c0); [| |done].
    + simpl. unfold TreePool.withBuffer. simpl. do 3 f_equal.
      rewrite <- (Nat.add_0_r (length l)). by rewrite alter_app_r.
    + unfold TreePool.node. simpl. rewrite indexOfIdentifier_fresh by done.
      simpl. rewrite Z.eqb_refl. simpl. by rewrite Nat.add_0_r.
Qed.

End clones.

(** X6.  A clone that is destroyed at once leaves the pool exactly as it
    was.  The clone of a failure sentinel only retained the canonical
    sentinel, which the destructor releases; the clone of any other
    node, when the copy fits, is owned by the one handle, and its
    destructor takes every copied record away again. *)
Theorem clone_dropped_leaves_pool
    (pool : TreePool) (h : TreeReference) (pos : nat) (n : TreeNode) :
  wellFormed pool = true →
  TreePool.buffer pool !! pos = Some n →
  TreeNode.identifier n = TreeReference.identifier h →
  Forall (λ s, (0 ≤ TreeNode.identifier s)%Z ∧ (1 ≤ TreeNode.retainCount s)%Z)
    (TreePool.staticNodes pool) →
  (TreeNode.isAllocationFailure n = false →
   (TreePool.usedBytes (TreePool.buffer pool)
      + TreePool.usedBytes (subtreeOf h pool) ≤ TreePool.capacity pool)%Z) →
  (c <- TreeReference.clone h ;; TreeReference.destructor c) pool
  = Ok (tt, pool).
Proof.
  destruct pool as [l st cap]. simpl. intros Hwf Hn Hid Hstatics Hroom.
  destruct (wellFormed_buffer _ _ _ Hwf) as (HN & _).
  destruct (TreeNode.isAllocationFailure n) eqn:Hfail.
  - destruct (clone_sentinel_run h l st cap pos n Hwf Hn Hid Hfail)
      as (k & s & Hs & Hnode & Hclone).
    step_with Hclone.
    assert ((0 ≤ TreeNode.identifier s)%Z ∧ (1 ≤ TreeNode.retainCount s)%Z)
      as [Hids Hrcs].
    { eapply Forall_forall in Hstatics; [exact Hstatics|].
      by eapply list_elem_of_lookup_2. }
    by apply (retain_then_destructor _ (TreePool.mk l st cap) (Static k) s).
  - specialize (Hroom eq_refl). unfold subtreeOf in Hroom.
    change (TreeReference.m_identifier h) with (TreeReference.identifier h) in Hroom.
    rewrite <- Hid, (node_pooled l st cap pos n HN Hn) in Hroom.
    destruct (clone_copy_run h l st cap pos n Hwf Hn Hid Hfail Hroom)
      as (c0 & copies & _ & Hc0 & Hrc0 & Hrcs & Hspan & Hnode & Hclone).
    step_with Hclone.
    rewrite (destructor_run _ _ (Pooled (length l)) (TreeNode.retain c0));
      [| simpl; apply freshIdentifier_nonneg | done].
    unfold Node.release.
    erewrite bind_Ok; [|apply (deref_run _ _ (TreeNode.retain c0));
                        simpl; by apply list_lookup_middle].
    simpl TreePool.buffer. rewrite drop_app_length.
    rewrite (releaseTrees_sole_owner 1 (TreeNode.retain c0 :: copies)).
    + by rewrite take_app_length, app_nil_r.
    + constructor; [simpl; lia | done].
    + by rewrite Hspan.
Qed.

Lemma clone_dropped_leaves_pool_witness :
  (c <- TreeReference.clone (Sample.handle 1) ;; TreeReference.destructor c)
    Sample.nestedFirst = Ok (tt, Sample.nestedFirst)
  ∧ (c <- TreeReference.clone (Sample.handle 2) ;; TreeReference.destructor c)
      Sample.withSentinel = Ok (tt, Sample.withSentinel).
Proof.
  split.
  - apply (clone_dropped_leaves_pool Sample.nestedFirst (Sample.handle 1) 1
             (Sample.inner 1 1 1));
      [reflexivity | reflexivity | reflexivity
      | repeat constructor; done | intros _; vm_compute; discriminate].
  - apply (clone_dropped_leaves_pool Sample.withSentinel (Sample.handle 2) 2
             (Sample.sentinel 2 2));
      [reflexivity | reflexivity | reflexivity
      | repeat constructor; done | discriminate].
Defined.

(** ** Handles on relatives *)

Section relatives.

Implicit Types (l st : list TreeNode) (cap : Z) (n : TreeNode) (pos : nat).

Lemma complete_drop a b l :
  childCountsOk l → (0 ≤ a)%Z → (0 ≤ b)%Z →
  TreePool.complete (a + b) l = true →
  TreePool.complete b (drop (TreePool.skipTrees a l) l) = true.
Proof.
  revert a. induction l as [|n l IH]; intros a Hl Ha Hb Hab.
  - simpl in *. apply Z.leb_le in Hab. apply Z.leb_le. lia.
  - apply Forall_cons in Hl as [Hn Hl].
    destruct (decide (a = 0%Z)) as [->|Hne].
    + by rewrite skipTrees_nonpos by lia.
    + rewrite skipTrees_cons by lia. simpl in Hab |- *.
      destruct (Z.leb_spec (a + b) 0); [lia|]. simpl in Hab.
      apply IH; [done | lia | done |].
      by replace (a - 1 + TreeNode.numberOfChildren n + b)%Z
        with (a + b - 1 + TreeNode.numberOfChildren n)%Z by lia.
Qed.

(** A child index in range designates a record. *)
Lemma child_lookup l pos n (i : Z) :
  childCountsOk l → TreePool.complete 1 (drop pos l) = true →
  l !! pos = Some n →
  (0 ≤ i < TreeNode.numberOfChildren n)%Z →
  is_Some (l !! TreePool.childPos pos (Z.to_nat i) l).
Proof.
  intros Hcc Hc Hn Hi.
  rewrite (drop_S _ _ _ Hn) in Hc. simpl in Hc.
  replace (1 - 1 + TreeNode.numberOfChildren n)%Z
    with (i + (TreeNode.numberOfChildren n - i))%Z in Hc by lia.
  assert (childCountsOk (drop (S pos) l)) as Hcc' by (by apply Forall_drop).
  apply complete_drop in Hc; [| done | lia | lia].
  rewrite childPos_skipTrees, Z2Nat.id by (done || lia).
  rewrite drop_drop in Hc.
  destruct (drop (S pos + TreePool.skipTrees i (drop (S pos) l)) l)
    as [|c rest] eqn:E.
  - simpl in Hc. apply Z.leb_le in Hc. lia.
  - exists c. rewrite <- (Nat.add_0_r (S pos + _)), <- lookup_drop. by rewrite E.
Qed.

(** [treeChildAtIndex] with an index in range: a handle on the record
    where the child starts, which is retained. *)
Lemma treeChildAtIndex_run self l st cap pos n (i : Z) c :
  NoDup (identifiersOf l) →
  l !! pos = Some n →
  TreeNode.identifier n = TreeReference.m_identifier self →
  (0 ≤ i < TreeNode.numberOfChildren n)%Z →
  l !! TreePool.childPos pos (Z.to_nat i) l = Some c →
  TreeReference.treeChildAtIndex self i (TreePool.mk l st cap)
  = Ok (TreeReference.mk (TreeNode.identifier c),
        TreePool.mk
          (alter TreeNode.retain (TreePool.childPos pos (Z.to_nat i) l) l)
          st cap).
Proof.
  intros HN Hn Hid Hi Hc. unfold TreeReference.treeChildAtIndex.
  step_with (nodeD_pooled self l st cap pos n HN Hn Hid).
  step_with (childTreeAtIndex_run l st cap pos n i Hn Hi).
  by apply fromNode_pooled.
Qed.

Lemma node_retained l st cap q nq :
  NoDup (identifiersOf l) → l !! q = Some nq →
  TreePool.node (TreeNode.identifier nq)
    (TreePool.mk (alter TreeNode.retain q l) st cap) = Some (Pooled q).
Proof.
  intros HN Hnq.
  apply (node_pooled (alter TreeNode.retain q l) st cap q (TreeNode.retain nq)).
  - by rewrite identifiersOf_alter.
  - by rewrite list_lookup_alter_eq, Hnq.
Qed.

End relatives.

(** X7.  [parent()] on a node of a well-formed pool.  For a root it
    yields the undefined handle, identifier -1, and touches nothing.  For
    a node that lies under another it yields a handle on that node and
    retains it.  In both cases the handle is defined exactly when there
    is a parent, and destroying it gives back the pool [parent()] was
    called on. *)
Theorem parent_handle_dropped_leaves_pool
    (pool : TreePool) (self : TreeReference) (pos : nat) (n : TreeNode) :
  wellFormed pool = true →
  TreePool.buffer pool !! pos = Some n →
  TreeNode.identifier n = TreeReference.identifier self →
  ∃ p pool1,
    TreeReference.parent self pool = Ok (p, pool1)
    ∧ eval (TreeReference.isDefined p) pool1
      = Ok (bool_decide (is_Some (TreePool.parentPos pos (TreePool.buffer pool))))
    ∧ match TreePool.parentPos pos (TreePool.buffer pool) with
      | None => p = TreeReference.mk (-1) ∧ pool1 = pool
      | Some q =>
          ∃ nq, TreePool.buffer pool !! q = Some nq
                ∧ TreeReference.identifier p = TreeNode.identifier nq
                ∧ eval (TreeReference.nodeRetainCount p) pool1
                  = Ok (TreeNode.retainCount nq + 1)%Z
      end
    ∧ TreeReference.destructor p pool1 = Ok (tt, pool).
Proof.
  destruct pool as [l st cap]. simpl. intros Hwf Hn Hid.
  destruct (wellFormed_buffer _ _ _ Hwf) as (HN & _ & Hrc & _).
  destruct (wellFormed_inv _ _ _ Hwf) as (Hlive & _).
  pose proof (parent_isDefined self l st cap pos n Hwf Hn Hid) as Hdef.
  destruct (TreePool.parentPos pos l) as [q|] eqn:Hq.
  - apply enclosing_Some in Hq as Hq'. destruct Hq' as (Hlt & _).
    assert (pos < length l) as Hpos by (by eapply lookup_lt_Some).
    destruct (lookup_lt_is_Some_2 l q) as [nq Hnq]; [lia|].
    assert (liveRecord nq = true) as Hliveq.
    { eapply Forall_forall in Hlive; [exact Hlive|]. by eapply list_elem_of_lookup_2. }
    apply liveRecord_inv in Hliveq as (Hidq & Hrcq & _).
    pose proof (parent_child self l st cap pos n q nq HN Hn Hid Hq Hnq) as Hparent.
    unfold eval in Hdef. rewrite (bind_Ok _ _ _ _ _ Hparent) in Hdef.
    pose proof (node_pooled l st cap q nq HN Hnq) as Hnode.
    eexists _, _. split; [exact Hparent|]. split; [exact Hdef|]. split.
    + exists nq. split; [done|]. split; [done|]. unfold eval.
      rewrite (nodeRetainCount_run _ _ (Pooled q) (TreeNode.retain nq)); [done | |].
      * by apply node_retained.
      * simpl. by rewrite list_lookup_alter_eq, Hnq.
    + by apply (retain_then_destructor _ (TreePool.mk l st cap) (Pooled q) nq).
  - pose proof (parent_root self l st cap pos n HN Hn Hid Hq) as Hparent.
    unfold eval in Hdef. rewrite (bind_Ok _ _ _ _ _ Hparent) in Hdef.
    eexists _, _. split; [exact Hparent|]. split; [exact Hdef|]. done.
Qed.

Lemma parent_handle_dropped_leaves_pool_witness :
  ∃ p pool1,
    TreeReference.parent (Sample.handle 3) Sample.nested = Ok (p, pool1)
    ∧ TreeReference.identifier p = 2%Z
    ∧ eval (TreeReference.nodeRetainCount p) pool1 = Ok 2%Z
    ∧ TreeReference.destructor p pool1 = Ok (tt, Sample.nested).
Proof.
  destruct (parent_handle_dropped_leaves_pool Sample.nested (Sample.handle 3) 3
              (Sample.leaf 3 1))
    as (p & pool1 & Hparent & _ & Hq & Hdrop); [reflexivity..|].
  destruct Hq as (nq & Hnq & Hid & Hrc). injection Hnq as <-.
  by exists p, pool1.
Defined.

(** X8.  [treeChildAtIndex(i)] on a node of a well-formed pool, with
    [0 <= i < numberOfChildren()]: the call yields a handle on the record
    where the [i]-th child starts and retains that record, and destroying
    the handle gives back the pool the call was made on. *)
Theorem child_handle_dropped_leaves_pool
    (pool : TreePool) (self : TreeReference) (pos : nat) (n : TreeNode) (i : Z) :
  wellFormed pool = true →
  TreePool.buffer pool !! pos = Some n →
  TreeNode.identifier n = TreeReference.identifier self →
  (0 ≤ i < TreeNode.numberOfChildren n)%Z →
  ∃ c pool1 nc,
    TreeReference.treeChildAtIndex self i pool = Ok (c, pool1)
    ∧ TreePool.buffer pool
        !! TreePool.childPos pos (Z.to_nat i) (TreePool.buffer pool) = Some nc
    ∧ TreeReference.identifier c = TreeNode.identifier nc
    ∧ eval (TreeReference.nodeRetainCount c) pool1
      = Ok (TreeNode.retainCount nc + 1)%Z
    ∧ TreeReference.destructor c pool1 = Ok (tt, pool).
Proof.
  destruct pool as [l st cap]. simpl. intros Hwf Hn Hid Hi.
  destruct (wellFormed_buffer _ _ _ Hwf) as (HN & Hcc & _).
  destruct (wellFormed_inv _ _ _ Hwf) as (Hlive & _ & _ & _ & Hcont & _).
  assert (pos < length l) as Hpos by (by eapply lookup_lt_Some).
  destruct (child_lookup l pos n i Hcc (contiguous_inv l pos Hcont Hpos) Hn Hi)
    as [nc Hnc].
  set (pc := TreePool.childPos pos (Z.to_nat i) l) in *.
  assert (liveRecord nc = true) as Hlivec.
  { eapply Forall_forall in Hlive; [exact Hlive|]. by eapply list_elem_of_lookup_2. }
  apply liveRecord_inv in Hlivec as (Hidc & Hrcc & _).
  pose proof (node_pooled l st cap pc nc HN Hnc) as Hnode.
  eexists _, _, nc. split; [by apply (treeChildAtIndex_run self l st cap pos n i nc)|].
  split; [done|]. split; [done|]. split.
  - unfold eval.
    rewrite (nodeRetainCount_run _ _ (Pooled pc) (TreeNode.retain nc)); [done | |].
    + by apply node_retained.
    + simpl. fold pc. by rewrite list_lookup_alter_eq, Hnc.
  - by apply (retain_then_destructor _ (TreePool.mk l st cap) (Pooled pc) nc).
Qed.

Lemma child_handle_dropped_leaves_pool_witness :
  ∃ c pool1,
    TreeReference.treeChildAtIndex (Sample.handle 0) 1 Sample.nested = Ok (c, pool1)
    ∧ TreeReference.identifier c = 2%Z
    ∧ eval (TreeReference.nodeRetainCount c) pool1 = Ok 2%Z
    ∧ TreeReference.destructor c pool1 = Ok (tt, Sample.nested).
Proof.
  destruct (child_handle_dropped_leaves_pool Sample.nested (Sample.handle 0) 0
              (Sample.inner 0 1 2) 1)
    as (c & pool1 & nc & Hchild & Hnc & Hid & Hrc & Hdrop);
    [reflexivity | reflexivity | reflexivity | done |].
  injection Hnc as <-. by exists c, pool1.
Defined.

(** ** Taking a child away *)

Section removing.

Implicit Types (X Y T W : list TreeNode) (st : list TreeNode) (cap : Z)
  (np nc : TreeNode).

Lemma deepLength_at X n T W :
  TreePool.skipTrees 1 (n :: T ++ W) = S (length T) →
  TreePool.deepLength (length X) (X ++ n :: T ++ W) = length (n :: T).
Proof.
  intros Hspan. unfold TreePool.deepLength. by rewrite drop_app_length, Hspan.
Qed.

Lemma skipTrees_head k (f : TreeNode → TreeNode) n l :
  TreeNode.numberOfChildren (f n) = TreeNode.numberOfChildren n →
  TreePool.skipTrees k (f n :: l) = TreePool.skipTrees k (n :: l).
Proof. intros Hf. apply skipTrees_ext. csimpl. by rewrite Hf. Qed.

(** [removeChild] on a node [c] that lies behind the parent [p], as every
    child of [p] does: [c]'s subtree goes to the end of the pool, [c]
    loses an owner and [p] a child.  The handle passed is a copy, made
    and destroyed around the call. *)
Lemma removeChild_from_behind p c X np Y nc T W st cap :
  let l := X ++ np :: Y ++ nc :: T ++ W in
  NoDup (identifiersOf l) →
  TreeNode.identifier np = TreeReference.m_identifier p →
  TreeNode.identifier nc = TreeReference.m_identifier c →
  TreePool.skipTrees 1 (nc :: T ++ W) = S (length T) →
  (2 ≤ TreeNode.retainCount nc)%Z → (0 ≤ TreeNode.identifier nc)%Z →
  TreeReference.byValue c (TreeReference.removeChild p) (TreePool.mk l st cap)
  = Ok (tt, TreePool.mk
              (X ++ TreeNode.decrementNumberOfChildren np :: Y ++ W
               ++ TreeNode.setReferenceCounter (TreeNode.retainCount nc - 1) nc
               :: T) st cap).
Proof.
  intros l HN Hidp Hidc Hspan Hrc Hidnc.
  set (P := X ++ np :: Y).
  assert (l = P ++ nc :: T ++ W) as Hl by (unfold l, P; by simplify_list_eq).
  destruct c as [idc]. simpl in Hidc.
  unfold TreeReference.byValue, TreeReference.copyConstructor, TreeReference.setTo.
  simpl TreeReference.identifier.
  (* the copy *)
  assert (l !! length P = Some nc) as Hnc by (rewrite Hl; by apply list_lookup_middle).
  assert (TreePool.node idc (TreePool.mk l st cap) = Some (Pooled (length P)))
    as Hnodec by (rewrite <- Hidc; by apply node_pooled).
  step_with (setIdentifierAndRetain_run idc (TreePool.mk l st cap)
               (Pooled (length P)) nc Hnodec Hnc).
  simpl TreePool.update. unfold TreePool.withBuffer. simpl.
  rewrite Hl, alter_at_length. set (n1 := TreeNode.retain nc).
  assert (∀ L, identifiersOf L ≡ₚ identifiersOf l → NoDup (identifiersOf L)) as Hsame
    by (intros L HL; by rewrite HL).
  assert (NoDup (identifiersOf (P ++ n1 :: T ++ W))) as HN1.
  { apply Hsame. by rewrite Hl, !identifiersOf_app. }
  set (Q := X ++ TreeNode.decrementNumberOfChildren np :: Y ++ W).
  assert (TreeReference.removeChild p (TreeReference.mk idc)
            (TreePool.mk (P ++ n1 :: T ++ W) st cap)
          = Ok (tt, TreePool.mk (Q ++ nc :: T) st cap)) as Hremove.
  { (* the move to the end *)
    unfold TreeReference.removeChild.
    step_with (nodeD_pooled (TreeReference.mk idc) (P ++ n1 :: T ++ W) st cap
                 (length P) n1 HN1 (list_lookup_middle _ _ _ _ eq_refl) Hidc).
    step_with (last_run (P ++ n1 :: T ++ W) st cap).
    step_with (move_run (length P) (length (P ++ n1 :: T ++ W))
                 (P ++ n1 :: T ++ W) st cap).
    rewrite deepLength_at
      by (unfold n1; by rewrite (skipTrees_head 1 TreeNode.retain nc)).
    replace (length (P ++ n1 :: T ++ W))
      with (length P + length (n1 :: T) + length W)
      by (rewrite !length_app; simpl; rewrite length_app; lia).
    replace (P ++ n1 :: T ++ W) with (P ++ (n1 :: T) ++ W ++ [])
      by (by simplify_list_eq).
    rewrite relocate_right, app_nil_r.
    assert (P ++ W ++ n1 :: T = (P ++ W) ++ n1 :: T) as Hlb by (by simplify_list_eq).
    assert (NoDup (identifiersOf ((P ++ W) ++ n1 :: T))) as HN2.
    { apply Hsame. rewrite Hl, !identifiersOf_app. unfold identifiersOf. csimpl.
      rewrite !fmap_app. solve_Permutation. }
    (* the release *)
    rewrite Hlb.
    step_with (nodeD_pooled (TreeReference.mk idc) ((P ++ W) ++ n1 :: T) st cap
                 (length (P ++ W)) n1 HN2 (list_lookup_middle _ _ _ _ eq_refl) Hidc).
    rewrite (bind_Ok _ _ _ tt (TreePool.mk ((P ++ W) ++ nc :: T) st cap)).
    2: { rewrite (release_run (Pooled (length (P ++ W))) _ n1);
           [| simpl; by apply list_lookup_middle | simpl; lia].
         simpl. unfold TreePool.withBuffer. simpl. rewrite alter_at_length.
         pose proof (release_after_retain nc) as E. simpl in E.
         unfold n1. by rewrite E. }
    cbv beta.
    (* one child less *)
    assert ((P ++ W) ++ nc :: T = X ++ np :: Y ++ W ++ nc :: T) as Hlc
      by (unfold P; by simplify_list_eq).
    assert (NoDup (identifiersOf (X ++ np :: Y ++ W ++ nc :: T))) as HN3.
    { apply Hsame. unfold l, identifiersOf. rewrite !fmap_app. csimpl.
      rewrite !fmap_app. csimpl. rewrite !fmap_app. solve_Permutation. }
    rewrite Hlc.
    step_with (nodeD_pooled p (X ++ np :: Y ++ W ++ nc :: T) st cap
                 (length X) np HN3 (list_lookup_middle _ _ _ _ eq_refl) Hidp).
    unfold Node.decrementNumberOfChildren.
    rewrite (update_pooled TreeNode.decrementNumberOfChildren
               (X ++ np :: Y ++ W ++ nc :: T) st cap (length X) np
               (list_lookup_middle _ _ _ _ eq_refl)).
    rewrite alter_at_length. unfold Q. by simplify_list_eq. }
  step_with Hremove.
  (* the end of the copy *)
  assert (NoDup (identifiersOf (Q ++ nc :: T))) as HN4.
  { unfold Q. apply Hsame. unfold l, identifiersOf. rewrite !fmap_app. csimpl.
    rewrite !fmap_app. csimpl. rewrite !fmap_app. solve_Permutation. }
  assert (TreePool.node idc (TreePool.mk (Q ++ nc :: T) st cap)
          = Some (Pooled (length Q))) as Hnodec4.
  { rewrite <- Hidc. apply node_pooled; [done | by apply list_lookup_middle]. }
  rewrite (bind_Ok _ _ _ tt
             (TreePool.mk
                (Q ++ TreeNode.setReferenceCounter (TreeNode.retainCount nc - 1) nc
                 :: T) st cap)).
  - unfold ret, Q. by simplify_list_eq.
  - rewrite (destructor_run (TreeReference.mk idc) _ (Pooled (length Q)) nc);
      [| simpl; lia | done].
    rewrite (release_run (Pooled (length Q)) _ nc);
      [| simpl; by apply list_lookup_middle | lia].
    simpl. unfold TreePool.withBuffer. simpl. by rewrite alter_at_length.
Qed.

End removing.

Section detaching.

Implicit Types (l st : list TreeNode) (cap : Z) (np nc : TreeNode).

(** A node and a node behind it, with the subtree of the latter. *)
Lemma layout_two l pp np pc nc :
  childCountsOk l → l !! pp = Some np → l !! pc = Some nc → pp < pc →
  ∃ X Y T W,
    l = X ++ np :: Y ++ nc :: T ++ W
    ∧ length X = pp ∧ length (X ++ np :: Y) = pc
    ∧ length (nc :: T) = TreePool.deepLength pc l
    ∧ TreePool.skipTrees 1 (nc :: T ++ W) = S (length T).
Proof.
  intros Hcc Hnp Hnc Hlt.
  destruct (take_skip_decompose l pc nc Hnc Hcc) as (Hl & HA & Hspan).
  cbv zeta in Hl, HA, Hspan.
  set (A := take pc l) in *.
  set (B := take (TreePool.skipTrees (TreeNode.numberOfChildren nc) (drop (S pc) l))
              (drop (S pc) l)) in *.
  set (C := drop (TreePool.skipTrees (TreeNode.numberOfChildren nc) (drop (S pc) l))
              (drop (S pc) l)) in *.
  assert (A !! pp = Some np) as HAp
    by (unfold A; rewrite lookup_take_lt by lia; done).
  clearbody A B C.
  exists (take pp A), (drop (S pp) A), B, C.
  assert (take pp A ++ np :: drop (S pp) A = A) as HA' by (by apply take_drop_middle).
  split.
  { transitivity (A ++ nc :: B ++ C); [exact Hl|].
    rewrite <- HA' at 1. by simplify_list_eq. }
  split; [rewrite length_take; lia|].
  split; [by rewrite HA'|]. split; [|done].
  unfold TreePool.deepLength. rewrite Hl, <- HA, drop_app_length.
  by rewrite Hspan.
Qed.

Lemma decrement_increment np :
  TreeNode.decrementNumberOfChildren (TreeNode.incrementNumberOfChildren np) = np.
Proof.
  destruct np. unfold TreeNode.decrementNumberOfChildren,
    TreeNode.incrementNumberOfChildren, TreeNode.setNumberOfChildren. simpl.
  f_equal. lia.
Qed.

End detaching.

(** X9.  [removeChild(c)] on a parent [p] of a well-formed pool, for a
    node [c] that lies behind [p] in the pool, as every child of [p]
    does, and that has an owner besides its parent: the call runs to the
    end, [p] has one child less, [c] one owner less, and [c]'s subtree
    stands at the end of the pool while every other record keeps its
    place in the order.  The call does not check that [c] is a child of
    [p]. *)
Theorem removeChild_moves_child_to_end
    (pool : TreePool) (p c : TreeReference) (pp pc : nat) (np nc : TreeNode) :
  wellFormed pool = true →
  TreePool.buffer pool !! pp = Some np →
  TreeNode.identifier np = TreeReference.identifier p →
  TreePool.buffer pool !! pc = Some nc →
  TreeNode.identifier nc = TreeReference.identifier c →
  pp < pc →
  (2 ≤ TreeNode.retainCount nc)%Z →
  let l := TreePool.buffer pool in
  ∃ pool',
    TreeReference.byValue c (TreeReference.removeChild p) pool = Ok (tt, pool')
    ∧ eval (TreeReference.numberOfChildren p) pool'
      = Ok (TreeNode.numberOfChildren np - 1)%Z
    ∧ eval (TreeReference.nodeRetainCount c) pool'
      = Ok (TreeNode.retainCount nc - 1)%Z
    ∧ identifiersOf (TreePool.buffer pool')
      = identifiersOf
          (take pc l ++ drop (pc + TreePool.deepLength pc l) l
           ++ take (TreePool.deepLength pc l) (drop pc l)).
Proof.
  destruct pool as [l st cap]. simpl. intros Hwf Hnp Hidp Hnc Hidc Hlt Hrc.
  destruct (wellFormed_buffer _ _ _ Hwf) as (HN & Hcc & _).
  destruct (wellFormed_inv _ _ _ Hwf) as (Hlive & _).
  assert (liveRecord nc = true) as Hlivec.
  { eapply Forall_forall in Hlive; [exact Hlive|]. by eapply list_elem_of_lookup_2. }
  apply liveRecord_inv in Hlivec as (Hidnc & _).
  destruct (layout_two l pp np pc nc Hcc Hnp Hnc Hlt)
    as (X & Y & T & W & -> & HX & HP & Hlen & Hspan).
  set (lf := X ++ TreeNode.decrementNumberOfChildren np :: Y ++ W
             ++ TreeNode.setReferenceCounter (TreeNode.retainCount nc - 1) nc :: T).
  assert (NoDup (identifiersOf lf)) as HNf.
  { assert (identifiersOf lf ≡ₚ identifiersOf (X ++ np :: Y ++ nc :: T ++ W))
      as -> ; [|done].
    unfold lf, identifiersOf. rewrite !fmap_app. csimpl.
    rewrite !fmap_app. csimpl. rewrite !fmap_app. solve_Permutation. }
  exists (TreePool.mk lf st cap). split; [by apply removeChild_from_behind|].
  split; [|split].
  - unfold eval.
    rewrite (numberOfChildren_recordOf p _ (TreeNode.decrementNumberOfChildren np));
      [done|].
    apply recordOf_tracked; [done | | done].
    unfold lf. rewrite elem_of_app, elem_of_cons. auto.
  - unfold eval.
    rewrite (nodeRetainCount_recordOf c _
               (TreeNode.setReferenceCounter (TreeNode.retainCount nc - 1) nc));
      [done|].
    apply recordOf_tracked; [done | | done].
    unfold lf. rewrite elem_of_app, elem_of_cons, !elem_of_app, elem_of_cons. auto 10.
  - simpl. rewrite <- Hlen, <- HP.
    replace (X ++ np :: Y ++ nc :: T ++ W) with ((X ++ np :: Y) ++ (nc :: T) ++ W)
      by (by simplify_list_eq).
    rewrite take_app_length, drop_app_length, take_app_length, drop_app3.
    unfold lf, identifiersOf. rewrite !fmap_app. csimpl. rewrite !fmap_app. csimpl.
    by simplify_list_eq.
Qed.

Lemma removeChild_moves_child_to_end_witness :
  ∃ pool',
    TreeReference.byValue (Sample.handle 2)
      (TreeReference.removeChild (Sample.handle 0)) Sample.withSentinel
    = Ok (tt, pool')
    ∧ eval (TreeReference.numberOfChildren (Sample.handle 0)) pool' = Ok 1%Z
    ∧ eval (TreeReference.nodeRetainCount (Sample.handle 2)) pool' = Ok 1%Z
    ∧ identifiersOf (TreePool.buffer pool') = [0; 1; 3; 2]%Z.
Proof.
  apply (removeChild_moves_child_to_end Sample.withSentinel
           (Sample.handle 0) (Sample.handle 2) 0 2
           (Sample.inner 0 1 2) (Sample.sentinel 2 2));
    [reflexivity | reflexivity | reflexivity | reflexivity | reflexivity
    | lia | simpl; lia].
Defined.

(** X10.  Adding the last tree of a well-formed pool as a child of a node
    that is not a sentinel, at any index in range, and removing it again
    gives back the pool exactly as it was: [removeChild] undoes
    [addChildAtIndex]. *)
Theorem addChildAtIndex_then_removeChild
    (pool : TreePool) (p c : TreeReference) (pp pc : nat) (np nc : TreeNode)
    (i : Z) :
  wellFormed pool = true →
  TreePool.buffer pool !! pp = Some np →
  TreeNode.identifier np = TreeReference.identifier p →
  TreePool.buffer pool !! pc = Some nc →
  TreeNode.identifier nc = TreeReference.identifier c →
  TreeNode.isAllocationFailure np = false →
  (0 ≤ i ≤ TreeNode.numberOfChildren np)%Z →
  TreePool.nextSiblingPos pp (TreePool.buffer pool) ≤ pc →
  TreePool.nextSiblingPos pc (TreePool.buffer pool)
  = length (TreePool.buffer pool) →
  (TreeReference.byValue c (λ t, TreeReference.addChildAtIndex p t i) ;;
   TreeReference.byValue c (TreeReference.removeChild p)) pool
  = Ok (tt, pool).
Proof.
  destruct pool as [l st cap]. simpl.
  intros Hwf Hnp Hidp Hnc Hidc Hfail Hi Hbehind Hlast.
  destruct (wellFormed_buffer _ _ _ Hwf) as (HN & Hcc & _).
  destruct (wellFormed_inv _ _ _ Hwf) as (Hlive & _ & _ & _ & Hcont & _).
  assert (liveRecord nc = true) as Hlivec.
  { eapply Forall_forall in Hlive; [exact Hlive|]. by eapply list_elem_of_lookup_2. }
  apply liveRecord_inv in Hlivec as (Hidnc & Hrcnc & _).
  assert (pc < length l) as Hpc by (by eapply lookup_lt_Some).
  pose proof (contiguous_inv l pc Hcont Hpc) as Hcomplete.
  destruct (layout_behind l pp np pc nc i Hcc Hcont Hnp Hnc Hi Hbehind)
    as (X & K & Y & T & W & -> & HX & HP & HcK & HsK & Hspan).
  assert (W = []) as ->.
  { unfold TreePool.nextSiblingPos, TreePool.deepLength in Hlast.
    replace (X ++ np :: K ++ Y ++ nc :: T ++ W)
      with ((X ++ np :: K ++ Y) ++ nc :: T ++ W) in Hlast by (by simplify_list_eq).
    rewrite <- HP, drop_app_length, Hspan in Hlast.
    apply nil_length_inv. repeat (rewrite length_app in Hlast; simpl in Hlast).
    lia. }
  replace (X ++ np :: K ++ Y ++ nc :: T ++ [])
    with ((X ++ np :: K ++ Y) ++ nc :: T) in Hcomplete by (by simplify_list_eq).
  rewrite <- HP, drop_app_length in Hcomplete.
  step_with (addChild_from_behind p c i X np K Y nc T [] st cap HN Hcc
               Hidp Hidc Hfail Hi HcK HsK Hspan ltac:(lia) Hidnc).
  rewrite app_nil_r.
  rewrite (removeChild_from_behind p c X (TreeNode.incrementNumberOfChildren np)
             K (TreeNode.retain nc) T Y st cap).
  - rewrite decrement_increment.
    pose proof (release_after_retain nc) as E. simpl in E |- *. rewrite E.
    by rewrite app_nil_r.
  - assert (identifiersOf
              (X ++ TreeNode.incrementNumberOfChildren np :: K
               ++ TreeNode.retain nc :: T ++ Y)
            ≡ₚ identifiersOf (X ++ np :: K ++ Y ++ nc :: T ++ [])) as -> ; [|done].
    unfold identifiersOf. rewrite !fmap_app. csimpl.
    rewrite !fmap_app. csimpl. rewrite !fmap_app. solve_Permutation.
  - done.
  - done.
  - rewrite (skipTrees_head 1 TreeNode.retain nc) by done.
    change (nc :: T ++ Y) with ((nc :: T) ++ Y).
    rewrite skipTrees_app by done.
    by rewrite app_nil_r in Hspan.
  - simpl. lia.
  - done.
Qed.

Lemma addChildAtIndex_then_removeChild_witness :
  (TreeReference.byValue (Sample.handle 3)
     (λ t, TreeReference.addChildAtIndex (Sample.handle 0) t 1) ;;
   TreeReference.byValue (Sample.handle 3)
     (TreeReference.removeChild (Sample.handle 0))) Sample.withSentinel
  = Ok (tt, Sample.withSentinel).
Proof.
  apply (addChildAtIndex_then_removeChild Sample.withSentinel
           (Sample.handle 0) (Sample.handle 3) 0 3
           (Sample.inner 0 1 2) (Sample.leaf 3 1) 1);
    [reflexivity | reflexivity | reflexivity | reflexivity | reflexivity
    | reflexivity | done | vm_compute; lia | reflexivity].
Defined.

(** ** Runs of sibling subtrees *)

Section siblings.

Implicit Types (l A B K : list TreeNode) (n : TreeNode) (a b k : Z).

(** Two runs of whole subtrees, one after the other, make one run. *)
Lemma complete_app a b A B :
  (0 ≤ a)%Z → childCountsOk A →
  TreePool.complete a A = true → TreePool.skipTrees a A = length A →
  TreePool.complete b B = true →
  TreePool.complete (a + b) (A ++ B) = true.
Proof.
  revert a. induction A as [|n A IH]; intros a Ha Hcc HcA HsA HcB.
  - simpl in HcA. apply Z.leb_le in HcA. by replace (a + b)%Z with b by lia.
  - apply Forall_cons in Hcc as [Hn Hcc].
    destruct (decide (0 < a)%Z) as [Hpos|Hnpos].
    + rewrite skipTrees_cons in HsA by done. simpl in HcA, HsA |- *.
      destruct (Z.leb_spec a 0); [lia|]. simpl in HcA.
      replace (a + b - 1 + TreeNode.numberOfChildren n)%Z
        with ((a - 1 + TreeNode.numberOfChildren n) + b)%Z by lia.
      rewrite IH; [apply orb_true_r | lia | done | done | lia | done].
    + rewrite skipTrees_nonpos in HsA by lia. done.
Qed.

Lemma skipTrees_two a b A B :
  (0 ≤ a)%Z → (0 ≤ b)%Z → childCountsOk (A ++ B) →
  TreePool.complete a A = true → TreePool.skipTrees a A = length A →
  TreePool.skipTrees (a + b) (A ++ B) = length A + TreePool.skipTrees b B.
Proof.
  intros Ha Hb Hcc HcA HsA.
  rewrite skipTrees_add by done.
  by rewrite skipTrees_app, HsA, drop_app_length by done.
Qed.

(** A run of whole subtrees splits at any number of them. *)
Lemma subtrees_split a b l :
  childCountsOk l → (0 ≤ a)%Z → (0 ≤ b)%Z →
  TreePool.complete (a + b) l = true →
  ∃ A B, l = A ++ B
         ∧ TreePool.complete a A = true ∧ TreePool.skipTrees a A = length A
         ∧ TreePool.complete b B = true.
Proof.
  intros Hcc Ha Hb Hab.
  assert (TreePool.complete a l = true) as Hal
    by (by apply (complete_mono a (a + b)); [| lia |]).
  exists (take (TreePool.skipTrees a l) l), (drop (TreePool.skipTrees a l) l).
  split; [by rewrite take_drop|]. split; [by apply complete_take|].
  split; [|by apply complete_drop].
  rewrite skipTrees_take by done. rewrite length_take.
  pose proof (skipTrees_le a l). lia.
Qed.

(** One whole subtree is a record followed by its descendants. *)
Lemma subtree_head A :
  TreePool.complete 1 A = true →
  ∃ n T, A = n :: T.
Proof. destruct A as [|n T]; [done | eauto]. Qed.

Lemma childless_alone n T :
  TreeNode.numberOfChildren n = 0%Z →
  TreePool.skipTrees 1 (n :: T) = length (n :: T) → T = [].
Proof.
  intros Hn. rewrite skipTrees_cons by lia. rewrite skipTrees_nonpos by lia.
  simpl. intros H. apply nil_length_inv. lia.
Qed.

End siblings.

(** ** Swapping with a childless later child *)

(** The identifiers of two lists built from the same pieces. *)
Ltac same_identifiers :=
  unfold identifiersOf; repeat (rewrite ?fmap_app; csimpl); solve_Permutation.

Section swapping.

Implicit Types (X Ta R : list TreeNode) (st : list TreeNode) (cap : Z)
  (np a b : TreeNode).

Lemma complete_head k (f : TreeNode → TreeNode) n l :
  TreeNode.numberOfChildren (f n) = TreeNode.numberOfChildren n →
  TreePool.complete k (f n :: l) = TreePool.complete k (n :: l).
Proof. intros Hf. simpl. by rewrite Hf. Qed.

(** [swapChildren(i, j)] with [i < j] when the [j]-th child has no
    children: the two subtrees change places and nothing else moves. *)
Lemma swapChildren_later_childless self (i j : Z) X np (K1 : list TreeNode)
    a Ta (K2 : list TreeNode) b R st cap :
  let l := X ++ np :: K1 ++ a :: Ta ++ K2 ++ b :: R in
  NoDup (identifiersOf l) → childCountsOk l →
  TreeNode.identifier np = TreeReference.m_identifier self →
  (0 ≤ i < j)%Z → (j < TreeNode.numberOfChildren np)%Z →
  TreePool.complete i K1 = true → TreePool.skipTrees i K1 = length K1 →
  TreePool.complete 1 (a :: Ta) = true →
  TreePool.skipTrees 1 (a :: Ta) = S (length Ta) →
  TreePool.complete (j - i - 1) K2 = true →
  TreePool.skipTrees (j - i - 1) K2 = length K2 →
  TreeNode.numberOfChildren b = 0%Z →
  (1 ≤ TreeNode.retainCount a)%Z → (1 ≤ TreeNode.retainCount b)%Z →
  (0 ≤ TreeNode.identifier a)%Z → (0 ≤ TreeNode.identifier b)%Z →
  TreeReference.swapChildren self i j (TreePool.mk l st cap)
  = Ok (tt, TreePool.mk (X ++ np :: K1 ++ b :: K2 ++ a :: Ta ++ R) st cap).
Proof.
  intros l HN Hcc Hid Hij Hj HcK1 HsK1 HcA HsA HcK2 HsK2 Hb Hrca Hrcb Hida Hidb.
  set (P := X ++ np :: K1).
  set (a' := TreeNode.retain a). set (b' := TreeNode.retain b).
  assert (∀ L, identifiersOf L ≡ₚ identifiersOf l → NoDup (identifiersOf L)) as Hsame
    by (intros L HL; by rewrite HL).
  assert (l = P ++ a :: Ta ++ K2 ++ b :: R) as Hl
    by (unfold l, P; by simplify_list_eq).
  assert (l !! length X = Some np) as Hnp by (by apply list_lookup_middle).
  assert (childCountsOk (K1 ++ a :: Ta ++ K2 ++ b :: R)) as Hcc1.
  { unfold l in Hcc. apply Forall_app in Hcc as [_ Hcc].
    by apply Forall_cons in Hcc as [_ Hcc]. }
  assert (childCountsOk ((a :: Ta) ++ K2 ++ b :: R)) as Hcc2
    by (by apply Forall_app in Hcc1 as [_ Hcc1]).
  (* where the two children start *)
  assert (TreePool.childPos (length X) (Z.to_nat i) l = length P) as Hpa.
  { rewrite childPos_skipTrees by done. rewrite Z2Nat.id by lia.
    unfold l. rewrite drop_S_middle, skipTrees_app by done.
    unfold P. rewrite length_app. simpl. lia. }
  assert (TreePool.childPos (length X) (Z.to_nat j) l
          = length (P ++ a :: Ta ++ K2)) as Hpb.
  { rewrite childPos_skipTrees by done. rewrite Z2Nat.id by lia.
    unfold l. rewrite drop_S_middle.
    replace j with (i + (1 + (j - i - 1)))%Z at 1 by lia.
    rewrite skipTrees_two by (done || lia).
    change (a :: Ta ++ K2 ++ b :: R) with ((a :: Ta) ++ K2 ++ b :: R).
    rewrite skipTrees_two by (done || lia).
    rewrite skipTrees_app by done. rewrite HsK2.
    unfold P. rewrite !length_app. simpl. rewrite !length_app. simpl. lia. }
  (* the checks *)
  assert (recordOf self (TreePool.mk l st cap) = Some np) as Hrec
    by (by apply (recordOf_pooled self l st cap (length X))).
  rewrite (swapChildren_checked self i j _ _ (numberOfChildren_recordOf _ _ _ Hrec)).
  destruct (Z.geb_spec i 0); [|lia].
  destruct (Z.ltb_spec i (TreeNode.numberOfChildren np)); [|lia].
  destruct (Z.geb_spec j 0); [|lia].
  destruct (Z.ltb_spec j (TreeNode.numberOfChildren np)); [|lia].
  destruct (Z.eqb_spec i j); [lia|]. simpl.
  assert (TreeReference.min i j = i) as ->
    by (unfold TreeReference.min; destruct (Z.ltb_spec i j); lia).
  assert (TreeReference.max i j = j) as ->
    by (unfold TreeReference.max; rewrite Z.gtb_ltb;
        destruct (Z.ltb_spec j i); lia).
  (* the handle on the earlier child *)
  assert (l !! length P = Some a) as Ha by (rewrite Hl; by apply list_lookup_middle).
  rewrite (bind_Ok _ _ _ (TreeReference.mk (TreeNode.identifier a))
             (TreePool.mk (P ++ a' :: Ta ++ K2 ++ b :: R) st cap)).
  2: { assert (0 ≤ i < TreeNode.numberOfChildren np)%Z as Hi by lia.
       rewrite <- Hpa in Ha.
       rewrite (treeChildAtIndex_run self l st cap (length X) np i a HN Hnp Hid Hi Ha).
       by rewrite Hpa, Hl, alter_at_length. }
  set (l1 := P ++ a' :: Ta ++ K2 ++ b :: R).
  assert (NoDup (identifiersOf l1)) as HN1.
  { apply Hsame. rewrite Hl. unfold l1. same_identifiers. }
  assert (TreeNode.numberOfChildren <$> l1 = TreeNode.numberOfChildren <$> l) as Hnc1.
  { rewrite Hl. unfold l1. by rewrite !fmap_app. }
  (* the handle on the later child *)
  set (Q := P ++ a' :: Ta ++ K2).
  assert (l1 = Q ++ b :: R) as Hl1 by (unfold l1, Q; by simplify_list_eq).
  assert (length Q = length (P ++ a :: Ta ++ K2)) as HQ.
  { unfold Q. rewrite !length_app. simpl. by rewrite !length_app. }
  rewrite (bind_Ok _ _ _ (TreeReference.mk (TreeNode.identifier b))
             (TreePool.mk (Q ++ b' :: R) st cap)).
  2: { assert (TreePool.childPos (length X) (Z.to_nat j) l1 = length Q) as Hpb1
         by (by rewrite (childPos_ext l1 l _ _ Hnc1), Hpb).
       assert (0 ≤ j < TreeNode.numberOfChildren np)%Z as Hj' by lia.
       assert (l1 !! length X = Some np) as Hnp1.
       { unfold l1, P. rewrite <- (assoc_L (++)). by apply list_lookup_middle. }
       assert (l1 !! TreePool.childPos (length X) (Z.to_nat j) l1 = Some b) as Hb1.
       { rewrite Hpb1, Hl1. by apply list_lookup_middle. }
       rewrite (treeChildAtIndex_run self l1 st cap (length X) np j b
                  HN1 Hnp1 Hid Hj' Hb1).
       by rewrite Hpb1, Hl1, alter_at_length. }
  set (l2 := Q ++ b' :: R).
  assert (l2 = P ++ (a' :: Ta) ++ (K2 ++ [b']) ++ R) as Hl2
    by (unfold l2, Q; by simplify_list_eq).
  assert (NoDup (identifiersOf l2)) as HN2
    by (apply Hsame; rewrite Hl, Hl2; same_identifiers).
  (* the first move *)
  step_with (nodeD_pooled (TreeReference.mk (TreeNode.identifier a)) l2 st cap
               (length P) a' HN2
               ltac:(rewrite Hl2; by apply list_lookup_middle) eq_refl).
  step_with (nodeD_pooled (TreeReference.mk (TreeNode.identifier b)) l2 st cap
               (length Q) b' HN2 (list_lookup_middle _ _ _ _ eq_refl) eq_refl).
  step_with (next_run l2 st cap (length Q) b' (list_lookup_middle _ _ _ _ eq_refl)).
  step_with (move_run (length P) (S (length Q)) l2 st cap).
  assert (TreePool.deepLength (length P) l2 = length (a' :: Ta)) as ->.
  { unfold TreePool.deepLength. rewrite Hl2, drop_app_length.
    rewrite skipTrees_app by (by rewrite (complete_head 1 TreeNode.retain a)).
    by rewrite (skipTrees_head 1 TreeNode.retain a), HsA. }
  replace (S (length Q))
    with (length P + length (a' :: Ta) + length (K2 ++ [b']))
    by (unfold Q; rewrite !length_app; simpl; rewrite !length_app; simpl; lia).
  rewrite Hl2, relocate_right.
  set (l3 := P ++ (K2 ++ [b']) ++ (a' :: Ta) ++ R).
  assert (l3 = (P ++ K2) ++ b' :: a' :: Ta ++ R) as Hl3
    by (unfold l3; by simplify_list_eq).
  assert (NoDup (identifiersOf l3)) as HN3
    by (apply Hsame; rewrite Hl; unfold l3; same_identifiers).
  (* the second move *)
  step_with (nodeD_pooled (TreeReference.mk (TreeNode.identifier b)) l3 st cap
               (length (P ++ K2)) b' HN3
               ltac:(rewrite Hl3; by apply list_lookup_middle) eq_refl).
  step_with (move_run (length (P ++ K2)) (length P) l3 st cap).
  assert (TreePool.deepLength (length (P ++ K2)) l3 = length [b']) as ->.
  { unfold TreePool.deepLength. rewrite Hl3, drop_app_length.
    rewrite skipTrees_cons by lia. rewrite skipTrees_nonpos; [done|].
    unfold b'. simpl. lia. }
  rewrite length_app.
  replace l3 with (P ++ K2 ++ [b'] ++ a' :: Ta ++ R)
    by (unfold l3; by simplify_list_eq).
  rewrite relocate_left.
  set (l4 := P ++ [b'] ++ K2 ++ a' :: Ta ++ R).
  assert (NoDup (identifiersOf l4)) as HN4
    by (apply Hsame; rewrite Hl; unfold l4; same_identifiers).
  (* the two handles die *)
  rewrite (bind_Ok _ _ _ tt (TreePool.mk (P ++ b :: K2 ++ a' :: Ta ++ R) st cap)).
  2: { rewrite (destructor_run _ _ (Pooled (length P)) b'); [|done|].
       - rewrite (release_run (Pooled (length P)) _ b');
           [| by apply list_lookup_middle | simpl; lia].
         simpl. unfold TreePool.withBuffer. simpl.
         unfold l4. simpl. rewrite alter_at_length.
         pose proof (release_after_retain b) as E. simpl in E. unfold b'.
         by rewrite E.
       - apply (node_pooled l4 st cap (length P) b' HN4).
         by apply list_lookup_middle. }
  cbv beta.
  set (l5 := P ++ b :: K2 ++ a' :: Ta ++ R).
  assert (l5 = (P ++ b :: K2) ++ a' :: Ta ++ R) as Hl5
    by (unfold l5; by simplify_list_eq).
  assert (NoDup (identifiersOf l5)) as HN5
    by (apply Hsame; rewrite Hl; unfold l5; same_identifiers).
  rewrite (destructor_run _ _ (Pooled (length (P ++ b :: K2))) a'); [|done|].
  - rewrite (release_run (Pooled (length (P ++ b :: K2))) _ a');
      [| simpl; rewrite Hl5; by apply list_lookup_middle | simpl; lia].
    simpl. unfold TreePool.withBuffer. simpl.
    rewrite Hl5, alter_at_length.
    pose proof (release_after_retain a) as E. simpl in E. unfold a'.
    rewrite E. unfold P. by simplify_list_eq.
  - apply (node_pooled l5 st cap (length (P ++ b :: K2)) a' HN5).
    rewrite Hl5. by apply list_lookup_middle.
Qed.

End swapping.

Section two_children.

Implicit Types (l X Ta Tb R : list TreeNode) (np a b : TreeNode).

Lemma subtrees_app (m k : Z) (A B : list TreeNode) :
  (0 ≤ m)%Z → (0 ≤ k)%Z → childCountsOk (A ++ B) →
  TreePool.complete m A = true → TreePool.skipTrees m A = length A →
  TreePool.complete k B = true → TreePool.skipTrees k B = length B →
  TreePool.complete (m + k) (A ++ B) = true
  ∧ TreePool.skipTrees (m + k) (A ++ B) = length (A ++ B).
Proof.
  intros Hm Hk Hcc HcA HsA HcB HsB. split.
  - apply complete_app; try done. by apply Forall_app in Hcc as [? _].
  - rewrite skipTrees_two, HsB, length_app by done. done.
Qed.

Lemma subtree_split (k : Z) l :
  childCountsOk l → (0 ≤ k)%Z →
  TreePool.complete (1 + k) l = true →
  ∃ n T B, l = n :: T ++ B
           ∧ TreePool.complete 1 (n :: T) = true
           ∧ TreePool.skipTrees 1 (n :: T) = S (length T)
           ∧ TreePool.complete k B = true.
Proof.
  intros Hcc Hk Hl.
  destruct (subtrees_split 1 k l Hcc) as (A & B & -> & HcA & HsA & HcB);
    [lia | done | done |].
  destruct (subtree_head A HcA) as (n & T & ->).
  by exists n, T, B.
Qed.

(** The children [i < j] of the node at [pp], each with its subtree, and
    what lies around them. *)
Lemma children_two l pp np (i j : Z) :
  childCountsOk l → TreePool.complete 1 (drop pp l) = true →
  l !! pp = Some np →
  (0 ≤ i < j)%Z → (j < TreeNode.numberOfChildren np)%Z →
  ∃ X (K1 : list TreeNode) a Ta (K2 : list TreeNode) b Tb R,
    l = X ++ np :: K1 ++ a :: Ta ++ K2 ++ b :: Tb ++ R
    ∧ length X = pp
    ∧ TreePool.complete i K1 = true ∧ TreePool.skipTrees i K1 = length K1
    ∧ TreePool.complete 1 (a :: Ta) = true
    ∧ TreePool.skipTrees 1 (a :: Ta) = S (length Ta)
    ∧ TreePool.complete (j - i - 1) K2 = true
    ∧ TreePool.skipTrees (j - i - 1) K2 = length K2
    ∧ TreePool.complete 1 (b :: Tb) = true
    ∧ TreePool.skipTrees 1 (b :: Tb) = S (length Tb)
    ∧ TreePool.childPos pp (Z.to_nat i) l = length (X ++ np :: K1)
    ∧ TreePool.childPos pp (Z.to_nat j) l
      = length (X ++ np :: K1 ++ a :: Ta ++ K2).
Proof.
  intros Hcc Hc Hnp Hij Hj.
  assert (pp < length l) as Hpp by (by eapply lookup_lt_Some).
  rewrite (drop_S _ _ _ Hnp) in Hc. simpl in Hc.
  assert (childCountsOk (drop (S pp) l)) as Hcc0 by (by apply Forall_drop).
  set (r := (TreeNode.numberOfChildren np - j - 1)%Z).
  replace (1 - 1 + TreeNode.numberOfChildren np)%Z
    with (i + (1 + ((j - i - 1) + (1 + r))))%Z in Hc by (unfold r; lia).
  assert (0 ≤ r)%Z as Hr by (unfold r; lia).
  destruct (subtrees_split i (1 + ((j - i - 1) + (1 + r))) _ Hcc0)
    as (K1 & L1 & HL0 & HcK1 & HsK1 & Hc1); [lia | lia | done |].
  rewrite HL0 in Hcc0. apply Forall_app in Hcc0 as [HccK1 Hcc1].
  destruct (subtree_split ((j - i - 1) + (1 + r)) _ Hcc1)
    as (a & Ta & L2 & -> & HcA & HsA & Hc2); [lia | done |].
  assert (childCountsOk L2) as Hcc2.
  { apply Forall_cons in Hcc1 as [_ Hcc1]. by apply Forall_app in Hcc1 as [_ ?]. }
  destruct (subtrees_split (j - i - 1) (1 + r) _ Hcc2)
    as (K2 & L3 & -> & HcK2 & HsK2 & Hc3); [lia | lia | done |].
  assert (childCountsOk L3) as Hcc3 by (by apply Forall_app in Hcc2 as [_ ?]).
  destruct (subtree_split r _ Hcc3)
    as (b & Tb & R & -> & HcB & HsB & _); [lia | done |].
  assert (l = take pp l ++ np :: K1 ++ a :: Ta ++ K2 ++ b :: Tb ++ R) as Hl.
  { rewrite <- HL0. by rewrite take_drop_middle. }
  exists (take pp l), K1, a, Ta, K2, b, Tb, R.
  split; [exact Hl|]. split; [rewrite length_take; lia|].
  do 8 (split; [done|]).
  rewrite !childPos_skipTrees, !Z2Nat.id by (done || lia). rewrite HL0.
  split.
  - rewrite skipTrees_app by done. rewrite HsK1, length_app, length_take. simpl. lia.
  - replace j with (i + (1 + (j - i - 1)))%Z at 1 by lia.
    rewrite skipTrees_two; [| lia | lia | by apply Forall_app | done | done].
    change (a :: Ta ++ K2 ++ b :: Tb ++ R) with ((a :: Ta) ++ K2 ++ b :: Tb ++ R).
    rewrite skipTrees_two; [| lia | lia | done | done | done].
    rewrite skipTrees_app by done. rewrite HsK2.
    rewrite !length_app, length_take. simpl. rewrite !length_app. simpl.
    rewrite length_app. lia.
Qed.

End two_children.

Section exchanged.

Implicit Types (l X Ta R : list TreeNode) (np a b c : TreeNode).

(** [i] whole subtrees, one more, and [j - i - 1] after it make [j]. *)
Lemma subtrees_three (i j : Z) (K1 : list TreeNode) c T (K2 : list TreeNode) :
  (0 ≤ i < j)%Z → childCountsOk (K1 ++ (c :: T) ++ K2) →
  TreePool.complete i K1 = true → TreePool.skipTrees i K1 = length K1 →
  TreePool.complete 1 (c :: T) = true →
  TreePool.skipTrees 1 (c :: T) = S (length T) →
  TreePool.complete (j - i - 1) K2 = true →
  TreePool.skipTrees (j - i - 1) K2 = length K2 →
  TreePool.complete j (K1 ++ c :: T ++ K2) = true
  ∧ TreePool.skipTrees j (K1 ++ c :: T ++ K2) = length (K1 ++ c :: T ++ K2).
Proof.
  intros Hij Hcc HcK1 HsK1 HcC HsC HcK2 HsK2.
  pose proof Hcc as [_ Hcc']%Forall_app.
  destruct (subtrees_app 1 (j - i - 1) (c :: T) K2) as [Hc Hs]; try done; try lia.
  replace j with (i + (1 + (j - i - 1)))%Z by lia.
  apply (subtrees_app i (1 + (j - i - 1)) K1 ((c :: T) ++ K2)); try done; lia.
Qed.

Lemma childCountsOk_Permutation l l' :
  TreeNode.numberOfChildren <$> l ≡ₚ TreeNode.numberOfChildren <$> l' →
  childCountsOk l → childCountsOk l'.
Proof.
  unfold childCountsOk. intros Hperm Hl.
  apply (Forall_fmap TreeNode.numberOfChildren (λ k, (0 ≤ k)%Z)).
  rewrite <- Hperm. by apply Forall_fmap.
Qed.

End exchanged.

(** The child counts of two lists built from the same pieces. *)
Ltac same_child_counts :=
  repeat (rewrite ?fmap_app; csimpl); solve_Permutation.

(** X11.  [swapChildren(i, j)] on a node of a well-formed pool, with
    [i < j] in range, when the [j]-th child has no children: the call
    runs to the end and puts the record of the [j]-th child where the
    subtree of the [i]-th began and that subtree where the record was;
    the records before, between and after them keep their places, and no
    record is changed.  Afterwards [childAt(i)] is the former
    [childAt(j)] and [childAt(j)] the former [childAt(i)]. *)
Theorem swapChildren_exchanges_children
    (pool : TreePool) (self : TreeReference) (pp : nat) (np b : TreeNode)
    (i j : Z) :
  wellFormed pool = true →
  TreePool.buffer pool !! pp = Some np →
  TreeNode.identifier np = TreeReference.identifier self →
  (0 ≤ i < j)%Z → (j < TreeNode.numberOfChildren np)%Z →
  TreePool.buffer pool
    !! TreePool.childPos pp (Z.to_nat j) (TreePool.buffer pool) = Some b →
  TreeNode.numberOfChildren b = 0%Z →
  let l := TreePool.buffer pool in
  let pa := TreePool.childPos pp (Z.to_nat i) l in
  let pb := TreePool.childPos pp (Z.to_nat j) l in
  ∃ (before A between after : list TreeNode),
    l = before ++ A ++ between ++ b :: after
    ∧ length before = pa
    ∧ length A = TreePool.deepLength pa l
    ∧ length (before ++ A ++ between) = pb
    ∧ TreeReference.swapChildren self i j pool
      = Ok (tt, TreePool.withBuffer (before ++ b :: between ++ A ++ after) pool)
    ∧ eval (child <- TreeReference.treeChildAtIndex self i ;;
              ret (TreeReference.identifier child))
        (TreePool.withBuffer (before ++ b :: between ++ A ++ after) pool)
      = eval (child <- TreeReference.treeChildAtIndex self j ;;
              ret (TreeReference.identifier child)) pool
    ∧ eval (child <- TreeReference.treeChildAtIndex self j ;;
              ret (TreeReference.identifier child))
        (TreePool.withBuffer (before ++ b :: between ++ A ++ after) pool)
      = eval (child <- TreeReference.treeChildAtIndex self i ;;
              ret (TreeReference.identifier child)) pool.
Proof.
  destruct pool as [l st cap]. simpl. intros Hwf Hnp Hid Hij Hj Hb Hbc.
  destruct (wellFormed_buffer _ _ _ Hwf) as (HN & Hcc & _).
  destruct (wellFormed_inv _ _ _ Hwf) as (Hlive & _ & _ & _ & Hcont & _).
  assert (pp < length l) as Hpp by (by eapply lookup_lt_Some).
  destruct (children_two l pp np i j Hcc (contiguous_inv l pp Hcont Hpp) Hnp Hij Hj)
    as (X & K1 & a & Ta & K2 & b0 & Tb & R & Hl & HX & HcK1 & HsK1 & HcA & HsA
        & HcK2 & HsK2 & HcB & HsB & Hpa & Hpb).
  subst l. rewrite Hpb in Hb.
  replace (X ++ np :: K1 ++ a :: Ta ++ K2 ++ b0 :: Tb ++ R)
    with ((X ++ np :: K1 ++ a :: Ta ++ K2) ++ b0 :: Tb ++ R) in Hb
    by (by simplify_list_eq).
  rewrite list_lookup_middle in Hb by done. injection Hb as ->.
  assert (Tb = []) as -> by (by apply (childless_alone b)).
  change (b :: [] ++ R) with (b :: R) in *.
  set (l := X ++ np :: K1 ++ a :: Ta ++ K2 ++ b :: R) in *.
  assert (liveRecord a = true ∧ liveRecord b = true) as [Hla Hlb].
  { rewrite Forall_forall in Hlive. split; apply Hlive; unfold l;
      rewrite !elem_of_app, !elem_of_cons, !elem_of_app, !elem_of_cons,
        !elem_of_app, !elem_of_cons; auto 10. }
  apply liveRecord_inv in Hla as (Hida & Hrca & _).
  apply liveRecord_inv in Hlb as (Hidb & Hrcb & _).
  set (l' := X ++ np :: K1 ++ b :: K2 ++ a :: Ta ++ R).
  assert (NoDup (identifiersOf l')) as HN'.
  { assert (identifiersOf l' ≡ₚ identifiersOf l) as ->; [|done].
    unfold l, l'. same_identifiers. }
  assert (childCountsOk l') as Hcc'.
  { apply (childCountsOk_Permutation l); [|done].
    unfold l, l'. same_child_counts. }
  assert (childCountsOk (K1 ++ (a :: Ta) ++ K2)) as HccK.
  { revert Hcc. unfold l, childCountsOk.
    repeat (first [rewrite Forall_app | rewrite Forall_cons]). tauto. }
  assert (childCountsOk (K1 ++ [b] ++ K2)) as HccK'.
  { revert Hcc. unfold l, childCountsOk.
    repeat (first [rewrite Forall_app | rewrite Forall_cons]).
    rewrite Forall_nil. tauto. }
  destruct (subtrees_three i j K1 a Ta K2) as [HcKa HsKa]; try done.
  destruct (subtrees_three i j K1 b [] K2) as [HcKb HsKb]; try done.
  exists (X ++ np :: K1), (a :: Ta), K2, R.
  split; [unfold l; by simplify_list_eq|].
  split; [by rewrite Hpa|].
  split.
  { rewrite Hpa. unfold TreePool.deepLength, l.
    replace (X ++ np :: K1 ++ a :: Ta ++ K2 ++ b :: R)
      with ((X ++ np :: K1) ++ (a :: Ta) ++ K2 ++ b :: R) by (by simplify_list_eq).
    rewrite drop_app_length, skipTrees_app by done. by rewrite HsA. }
  split; [rewrite Hpb; f_equal; by simplify_list_eq|].
  unfold TreePool.withBuffer. simpl.
  replace ((X ++ np :: K1) ++ b :: K2 ++ a :: Ta ++ R) with l'
    by (unfold l'; by simplify_list_eq).
  assert (0 ≤ i < TreeNode.numberOfChildren np)%Z as Hi by lia.
  assert (0 ≤ j < TreeNode.numberOfChildren np)%Z as Hj' by lia.
  split; [|split].
  - by apply (swapChildren_later_childless self i j X np K1 a Ta K2 b R st cap).
  - assert (l = X ++ np :: (K1 ++ a :: Ta ++ K2) ++ b :: R) as Hl2
      by (unfold l; by simplify_list_eq).
    rewrite Hl2 in HN, Hcc |- *.
    rewrite (childAt_inserted self j X np (K1 ++ a :: Ta ++ K2) b R st cap HN Hcc Hid
               Hj' HcKa HsKa).
    unfold l' in HN', Hcc' |- *.
    by rewrite (childAt_inserted self i X np K1 b (K2 ++ a :: Ta ++ R) st cap
                  HN' Hcc' Hid Hi HcK1 HsK1).
  - unfold l in HN, Hcc |- *.
    rewrite (childAt_inserted self i X np K1 a (Ta ++ K2 ++ b :: R) st cap
               HN Hcc Hid Hi HcK1 HsK1).
    assert (l' = X ++ np :: (K1 ++ b :: [] ++ K2) ++ a :: Ta ++ R) as Hl2
      by (unfold l'; by simplify_list_eq).
    rewrite Hl2 in HN', Hcc' |- *.
    by rewrite (childAt_inserted self j X np (K1 ++ b :: [] ++ K2) a (Ta ++ R)
                  st cap HN' Hcc' Hid Hj' HcKb HsKb).
Qed.

Lemma swapChildren_exchanges_children_witness :
  TreeReference.swapChildren (Sample.handle 0) 0 1 Sample.nestedFirst
  = Ok (tt, TreePool.withBuffer
              [Sample.inner 0 1 2; Sample.leaf 3 1; Sample.inner 1 1 1;
               Sample.leaf 2 1] Sample.nestedFirst).
Proof.
  destruct (swapChildren_exchanges_children Sample.nestedFirst (Sample.handle 0) 0
              (Sample.inner 0 1 2) (Sample.leaf 3 1) 0 1)
    as (before & A & between & after & Hl & Hbefore & HA & Hbetween & Hswap & _);
    [reflexivity | reflexivity | reflexivity | done | done | reflexivity
    | reflexivity |].
  rewrite Hswap. do 3 f_equal.
  destruct before as [|n0 [|n1 before]]; try discriminate Hbefore.
  destruct A as [|a0 [|a1 [|a2 A]]]; try discriminate HA.
  destruct between; [|discriminate Hbetween].
  by injection Hl as <- <- <- <-.
Defined.

Section swapped_back.

Implicit Types (l st : list TreeNode) (cap : Z) (np a b : TreeNode).

Lemma swapChildren_twice_ordered self l st cap pp np (i j : Z) a b :
  wellFormed (TreePool.mk l st cap) = true →
  l !! pp = Some np →
  TreeNode.identifier np = TreeReference.m_identifier self →
  (0 ≤ i < j)%Z → (j < TreeNode.numberOfChildren np)%Z →
  l !! TreePool.childPos pp (Z.to_nat i) l = Some a →
  TreeNode.numberOfChildren a = 0%Z →
  l !! TreePool.childPos pp (Z.to_nat j) l = Some b →
  TreeNode.numberOfChildren b = 0%Z →
  (TreeReference.swapChildren self i j ;; TreeReference.swapChildren self i j)
    (TreePool.mk l st cap)
  = Ok (tt, TreePool.mk l st cap).
Proof.
  intros Hwf Hnp Hid Hij Hj Ha Hac Hb Hbc.
  destruct (wellFormed_buffer _ _ _ Hwf) as (HN & Hcc & _).
  destruct (wellFormed_inv _ _ _ Hwf) as (Hlive & _ & _ & _ & Hcont & _).
  assert (pp < length l) as Hpp by (by eapply lookup_lt_Some).
  destruct (children_two l pp np i j Hcc (contiguous_inv l pp Hcont Hpp) Hnp Hij Hj)
    as (X & K1 & a0 & Ta & K2 & b0 & Tb & R & Hl & HX & HcK1 & HsK1 & HcA & HsA
        & HcK2 & HsK2 & HcB & HsB & Hpa & Hpb).
  subst l. rewrite Hpa in Ha. rewrite Hpb in Hb.
  replace (X ++ np :: K1 ++ a0 :: Ta ++ K2 ++ b0 :: Tb ++ R)
    with ((X ++ np :: K1) ++ a0 :: Ta ++ K2 ++ b0 :: Tb ++ R) in Ha
    by (by simplify_list_eq).
  replace (X ++ np :: K1 ++ a0 :: Ta ++ K2 ++ b0 :: Tb ++ R)
    with ((X ++ np :: K1 ++ a0 :: Ta ++ K2) ++ b0 :: Tb ++ R) in Hb
    by (by simplify_list_eq).
  rewrite list_lookup_middle in Ha by done. injection Ha as ->.
  rewrite list_lookup_middle in Hb by done. injection Hb as ->.
  assert (Ta = []) as -> by (by apply (childless_alone a)).
  assert (Tb = []) as -> by (by apply (childless_alone b)).
  change (a :: [] ++ K2 ++ b :: [] ++ R) with (a :: [] ++ K2 ++ b :: R) in *.
  set (l := X ++ np :: K1 ++ a :: [] ++ K2 ++ b :: R) in *.
  set (l' := X ++ np :: K1 ++ b :: [] ++ K2 ++ a :: R).
  assert (liveRecord a = true ∧ liveRecord b = true) as [Hla Hlb].
  { rewrite Forall_forall in Hlive. split; apply Hlive; unfold l;
      rewrite !elem_of_app, !elem_of_cons, !elem_of_app, !elem_of_cons,
        !elem_of_app, !elem_of_cons; auto 10. }
  apply liveRecord_inv in Hla as (Hida & Hrca & _).
  apply liveRecord_inv in Hlb as (Hidb & Hrcb & _).
  assert (NoDup (identifiersOf l')) as HN'.
  { assert (identifiersOf l' ≡ₚ identifiersOf l) as ->; [|done].
    unfold l, l'. same_identifiers. }
  assert (childCountsOk l') as Hcc'.
  { apply (childCountsOk_Permutation l); [|done].
    unfold l, l'. same_child_counts. }
  rewrite <- HX in Hnp.
  rewrite (bind_Ok _ _ _ tt (TreePool.mk l' st cap)).
  - by apply (swapChildren_later_childless self i j X np K1 b [] K2 a R st cap).
  - by apply (swapChildren_later_childless self i j X np K1 a [] K2 b R st cap).
Qed.

End swapped_back.

(** X12.  On a node of a well-formed pool, swapping two children that
    have no children of their own and swapping them again gives back the
    pool exactly as it was, whichever index is given first. *)
Theorem swapChildren_twice_on_leaves
    (pool : TreePool) (self : TreeReference) (pp : nat) (np a b : TreeNode)
    (i j : Z) :
  wellFormed pool = true →
  TreePool.buffer pool !! pp = Some np →
  TreeNode.identifier np = TreeReference.identifier self →
  (0 ≤ i < TreeNode.numberOfChildren np)%Z →
  (0 ≤ j < TreeNode.numberOfChildren np)%Z →
  TreePool.buffer pool
    !! TreePool.childPos pp (Z.to_nat i) (TreePool.buffer pool) = Some a →
  TreeNode.numberOfChildren a = 0%Z →
  TreePool.buffer pool
    !! TreePool.childPos pp (Z.to_nat j) (TreePool.buffer pool) = Some b →
  TreeNode.numberOfChildren b = 0%Z →
  (TreeReference.swapChildren self i j ;; TreeReference.swapChildren self i j) pool
  = Ok (tt, pool).
Proof.
  destruct pool as [l st cap]. simpl. intros Hwf Hnp Hid Hi Hj Ha Hac Hb Hbc.
  destruct (wellFormed_buffer _ _ _ Hwf) as (HN & _).
  destruct (Z.lt_trichotomy i j) as [Hlt|[->|Hgt]].
  - apply (swapChildren_twice_ordered self l st cap pp np i j a b); try done; lia.
  - pose proof (recordOf_pooled self l st cap pp np HN Hnp Hid) as Hrec.
    rewrite (bind_Ok _ _ _ _ _ (swapChildren_same_index _ self j np Hrec Hj)).
    by apply swapChildren_same_index with np.
  - pose proof (recordOf_pooled self l st cap pp np HN Hnp Hid) as Hrec.
    pose proof (swapChildren_twice_ordered self l st cap pp np j i b a Hwf Hnp Hid
                  ltac:(lia) ltac:(lia) Hb Hbc Ha Hac) as Htwice.
    unfold bind in Htwice |- *.
    rewrite (swapChildren_comm self i j _ np Hrec).
    destruct (TreeReference.swapChildren self j i (TreePool.mk l st cap))
      as [[u pool']|e]; [|done].
    destruct (swapChildren_resolves _ _ _ _ _ Htwice) as [r' Hr'].
    by rewrite (swapChildren_comm self i j pool' r' Hr').
Qed.

Lemma swapChildren_twice_on_leaves_witness :
  (TreeReference.swapChildren (Sample.handle 0) 1 0 ;;
   TreeReference.swapChildren (Sample.handle 0) 1 0) Sample.withSentinel
  = Ok (tt, Sample.withSentinel).
Proof.
  apply (swapChildren_twice_on_leaves Sample.withSentinel (Sample.handle 0) 0
           (Sample.inner 0 1 2) (Sample.sentinel 2 2) (Sample.leaf 1 1) 1 0);
    [reflexivity | reflexivity | reflexivity | done | done | reflexivity
    | reflexivity | reflexivity | reflexivity].
Defined.

(** ** Roots, equality and the first child *)

(** X13.  [replaceWith] on a root of a well-formed pool does nothing: the
    handle [parent()] yields is undefined, the replacement is skipped,
    and the pool is left exactly as it was, whatever the handle passed. *)
Theorem replaceWith_on_root_is_noop
    (pool : TreePool) (self t : TreeReference) (pos : nat) (n : TreeNode) :
  wellFormed pool = true →
  TreePool.buffer pool !! pos = Some n →
  TreeNode.identifier n = TreeReference.identifier self →
  TreePool.parentPos pos (TreePool.buffer pool) = None →
  TreeReference.replaceWith self t pool = Ok (tt, pool).
Proof.
  destruct pool as [l st cap]. simpl. intros Hwf Hn Hid Hroot.
  destruct (wellFormed_buffer _ _ _ Hwf) as (HN & _).
  unfold TreeReference.replaceWith.
  step_with (parent_root self l st cap pos n HN Hn Hid Hroot).
  by step_by isDefined_run.
Qed.

Lemma replaceWith_on_root_is_noop_witness :
  TreeReference.replaceWith (Sample.handle 3) (Sample.handle 1) Sample.withSentinel
  = Ok (tt, Sample.withSentinel).
Proof.
  apply (replaceWith_on_root_is_noop Sample.withSentinel (Sample.handle 3)
           (Sample.handle 1) 3 (Sample.leaf 3 1)); reflexivity.
Defined.

(** X14.  [a == b] takes [b] by value.  When [b] resolves to a live
    record, the comparison yields whether the two identifiers are equal
    and leaves the pool as it was, whether the operand is a copy of [b] or
    [b] converted to a [TreeReference<TreeNode>]; and for an [a] that
    resolves too, the identifiers are equal exactly when both handles
    resolve to the same node.  When [b] does not resolve, the comparison
    on a copy never takes place, the copy constructor dereferences a null
    pointer; on a converted [b] it compares [a]'s identifier with [-1]. *)
Theorem equality_takes_operand_by_value
    (pool : TreePool) (a b : TreeReference) :
  (∀ p n,
     (0 ≤ TreeReference.identifier b)%Z →
     TreePool.node (TreeReference.identifier b) pool = Some p →
     TreePool.deref p pool = Some n →
     (1 ≤ TreeNode.retainCount n)%Z →
     TreeReference.byValue b (λ t, ret (TreeReference.equal a t)) pool
     = Ok ((TreeReference.identifier a =? TreeReference.identifier b)%Z, pool)
     ∧ (t <- TreeReference.toTreeNodeReference b ;;
        r <- ret (TreeReference.equal a t) ;;
        TreeReference.destructor t ;;
        ret r) pool
       = Ok ((TreeReference.identifier a =? TreeReference.identifier b)%Z, pool)
     ∧ (∀ pa, TreePool.node (TreeReference.identifier a) pool = Some pa →
              TreeReference.identifier a = TreeReference.identifier b ↔ pa = p))
  ∧ (TreePool.node (TreeReference.identifier b) pool = None →
     TreeReference.byValue b (λ t, ret (TreeReference.equal a t)) pool
     = Err NullDereference
     ∧ (t <- TreeReference.toTreeNodeReference b ;;
        r <- ret (TreeReference.equal a t) ;;
        TreeReference.destructor t ;;
        ret r) pool
       = Ok ((TreeReference.identifier a =? -1)%Z, pool)).
Proof.
  destruct a as [ia], b as [ib]. unfold TreeReference.equal. simpl. split.
  - intros p n Hid Hp Hn Hrc.
    pose proof (setIdentifierAndRetain_run ib pool p n Hp Hn) as Hset.
    pose proof (retain_then_destructor ib pool p n Hid Hp Hn Hrc) as Hdrop.
    destruct (node_deref _ _ _ Hp) as (m & Hm & Hmid).
    assert (m = n) as -> by congruence.
    split; [|split].
    + (* a copy of the operand is made, compared and destroyed *)
      unfold TreeReference.byValue, TreeReference.copyConstructor,
        TreeReference.setTo. simpl.
      step_with Hset. unfold ret at 1, bind at 1. by step_with Hdrop.
    + (* the conversion builds the operand from the node pointer *)
      unfold TreeReference.toTreeNodeReference, TreeReference.node, Pool.node.
      rewrite bind_assoc. unfold gets at 1, bind at 1. simpl. rewrite Hp.
      unfold TreeReference.fromNode. rewrite bind_assoc.
      step_with (identifier_run p pool n Hn). rewrite Hmid.
      step_with Hset. unfold ret at 1, bind at 1. by step_with Hdrop.
    + intros pa Hpa. split; [intros ->; congruence|]. intros ->.
      destruct (node_deref _ _ _ Hpa) as (m' & Hm' & Hmid'). congruence.
  - intros Hnone. split.
    + unfold TreeReference.byValue, TreeReference.copyConstructor,
        TreeReference.setTo, TreeReference.setIdentifierAndRetain. simpl.
      apply bind_Err. apply bind_Err. by apply nodeD_null.
    + unfold TreeReference.toTreeNodeReference, TreeReference.node, Pool.node.
      rewrite bind_assoc. unfold gets at 1, bind at 1. simpl. by rewrite Hnone.
Qed.

Lemma equality_takes_operand_by_value_witness :
  TreeReference.byValue (Sample.handle 2)
    (λ t, ret (TreeReference.equal (Sample.handle 2) t)) Sample.nested
  = Ok (true, Sample.nested)
  ∧ TreeReference.byValue (Sample.handle 7)
      (λ t, ret (TreeReference.equal (Sample.handle 7) t)) Sample.nested
    = Err NullDereference
  ∧ (t <- TreeReference.toTreeNodeReference (Sample.handle 7) ;;
     r <- ret (TreeReference.equal (Sample.handle (-1)) t) ;;
     TreeReference.destructor t ;;
     ret r) Sample.nested
    = Ok (true, Sample.nested).
Proof.
  split; [|split].
  - by apply (proj1 (equality_takes_operand_by_value Sample.nested
                       (Sample.handle 2) (Sample.handle 2))
                (Pooled 2) (Sample.inner 2 1 1)).
  - by apply (proj2 (equality_takes_operand_by_value Sample.nested
                       (Sample.handle 7) (Sample.handle 7))).
  - by apply (proj2 (equality_takes_operand_by_value Sample.nested
                       (Sample.handle (-1)) (Sample.handle 7))).
Defined.

(** ** Replacing a childless child *)

Section replacing.

Implicit Types (X Y Tn W : list TreeNode) (st : list TreeNode) (cap : Z)
  (np o n : TreeNode).

(** The last record of the pool loses an owner: it stays with one owner
    less, or goes when it had one owner and no child. *)
Lemma release_last_record l o st cap :
  (1 ≤ TreeNode.retainCount o)%Z → TreeNode.numberOfChildren o = 0%Z →
  Node.release (Pooled (length l)) (TreePool.mk (l ++ [o]) st cap)
  = Ok (tt, TreePool.mk
              (l ++ if (TreeNode.retainCount o =? 1)%Z then []
                    else [TreeNode.setReferenceCounter
                            (TreeNode.retainCount o - 1) o]) st cap).
Proof.
  intros Hrc Hnc. unfold Node.release.
  step_with (deref_run (Pooled (length l)) (TreePool.mk (l ++ [o]) st cap) o
               (lookup_end l o)).
  simpl. rewrite drop_app_length, take_app_length. simpl.
  destruct (Z.leb_spec (TreeNode.retainCount o) 0); [lia|].
  by destruct (TreeNode.retainCount o =? 1)%Z.
Qed.

(** [replaceChildAtIndex] when the child to replace has no children and
    the new child is a root that lies behind it: the new child takes the
    place of the old one, which goes to the end of the pool and loses
    the owner its parent was. *)
Lemma replaceChildAtIndex_childless self newChild (index : Z)
    X np (K1 : list TreeNode) o Y n Tn W st cap :
  let l := X ++ np :: K1 ++ o :: Y ++ n :: Tn ++ W in
  NoDup (identifiersOf l) → childCountsOk l →
  TreeNode.identifier np = TreeReference.m_identifier self →
  TreeNode.identifier n = TreeReference.m_identifier newChild →
  (0 ≤ index < TreeNode.numberOfChildren np)%Z →
  TreePool.complete index K1 = true → TreePool.skipTrees index K1 = length K1 →
  TreeNode.numberOfChildren o = 0%Z →
  TreePool.skipTrees 1 (n :: Tn ++ W) = S (length Tn) →
  TreeNode.isAllocationFailure n = false →
  TreePool.parentPos (length (X ++ np :: K1 ++ o :: Y)) l = None →
  (1 ≤ TreeNode.retainCount o)%Z → (0 ≤ TreeNode.identifier o)%Z →
  (1 ≤ TreeNode.retainCount n)%Z → (0 ≤ TreeNode.identifier n)%Z →
  TreeReference.byValue newChild (TreeReference.replaceChildAtIndex self index)
    (TreePool.mk l st cap)
  = Ok (tt, TreePool.mk
              (X ++ np :: K1 ++ TreeNode.retain n :: Tn ++ Y ++ W
               ++ if (TreeNode.retainCount o =? 1)%Z then []
                  else [TreeNode.setReferenceCounter
                          (TreeNode.retainCount o - 1) o]) st cap).
Proof.
  intros l HN Hcc Hid Hidn Hindex HcK1 HsK1 Hoc Hspan Hfail Hroot
    Hrco Hido Hrcn Hidnn.
  set (P := X ++ np :: K1).
  set (n1 := TreeNode.retain n). set (n2 := TreeNode.retain n1).
  set (o' := TreeNode.retain o).
  assert (∀ L, identifiersOf L ≡ₚ identifiersOf l → NoDup (identifiersOf L)) as Hsame
    by (intros L HL; by rewrite HL).
  assert (l = (P ++ o :: Y) ++ n :: Tn ++ W) as Hl
    by (unfold l, P; by simplify_list_eq).
  assert (length (X ++ np :: K1 ++ o :: Y) = length (P ++ o :: Y)) as HlenP
    by (unfold P; f_equal; by simplify_list_eq).
  rewrite HlenP in Hroot.
  destruct newChild as [idn]. simpl in Hidn.
  unfold TreeReference.byValue, TreeReference.copyConstructor, TreeReference.setTo.
  simpl TreeReference.identifier.
  (* the copy *)
  assert (l !! length (P ++ o :: Y) = Some n) as Hn
    by (rewrite Hl; by apply list_lookup_middle).
  assert (TreePool.node idn (TreePool.mk l st cap)
          = Some (Pooled (length (P ++ o :: Y)))) as Hnoden
    by (rewrite <- Hidn; by apply node_pooled).
  step_with (setIdentifierAndRetain_run idn (TreePool.mk l st cap) _ n Hnoden Hn).
  simpl TreePool.update. unfold TreePool.withBuffer. simpl.
  rewrite Hl at 1. rewrite alter_at_length.
  set (l1 := (P ++ o :: Y) ++ n1 :: Tn ++ W).
  assert (NoDup (identifiersOf l1)) as HN1
    by (apply Hsame; rewrite Hl; unfold l1; same_identifiers).
  assert (TreeNode.numberOfChildren <$> l1 = TreeNode.numberOfChildren <$> l) as Hnc1
    by (rewrite Hl; unfold l1; by rewrite !fmap_app).
  assert (l1 !! length (P ++ o :: Y) = Some n1) as Hn1
    by (by apply list_lookup_middle).
  assert (l1 !! length X = Some np) as Hnp1.
  { unfold l1, P. rewrite <- !(assoc_L (++)). by apply list_lookup_middle. }
  assert (l1 !! length P = Some o) as Ho1.
  { unfold l1. rewrite <- !(assoc_L (++)). by apply list_lookup_middle. }
  assert (TreePool.childPos (length X) (Z.to_nat index) l1 = length P) as Hpo.
  { rewrite (childPos_ext l1 l _ _ Hnc1).
    rewrite childPos_skipTrees by done. rewrite Z2Nat.id by lia.
    unfold l. rewrite drop_S_middle, skipTrees_app by done.
    unfold P. rewrite length_app. simpl. lia. }
  set (tail := if (TreeNode.retainCount o =? 1)%Z then []
               else [TreeNode.setReferenceCounter (TreeNode.retainCount o - 1) o]).
  assert (TreeReference.replaceChildAtIndex self index (TreeReference.mk idn)
            (TreePool.mk l1 st cap)
          = Ok (tt, TreePool.mk (P ++ n2 :: Tn ++ Y ++ W ++ tail) st cap)) as Hreplace.
  { unfold TreeReference.replaceChildAtIndex, TreeReference.isAllocationFailure.
    rewrite bind_assoc.
    step_with (nodeD_pooled (TreeReference.mk idn) l1 st cap _ n1 HN1 Hn1 Hidn).
    step_with (isAllocationFailure_run (Pooled (length (P ++ o :: Y)))
                 (TreePool.mk l1 st cap) n1 Hn1).
    change (TreeNode.isAllocationFailure n1) with (TreeNode.isAllocationFailure n).
    rewrite Hfail.
    (* the new child has no parent *)
    rewrite <- (parentPos_ext l1 l _ Hnc1) in Hroot.
    step_with (parent_root (TreeReference.mk idn) l1 st cap _ n1 HN1 Hn1 Hidn Hroot).
    step_by isDefined_run. simpl. unfold ret at 1, bind at 1.
    (* the old child *)
    step_with (andAlso_run (index >=? 0)%Z _ (λ count, (index <? count)%Z) _ _
                 (numberOfChildren_recordOf self (TreePool.mk l1 st cap) np
                    (recordOf_pooled self l1 st cap (length X) np HN1 Hnp1 Hid))).
    destruct (Z.geb_spec index 0); [|lia].
    destruct (Z.ltb_spec index (TreeNode.numberOfChildren np)); [|lia].
    simpl. unfold ret at 1, bind at 1.
    rewrite <- Hpo in Ho1.
    step_with (treeChildAtIndex_run self l1 st cap (length X) np index o
                 HN1 Hnp1 Hid Hindex Ho1).
    rewrite Hpo. unfold l1 at 1. rewrite <- (assoc_L (++) P). simpl.
    rewrite alter_at_length.
    set (l2 := P ++ o' :: Y ++ n1 :: Tn ++ W).
    assert (l2 = (P ++ [o']) ++ Y ++ (n1 :: Tn) ++ W) as Hl2
      by (unfold l2; by simplify_list_eq).
    assert (NoDup (identifiersOf l2)) as HN2
      by (apply Hsame; rewrite Hl; unfold l2; same_identifiers).
    (* the new child moves in *)
    step_with (nodeD_pooled (TreeReference.mk idn) l2 st cap
                 (length (P ++ [o']) + length Y) n1 HN2
                 ltac:(rewrite Hl2, (assoc_L (++)), <- length_app;
                       by apply list_lookup_middle) Hidn).
    step_with (nodeD_pooled (TreeReference.mk (TreeNode.identifier o)) l2 st cap
                 (length P) o' HN2 (list_lookup_middle _ _ _ _ eq_refl) eq_refl).
    step_with (next_run l2 st cap (length P) o' (list_lookup_middle _ _ _ _ eq_refl)).
    step_with (move_run (length (P ++ [o']) + length Y) (S (length P)) l2 st cap).
    assert (TreePool.deepLength (length (P ++ [o']) + length Y) l2
            = length (n1 :: Tn)) as ->.
    { unfold TreePool.deepLength.
      rewrite Hl2, (assoc_L (++)), <- length_app, drop_app_length.
      change ((n1 :: Tn) ++ W) with (n1 :: Tn ++ W).
      unfold n1. by rewrite (skipTrees_head 1 TreeNode.retain n), Hspan. }
    replace (S (length P)) with (length (P ++ [o']))
      by (rewrite length_app; simpl; lia).
    rewrite Hl2, relocate_left.
    set (l3 := (P ++ [o']) ++ (n1 :: Tn) ++ Y ++ W).
    assert (NoDup (identifiersOf l3)) as HN3
      by (apply Hsame; rewrite Hl; unfold l3; same_identifiers).
    (* and is retained *)
    step_with (nodeD_pooled (TreeReference.mk idn) l3 st cap
                 (length (P ++ [o'])) n1 HN3
                 (list_lookup_middle _ _ _ _ eq_refl) Hidn).
    unfold Node.retain.
    step_with (update_pooled TreeNode.retain l3 st cap (length (P ++ [o'])) n1
                 (list_lookup_middle _ _ _ _ eq_refl)).
    unfold l3 at 1. simpl app at 2. rewrite alter_at_length. fold n2.
    set (l4 := (P ++ [o']) ++ n2 :: Tn ++ Y ++ W).
    assert (l4 = P ++ [o'] ++ (n2 :: Tn ++ Y ++ W) ++ []) as Hl4
      by (unfold l4; by simplify_list_eq).
    assert (NoDup (identifiersOf l4)) as HN4
      by (apply Hsame; rewrite Hl; unfold l4; same_identifiers).
    (* the old child goes to the end *)
    step_with (nodeD_pooled (TreeReference.mk (TreeNode.identifier o)) l4 st cap
                 (length P) o' HN4
                 ltac:(rewrite Hl4; by apply list_lookup_middle) eq_refl).
    step_with (last_run l4 st cap).
    step_with (move_run (length P) (length l4) l4 st cap).
    assert (TreePool.deepLength (length P) l4 = length [o']) as ->.
    { unfold TreePool.deepLength. rewrite Hl4, drop_app_length.
      simpl app. rewrite skipTrees_cons by lia. rewrite skipTrees_nonpos; [done|].
      unfold o'. simpl. lia. }
    replace (length l4)
      with (length P + length [o'] + length (n2 :: Tn ++ Y ++ W))
      by (rewrite Hl4, !length_app; simpl; lia).
    rewrite Hl4, relocate_right, app_nil_r.
    set (l5 := P ++ n2 :: Tn ++ Y ++ W).
    assert (P ++ (n2 :: Tn ++ Y ++ W) ++ [o'] = l5 ++ [o']) as ->
      by (unfold l5; by simplify_list_eq).
    assert (NoDup (identifiersOf (l5 ++ [o']))) as HN5
      by (apply Hsame; rewrite Hl; unfold l5; same_identifiers).
    (* and loses two owners: its parent and the handle *)
    step_with (nodeD_pooled (TreeReference.mk (TreeNode.identifier o)) (l5 ++ [o'])
                 st cap (length l5) o' HN5 (lookup_end l5 o') eq_refl).
    rewrite (bind_Ok _ _ _ tt (TreePool.mk (l5 ++ [o]) st cap)).
    2: { rewrite (release_run (Pooled (length l5)) _ o');
           [| simpl; apply lookup_end | simpl; lia].
         simpl. unfold TreePool.withBuffer. simpl. rewrite alter_end.
         pose proof (release_after_retain o) as E. simpl in E. unfold o'.
         by rewrite E. }
    cbv beta.
    assert (NoDup (identifiersOf (l5 ++ [o]))) as HN6
      by (apply Hsame; rewrite Hl; unfold l5; same_identifiers).
    rewrite (bind_Ok _ _ _ tt (TreePool.mk (l5 ++ tail) st cap)).
    2: { rewrite (destructor_run _ _ (Pooled (length l5)) o); [|done|].
         - by apply release_last_record.
         - apply (node_pooled (l5 ++ [o]) st cap (length l5) o HN6).
           apply lookup_end. }
    cbv beta. unfold TreeReference.destructor. simpl. unfold ret, l5.
    by simplify_list_eq. }
  step_with Hreplace.
  (* the end of the copy *)
  assert (NoDup (identifiersOf (P ++ n2 :: Tn ++ Y ++ W ++ tail))) as HN7.
  { apply (sublist_NoDup _ (identifiersOf (P ++ n2 :: Tn ++ Y ++ W ++ [o]))).
    - apply Hsame. rewrite Hl. same_identifiers.
    - unfold identifiersOf. rewrite !fmap_app. csimpl. rewrite !fmap_app.
      repeat (apply sublist_app || apply sublist_skip); try done.
      unfold tail. destruct (TreeNode.retainCount o =? 1)%Z; [|done].
      apply sublist_nil_l. }
  rewrite (bind_Ok _ _ _ tt (TreePool.mk (P ++ n1 :: Tn ++ Y ++ W ++ tail) st cap)).
  - unfold ret, P, n1. by simplify_list_eq.
  - rewrite (destructor_run (TreeReference.mk idn) _ (Pooled (length P)) n2);
      [| simpl; lia |].
    + rewrite (release_run (Pooled (length P)) _ n2);
        [| simpl; by apply list_lookup_middle | simpl; lia].
      simpl. unfold TreePool.withBuffer. simpl. rewrite alter_at_length.
      pose proof (release_retained n) as E. simpl in E. unfold n2, n1.
      by rewrite E.
    + rewrite <- Hidn. apply (node_pooled _ st cap (length P) n2 HN7).
      by apply list_lookup_middle.
Qed.

End replacing.

(** X15.  [replaceChildAtIndex(index, newChild)] on a node of a
    well-formed pool, when the child at [index] has no children and
    [newChild] is a root behind it that is not a failure sentinel: the
    call runs to the end, [childAt(index)] is then [newChild], which has
    one more owner, the number of children is unchanged, and the old
    child has lost the owner its parent was: it has one owner less, or is
    gone when its parent was its only owner. *)
Theorem replaceChildAtIndex_puts_new_child
    (pool : TreePool) (self newChild : TreeReference) (pp pn : nat)
    (np o n : TreeNode) (index : Z) :
  wellFormed pool = true →
  TreePool.buffer pool !! pp = Some np →
  TreeNode.identifier np = TreeReference.identifier self →
  (0 ≤ index < TreeNode.numberOfChildren np)%Z →
  TreePool.buffer pool
    !! TreePool.childPos pp (Z.to_nat index) (TreePool.buffer pool) = Some o →
  TreeNode.numberOfChildren o = 0%Z →
  TreePool.buffer pool !! pn = Some n →
  TreeNode.identifier n = TreeReference.identifier newChild →
  TreePool.childPos pp (Z.to_nat index) (TreePool.buffer pool) < pn →
  TreePool.parentPos pn (TreePool.buffer pool) = None →
  TreeNode.isAllocationFailure n = false →
  ∃ pool',
    TreeReference.byValue newChild (TreeReference.replaceChildAtIndex self index)
      pool = Ok (tt, pool')
    ∧ eval (child <- TreeReference.treeChildAtIndex self index ;;
            ret (TreeReference.identifier child)) pool'
      = Ok (TreeReference.identifier newChild)
    ∧ eval (TreeReference.numberOfChildren self) pool'
      = Ok (TreeNode.numberOfChildren np)
    ∧ eval (TreeReference.nodeRetainCount newChild) pool'
      = Ok (TreeNode.retainCount n + 1)%Z
    ∧ (let old := TreeReference.mk (TreeNode.identifier o) in
       if (TreeNode.retainCount o =? 1)%Z
       then eval (TreeReference.isDefined old) pool' = Ok false
       else eval (TreeReference.nodeRetainCount old) pool'
            = Ok (TreeNode.retainCount o - 1)%Z).
Proof.
  destruct pool as [l st cap]. simpl.
  intros Hwf Hnp Hid Hindex Ho Hoc Hn Hidn Hlt Hroot Hfail.
  destruct (wellFormed_buffer _ _ _ Hwf) as (HN & Hcc & _).
  destruct (wellFormed_inv _ _ _ Hwf) as (Hlive & _ & _ & HNall & Hcont & _).
  assert (pp < length l) as Hpp by (by eapply lookup_lt_Some).
  assert (liveRecord o = true ∧ liveRecord n = true) as [Hlo Hln].
  { rewrite Forall_forall in Hlive.
    split; apply Hlive; by eapply list_elem_of_lookup_2. }
  apply liveRecord_inv in Hlo as (Hido & Hrco & _).
  apply liveRecord_inv in Hln as (Hidnn & Hrcn & _).
  (* the layout *)
  destruct (children_decompose l pp np index Hcc (contiguous_inv l pp Hcont Hpp)
              Hnp ltac:(lia)) as (K1 & W0 & Hl0 & HcK1 & HsK1 & _).
  assert (∃ X, length X = pp ∧ l = X ++ np :: K1 ++ W0) as (X & HX & HlX).
  { exists (take pp l). split; [rewrite length_take; lia | exact Hl0]. }
  clear Hl0.
  set (po := TreePool.childPos pp (Z.to_nat index) l) in *.
  assert (po = length (X ++ np :: K1)) as Hpo.
  { unfold po. rewrite childPos_skipTrees by done. rewrite Z2Nat.id by lia.
    rewrite HlX, <- HX, drop_S_middle, skipTrees_app by done.
    rewrite HsK1, length_app. simpl. lia. }
  destruct (layout_two l po o pn n Hcc Ho Hn Hlt)
    as (X' & Y & Tn & W & Hl & HX' & HP & _ & Hspan).
  assert (X' = X ++ np :: K1) as ->.
  { rewrite Hl in HlX.
    replace (X ++ np :: K1 ++ W0) with ((X ++ np :: K1) ++ W0)
      in HlX by (by simplify_list_eq).
    apply app_inj_1 in HlX as [? _]; [done | lia]. }
  clear HlX W0.
  assert (l = X ++ np :: K1 ++ o :: Y ++ n :: Tn ++ W) as Hl'
    by (rewrite Hl; by simplify_list_eq).
  clear Hl. subst l.
  set (l := X ++ np :: K1 ++ o :: Y ++ n :: Tn ++ W) in *.
  assert (pn = length (X ++ np :: K1 ++ o :: Y)) as Hpn.
  { rewrite <- HP. f_equal. by simplify_list_eq. }
  rewrite Hpn in Hroot.
  set (tail := if (TreeNode.retainCount o =? 1)%Z then []
               else [TreeNode.setReferenceCounter (TreeNode.retainCount o - 1) o]).
  set (lf := X ++ np :: K1 ++ TreeNode.retain n :: Tn ++ Y ++ W ++ tail).
  assert (identifiersOf tail `sublist_of` [TreeNode.identifier o]) as Htail.
  { unfold tail. destruct (TreeNode.retainCount o =? 1)%Z; [|done].
    apply sublist_nil_l. }
  assert (identifiersOf lf `sublist_of`
            identifiersOf (X ++ np :: K1 ++ n :: Tn ++ Y ++ W ++ [o])) as Hsub.
  { unfold lf, identifiersOf. repeat (rewrite ?fmap_app; csimpl).
    repeat (apply sublist_app || apply sublist_skip); done. }
  assert (identifiersOf (X ++ np :: K1 ++ n :: Tn ++ Y ++ W ++ [o])
          ≡ₚ identifiersOf l) as Hperm by (unfold l; same_identifiers).
  assert (NoDup (identifiersOf lf)) as HNf.
  { eapply sublist_NoDup; [|exact Hsub]. by rewrite Hperm. }
  assert (childCountsOk lf) as Hccf.
  { revert Hcc. unfold l, lf, tail, childCountsOk.
    repeat (first [rewrite Forall_app | rewrite Forall_cons]).
    destruct (TreeNode.retainCount o =? 1)%Z;
      rewrite ?Forall_cons, Forall_nil; simpl; tauto. }
  exists (TreePool.mk lf st cap). split; [|split; [|split; [|split]]].
  - unfold l.
    by apply (replaceChildAtIndex_childless self newChild index X np K1 o Y n Tn W).
  - rewrite <- Hidn. change (TreeNode.identifier n)
      with (TreeNode.identifier (TreeNode.retain n)).
    by apply (childAt_inserted self index X np K1 (TreeNode.retain n)
                (Tn ++ Y ++ W ++ tail) st cap HNf Hccf Hid Hindex HcK1 HsK1).
  - unfold eval. rewrite (numberOfChildren_recordOf self _ np); [done|].
    apply recordOf_tracked; [done | | done].
    unfold lf. rewrite elem_of_app, elem_of_cons. auto.
  - unfold eval.
    rewrite (nodeRetainCount_recordOf newChild _ (TreeNode.retain n)); [done|].
    apply recordOf_tracked; [done | | done].
    unfold lf. rewrite elem_of_app, elem_of_cons, elem_of_app, elem_of_cons. auto.
  - unfold tail in lf. destruct (Z.eqb_spec (TreeNode.retainCount o) 1) as [Hone|Hmore].
    + unfold eval. rewrite isDefined_run. simpl.
      assert (TreePool.node (TreeNode.identifier o) (TreePool.mk lf st cap) = None)
        as ->; [|by rewrite andb_false_r].
      assert (NoDup (TreeNode.identifier o
                     :: identifiersOf (X ++ np :: K1 ++ n :: Tn ++ Y ++ W)
                     ++ identifiersOf st)) as [Hfresh _]%NoDup_cons.
      { rewrite identifiersOf_app in HNall.
        assert (TreeNode.identifier o
                :: identifiersOf (X ++ np :: K1 ++ n :: Tn ++ Y ++ W)
                ≡ₚ identifiersOf l) as Hp by (unfold l; same_identifiers).
        change (NoDup ((TreeNode.identifier o
                        :: identifiersOf (X ++ np :: K1 ++ n :: Tn ++ Y ++ W))
                       ++ identifiersOf st)).
        by rewrite Hp. }
      apply not_elem_of_app in Hfresh as [Hbuf Hst].
      unfold TreePool.node. simpl.
      assert (TreePool.indexOfIdentifier (TreeNode.identifier o) lf = None) as ->.
      { apply indexOfIdentifier_None. intros Hin. apply Hbuf.
        revert Hin. unfold lf, identifiersOf.
        repeat (rewrite ?fmap_app; csimpl). by rewrite app_nil_r. }
      by apply indexOfIdentifier_None in Hst as ->.
    + unfold eval.
      rewrite (nodeRetainCount_recordOf _ _
                 (TreeNode.setReferenceCounter (TreeNode.retainCount o - 1) o));
        [done|].
      apply recordOf_tracked; [done | | done].
      unfold lf. rewrite elem_of_app, elem_of_cons, !elem_of_app, elem_of_cons,
        !elem_of_app, list_elem_of_singleton. auto 10.
Qed.

Lemma replaceChildAtIndex_puts_new_child_witness :
  ∃ pool',
    TreeReference.byValue (Sample.handle 3)
      (TreeReference.replaceChildAtIndex (Sample.handle 0) 0) Sample.withSentinel
    = Ok (tt, pool')
    ∧ eval (child <- TreeReference.treeChildAtIndex (Sample.handle 0) 0 ;;
            ret (TreeReference.identifier child)) pool' = Ok 3%Z
    ∧ eval (TreeReference.numberOfChildren (Sample.handle 0)) pool' = Ok 2%Z
    ∧ eval (TreeReference.nodeRetainCount (Sample.handle 3)) pool' = Ok 2%Z
    ∧ eval (TreeReference.isDefined (Sample.handle 1)) pool' = Ok false.
Proof.
  apply (replaceChildAtIndex_puts_new_child Sample.withSentinel
           (Sample.handle 0) (Sample.handle 3) 0 3
           (Sample.inner 0 1 2) (Sample.leaf 1 1) (Sample.leaf 3 1) 0);
    [reflexivity | reflexivity | reflexivity | done | reflexivity | reflexivity
    | reflexivity | reflexivity | vm_compute; lia | reflexivity | reflexivity].
Defined.

(** ** The first child *)

Section first_child.

Implicit Types (X Y T W K : list TreeNode) (st : list TreeNode) (cap : Z)
  (np nc : TreeNode).

(** [addChild] passes its argument on by value: around the call of
    [addChildAtIndex], which works on a copy of its own, one more copy is
    made and destroyed. *)
Lemma addChild_by_value p c l l' pc nc st cap :
  NoDup (identifiersOf l) → l !! pc = Some nc →
  TreeNode.identifier nc = TreeReference.m_identifier c →
  (0 ≤ TreeNode.identifier nc)%Z → (0 ≤ TreeNode.retainCount nc)%Z →
  NoDup (identifiersOf l') → TreeNode.retain (TreeNode.retain nc) ∈ l' →
  TreeReference.byValue c (λ t, TreeReference.addChildAtIndex p t 0)
    (TreePool.mk (alter TreeNode.retain pc l) st cap)
  = Ok (tt, TreePool.mk l' st cap) →
  ∃ q, l' !! q = Some (TreeNode.retain (TreeNode.retain nc))
       ∧ TreeReference.byValue c (TreeReference.addChild p) (TreePool.mk l st cap)
         = Ok (tt, TreePool.mk
                     (alter (TreeNode.setReferenceCounter
                               (TreeNode.retainCount nc + 1)) q l') st cap).
Proof.
  intros HN Hnc Hidc Hidnc Hrcnc HN' Hin Hadd.
  destruct (tracked l' st cap _ HN' Hin) as (q & Hq & Hnodeq).
  exists q. split; [done|]. destruct c as [idc]. simpl in Hidc.
  unfold TreeReference.byValue at 1, TreeReference.copyConstructor,
    TreeReference.setTo. simpl TreeReference.identifier.
  assert (TreePool.node idc (TreePool.mk l st cap) = Some (Pooled pc)) as Hnodec
    by (rewrite <- Hidc; by apply node_pooled).
  step_with (setIdentifierAndRetain_run idc (TreePool.mk l st cap) (Pooled pc) nc
               Hnodec Hnc).
  simpl TreePool.update. unfold TreePool.withBuffer. simpl.
  unfold TreeReference.addChild. step_with Hadd.
  rewrite (bind_Ok _ _ _ tt
             (TreePool.mk
                (alter (TreeNode.setReferenceCounter (TreeNode.retainCount nc + 1))
                   q l') st cap)); [done|].
  rewrite (destructor_run (TreeReference.mk idc) _ (Pooled q)
             (TreeNode.retain (TreeNode.retain nc)));
    [| simpl; lia | by rewrite <- Hidc].
  rewrite (release_run (Pooled q) _ (TreeNode.retain (TreeNode.retain nc)));
    [| done | simpl; lia].
  simpl. unfold TreePool.withBuffer. simpl. do 5 f_equal. lia.
Qed.

Lemma retained_twice_then_released nc :
  TreeNode.setReferenceCounter (TreeNode.retainCount nc + 1)
    (TreeNode.retain (TreeNode.retain nc)) = TreeNode.retain nc.
Proof. done. Qed.

End first_child.

(** X16.  [addChild(c)] on a parent [p] of a well-formed pool that is not
    a sentinel, for a node [c] whose subtree and [p]'s do not overlap:
    the call runs to the end and leaves the pool that
    [addChildAtIndex(c, 0)] leaves; [c] is then the first child of [p],
    which has one more child, and [c] has one more owner. *)
Theorem addChild_puts_child_first
    (pool : TreePool) (p c : TreeReference) (pp pc : nat) (np nc : TreeNode) :
  wellFormed pool = true →
  TreePool.buffer pool !! pp = Some np →
  TreeNode.identifier np = TreeReference.identifier p →
  TreePool.buffer pool !! pc = Some nc →
  TreeNode.identifier nc = TreeReference.identifier c →
  TreeNode.isAllocationFailure np = false →
  (TreePool.nextSiblingPos pc (TreePool.buffer pool) ≤ pp
   ∨ TreePool.nextSiblingPos pp (TreePool.buffer pool) ≤ pc) →
  ∃ pool',
    TreeReference.byValue c (TreeReference.addChild p) pool = Ok (tt, pool')
    ∧ TreeReference.byValue c (λ t, TreeReference.addChildAtIndex p t 0) pool
      = Ok (tt, pool')
    ∧ eval (child <- TreeReference.treeChildAtIndex p 0 ;;
            ret (TreeReference.identifier child)) pool'
      = Ok (TreeReference.identifier c)
    ∧ eval (TreeReference.numberOfChildren p) pool'
      = Ok (TreeNode.numberOfChildren np + 1)%Z
    ∧ eval (TreeReference.nodeRetainCount c) pool'
      = Ok (TreeNode.retainCount nc + 1)%Z.
Proof.
  destruct pool as [l st cap]. simpl.
  intros Hwf Hnp Hidp Hnc Hidc Hfail Hdisj.
  destruct (wellFormed_buffer _ _ _ Hwf) as (HN & Hcc & Hrc & Hsz).
  destruct (wellFormed_inv _ _ _ Hwf) as (Hlive & _ & _ & _ & Hcont & _).
  assert (liveRecord nc = true ∧ liveRecord np = true) as [Hlivec Hlivep].
  { rewrite Forall_forall in Hlive.
    split; apply Hlive; by eapply list_elem_of_lookup_2. }
  apply liveRecord_inv in Hlivec as (Hidnc & Hrcnc & _).
  apply liveRecord_inv in Hlivep as (_ & _ & Hncp & _).
  assert (0 ≤ 0 ≤ TreeNode.numberOfChildren np)%Z as Hi by lia.
  set (nc1 := TreeNode.retain nc). set (nc2 := TreeNode.retain nc1).
  set (np' := TreeNode.incrementNumberOfChildren np).
  assert (0 ≤ TreeNode.retainCount nc1)%Z as Hrc1 by (simpl; lia).
  destruct Hdisj as [Hahead|Hbehind].
  - destruct (layout_ahead l pp np pc nc 0 Hcc Hcont Hnp Hnc Hi Hahead)
      as (X & T & Y & K & W & -> & HX & HP & HcK & HsK & Hspan).
    assert (K = []) as ->
      by (apply nil_length_inv; rewrite <- HsK; by apply skipTrees_nonpos).
    set (l := X ++ nc :: T ++ Y ++ np :: [] ++ W) in *.
    set (l1 := X ++ nc1 :: T ++ Y ++ np :: [] ++ W).
    set (l2 := X ++ Y ++ np' :: [] ++ nc2 :: T ++ W).
    set (lf := X ++ Y ++ np' :: [] ++ nc1 :: T ++ W).
    assert (alter TreeNode.retain pc l = l1) as Hl1
      by (unfold l, l1; rewrite <- HX; by rewrite alter_at_length).
    assert (NoDup (identifiersOf l1)) as HN1
      by (rewrite <- Hl1; by rewrite identifiersOf_alter).
    assert (childCountsOk l1) as Hcc1.
    { revert Hcc. unfold l, l1, childCountsOk.
      repeat (first [rewrite Forall_app | rewrite Forall_cons]). simpl. tauto. }
    assert (NoDup (identifiersOf l2)) as HN2.
    { assert (identifiersOf l2 ≡ₚ identifiersOf l) as ->; [|done].
      unfold l, l2. same_identifiers. }
    assert (NoDup (identifiersOf lf)) as HNf.
    { assert (identifiersOf lf ≡ₚ identifiersOf l) as ->; [|done].
      unfold l, lf. same_identifiers. }
    assert (childCountsOk lf) as Hccf.
    { revert Hcc. unfold l, lf, childCountsOk.
      repeat (first [rewrite Forall_app | rewrite Forall_cons]). simpl. intuition lia. }
    destruct (addChild_by_value p c l l2 pc nc st cap HN Hnc Hidc Hidnc
                ltac:(lia) HN2)
      as (q & Hq & Haddchild).
    { unfold l2. rewrite !elem_of_app, elem_of_cons, elem_of_app, elem_of_cons. auto 10. }
    { rewrite Hl1. by apply (addChild_from_ahead p c 0 X nc1 T Y np [] W). }
    assert (q = length (X ++ Y ++ [np'])) as ->.
    { apply (same_position l2 _ _ nc2 HN2 Hq). unfold l2.
      replace (X ++ Y ++ np' :: [] ++ nc2 :: T ++ W)
        with ((X ++ Y ++ [np']) ++ nc2 :: T ++ W) by (by simplify_list_eq).
      by apply list_lookup_middle. }
    assert (alter (TreeNode.setReferenceCounter (TreeNode.retainCount nc + 1))
              (length (X ++ Y ++ [np'])) l2 = lf) as Hlf.
    { unfold l2, lf.
      replace (X ++ Y ++ np' :: [] ++ nc2 :: T ++ W)
        with ((X ++ Y ++ [np']) ++ nc2 :: T ++ W) by (by simplify_list_eq).
      rewrite alter_at_length. unfold nc2, nc1.
      rewrite retained_twice_then_released. by simplify_list_eq. }
    rewrite Hlf in Haddchild.
    exists (TreePool.mk lf st cap). split; [done|]. split.
    { apply (addChild_from_ahead p c 0 X nc T Y np [] W); try done. lia. }
    unfold lf in HNf, Hccf |- *.
    replace (X ++ Y ++ np' :: [] ++ nc1 :: T ++ W)
      with ((X ++ Y) ++ np' :: [] ++ nc1 :: T ++ W) in HNf, Hccf |- *
      by (by simplify_list_eq).
    assert (NoDup (identifiersOf ((X ++ Y) ++ np :: [] ++ nc :: T ++ W))) as HNo.
    { assert (identifiersOf ((X ++ Y) ++ np :: [] ++ nc :: T ++ W)
              ≡ₚ identifiersOf l) as ->; [|done]. unfold l. same_identifiers. }
    assert (childCountsOk ((X ++ Y) ++ np :: [] ++ nc :: T ++ W)) as Hcco.
    { revert Hcc. unfold l, childCountsOk.
      repeat (first [rewrite Forall_app | rewrite Forall_cons]). tauto. }
    by apply (addChild_observed p c 0 (X ++ Y) np [] nc (T ++ W) st cap).
  - destruct (layout_behind l pp np pc nc 0 Hcc Hcont Hnp Hnc Hi Hbehind)
      as (X & K & Y & T & W & -> & HX & HP & HcK & HsK & Hspan).
    assert (K = []) as ->
      by (apply nil_length_inv; rewrite <- HsK; by apply skipTrees_nonpos).
    set (l := X ++ np :: [] ++ Y ++ nc :: T ++ W) in *.
    set (l1 := X ++ np :: [] ++ Y ++ nc1 :: T ++ W).
    set (l2 := X ++ np' :: [] ++ nc2 :: T ++ Y ++ W).
    set (lf := X ++ np' :: [] ++ nc1 :: T ++ Y ++ W).
    assert (alter TreeNode.retain pc l = l1) as Hl1.
    { unfold l, l1. rewrite <- HP.
      replace (X ++ np :: [] ++ Y ++ nc :: T ++ W)
        with ((X ++ np :: [] ++ Y) ++ nc :: T ++ W) by (by simplify_list_eq).
      rewrite alter_at_length. by simplify_list_eq. }
    assert (NoDup (identifiersOf l1)) as HN1
      by (rewrite <- Hl1; by rewrite identifiersOf_alter).
    assert (childCountsOk l1) as Hcc1.
    { revert Hcc. unfold l, l1, childCountsOk.
      repeat (first [rewrite Forall_app | rewrite Forall_cons]). simpl. tauto. }
    assert (NoDup (identifiersOf l2)) as HN2.
    { assert (identifiersOf l2 ≡ₚ identifiersOf l) as ->; [|done].
      unfold l, l2. same_identifiers. }
    assert (NoDup (identifiersOf lf)) as HNf.
    { assert (identifiersOf lf ≡ₚ identifiersOf l) as ->; [|done].
      unfold l, lf. same_identifiers. }
    assert (childCountsOk lf) as Hccf.
    { revert Hcc. unfold l, lf, childCountsOk.
      repeat (first [rewrite Forall_app | rewrite Forall_cons]). simpl. intuition lia. }
    destruct (addChild_by_value p c l l2 pc nc st cap HN Hnc Hidc Hidnc
                ltac:(lia) HN2)
      as (q & Hq & Haddchild).
    { unfold l2. rewrite !elem_of_app, elem_of_cons, elem_of_app, elem_of_cons. auto 10. }
    { rewrite Hl1. by apply (addChild_from_behind p c 0 X np [] Y nc1 T W). }
    assert (q = length (X ++ [np'])) as ->.
    { apply (same_position l2 _ _ nc2 HN2 Hq). unfold l2.
      replace (X ++ np' :: [] ++ nc2 :: T ++ Y ++ W)
        with ((X ++ [np']) ++ nc2 :: T ++ Y ++ W) by (by simplify_list_eq).
      by apply list_lookup_middle. }
    assert (alter (TreeNode.setReferenceCounter (TreeNode.retainCount nc + 1))
              (length (X ++ [np'])) l2 = lf) as Hlf.
    { unfold l2, lf.
      replace (X ++ np' :: [] ++ nc2 :: T ++ Y ++ W)
        with ((X ++ [np']) ++ nc2 :: T ++ Y ++ W) by (by simplify_list_eq).
      rewrite alter_at_length. unfold nc2, nc1.
      rewrite retained_twice_then_released. by simplify_list_eq. }
    rewrite Hlf in Haddchild.
    exists (TreePool.mk lf st cap). split; [done|]. split.
    { apply (addChild_from_behind p c 0 X np [] Y nc T W); try done. lia. }
    assert (NoDup (identifiersOf (X ++ np :: [] ++ nc :: T ++ Y ++ W))) as HNo.
    { assert (identifiersOf (X ++ np :: [] ++ nc :: T ++ Y ++ W)
              ≡ₚ identifiersOf l) as ->; [|done]. unfold l. same_identifiers. }
    assert (childCountsOk (X ++ np :: [] ++ nc :: T ++ Y ++ W)) as Hcco.
    { revert Hcc. unfold l, childCountsOk.
      repeat (first [rewrite Forall_app | rewrite Forall_cons]). tauto. }
    by apply (addChild_observed p c 0 X np [] nc (T ++ Y ++ W) st cap).
Qed.

Lemma addChild_puts_child_first_witness :
  ∃ pool',
    TreeReference.byValue (Sample.handle 3) (TreeReference.addChild (Sample.handle 0))
      Sample.withSentinel = Ok (tt, pool')
    ∧ eval (child <- TreeReference.treeChildAtIndex (Sample.handle 0) 0 ;;
            ret (TreeReference.identifier child)) pool' = Ok 3%Z
    ∧ eval (TreeReference.numberOfChildren (Sample.handle 0)) pool' = Ok 3%Z.
Proof.
  destruct (addChild_puts_child_first Sample.withSentinel
              (Sample.handle 0) (Sample.handle 3) 0 3
              (Sample.inner 0 1 2) (Sample.leaf 3 1))
    as (pool' & Hrun & _ & Hchild & Hcount & _);
    [reflexivity | reflexivity | reflexivity | reflexivity | reflexivity
    | reflexivity | right; vm_compute; lia |].
  by exists pool'.
Defined.

(** ** What the allocation-failure protocol leaves alone *)

Section frame.

Implicit Types (l st A B C R : list TreeNode) (cap : Z) (n s m : TreeNode).

Lemma same_record l m m' :
  NoDup (identifiersOf l) → m ∈ l → m' ∈ l →
  TreeNode.identifier m = TreeNode.identifier m' → m = m'.
Proof.
  intros HN [i Hi]%list_elem_of_lookup [j Hj]%list_elem_of_lookup Heq.
  destruct (decide (i = j)) as [->|Hne]; [congruence|].
  by destruct (identifiers_differ l i j m m' HN Hi Hj Hne).
Qed.

Lemma outside_differs A n B C m :
  NoDup (identifiersOf (A ++ n :: B ++ C)) → m ∈ A ++ C →
  TreeNode.identifier m ≠ TreeNode.identifier n.
Proof.
  unfold identifiersOf. rewrite fmap_app, fmap_cons, fmap_app.
  intros (_ & Hahead & [Hn _]%NoDup_cons)%NoDup_app [Hm|Hm]%elem_of_app Heq.
  - apply (Hahead (TreeNode.identifier m)).
    + apply list_elem_of_fmap. by exists m.
    + rewrite Heq. by left.
  - apply Hn. rewrite <- Heq, elem_of_app. right.
    apply list_elem_of_fmap. by exists m.
Qed.

(** [replaceWithAllocationFailure] on a node of a well-formed pool: every
    record that lies outside the subtree of the node is the same
    afterwards, the parent of the node included. *)
Lemma replaceWithAllocationFailure_frame self l st cap pos n :
  wellFormed (TreePool.mk l st cap) = true →
  l !! pos = Some n →
  TreeNode.identifier n = TreeReference.m_identifier self →
  ∃ lfinal,
    TreeReference.replaceWithAllocationFailure self (TreePool.mk l st cap)
    = Ok (tt, TreePool.mk lfinal st cap)
    ∧ NoDup (identifiersOf lfinal)
    ∧ ∀ m, m ∈ take pos l ++ drop (pos + TreePool.deepLength pos l) l →
           m ∈ lfinal.
Proof.
  intros Hwf Hn Hid.
  destruct (wellFormed_buffer _ _ _ Hwf) as (HN & Hcc & Hrc & Hsz).
  destruct (wellFormed_inv _ _ _ Hwf) as (Hlive & Hsent & Hcanon & _ & _ & Hcap).
  assert (n ∈ l) as Hnl by (by eapply list_elem_of_lookup_2).
  destruct (hasSentinel_inv st n) as (k & s & Hk & Hs & Hsize).
  { by eapply Forall_forall in Hsent. }
  destruct (take_skip_decompose l pos n Hn Hcc) as (Hl & HlenA & Hspan).
  set (A := take pos l) in *.
  set (B := take _ (drop (S pos) l)) in *.
  set (C := drop _ (drop (S pos) l)) in *.
  assert (take pos l ++ drop (pos + TreePool.deepLength pos l) l = A ++ C) as HAC.
  { unfold TreePool.deepLength. rewrite (drop_S _ _ _ Hn), skipTrees_cons by lia.
    replace (1 - 1 + TreeNode.numberOfChildren n)%Z
      with (TreeNode.numberOfChildren n) by lia.
    unfold A, C. rewrite drop_drop. do 2 f_equal. lia. }
  assert (∀ m, m ∈ A ++ C →
            m ∈ l ∧ TreeNode.identifier m ≠ TreeReference.m_identifier self)
    as Houtside.
  { intros m Hm. rewrite <- Hid. split.
    - rewrite Hl. revert Hm. rewrite !elem_of_app, elem_of_cons, elem_of_app. tauto.
    - by apply (outside_differs A n B C); [rewrite <- Hl|]. }
  assert (Forall (λ n, (1 ≤ TreeNode.retainCount n)%Z) B) as HrcB
    by (by apply Forall_take, Forall_drop).
  assert (Forall (λ n, (0 ≤ TreeNode.size n)%Z) B) as HszB
    by (by apply Forall_take, Forall_drop).
  destruct (releaseTrees_spec 0 (TreeNode.numberOfChildren n) B HrcB HszB)
    as (R & HR & Hsub & Hbytes).
  assert (TreePool.usedBytes l
          = (TreePool.usedBytes A + (TreeNode.size n
             + (TreePool.usedBytes B + TreePool.usedBytes C)))%Z) as Hused.
  { rewrite Hl at 1. rewrite usedBytes_app. simpl. by rewrite usedBytes_app. }
  destruct (TreePool.parentPos pos l) as [q|] eqn:Hq.
  - apply enclosing_Some in Hq as Hq'. destruct Hq' as (Hlt & Hin & _).
    assert (pos < length l) as Hpos by (by eapply lookup_lt_Some).
    destruct (lookup_lt_is_Some_2 l q) as [nq Hnq]; [lia|].
    pose proof (parent_has_children l pos q nq Hlt Hin Hnq) as Hchildren.
    pose proof (indexInParentPos_bounds l pos q nq Hcc Hq Hnq) as Hidx.
    assert (liveRecord nq = true) as Hliveq.
    { eapply Forall_forall in Hlive; [exact Hlive|]. by eapply list_elem_of_lookup_2. }
    apply liveRecord_inv in Hliveq as (Hidq & Hrcq & _ & _ & Hfailq).
    assert (TreeNode.isAllocationFailure nq = false) as Hnotfail.
    { destruct (TreeNode.isAllocationFailure nq); [|done]. specialize (Hfailq eq_refl). lia. }
    assert (liveRecord n = true) as Hliven by (by eapply Forall_forall in Hlive).
    apply liveRecord_inv in Hliven as (Hidn & Hrcn & _ & _ & _).
    assert (A !! q = Some nq) as HAq.
    { rewrite Hl in Hnq. by rewrite lookup_app_l in Hnq by lia. }
    set (A1 := alter TreeNode.retain q A).
    set (A3 := alter TreeNode.decrementNumberOfChildren q A1).
    set (nq3 := TreeNode.decrementNumberOfChildren (TreeNode.retain nq)).
    set (sent := TreeNode.setReferenceCounter (TreeNode.retainCount n - 1)
                   (TreeNode.rename (TreeReference.m_identifier self) s)).
    set (p := TreeReference.mk (TreeNode.identifier nq)).
    assert (alter TreeNode.retain q l = A1 ++ n :: B ++ C) as Hl1.
    { rewrite Hl at 1. by rewrite alter_app_l by lia. }
    assert (TreeReference.parent self (TreePool.mk l st cap)
            = Ok (p, TreePool.mk (A1 ++ n :: B ++ C) st cap)) as Hparent.
    { rewrite <- Hl1. exact (parent_child self l st cap pos n q nq HN Hn Hid Hq Hnq). }
    assert (length A1 = pos) as HlenA1 by (unfold A1; by rewrite length_alter).
    assert (TreePool.indexInParentPos (length A1) (A1 ++ n :: B ++ C)
            = TreePool.indexInParentPos pos l) as Hidx1.
    { rewrite HlenA1, <- Hl1. apply indexInParentPos_ext.
      by apply numberOfChildren_alter. }
    assert (NoDup (identifiersOf (A1 ++ n :: B ++ C))) as HN1
      by (rewrite <- Hl1; by rewrite identifiersOf_alter).
    assert (A1 !! q = Some (TreeNode.retain nq)) as HA1q
      by (unfold A1; by rewrite list_lookup_alter_eq, HAq).
    assert (A3 !! q = Some nq3) as HA3q
      by (unfold A3; by rewrite list_lookup_alter_eq, HA1q).
    assert (TreePool.usedBytes A3 = TreePool.usedBytes A) as HusedA3.
    { apply usedBytes_ext. unfold A3, A1. by rewrite !size_alter. }
    assert (TreeReference.substituteAllocationFailure self (TreePool.mk l st cap)
            = Ok ((p, Pooled (length (A3 ++ C ++ R)),
                   TreePool.indexInParentPos (length A1) (A1 ++ n :: B ++ C)),
                  TreePool.mk (A3 ++ C ++ R ++ [sent]) st cap)) as Hsubst.
    { apply (substitute_from self _ _ A1 n B C st cap k s R
               (Some (q, TreeNode.retain nq))); try done.
      - fold A3. rewrite !usedBytes_app, HusedA3. lia.
      - repeat split; try done. rewrite Hidx1. lia. }
    rewrite Hidx1 in Hsubst.
    assert (NoDup (identifiersOf (A3 ++ C ++ R ++ [sent]))) as HNmid.
    { apply (substituted_NoDup A A3 n B C R); [by rewrite <- Hl | | done | by rewrite Hid].
      unfold A3, A1. by rewrite !identifiersOf_alter. }
    assert (sent ∈ A3 ++ C ++ R ++ [sent]) as Hsentmid.
    { rewrite !elem_of_app, list_elem_of_singleton. auto. }
    (* the sentinel is attached where the node was *)
    set (lmid := A3 ++ C ++ R ++ [sent]) in *.
    set (pt := length (A3 ++ C ++ R)) in *.
    assert (q < length A3) as HqA3 by (by eapply lookup_lt_Some).
    assert (lmid !! q = Some nq3) as Hmidq
      by (unfold lmid; by rewrite lookup_app_l).
    assert (lmid !! pt = Some sent) as Hmidpt.
    { unfold lmid, pt. rewrite !(assoc_L (++)). apply lookup_end. }
    assert (q ≠ pt) as Hqpt by (unfold pt; rewrite length_app; lia).
    assert (TreeNode.identifier nq3 = TreeReference.m_identifier p) as Hidp by done.
    assert (TreeNode.identifier nq ≠ TreeReference.m_identifier self) as Hdiff.
    { rewrite <- Hid. apply (identifiers_differ l q pos); try done. lia. }
    set (la := alter TreeNode.retain pt lmid).
    assert (NoDup (identifiersOf la)) as HNa
      by (unfold la; by rewrite identifiersOf_alter).
    assert (la !! q = Some nq3) as Haq
      by (unfold la; by rewrite list_lookup_alter_ne).
    assert (la !! pt = Some (TreeNode.retain sent)) as Hapt
      by (unfold la; by rewrite list_lookup_alter_eq, Hmidpt).
    destruct (addChildAtIndex_run p self (TreePool.indexInParentPos pos l)
                la st cap q nq3 pt (TreeNode.retain sent))
      as (q' & Hq2 & Hadd); try done.
    { simpl. lia. }
    set (la1 := alter TreeNode.retain pt la) in *.
    set (l2 := TreePool.relocate _ _ _ la1) in *.
    set (lb := alter TreeNode.incrementNumberOfChildren q' l2) in *.
    set (sent2 := TreeNode.retain (TreeNode.retain sent)).
    set (nq4 := TreeNode.incrementNumberOfChildren nq3).
    assert (l2 ≡ₚ la1) as Hperm by apply relocate_Permutation.
    assert (NoDup (identifiersOf lb)) as HNb.
    { unfold lb. rewrite identifiersOf_alter by done.
      eapply NoDup_identifiersOf_Permutation; [symmetry; exact Hperm|].
      unfold la1. by rewrite identifiersOf_alter. }
    assert (sent2 ∈ lb) as Hsent2.
    { unfold lb. eapply elem_of_alter_ne; [exact Hq2 | | simpl; congruence].
      rewrite Hperm. unfold la1. eapply elem_of_alter_eq. exact Hapt. }
    assert (nq4 ∈ lb) as Hnq4 by (by eapply elem_of_alter_eq).
    (* the temporary handle goes *)
    destruct (tracked lb st cap sent2 HNb Hsent2) as (x & Hx & Hnodex).
    set (sentF := TreeNode.setReferenceCounter (TreeNode.retainCount sent2 - 1) sent2).
    set (lc := alter (TreeNode.setReferenceCounter (TreeNode.retainCount sent2 - 1)) x lb).
    assert (TreeReference.destructor self (TreePool.mk lb st cap)
            = Ok (tt, TreePool.mk lc st cap)) as Hdtor1.
    { rewrite (destructor_run self _ (Pooled x) sent2); [| lia | done].
      rewrite (release_run (Pooled x) _ sent2); [done | done | simpl; lia]. }
    assert (NoDup (identifiersOf lc)) as HNc
      by (unfold lc; by rewrite identifiersOf_alter).
    assert (sentF ∈ lc) as HsentF by (by eapply elem_of_alter_eq).
    assert (nq4 ∈ lc) as Hnq4c.
    { eapply elem_of_alter_ne; [exact Hx | done | simpl; congruence]. }
    (* and [p] *)
    destruct (tracked lc st cap nq4 HNc Hnq4c) as (y & Hy & Hnodey).
    set (ld := alter (TreeNode.setReferenceCounter (TreeNode.retainCount nq4 - 1)) y lc).
    assert (TreeReference.destructor p (TreePool.mk lc st cap)
            = Ok (tt, TreePool.mk ld st cap)) as Hdtor2.
    { rewrite (destructor_run p _ (Pooled y) nq4); [| done | done].
      rewrite (release_run (Pooled y) _ nq4); [done | done | simpl; lia]. }
    assert (NoDup (identifiersOf ld)) as HNd
      by (unfold ld; by rewrite identifiersOf_alter).
    assert (sentF ∈ ld) as HsentFd.
    { eapply elem_of_alter_ne; [exact Hy | done | simpl; congruence]. }
    exists ld. split; [|split; [exact HNd|]].
    + rewrite replaceWithAllocationFailure_split.
      step_with Hsubst. unfold TreeReference.reattachAllocationFailure.
      cbv iota.
      assert (TreeReference.isDefined p (TreePool.mk lmid st cap)
              = Ok (true, TreePool.mk lmid st cap)) as Hdefp.
      { rewrite isDefined_run.
        change (TreeReference.m_identifier p) with (TreeNode.identifier nq3).
        rewrite (node_pooled lmid st cap q nq3 HNmid Hmidq).
        change (TreeNode.identifier nq3) with (TreeNode.identifier nq).
        by destruct (Z.geb_spec (TreeNode.identifier nq) 0); [|lia]. }
      step_with Hdefp. unfold when. rewrite bind_assoc.
      step_with (fromNode_pooled lmid st cap pt sent HNmid Hmidpt).
      fold la. rewrite bind_assoc.
      replace (TreeReference.mk (TreeNode.identifier sent)) with self
        by (by destruct self).
      step_with Hadd. step_with Hdtor1. exact Hdtor2.
    + intros m Hm'. assert (m ∈ A ++ C) as Hm by (rewrite <- HAC; exact Hm'). destruct (Houtside m Hm) as [Hml Hmself].
      destruct (decide (TreeNode.identifier m = TreeNode.identifier nq)) as [Heq|Hneq].
      * assert (m = nq) as ->.
        { apply (same_record l); try done. by eapply list_elem_of_lookup_2. }
        assert (nq = TreeNode.setReferenceCounter (TreeNode.retainCount nq4 - 1) nq4)
          as Hback.
        { unfold nq4, nq3. destruct nq.
          unfold TreeNode.incrementNumberOfChildren, TreeNode.decrementNumberOfChildren,
            TreeNode.setNumberOfChildren, TreeNode.retain, TreeNode.setReferenceCounter.
          simpl. f_equal; lia. }
        rewrite Hback. unfold ld. by eapply elem_of_alter_eq.
      * assert (m ∈ lmid) as Hmmid.
        { unfold lmid. rewrite elem_of_app, (elem_of_app C).
          apply elem_of_app in Hm as [HmA|HmC]; [left|by right; left].
          unfold A3, A1.
          eapply elem_of_alter_ne; [exact HA1q | | simpl; congruence].
          by eapply elem_of_alter_ne. }
        assert (m ∈ la1) as Hma1.
        { unfold la1. eapply elem_of_alter_ne; [exact Hapt | | simpl; congruence].
          unfold la. eapply elem_of_alter_ne; [exact Hmidpt | done | simpl; congruence]. }
        assert (m ∈ lb) as Hmb.
        { unfold lb. eapply elem_of_alter_ne; [exact Hq2 | | simpl; congruence].
          by rewrite Hperm. }
        assert (m ∈ lc) as Hmc.
        { unfold lc. eapply elem_of_alter_ne; [exact Hx | done | simpl; congruence]. }
        unfold ld. eapply elem_of_alter_ne; [exact Hy | done | simpl; congruence].
  - set (sent := TreeNode.setReferenceCounter (TreeNode.retainCount n)
                   (TreeNode.rename (TreeReference.m_identifier self) s)).
    assert (TreeReference.parent self (TreePool.mk l st cap)
            = Ok (TreeReference.mk (-1), TreePool.mk (A ++ n :: B ++ C) st cap))
      as Hparent by (rewrite <- Hl; by eapply parent_root).
    assert (TreeReference.substituteAllocationFailure self (TreePool.mk l st cap)
            = Ok ((TreeReference.mk (-1), Pooled (length (A ++ C ++ R)),
                   TreePool.indexInParentPos (length A) (A ++ n :: B ++ C)),
                  TreePool.mk (A ++ C ++ R ++ [sent]) st cap)) as Hsubst.
    { apply (substitute_from self _ _ A n B C st cap k s R None); try done.
      - by rewrite <- Hl.
      - rewrite !usedBytes_app. lia. }
    assert (NoDup (identifiersOf (A ++ C ++ R ++ [sent]))) as HNmid.
    { apply (substituted_NoDup A A n B C R);
        [by rewrite <- Hl | done | done | by rewrite Hid]. }
    assert (recordOf self (TreePool.mk (A ++ C ++ R ++ [sent]) st cap) = Some sent)
      as Hrec.
    { apply recordOf_tracked; [done | | done].
      rewrite !elem_of_app, list_elem_of_singleton. auto. }
    exists (A ++ C ++ R ++ [sent]). split; [|split; [exact HNmid|]].
    + rewrite replaceWithAllocationFailure_split.
      step_with Hsubst. unfold TreeReference.reattachAllocationFailure.
      cbv iota. step_by isDefined_run. done.
    + intros m Hm'. assert (m ∈ A ++ C) as Hm by (rewrite <- HAC; exact Hm'). revert Hm. rewrite !elem_of_app. tauto.
Qed.

End frame.

(** X17.  When [replaceWithAllocationFailure] runs on a node of a well-formed
    pool, a handle on any node outside the subtree of that node reads the
    same record afterwards as before: same retain count, same number of
    children, same type.  This holds for the parent too, whose child count
    and retain count the protocol changes on the way and restores. *)
Theorem replaceWithAllocationFailure_spares_other_nodes
    (pool : TreePool) (self other : TreeReference) (pos : nat) (n m : TreeNode) :
  wellFormed pool = true →
  TreePool.buffer pool !! pos = Some n →
  TreeNode.identifier n = TreeReference.m_identifier self →
  recordOf other pool = Some m →
  m ∈ take pos (TreePool.buffer pool)
      ++ drop (pos + TreePool.deepLength pos (TreePool.buffer pool))
           (TreePool.buffer pool) →
  ∃ pool',
    TreeReference.replaceWithAllocationFailure self pool = Ok (tt, pool')
    ∧ recordOf other pool' = Some m.
Proof.
  destruct pool as [l st cap]. simpl. intros Hwf Hn Hid Hother Hm.
  destruct (replaceWithAllocationFailure_frame self l st cap pos n Hwf Hn Hid)
    as (lfinal & Hrun & HN & Hframe).
  exists (TreePool.mk lfinal st cap). split; [exact Hrun|].
  apply recordOf_tracked; [exact HN | by apply Hframe |].
  by apply (recordOf_identifier other (TreePool.mk l st cap)).
Qed.

Lemma replaceWithAllocationFailure_spares_other_nodes_witness :
  ∃ pool',
    TreeReference.replaceWithAllocationFailure (Sample.handle 2) Sample.nested
    = Ok (tt, pool')
    ∧ recordOf (Sample.handle 0) pool' = Some (Sample.inner 0 1 2).
Proof.
  apply (replaceWithAllocationFailure_spares_other_nodes Sample.nested
           (Sample.handle 2) (Sample.handle 0) 2
           (Sample.inner 2 1 1) (Sample.inner 0 1 2));
    [reflexivity | reflexivity | reflexivity | reflexivity
    | vm_compute; by left].
Defined.

(** ** Where a child lies under its parent *)

Section located.

Implicit Types (l X K R : list TreeNode) (n o np : TreeNode).

Lemma nextSiblingPos_gt l q :
  q < length l → q < TreePool.nextSiblingPos q l.
Proof.
  intros [n Hn]%lookup_lt_is_Some.
  unfold TreePool.nextSiblingPos, TreePool.deepLength.
  rewrite (drop_S _ _ _ Hn), skipTrees_cons by lia. lia.
Qed.

Lemma childPos_le l pp j i :
  j ≤ i → TreePool.childPos pp j l ≤ TreePool.childPos pp i l.
Proof.
  induction 1 as [|i Hle IH]; [done|].
  change (TreePool.childPos pp (S i) l)
    with (TreePool.nextSiblingPos (TreePool.childPos pp i l) l).
  unfold TreePool.nextSiblingPos at 1. lia.
Qed.

(** The walk of [indexOfChildByIdentifier] steps over the children that
    come first and stops at the child that carries the identifier. *)
Lemma childIndexByIdentifier_found l id pp po o (d j remaining : nat) (k : Z) :
  NoDup (identifiersOf l) → l !! po = Some o → TreeNode.identifier o = id →
  TreePool.childPos pp (j + d) l = po → d < remaining →
  TreePool.childIndexByIdentifier l id (TreePool.childPos pp j l) remaining k
  = (k + Z.of_nat d)%Z.
Proof.
  intros HN Ho Hid. revert j remaining k.
  induction d as [|d IH]; intros j remaining k Hpo Hlt;
    (destruct remaining as [|r]; [lia|]); cbn [TreePool.childIndexByIdentifier].
  - rewrite Nat.add_0_r in Hpo. rewrite Hpo, Ho, Hid, Z.eqb_refl. lia.
  - assert (po < length l) as Hin by (by eapply lookup_lt_Some).
    pose proof (childPos_le l pp j (j + S d) ltac:(lia)) as Hle.
    pose proof (childPos_le l pp (S j) (j + S d) ltac:(lia)) as Hnext.
    rewrite Hpo in Hle, Hnext.
    change (TreePool.childPos pp (S j) l)
      with (TreePool.nextSiblingPos (TreePool.childPos pp j l) l) in Hnext.
    pose proof (nextSiblingPos_gt l (TreePool.childPos pp j l) ltac:(lia)) as Hgt.
    destruct (lookup_lt_is_Some_2 l (TreePool.childPos pp j l) ltac:(lia))
      as [m Hm].
    rewrite Hm.
    pose proof (identifiers_differ l _ _ m o HN Hm Ho ltac:(lia)) as Hne.
    destruct (Z.eqb_spec (TreeNode.identifier m) id); [congruence|].
    change (TreePool.nextSiblingPos (TreePool.childPos pp j l) l)
      with (TreePool.childPos pp (S j) l).
    rewrite (IH (S j) r (k + 1)%Z); [lia | | lia].
    by replace (S j + d) with (j + S d) by lia.
Qed.

(** Inside a run of whole subtrees every subtree ends within the run. *)
Lemma inside_subtrees (k : Z) K R i :
  childCountsOk (K ++ R) → (0 ≤ k)%Z →
  TreePool.complete k K = true → TreePool.skipTrees k K = length K →
  i < length K →
  i + TreePool.skipTrees 1 (drop i (K ++ R)) ≤ length K.
Proof.
  revert k i. induction K as [|a K IH]; intros k i Hcc Hk Hc Hs Hi;
    [simpl in Hi; lia|].
  destruct (decide (0 < k)%Z) as [Hpos|Hnpos];
    [|rewrite skipTrees_nonpos in Hs by lia; done].
  rewrite skipTrees_cons in Hs by done. simpl length in Hs. simpl in Hc.
  destruct (Z.leb_spec k 0); [lia|]. simpl in Hc.
  change ((a :: K) ++ R) with (a :: K ++ R) in Hcc |- *.
  apply Forall_cons in Hcc as [Ha Hcc]. simpl in Ha, Hi |- *.
  destruct i as [|i].
  - rewrite drop_0, skipTrees_cons by lia.
    replace (1 - 1 + TreeNode.numberOfChildren a)%Z
      with (TreeNode.numberOfChildren a) by lia.
    assert (TreePool.skipTrees (k - 1 + TreeNode.numberOfChildren a) (K ++ R)
            = length K) as Hall
      by (rewrite skipTrees_app by done; lia).
    replace (k - 1 + TreeNode.numberOfChildren a)%Z
      with (TreeNode.numberOfChildren a + (k - 1))%Z in Hall by lia.
    rewrite skipTrees_add in Hall by (done || lia). lia.
  - pose proof (IH (k - 1 + TreeNode.numberOfChildren a)%Z i Hcc ltac:(lia) Hc
                  ltac:(lia) ltac:(lia)). simpl. lia.
Qed.

Lemma enclosing_found l pos q q0 :
  q < q0 → pos < TreePool.nextSiblingPos q l →
  (∀ q', q < q' < q0 → TreePool.nextSiblingPos q' l ≤ pos) →
  TreePool.enclosing l pos q0 = Some q.
Proof.
  induction q0 as [|q0 IH]; intros Hlt Hin Hout; [lia|]. simpl.
  destruct (decide (q0 = q)) as [->|Hne].
  - by destruct (Nat.ltb_spec pos (TreePool.nextSiblingPos q l)); [|lia].
  - pose proof (Hout q0 ltac:(lia)).
    destruct (Nat.ltb_spec pos (TreePool.nextSiblingPos q0 l)); [lia|].
    apply IH; [lia | done | intros q' ?; apply Hout; lia].
Qed.

(** The record behind [index] whole subtrees under a header that
    announces more than [index] children has that header as parent. *)
Lemma parentPos_child X np K o R (index : Z) :
  childCountsOk (X ++ np :: K ++ o :: R) →
  (0 ≤ index < TreeNode.numberOfChildren np)%Z →
  TreePool.complete index K = true → TreePool.skipTrees index K = length K →
  TreePool.parentPos (length (X ++ np :: K)) (X ++ np :: K ++ o :: R)
  = Some (length X).
Proof.
  intros Hcc Hindex Hc Hs.
  assert (childCountsOk (K ++ o :: R)) as HccK.
  { apply Forall_app in Hcc as [_ Hcc]. by apply Forall_cons in Hcc as [_ ?]. }
  assert (length (X ++ np :: K) = length X + S (length K)) as Hlen
    by (rewrite length_app; simpl; lia).
  unfold TreePool.parentPos. apply enclosing_found.
  - lia.
  - unfold TreePool.nextSiblingPos, TreePool.deepLength.
    rewrite drop_app_length, skipTrees_cons by lia.
    replace (1 - 1 + TreeNode.numberOfChildren np)%Z
      with (index + (TreeNode.numberOfChildren np - index))%Z by lia.
    rewrite skipTrees_two by (done || lia).
    rewrite (skipTrees_cons _ o) by lia. lia.
  - intros q' Hq'.
    replace q' with (length X + S (q' - S (length X))) by lia.
    unfold TreePool.nextSiblingPos, TreePool.deepLength.
    rewrite drop_app_add. simpl drop.
    pose proof (inside_subtrees index K (o :: R) (q' - S (length X)) HccK
                  ltac:(lia) Hc Hs ltac:(lia)). lia.
Qed.

End located.

(** ** Replacing a node under its parent *)

Section replaced.

Implicit Types (X Y Tn W : list TreeNode) (st : list TreeNode) (cap : Z)
  (np o n : TreeNode).

Lemma indexOfChildByIdentifier_run (l : list TreeNode) st cap pos n id :
  l !! pos = Some n →
  Node.indexOfChildByIdentifier (Pooled pos) id (TreePool.mk l st cap)
  = Ok (TreePool.childIndexByIdentifier l id (S pos)
          (Z.to_nat (TreeNode.numberOfChildren n)) 0%Z, TreePool.mk l st cap).
Proof.
  intros Hn. unfold Node.indexOfChildByIdentifier.
  by step_with (deref_run (Pooled pos) (TreePool.mk l st cap) n Hn).
Qed.

(** [replaceWith] on a childless child of [np], with a root that lies
    behind it: the call finds the parent and the index of the child and
    goes through [replaceChildAtIndex]; the handle on the parent and the
    copies of the argument made on the way leave no trace. *)
Lemma replaceWith_childless self newChild (index : Z)
    X np (K1 : list TreeNode) o Y n Tn W st cap :
  let l := X ++ np :: K1 ++ o :: Y ++ n :: Tn ++ W in
  NoDup (identifiersOf l) → childCountsOk l →
  TreeNode.identifier o = TreeReference.m_identifier self →
  TreeNode.identifier n = TreeReference.m_identifier newChild →
  (0 ≤ index < TreeNode.numberOfChildren np)%Z →
  TreePool.complete index K1 = true → TreePool.skipTrees index K1 = length K1 →
  TreeNode.numberOfChildren o = 0%Z →
  TreePool.skipTrees 1 (n :: Tn ++ W) = S (length Tn) →
  TreeNode.isAllocationFailure n = false →
  TreePool.parentPos (length (X ++ np :: K1 ++ o :: Y)) l = None →
  (1 ≤ TreeNode.retainCount np)%Z → (0 ≤ TreeNode.identifier np)%Z →
  (1 ≤ TreeNode.retainCount o)%Z → (0 ≤ TreeNode.identifier o)%Z →
  (1 ≤ TreeNode.retainCount n)%Z → (0 ≤ TreeNode.identifier n)%Z →
  TreeReference.byValue newChild (TreeReference.replaceWith self)
    (TreePool.mk l st cap)
  = Ok (tt, TreePool.mk
              (X ++ np :: K1 ++ TreeNode.retain n :: Tn ++ Y ++ W
               ++ if (TreeNode.retainCount o =? 1)%Z then []
                  else [TreeNode.setReferenceCounter
                          (TreeNode.retainCount o - 1) o]) st cap).
Proof.
  intros l HN Hcc Hido Hidn Hindex HcK1 HsK1 Hoc Hspan Hfail Hroot
    Hrcp Hidp Hrco Hidoo Hrcn Hidnn.
  set (P := X ++ np :: K1).
  set (n1 := TreeNode.retain n). set (np1 := TreeNode.retain np).
  set (tail := if (TreeNode.retainCount o =? 1)%Z then []
               else [TreeNode.setReferenceCounter (TreeNode.retainCount o - 1) o]).
  assert (∀ L, identifiersOf L ≡ₚ identifiersOf l → NoDup (identifiersOf L)) as Hsame
    by (intros L HL; by rewrite HL).
  assert (identifiersOf tail `sublist_of` [TreeNode.identifier o]) as Htail.
  { unfold tail. destruct (TreeNode.retainCount o =? 1)%Z; [|done].
    apply sublist_nil_l. }
  assert (identifiersOf (X ++ np :: K1 ++ n :: Tn ++ Y ++ W ++ [o])
          ≡ₚ identifiersOf l) as Hperm by (unfold l; same_identifiers).
  assert (l = (P ++ o :: Y) ++ n :: Tn ++ W) as Hl
    by (unfold l, P; by simplify_list_eq).
  assert (length (X ++ np :: K1 ++ o :: Y) = length (P ++ o :: Y)) as HlenP
    by (unfold P; f_equal; by simplify_list_eq).
  destruct newChild as [idn]. simpl in Hidn.
  unfold TreeReference.byValue, TreeReference.copyConstructor, TreeReference.setTo.
  simpl TreeReference.identifier.
  (* the copy of the argument *)
  assert (l !! length (P ++ o :: Y) = Some n) as Hn
    by (rewrite Hl; by apply list_lookup_middle).
  assert (TreePool.node idn (TreePool.mk l st cap)
          = Some (Pooled (length (P ++ o :: Y)))) as Hnoden
    by (rewrite <- Hidn; by apply node_pooled).
  step_with (setIdentifierAndRetain_run idn (TreePool.mk l st cap) _ n Hnoden Hn).
  simpl TreePool.update. unfold TreePool.withBuffer. simpl.
  rewrite Hl at 1. rewrite alter_at_length.
  set (l1 := X ++ np :: K1 ++ o :: Y ++ n1 :: Tn ++ W).
  replace ((P ++ o :: Y) ++ TreeNode.retain n :: Tn ++ W) with l1
    by (unfold l1, P, n1; by simplify_list_eq).
  assert (NoDup (identifiersOf l1)) as HN1
    by (apply Hsame; unfold l, l1; same_identifiers).
  assert (TreeNode.numberOfChildren <$> l1 = TreeNode.numberOfChildren <$> l) as Hnc1
    by (unfold l, l1; repeat (rewrite ?fmap_app; csimpl); done).
  assert (l1 !! length P = Some o) as Ho1.
  { unfold l1, P. rewrite !app_comm_cons, (assoc_L (++)).
    by apply list_lookup_middle. }
  assert (l1 !! length X = Some np) as Hnp1 by (by apply list_lookup_middle).
  (* the parent *)
  assert (TreePool.parentPos (length P) l1 = Some (length X)) as Hparent.
  { rewrite (parentPos_ext l1 l _ Hnc1).
    by apply (parentPos_child X np K1 o (Y ++ n :: Tn ++ W) index). }
  assert (TreeReference.replaceWith self (TreeReference.mk idn)
            (TreePool.mk l1 st cap)
          = Ok (tt, TreePool.mk
                      (X ++ np :: K1 ++ TreeNode.retain n1 :: Tn ++ Y ++ W ++ tail)
                      st cap)) as Hreplace.
  { unfold TreeReference.replaceWith.
    step_with (parent_child self l1 st cap (length P) o (length X) np
                 HN1 Ho1 Hido Hparent Hnp1).
    unfold l1 at 1. rewrite alter_at_length. fold np1.
    set (l2 := X ++ np1 :: K1 ++ o :: Y ++ n1 :: Tn ++ W).
    assert (NoDup (identifiersOf l2)) as HN2
      by (apply Hsame; unfold l, l2; same_identifiers).
    assert (TreeNode.numberOfChildren <$> l2 = TreeNode.numberOfChildren <$> l)
      as Hnc2 by (unfold l, l2; repeat (rewrite ?fmap_app; csimpl); done).
    assert (childCountsOk l2) as Hcc2.
    { revert Hcc. unfold l, l2, childCountsOk.
      repeat (first [rewrite Forall_app | rewrite Forall_cons]). simpl. tauto. }
    assert (l2 !! length X = Some np1) as Hnp2 by (by apply list_lookup_middle).
    assert (l2 !! length P = Some o) as Ho2.
    { replace (length P) with (length (X ++ np1 :: K1))
        by (unfold P; by rewrite !length_app).
      replace l2 with ((X ++ np1 :: K1) ++ o :: Y ++ n1 :: Tn ++ W)
        by (unfold l2; by simplify_list_eq).
      by apply list_lookup_middle. }
    step_by isDefined_run. simpl TreeReference.m_identifier.
    change (TreeNode.identifier np) with (TreeNode.identifier np1).
    rewrite (node_pooled l2 st cap (length X) np1 HN2 Hnp2).
    destruct (Z.geb_spec (TreeNode.identifier np1) 0); [|simpl in *; lia].
    simpl andb. unfold when. rewrite !bind_assoc.
    step_with (nodeD_pooled (TreeReference.mk (TreeNode.identifier np1)) l2 st cap
                 (length X) np1 HN2 Hnp2 eq_refl).
    (* the index of the child *)
    rewrite !bind_assoc.
    step_with (indexOfChildByIdentifier_run l2 st cap (length X) np1
                 (TreeReference.identifier self) Hnp2).
    assert (TreePool.childPos (length X) (Z.to_nat index) l2 = length P) as Hpo.
    { rewrite (childPos_ext l2 l _ _ Hnc2).
      rewrite childPos_skipTrees by done. rewrite Z2Nat.id by lia.
      unfold l. rewrite drop_S_middle, skipTrees_app by done.
      unfold P. rewrite length_app. simpl. lia. }
    change (S (length X)) with (TreePool.childPos (length X) 0 l2).
    rewrite (childIndexByIdentifier_found l2 _ (length X) (length P) o
               (Z.to_nat index) 0 _ 0 HN2 Ho2 Hido Hpo);
      [|change (TreeNode.numberOfChildren np1) with (TreeNode.numberOfChildren np);
        lia].
    replace (0 + Z.of_nat (Z.to_nat index))%Z with index by lia.
    (* the replacement *)
    assert (TreePool.skipTrees 1 (n1 :: Tn ++ W) = S (length Tn)) as Hspan1
      by (unfold n1; by rewrite (skipTrees_head 1 TreeNode.retain n)).
    assert (TreePool.parentPos (length (X ++ np1 :: K1 ++ o :: Y)) l2 = None)
      as Hroot2.
    { rewrite (parentPos_ext l2 l _ Hnc2).
      replace (length (X ++ np1 :: K1 ++ o :: Y))
        with (length (X ++ np :: K1 ++ o :: Y)); [done|].
      rewrite !length_app. done. }
    pose proof (replaceChildAtIndex_childless
                  (TreeReference.mk (TreeNode.identifier np1))
                  (TreeReference.mk idn) index X np1 K1 o Y n1 Tn W st cap
                  HN2 Hcc2 eq_refl Hidn Hindex HcK1 HsK1 Hoc Hspan1 Hfail Hroot2
                  Hrco Hidoo ltac:(simpl; lia) Hidnn) as Hinner.
    fold tail in Hinner. fold l2 in Hinner.
    step_with Hinner.
    (* the handle on the parent goes *)
    set (l3 := X ++ np1 :: K1 ++ TreeNode.retain n1 :: Tn ++ Y ++ W ++ tail).
    assert (l3 !! length X = Some np1) as Hnp3 by (by apply list_lookup_middle).
    assert (NoDup (identifiersOf l3)) as HN3.
    { eapply sublist_NoDup; [apply Hsame, Hperm|].
      unfold l3, identifiersOf. repeat (rewrite ?fmap_app; csimpl).
      repeat (apply sublist_app || apply sublist_skip); done. }
    rewrite (destructor_run (TreeReference.mk (TreeNode.identifier np1)) _
               (Pooled (length X)) np1);
      [| simpl in *; lia | by apply node_pooled].
    rewrite (release_run (Pooled (length X)) (TreePool.mk l3 st cap) np1 Hnp3);
      [|simpl; lia].
    simpl TreePool.update. unfold TreePool.withBuffer. simpl TreePool.buffer.
    unfold l3. rewrite alter_at_length. unfold np1.
    pose proof (release_after_retain np) as E. simpl in E |- *. by rewrite E. }
  step_with Hreplace.
  (* the copy of the argument goes *)
  set (l4 := X ++ np :: K1 ++ TreeNode.retain n1 :: Tn ++ Y ++ W ++ tail).
  assert (l4 = P ++ TreeNode.retain n1 :: Tn ++ Y ++ W ++ tail) as Hl4
    by (unfold l4, P; by simplify_list_eq).
  assert (l4 !! length P = Some (TreeNode.retain n1)) as Hn4
    by (rewrite Hl4; by apply list_lookup_middle).
  assert (NoDup (identifiersOf l4)) as HN4.
  { eapply sublist_NoDup; [apply Hsame, Hperm|].
    unfold l4, identifiersOf. repeat (rewrite ?fmap_app; csimpl).
    repeat (apply sublist_app || apply sublist_skip); done. }
  rewrite (bind_Ok _ _ _ tt (TreePool.mk (P ++ n1 :: Tn ++ Y ++ W ++ tail) st cap));
    [unfold ret, P, n1; by rewrite <- !(assoc_L (++))|].
  rewrite (destructor_run (TreeReference.mk idn) _ (Pooled (length P))
             (TreeNode.retain n1));
    [| simpl; lia
     | simpl TreeReference.m_identifier; rewrite <- Hidn;
       change (TreeNode.identifier n)
         with (TreeNode.identifier (TreeNode.retain n1));
       by apply node_pooled].
  rewrite (release_run (Pooled (length P)) (TreePool.mk l4 st cap)
             (TreeNode.retain n1) Hn4); [|simpl; lia].
  simpl TreePool.update. unfold TreePool.withBuffer. simpl TreePool.buffer.
  rewrite Hl4, alter_at_length.
  pose proof (release_after_retain n1) as E. simpl in E |- *. by rewrite E.
Qed.

End replaced.

(** X18.  [replaceWith(t)] on a childless node of a well-formed pool that
    is child number [index] of a node [p], for a root [t] that lies behind
    it and is not a failure sentinel: the call runs to the end and leaves
    the pool that [p.replaceChildAtIndex(index, t)] leaves; [t] is then
    child number [index] of [p].  The handle on the parent that
    [replaceWith] makes, and the copies of [t] made for the two calls by
    value, are all released again. *)
Theorem replaceWith_goes_through_parent
    (pool : TreePool) (self p newChild : TreeReference) (pp pn : nat)
    (np o n : TreeNode) (index : Z) :
  wellFormed pool = true →
  TreePool.buffer pool !! pp = Some np →
  TreeNode.identifier np = TreeReference.identifier p →
  (0 ≤ index < TreeNode.numberOfChildren np)%Z →
  TreePool.buffer pool
    !! TreePool.childPos pp (Z.to_nat index) (TreePool.buffer pool) = Some o →
  TreeNode.identifier o = TreeReference.identifier self →
  TreeNode.numberOfChildren o = 0%Z →
  TreePool.buffer pool !! pn = Some n →
  TreeNode.identifier n = TreeReference.identifier newChild →
  TreePool.childPos pp (Z.to_nat index) (TreePool.buffer pool) < pn →
  TreePool.parentPos pn (TreePool.buffer pool) = None →
  TreeNode.isAllocationFailure n = false →
  ∃ pool',
    TreeReference.byValue newChild (TreeReference.replaceWith self) pool
    = Ok (tt, pool')
    ∧ TreeReference.byValue newChild (TreeReference.replaceChildAtIndex p index)
        pool = Ok (tt, pool')
    ∧ eval (child <- TreeReference.treeChildAtIndex p index ;;
            ret (TreeReference.identifier child)) pool'
      = Ok (TreeReference.identifier newChild).
Proof.
  destruct pool as [l st cap]. simpl.
  intros Hwf Hnp Hid Hindex Ho Hido Hoc Hn Hidn Hlt Hroot Hfail.
  destruct (wellFormed_buffer _ _ _ Hwf) as (HN & Hcc & _).
  destruct (wellFormed_inv _ _ _ Hwf) as (Hlive & _ & _ & _ & Hcont & _).
  assert (pp < length l) as Hpp by (by eapply lookup_lt_Some).
  assert (liveRecord np = true ∧ liveRecord o = true ∧ liveRecord n = true)
    as (Hlp & Hlo & Hln).
  { rewrite Forall_forall in Hlive.
    repeat split; apply Hlive; by eapply list_elem_of_lookup_2. }
  apply liveRecord_inv in Hlp as (Hidp & Hrcp & _).
  apply liveRecord_inv in Hlo as (Hidoo & Hrco & _).
  apply liveRecord_inv in Hln as (Hidnn & Hrcn & _).
  (* the layout: the parent, the children before, the child, the root *)
  destruct (children_decompose l pp np index Hcc (contiguous_inv l pp Hcont Hpp)
              Hnp ltac:(lia)) as (K1 & W0 & Hl0 & HcK1 & HsK1 & _).
  assert (∃ X, length X = pp ∧ l = X ++ np :: K1 ++ W0) as (X & HX & HlX).
  { exists (take pp l). split; [rewrite length_take; lia | exact Hl0]. }
  clear Hl0.
  set (po := TreePool.childPos pp (Z.to_nat index) l) in *.
  assert (po = length (X ++ np :: K1)) as Hpo.
  { unfold po. rewrite childPos_skipTrees by done. rewrite Z2Nat.id by lia.
    rewrite HlX, <- HX, drop_S_middle, skipTrees_app by done.
    rewrite HsK1, length_app. simpl. lia. }
  destruct (layout_two l po o pn n Hcc Ho Hn Hlt)
    as (X' & Y & Tn & W & Hl & HX' & HP & _ & Hspan).
  assert (X' = X ++ np :: K1) as ->.
  { rewrite Hl in HlX.
    replace (X ++ np :: K1 ++ W0) with ((X ++ np :: K1) ++ W0)
      in HlX by (by simplify_list_eq).
    apply app_inj_1 in HlX as [? _]; [done | lia]. }
  clear HlX W0.
  assert (l = X ++ np :: K1 ++ o :: Y ++ n :: Tn ++ W) as Hl'
    by (rewrite Hl; by simplify_list_eq).
  clear Hl. subst l.
  set (l := X ++ np :: K1 ++ o :: Y ++ n :: Tn ++ W) in *.
  assert (pn = length (X ++ np :: K1 ++ o :: Y)) as Hpn.
  { rewrite <- HP. f_equal. by simplify_list_eq. }
  rewrite Hpn in Hroot.
  set (tail := if (TreeNode.retainCount o =? 1)%Z then []
               else [TreeNode.setReferenceCounter (TreeNode.retainCount o - 1) o]).
  set (lf := X ++ np :: K1 ++ TreeNode.retain n :: Tn ++ Y ++ W ++ tail).
  exists (TreePool.mk lf st cap). split; [|split].
  - unfold l.
    by apply (replaceWith_childless self newChild index X np K1 o Y n Tn W).
  - unfold l.
    by apply (replaceChildAtIndex_childless p newChild index X np K1 o Y n Tn W).
  - assert (identifiersOf tail `sublist_of` [TreeNode.identifier o]) as Htail.
    { unfold tail. destruct (TreeNode.retainCount o =? 1)%Z; [|done].
      apply sublist_nil_l. }
    assert (identifiersOf (X ++ np :: K1 ++ n :: Tn ++ Y ++ W ++ [o])
            ≡ₚ identifiersOf l) as Hperm by (unfold l; same_identifiers).
    assert (NoDup (identifiersOf lf)) as HNf.
    { apply (sublist_NoDup _
               (identifiersOf (X ++ np :: K1 ++ n :: Tn ++ Y ++ W ++ [o])));
        [by rewrite Hperm|].
      unfold lf, identifiersOf. repeat (rewrite ?fmap_app; csimpl).
      repeat (apply sublist_app || apply sublist_skip); done. }
    assert (childCountsOk lf) as Hccf.
    { revert Hcc. unfold l, lf, tail, childCountsOk.
      repeat (first [rewrite Forall_app | rewrite Forall_cons]).
      destruct (TreeNode.retainCount o =? 1)%Z;
        rewrite ?Forall_cons, Forall_nil; simpl; tauto. }
    rewrite <- Hidn. change (TreeNode.identifier n)
      with (TreeNode.identifier (TreeNode.retain n)).
    by apply (childAt_inserted p index X np K1 (TreeNode.retain n)
                (Tn ++ Y ++ W ++ tail) st cap HNf Hccf Hid Hindex HcK1 HsK1).
Qed.

Lemma replaceWith_goes_through_parent_witness :
  ∃ pool',
    TreeReference.byValue (Sample.handle 3)
      (TreeReference.replaceWith (Sample.handle 1)) Sample.withSentinel
    = Ok (tt, pool')
    ∧ TreeReference.byValue (Sample.handle 3)
        (TreeReference.replaceChildAtIndex (Sample.handle 0) 0)
        Sample.withSentinel = Ok (tt, pool')
    ∧ eval (child <- TreeReference.treeChildAtIndex (Sample.handle 0) 0 ;;
            ret (TreeReference.identifier child)) pool' = Ok 3%Z.
Proof.
  apply (replaceWith_goes_through_parent Sample.withSentinel
           (Sample.handle 1) (Sample.handle 0) (Sample.handle 3) 0 3
           (Sample.inner 0 1 2) (Sample.leaf 1 1) (Sample.leaf 3 1) 0);
    [reflexivity | reflexivity | reflexivity | done | reflexivity | reflexivity
    | reflexivity | reflexivity | reflexivity | vm_compute; lia | reflexivity
    | reflexivity].
Defined.
